(** * shm-agent: the metric-extraction pipeline and its aggregation semantics

    A shallow embedding of the Go packages [parser], [matcher], [aggregator],
    [tailer], [sender] and [agent] of shm-agent, and the properties of the
    pipeline parser -> matcher -> aggregator proved about it; then the
    validation of [config], the identifier of [identity], the reader with a
    cap, and the exchanges of [sender] with the server.

    Conventions.
    - A Go [float64] is a primitive binary64 float ([PrimFloat.float]).
    - A Go [map[string]T] is a [gmap string T]; a map that may be [nil] is an
      [option] of one, because writing into a nil map panics.
    - A function that can panic returns an [option]; [None] is the panic.
    - The mutex of the aggregator makes every call atomic, so a call is a
      function from the state before it to the state after it.
    - The functions of Go's standard library that the agent calls
      ([strings], [strconv], [encoding/json], [regexp]) are not part of the
      repository. They are modelled first, from their documentation, each
      in a module named after its package; the comments there say which
      inputs a model covers. The properties that hold for every state, line
      or configuration never look inside them, but for [strconv]: that
      [FormatFloat] gives the shortest decimal that [ParseFloat] reads back
      is proved from the rounding of [SpecFloat]. *)

From Stdlib Require Import ZArith Floats SpecFloat Ascii.
From Equations Require Import Equations.
From stdpp Require Import gmap strings list fin_maps.

#[local] Set Warnings "-register-all,-clear-no-such-hyp".
#[local] Open Scope Z_scope.

(* ===================================================================== *)
(** * Bytes and the Go standard library                                  *)
(* ===================================================================== *)

(** Bytes, as a Go [string] or [[]byte] holds them. *)
Module bytes.
Definition code (c : ascii) : Z := Z.of_N (N_of_ascii c).
Definition chr (n : Z) : ascii := ascii_of_N (Z.to_N n).
(** The double quote. *)
Definition quote : ascii := chr 34.
(** [l] without its prefix [p], when it has that prefix. *)
Fixpoint trimPrefix (p l : list ascii) : option (list ascii) :=
  match p, l with
  | [], _ => Some l
  | a :: p', b :: l' => if bool_decide (a = b) then trimPrefix p' l' else None
  | _ :: _, [] => None
  end.
Definition isDigit (c : ascii) : bool := (48 <=? code c) && (code c <=? 57).
Definition toLower (c : ascii) : ascii :=
  if (65 <=? code c) && (code c <=? 90) then chr (code c + 32) else c.
Definition digitVal (c : ascii) : Z := code c - 48.
Definition ofString (s : string) : list ascii := String.list_ascii_of_string s.
Definition toString (l : list ascii) : string := String.string_of_list_ascii l.
(** The value of a run of decimal digits, most significant first. *)
Definition decimal (ds : list ascii) : Z :=
  fold_left (λ acc d, 10 * acc + digitVal d) ds 0.
(** The longest prefix of bytes satisfying [p] and what follows it. *)
Fixpoint span (p : ascii → bool) (l : list ascii) : list ascii * list ascii :=
  match l with
  | c :: l' =>
      if p c then let '(a, b) := span p l' in (c :: a, b) else ([], l)
  | [] => ([], [])
  end.
End bytes.

(** Package [strings]: [Split] for a separator of one byte, as the agent
    calls it, and [Contains]. *)
Module strings.
Fixpoint Split (s : string) (sep : ascii) : list string :=
  match s with
  | EmptyString => [EmptyString]
  | String c s' =>
      if bool_decide (c = sep) then EmptyString :: Split s' sep
      else match Split s' sep with
           | h :: t => String c h :: t
           | [] => [String c EmptyString]
           end
  end.
Fixpoint Contains (s substr : string) : bool :=
  String.prefix substr s ||
  match s with
  | EmptyString => false
  | String _ s' => Contains s' substr
  end.
End strings.

(** Package [strconv]. *)
Module strconv.
Import bytes.

Definition FormatBool (b : bool) : string := if b then "true" else "false".

Definition digitChar (d : Z) : ascii :=
  if d <? 10 then chr (48 + d) else chr (87 + d).

(** The digits of [n >= 0] in [base], most significant first, in front of
    [acc]; [fuel] bounds the number of digits. *)
Fixpoint formatBits (fuel : nat) (base n : Z) (acc : string) : string :=
  let acc' := String (digitChar (n mod base)) acc in
  match fuel with
  | O => acc'
  | S fuel' =>
      if n / base =? 0 then acc' else formatBits fuel' base (n / base) acc'
  end.

Definition FormatInt (i : Z) (base : Z) : string :=
  let digits := formatBits (Z.to_nat (Z.log2 (Z.abs i))) base (Z.abs i) "" in
  if i <? 0 then String "-" digits else digits.

Definition Itoa (i : Z) : string := FormatInt i 10.

(** The binary64 float nearest to [m * 10^k] (ties to even), for [m >= 0],
    with the sign [neg]. *)
Definition decimalToFloat (neg : bool) (m k : Z) : spec_float :=
  match m with
  | Z.pos p =>
      if 0 <=? k then
        binary_normalize prec emax
          ((if neg then Z.neg p else Z.pos p) * 10 ^ k) 0 false
      else
        SFdiv prec emax (S754_finite neg p 0)
          (S754_finite false (Z.to_pos (10 ^ (- k))) 0)
  | _ => S754_zero neg
  end.


(** ** [FormatFloat(f, 'f', -1, 64)]

    With precision -1 the result has the fewest digits that [ParseFloat]
    reads back as [f]; of the decimals with that many digits the one
    nearest to [f] is taken. *)

Definition numDigits (n : Z) : Z := Z.of_nat (String.length (Itoa n)).

Definition readsBack (v : float) (m k : Z) : bool :=
  (SF2Prim (decimalToFloat false m k) =? v)%float.

(** [v = D * 10^s] exactly; tries [d], [d+1], ... significant digits. *)
Fixpoint shortestFrom (fuel : nat) (v : float) (D s d : Z) : Z * Z :=
  match fuel with
  | O => (D, s)
  | S fuel' =>
      let q := numDigits D - d in
      if q <=? 0 then (D, s) else
      let lo := D / 10 ^ q in
      let hi := lo + 1 in
      let r := D mod 10 ^ q in
      let lower := (2 * r <? 10 ^ q) || ((2 * r =? 10 ^ q) && Z.even lo) in
      match readsBack v lo (q + s), readsBack v hi (q + s) with
      | true, true => if lower then (lo, q + s) else (hi, q + s)
      | true, false => (lo, q + s)
      | false, true => (hi, q + s)
      | false, false => shortestFrom fuel' v D s (d + 1)
      end
  end.

Fixpoint stripZeros (fuel : nat) (n k : Z) : Z * Z :=
  match fuel with
  | O => (n, k)
  | S fuel' =>
      if (n mod 10 =? 0) && negb (n =? 0) then stripZeros fuel' (n / 10) (k + 1)
      else (n, k)
  end.

(** The shortest digits [n] and exponent [k] with [n * 10^k] reading back
    as the positive finite float of mantissa [m] and exponent [e]. *)
Definition shortest (m : positive) (e : Z) : Z * Z :=
  let v := SF2Prim (S754_finite false m e) in
  let '(D, s) :=
    if 0 <=? e then (Z.pos m * 2 ^ e, 0) else (Z.pos m * 5 ^ (- e), e) in
  let '(n, k) := shortestFrom 17 v D s 1 in
  stripZeros (Z.to_nat (numDigits n)) n k.

Definition zeros (n : Z) : string :=
  String.string_of_list_ascii (replicate (Z.to_nat n) "0"%char).

(** [%f] of [n * 10^k] with as many decimals as the digits need. *)
Definition fmtF (n k : Z) : string :=
  let ds := Itoa n in
  let L := Z.of_nat (String.length ds) in
  if 0 <=? k then ds +:+ zeros k
  else if - k <? L then
    String.substring 0 (Z.to_nat (L + k)) ds +:+ "." +:+
    String.substring (Z.to_nat (L + k)) (Z.to_nat (- k)) ds
  else "0." +:+ zeros (- k - L) +:+ ds.

(** Modelled for the one way the program calls it: [fmt = 'f'],
    [prec = -1], [bitSize = 64]; the three arguments are not inspected. *)
Definition FormatFloat (f : float) (fmt : ascii) (prec bitSize : Z) : string :=
  match Prim2SF f with
  | S754_nan => "NaN"
  | S754_infinity false => "+Inf"
  | S754_infinity true => "-Inf"
  | S754_zero false => "0"
  | S754_zero true => "-0"
  | S754_finite neg m e =>
      let '(n, k) := shortest m e in
      if neg then "-" +:+ fmtF n k else fmtF n k
  end.

(** ** [ParseFloat(s, 64)]

    Decimal literals and the spellings of infinity and NaN; [None] is a
    returned error (bad syntax, or a value out of range). Hexadecimal
    literals and underscores between digits, which Go accepts, are not
    modelled and read as bad syntax. *)

Definition lower (l : list ascii) : string := toString (toLower <$> l).

Definition parseExponent (l : list ascii) : option Z :=
  match l with
  | [] => Some 0
  | c :: l' =>
      if bool_decide (toLower c = "e"%char) then
        let '(neg, ds) :=
          match l' with
          | "-"%char :: ds => (true, ds)
          | "+"%char :: ds => (false, ds)
          | _ => (false, l')
          end in
        match ds with
        | [] => None
        | _ => if forallb isDigit ds
               then Some (if neg then - decimal ds else decimal ds)
               else None
        end
      else None
  end.

Definition parseDecimal (neg : bool) (l : list ascii) : option float :=
  let '(ip, l1) := span isDigit l in
  let '(fp, l2) :=
    match l1 with
    | "."%char :: l1' => span isDigit l1'
    | _ => ([], l1)
    end in
  match ip ++ fp with
  | [] => None
  | ds =>
      e ← parseExponent l2;
      match decimalToFloat neg (decimal ds) (e - Z.of_nat (length fp)) with
      | S754_infinity _ => None
      | r => Some (SF2Prim r)
      end
  end.

Definition ParseFloat (s : string) (bitSize : Z) : option float :=
  let l := ofString s in
  let '(signed, neg, l') :=
    match l with
    | "-"%char :: l' => (true, true, l')
    | "+"%char :: l' => (true, false, l')
    | _ => (false, false, l)
    end in
  let w := lower l' in
  if bool_decide (w = "inf" ∨ w = "infinity") then
    Some (if neg then neg_infinity else infinity)
  else if bool_decide (w = "nan") && negb signed then Some nan
  else parseDecimal neg l'.

End strconv.



(** The values an [interface{}] holds in a parsed record: what
    [encoding/json] stores there ([nil], [string], [float64], [bool],
    [map[string]interface{}], [[]interface{}]) and the two integer types
    that [GetFieldString] and [GetFieldFloat] also accept. *)
Module value.
Inductive Value :=
| VNil
| VString (s : string)
| VFloat64 (f : float)
| VInt (n : Z)
| VInt64 (n : Z)
| VBool (b : bool)
| VMap (m : gmap string Value)
| VSlice (l : list Value).
(** A parsed record, [map[string]interface{}]; [None] is the nil map. *)
Definition Data := option (gmap string Value).
End value.
Export value.

(** Package [encoding/json]: [Unmarshal] into a [map[string]interface{}].
    Invalid UTF-8 in the input is kept as it is (Go replaces it), and the
    bound on the nesting depth is not modelled. *)
Module json.
Import bytes.

Definition isSpace (c : ascii) : bool :=
  bool_decide (code c = 32 ∨ code c = 9 ∨ code c = 13 ∨ code c = 10).

Fixpoint skipSpace (l : list ascii) : list ascii :=
  match l with
  | c :: l' => if isSpace c then skipSpace l' else l
  | [] => []
  end.

Definition hexVal (c : ascii) : option Z :=
  let n := code c in
  if (48 <=? n) && (n <=? 57) then Some (n - 48)
  else if (97 <=? n) && (n <=? 102) then Some (n - 87)
  else if (65 <=? n) && (n <=? 70) then Some (n - 55)
  else None.

(** [getu4]: the code unit of four hexadecimal digits. *)
Definition getu4 (l : list ascii) : option (Z * list ascii) :=
  match l with
  | a :: b :: c :: d :: l' =>
      a ← hexVal a; b ← hexVal b; c ← hexVal c; d ← hexVal d;
      Some (4096 * a + 256 * b + 16 * c + d, l')
  | _ => None
  end.

(** The UTF-8 encoding of a code point. *)
Definition encodeRune (r : Z) : list ascii :=
  if r <? 128 then [chr r]
  else if r <? 2048 then [chr (192 + r / 64); chr (128 + r mod 64)]
  else if r <? 65536 then
    [chr (224 + r / 4096); chr (128 + (r / 64) mod 64); chr (128 + r mod 64)]
  else
    [chr (240 + r / 262144); chr (128 + (r / 4096) mod 64);
     chr (128 + (r / 64) mod 64); chr (128 + r mod 64)].

Definition replacementChar : Z := 65533.

Definition simpleEscape (c : ascii) : option ascii :=
  if bool_decide (c = quote ∨ c = "\"%char ∨ c = "/"%char) then Some c
  else if bool_decide (c = "b"%char) then Some (chr 8)
  else if bool_decide (c = "f"%char) then Some (chr 12)
  else if bool_decide (c = "n"%char) then Some (chr 10)
  else if bool_decide (c = "r"%char) then Some (chr 13)
  else if bool_decide (c = "t"%char) then Some (chr 9)
  else None.

(** The text of a string literal after its opening quote, unquoted, and
    what follows the closing quote; [acc] holds the bytes read so far in
    reverse. Every step consumes a byte, so [fuel] of the length of [l]
    is never used up. *)
Fixpoint stringBody (fuel : nat) (l : list ascii) (acc : list ascii)
    : option (string * list ascii) :=
  match fuel, l with
  | S fuel', c :: l' =>
      if bool_decide (c = quote) then Some (toString (rev acc), l')
      else if bool_decide (c = "\"%char) then
        match l' with
        | e :: l'' =>
            if bool_decide (e = "u"%char) then
              '(r, l3) ← getu4 l'';
              let put (x : Z) (rest : list ascii) :=
                stringBody fuel' rest (rev (encodeRune x) ++ acc) in
              if (55296 <=? r) && (r <? 57344) then
                match l3 with
                | "\"%char :: "u"%char :: l4 =>
                    match getu4 l4 with
                    | Some (r2, l5) =>
                        if (r <? 56320) && (56320 <=? r2) && (r2 <? 57344)
                        then put ((r - 55296) * 1024 + (r2 - 56320) + 65536) l5
                        else put replacementChar l3
                    | None => put replacementChar l3
                    end
                | _ => put replacementChar l3
                end
              else put r l3
            else
              x ← simpleEscape e; stringBody fuel' l'' (x :: acc)
        | [] => None
        end
      else if code c <? 32 then None
      else stringBody fuel' l' (c :: acc)
  | _, _ => None
  end.

(** The longest prefix of [l] that is a number literal: an optional
    minus sign, an integer part without a leading zero (unless it is 0
    alone), an optional fraction, an optional exponent. *)
Definition scanNumber (l : list ascii) : option (list ascii * list ascii) :=
  let '(sign, l0) :=
    match l with
    | "-"%char :: l' => (["-"%char], l')
    | _ => ([], l)
    end in
  let '(ip, l1) := span isDigit l0 in
  match ip with
  | [] => None
  | d :: ip' =>
      if bool_decide (d = "0"%char) && negb (bool_decide (ip' = [])) then None
      else
        fr ← match l1 with
             | "."%char :: l1' =>
                 let '(fp, l2) := span isDigit l1' in
                 match fp with
                 | [] => None
                 | _ => Some ("."%char :: fp, l2)
                 end
             | _ => Some ([], l1)
             end;
        ex ← match fr.2 with
             | e :: l2' =>
                 if bool_decide (toLower e = "e"%char) then
                   let '(sg, l3) :=
                     match l2' with
                     | s :: l3 =>
                         if bool_decide (s = "+"%char ∨ s = "-"%char)
                         then ([s], l3) else ([], l2')
                     | [] => ([], l2')
                     end in
                   let '(ep, l4) := span isDigit l3 in
                   match ep with
                   | [] => None
                   | _ => Some (e :: sg ++ ep, l4)
                   end
                 else Some ([], fr.2)
             | [] => Some ([], fr.2)
             end;
        Some (sign ++ ip ++ fr.1 ++ ex.1, ex.2)
  end.

(** One JSON value at the head of [l] (after white space) as the decoder
    stores it in an [interface{}], and the rest of the input. Every call
    is made after at least one more byte has been consumed, so [fuel] of
    one more than the length of the input is never used up. *)
Fixpoint value (fuel : nat) (l : list ascii) : option (Value * list ascii) :=
  match fuel with
  | O => None
  | S fuel' =>
      match skipSpace l with
      | c :: l1 =>
          if bool_decide (c = "{"%char) then
            match skipSpace l1 with
            | "}"%char :: l2 => Some (VMap ∅, l2)
            | l2 => members fuel' ∅ l2
            end
          else if bool_decide (c = "["%char) then
            match skipSpace l1 with
            | "]"%char :: l2 => Some (VSlice [], l2)
            | l2 => elements fuel' [] l2
            end
          else if bool_decide (c = quote) then
            '(s, l2) ← stringBody (length l1) l1 []; Some (VString s, l2)
          else if bool_decide (c = "t"%char) then
            l2 ← trimPrefix (ofString "rue") l1; Some (VBool true, l2)
          else if bool_decide (c = "f"%char) then
            l2 ← trimPrefix (ofString "alse") l1; Some (VBool false, l2)
          else if bool_decide (c = "n"%char) then
            l2 ← trimPrefix (ofString "ull") l1; Some (VNil, l2)
          else
            '(lit, l2) ← scanNumber (c :: l1);
            f ← strconv.ParseFloat (toString lit) 64;
            Some (VFloat64 f, l2)
      | [] => None
      end
  end
with members (fuel : nat) (acc : gmap string Value) (l : list ascii)
    : option (Value * list ascii) :=
  match fuel with
  | O => None
  | S fuel' =>
      match l with
      | c :: l1 =>
          if negb (bool_decide (c = quote)) then None else
          '(k, l2) ← stringBody (length l1) l1 [];
          match skipSpace l2 with
          | ":"%char :: l3 =>
              '(v, l4) ← value fuel' l3;
              match skipSpace l4 with
              | ","%char :: l5 => members fuel' (<[k := v]> acc) (skipSpace l5)
              | "}"%char :: l5 => Some (VMap (<[k := v]> acc), l5)
              | _ => None
              end
          | _ => None
          end
      | [] => None
      end
  end
with elements (fuel : nat) (acc : list Value) (l : list ascii)
    : option (Value * list ascii) :=
  match fuel with
  | O => None
  | S fuel' =>
      '(v, l1) ← value fuel' l;
      match skipSpace l1 with
      | ","%char :: l2 => elements fuel' (acc ++ [v]) l2
      | "]"%char :: l2 => Some (VSlice (acc ++ [v]), l2)
      | _ => None
      end
  end.

(** [Unmarshal(data, &m)] for [var m map[string]interface{}]: [None] is a
    returned error, [Some m] the map afterwards, still nil when the
    document is [null]. *)
Definition Unmarshal (data : string) : option Data :=
  let l := ofString data in
  '(v, rest) ← value (S (length l)) l;
  match skipSpace rest, v with
  | [], VMap m => Some (Some m)
  | [], VNil => Some None
  | _, _ => None
  end.
End json.


(** Package [regexp], over bytes, for the part of the syntax described
    at [Compile]. *)
Module regexp.
Import bytes.

(** Sets of bytes. *)
Inductive CharSet :=
| Range (lo hi : ascii)
| Union (a b : CharSet)
| Compl (a : CharSet).

Fixpoint inSet (cs : CharSet) (c : ascii) : bool :=
  match cs with
  | Range lo hi => (code lo <=? code c) && (code c <=? code hi)
  | Union a b => inSet a c || inSet b c
  | Compl a => negb (inSet a c)
  end.

Definition single (c : ascii) : CharSet := Range c c.
Definition none : CharSet := Compl (Range (chr 0) (chr 255)).
Definition digit : CharSet := Range "0" "9".
Definition word : CharSet :=
  Union (Range "0" "9")
    (Union (Range "A" "Z") (Union (Range "a" "z") (single "_"))).
Definition space : CharSet :=
  Union (Range (chr 9) (chr 10)) (Union (Range (chr 12) (chr 13)) (single " ")).

(** The syntax tree of a pattern. *)
Inductive Node :=
| Empty
| Set_ (cs : CharSet)
| Bol
| Eol
| Cat (a b : Node)
| Alt (a b : Node)
| Star (a : Node)
| Group (idx : nat) (a : Node).

Record Regexp := mkRegexp {
  expr : string;
  prog : Node;
  SubexpNames : list string
}.

(** *** Matching: leftmost, preferring the first alternative and the
    longer repetition; [pos] is the offset of [s] in the text and [caps]
    the offsets of the groups closed so far. *)
Definition Caps := gmap nat (nat * nat).

Fixpoint run (r : Node) (pos : nat) (s : list ascii) (caps : Caps)
    (k : nat → list ascii → Caps → option Caps) : option Caps :=
  match r with
  | Empty => k pos s caps
  | Set_ cs =>
      match s with
      | c :: s' => if inSet cs c then k (S pos) s' caps else None
      | [] => None
      end
  | Bol => if bool_decide (pos = O) then k pos s caps else None
  | Eol => match s with [] => k pos s caps | _ => None end
  | Cat a b => run a pos s caps (λ pos' s' caps', run b pos' s' caps' k)
  | Alt a b =>
      match run a pos s caps k with
      | Some c => Some c
      | None => run b pos s caps k
      end
  | Star a =>
      (fix star (n : nat) (pos : nat) (s : list ascii) (caps : Caps)
         : option Caps :=
         match n with
         | O => k pos s caps
         | S n' =>
             match run a pos s caps
                     (λ pos' s' caps',
                        if bool_decide (pos < pos')%nat
                        then star n' pos' s' caps' else None) with
             | Some c => Some c
             | None => k pos s caps
             end
         end) (length s) pos s caps
  | Group i a =>
      run a pos s caps (λ pos' s' caps', k pos' s' (<[i := (pos, pos')]> caps'))
  end.

(** The first offset from [pos] on at which the pattern matches. *)
Fixpoint search (r : Node) (pos : nat) (s : list ascii) : option Caps :=
  match run r pos s ∅ (λ pos' _ caps, Some (<[O := (pos, pos')]> caps)) with
  | Some c => Some c
  | None =>
      match s with
      | _ :: s' => search r (S pos) s'
      | [] => None
      end
  end.

Definition FindStringSubmatch (re : Regexp) (s : string)
    : option (list string) :=
  caps ← search (prog re) O (ofString s);
  Some ((λ i, match caps !! i with
              | Some (b, e) => String.substring b (e - b) s
              | None => EmptyString
              end) <$> seq 0 (length (SubexpNames re))).

Definition MatchString (re : Regexp) (s : string) : bool :=
  bool_decide (is_Some (search (prog re) O (ofString s))).

(** *** Parsing a pattern. *)

Fixpoint power (a : Node) (n : nat) : Node :=
  match n with
  | O => Empty
  | S n' => Cat a (power a n')
  end.

Fixpoint optional (a : Node) (n : nat) : Node :=
  match n with
  | O => Empty
  | S n' => Alt (Cat a (optional a n')) Empty
  end.

(** [{n}], [{n,}] or [{n,m}] after the opening brace; without one of
    these forms the brace is a literal. *)
Definition parseRepeat (l : list ascii)
    : option (nat * option nat * list ascii) :=
  let '(ds, l1) := span isDigit l in
  match ds, l1 with
  | _ :: _, "}"%char :: l2 =>
      Some (Z.to_nat (decimal ds), Some (Z.to_nat (decimal ds)), l2)
  | _ :: _, ","%char :: l2 =>
      let '(es, l3) := span isDigit l2 in
      match es, l3 with
      | [], "}"%char :: l4 => Some (Z.to_nat (decimal ds), None, l4)
      | _ :: _, "}"%char :: l4 =>
          Some (Z.to_nat (decimal ds), Some (Z.to_nat (decimal es)), l4)
      | _, _ => None
      end
  | _, _ => None
  end.

(** A backslash escape that names a set of bytes. *)
Definition escape (c : ascii) : option CharSet :=
  if bool_decide (c = "d"%char) then Some digit
  else if bool_decide (c = "D"%char) then Some (Compl digit)
  else if bool_decide (c = "w"%char) then Some word
  else if bool_decide (c = "W"%char) then Some (Compl word)
  else if bool_decide (c = "s"%char) then Some space
  else if bool_decide (c = "S"%char) then Some (Compl space)
  else if bool_decide (c = "n"%char) then Some (single (chr 10))
  else if bool_decide (c = "t"%char) then Some (single (chr 9))
  else if bool_decide (c = "r"%char) then Some (single (chr 13))
  else if bool_decide (c = "f"%char) then Some (single (chr 12))
  else if bool_decide (c = "v"%char) then Some (single (chr 11))
  else if bool_decide (c = "a"%char) then Some (single (chr 7))
  else if inSet word c || (127 <? code c) then None
  else Some (single c).

(** The items of a bracket expression up to its closing bracket;
    [first] tells that a closing bracket here stands for itself. *)
Fixpoint parseClass (fuel : nat) (first : bool) (acc : CharSet)
    (l : list ascii) : option (CharSet * list ascii) :=
  match fuel, l with
  | S fuel', c :: l1 =>
      if bool_decide (c = "]"%char) && negb first then Some (acc, l1)
      else if bool_decide (c = "["%char) && bool_decide (head l1 = Some ":"%char)
      then None
      else
        '(lo, l2) ←
          (if bool_decide (c = "\"%char) then
             match l1 with
             | e :: l2 => cs ← escape e; Some (cs, l2)
             | [] => None
             end
           else Some (single c, l1));
        match lo, l2 with
        | Range a b, "-"%char :: h :: l3 =>
            if bool_decide (a = b) && negb (bool_decide (h = "]"%char)) then
              '(hi, l4) ←
                (if bool_decide (h = "\"%char) then
                   match l3 with
                   | e :: l4 => cs ← escape e; Some (cs, l4)
                   | [] => None
                   end
                 else Some (single h, l3));
              match hi with
              | Range x y =>
                  if bool_decide (x = y) && (code a <=? code x)
                  then parseClass fuel' false (Union acc (Range a x)) l4
                  else None
              | _ => None
              end
            else parseClass fuel' false (Union acc lo) l2
        | _, _ => parseClass fuel' false (Union acc lo) l2
        end
  | _, _ => None
  end.

(** The name of a group up to the closing angle bracket. *)
Definition parseName (l : list ascii) : option (string * list ascii) :=
  let '(n, l1) := span (inSet word) l in
  match n, l1 with
  | _ :: _, ">"%char :: l2 => Some (toString n, l2)
  | _, _ => None
  end.

(** The parser state: the names of the groups opened so far, in order. *)
Definition Names := list string.

Definition isRepeatOp (l : list ascii) : bool :=
  match l with
  | c :: l' =>
      bool_decide (c = "*"%char ∨ c = "+"%char ∨ c = "?"%char)
      || (bool_decide (c = "{"%char) && bool_decide (is_Some (parseRepeat l')))
  | [] => false
  end.

(** A postfix operator applied to [a], if one follows. *)
Definition parsePostfix (a : Node) (l : list ascii)
    : option (Node * list ascii) :=
  let once (r : Node) (l' : list ascii) :=
    if isRepeatOp l' then None else Some (r, l') in
  match l with
  | c :: l1 =>
      if bool_decide (c = "*"%char) then once (Star a) l1
      else if bool_decide (c = "+"%char) then once (Cat a (Star a)) l1
      else if bool_decide (c = "?"%char) then once (Alt a Empty) l1
      else if bool_decide (c = "{"%char) then
        match parseRepeat l1 with
        | Some (n, Some m, l2) =>
            if bool_decide (n ≤ m)%nat && bool_decide (m ≤ 1000)%nat
            then once (Cat (power a n) (optional a (m - n))) l2 else None
        | Some (n, None, l2) =>
            if bool_decide (n ≤ 1000)%nat
            then once (Cat (power a n) (Star a)) l2 else None
        | None => Some (a, l)
        end
      else Some (a, l)
  | [] => Some (a, l)
  end.

(** Alternatives up to a closing parenthesis or the end of the pattern:
    [cur] is the concatenation read so far in the current alternative.
    Every call follows the consumption of a byte, so [fuel] of one more
    than the length of the pattern is never used up. *)
Fixpoint parseAlt (fuel : nat) (names : Names) (cur : Node)
    (l : list ascii) : option (Node * Names * list ascii) :=
  match fuel with
  | O => None
  | S fuel' =>
      let atom (a : Node) (names' : Names) (l' : list ascii) :=
        '(r, l'') ← parsePostfix a l';
        parseAlt fuel' names' (Cat cur r) l'' in
      match l with
      | [] => Some (cur, names, [])
      | c :: l1 =>
          if bool_decide (c = ")"%char) then Some (cur, names, l)
          else if bool_decide (c = "|"%char) then
            '(r, names', l2) ← parseAlt fuel' names Empty l1;
            Some (Alt cur r, names', l2)
          else if bool_decide (c = "("%char) then
            '(capture, name, l2) ←
              match l1 with
              | "?"%char :: ":"%char :: l2 => Some (false, EmptyString, l2)
              | "?"%char :: "P"%char :: "<"%char :: l2 =>
                  '(n, l3) ← parseName l2; Some (true, n, l3)
              | "?"%char :: "<"%char :: l2 =>
                  '(n, l3) ← parseName l2; Some (true, n, l3)
              | "?"%char :: _ => None
              | _ => Some (true, EmptyString, l1)
              end;
            let idx := length names in
            let names1 := if capture : bool then names ++ [name] else names in
            '(r, names2, l3) ← parseAlt fuel' names1 Empty l2;
            match l3 with
            | ")"%char :: l4 =>
                atom (if capture then Group idx r else r) names2 l4
            | _ => None
            end
          else if bool_decide (c = "["%char) then
            '(neg, l2) ← Some (match l1 with
                               | "^"%char :: l2 => (true, l2)
                               | _ => (false, l1)
                               end);
            '(cs, l3) ← parseClass (length l2) true none l2;
            atom (Set_ (if neg : bool then Compl cs else cs)) names l3
          else if bool_decide (c = "\"%char) then
            match l1 with
            | e :: l2 => cs ← escape e; atom (Set_ cs) names l2
            | [] => None
            end
          else if bool_decide (c = "."%char) then
            atom (Set_ (Compl (single (chr 10)))) names l1
          else if bool_decide (c = "^"%char) then atom Bol names l1
          else if bool_decide (c = "$"%char) then atom Eol names l1
          else if isRepeatOp l then None
          else atom (Set_ (single c)) names l1
      end
  end.

(** [Compile]: [None] is a returned error. Modelled for patterns over
    bytes made of literals, [.], [^], [$], bracket expressions, the
    escapes of [escape], groups (plain, named, non-capturing), [|] and the
    greedy [*], [+], [?], [{n}], [{n,}], [{n,m}], a count over 1000 or
    [n > m] being an error as in Go; any other pattern is refused here,
    also those that Go accepts: the non-greedy operators, the flags such
    as [(?i)], [\b] and the other escapes. *)
Definition Compile (pattern : string) : option Regexp :=
  let l := ofString pattern in
  '(r, names, rest) ← parseAlt (S (length l)) [EmptyString] Empty l;
  match rest with
  | [] => Some (mkRegexp pattern r names)
  | _ => None
  end.
End regexp.


(* ===================================================================== *)
(** * Package parser (agent/parser)                                      *)
(* ===================================================================== *)

Module parser.

(** [type Parser interface { Parse(line string) map[string]interface{} }];
    a nil result means that the line cannot be parsed. *)
Record Parser := mkParser {
  Parse : string → Data
}.

(** [JSONParser.Parse]. *)
Definition JSONParser_Parse (line : string) : Data :=
  match json.Unmarshal line with
  | None => None
  | Some data => data
  end.

Definition NewJSONParser : Parser := mkParser JSONParser_Parse.

(** The loop of [GetField] over the parts of the path, from [current]. *)
Fixpoint getFieldFrom (parts : list string) (current : Value) : option Value :=
  match parts with
  | [] => Some current
  | part :: parts' =>
      match current with
      | VMap v =>
          match v !! part with
          | Some val => getFieldFrom parts' val
          | None => None
          end
      | _ => None
      end
  end.

(** [GetField]; [None] is the result [(nil, false)]. *)
Definition GetField (data : Data) (field : string) : option Value :=
  match data with
  | None => None
  | Some m => getFieldFrom (strings.Split field "."%char) (VMap m)
  end.

(** [GetFieldString]; [None] is the result [("", false)]. *)
Definition GetFieldString (data : Data) (field : string) : option string :=
  match GetField data field with
  | None => None
  | Some val =>
      match val with
      | VString v => Some v
      | VFloat64 v => Some (strconv.FormatFloat v "f"%char (-1) 64)
      | VInt v => Some (strconv.Itoa v)
      | VInt64 v => Some (strconv.FormatInt v 10)
      | VBool v => Some (strconv.FormatBool v)
      | _ => None
      end
  end.

(** The conversion [float64(v)] of an integer: the nearest float. *)
Definition float64 (v : Z) : float :=
  SF2Prim (binary_normalize prec emax v 0 false).

(** [GetFieldFloat]; [None] is the result [(0, false)]. *)
Definition GetFieldFloat (data : Data) (field : string) : option float :=
  match GetField data field with
  | None => None
  | Some val =>
      match val with
      | VFloat64 v => Some v
      | VInt v => Some (float64 v)
      | VInt64 v => Some (float64 v)
      | VString v => strconv.ParseFloat v 64
      | _ => None
      end
  end.

(** [RegexParser.Parse] for the compiled pattern [re] and its
    [groupNames]. *)
Definition RegexParser_Parse (re : regexp.Regexp) (groupNames : list string)
    (line : string) : Data :=
  match regexp.FindStringSubmatch re line with
  | None => None
  | Some matches =>
      let result :=
        fold_left
          (λ (result : gmap string Value) '(i, name),
             match matches !! i with
             | Some text =>
                 if bool_decide (name ≠ EmptyString)
                 then <[name := VString text]> result else result
             | None => result
             end)
          (imap pair groupNames) ∅ in
      if bool_decide (size result = O) then None else Some result
  end.

Definition NewRegexParser (pattern : string) : option Parser :=
  re ← regexp.Compile pattern;
  Some (mkParser (RegexParser_Parse re (regexp.SubexpNames re))).

(** [New]; [None] is a returned error. *)
Definition New (format pattern : string) : option Parser :=
  if bool_decide (format = "json") then Some NewJSONParser
  else if bool_decide (format = "regex") then NewRegexParser pattern
  else None.

End parser.

(* ===================================================================== *)
(** * Package config (agent/config/config.go): the configuration tree    *)
(* ===================================================================== *)

Module config.

Record Match := mkMatch {
  Match_Field : string;
  Match_Equals : string;
  Match_In : list string;
  Match_Regex : string;
  Match_Contains : string
}.

Record Extract := mkExtract {
  Extract_Field : string
}.

Record Metric := mkMetric {
  Metric_Name : string;
  Metric_Type : string;
  Metric_Match : option Match;
  Metric_Extract : option Extract
}.

Record Source := mkSource {
  Source_Path : string;
  Source_Format : string;
  Source_Pattern : string;
  Source_Metrics : list Metric
}.

Record Config := mkConfig {
  ServerURL : string;
  IdentityFile : string;
  AppName : string;
  AppVersion : string;
  Environment : string;
  Interval : Z;
  Sources : list Source
}.


(** Go's [error] values as the validation makes them: a message, a message
    in front of a wrapped cause ([%w]), and the error of [regexp.Compile]
    for a pattern. *)
Inductive error :=
| Errorf (msg : string)
| Wrap (msg : string) (err : error)
| CompileError (pattern : string).

(** [time.Second], in the nanoseconds of a [time.Duration]. *)
Definition Second : Z := 1000000000.

(** [setDefaults]; the error it returns is always nil. *)
Definition setDefaults (c : Config) : Config :=
  mkConfig (ServerURL c)
    (if bool_decide (IdentityFile c = EmptyString)
     then "./shm_identity.json" else IdentityFile c)
    (AppName c) (AppVersion c)
    (if bool_decide (Environment c = EmptyString)
     then "production" else Environment c)
    (if bool_decide (Interval c = 0) then 60 * Second else Interval c)
    (Sources c).

(** The number of conditions a match sets. *)
Definition conditions (m : Match) : Z :=
  (if bool_decide (Match_Equals m ≠ EmptyString) then 1 else 0) +
  (if bool_decide (0 < length (Match_In m))%nat then 1 else 0) +
  (if bool_decide (Match_Regex m ≠ EmptyString) then 1 else 0) +
  (if bool_decide (Match_Contains m ≠ EmptyString) then 1 else 0).

(** [Match.Validate]; [None] is nil. *)
Definition Match_Validate (m : Match) : option error :=
  if bool_decide (Match_Field m = EmptyString)
  then Some (Errorf "field is required")
  else if bool_decide (conditions m = 0) then
    Some (Errorf
      "at least one condition (equals, in, regex, contains) is required")
  else if bool_decide (1 < conditions m) then
    Some (Errorf
      "only one condition (equals, in, regex, contains) is allowed")
  else if bool_decide (Match_Regex m ≠ EmptyString) then
    match regexp.Compile (Match_Regex m) with
    | None => Some (Wrap "invalid regex: " (CompileError (Match_Regex m)))
    | Some _ => None
    end
  else None.

(** The map [validTypes] of [Metric.Validate]. *)
Definition validTypes (t : string) : bool :=
  bool_decide (t = "counter" ∨ t = "gauge" ∨ t = "sum" ∨ t = "set").

(** [Metric.Validate]. *)
Definition Metric_Validate (m : Metric) : option error :=
  if bool_decide (Metric_Name m = EmptyString)
  then Some (Errorf "name is required")
  else if negb (validTypes (Metric_Type m)) then
    Some (Errorf
      ("type must be one of: counter, gauge, sum, set; got '"
       +:+ Metric_Type m +:+ "'"))
  else if bool_decide (Metric_Type m = "sum" ∨ Metric_Type m = "gauge" ∨
                       Metric_Type m = "set")
          && bool_decide (Metric_Extract m = None)
  then
    Some (Errorf ("extract is required for type '" +:+ Metric_Type m +:+ "'"))
  else
    match Metric_Match m with
    | Some mt =>
        match Match_Validate mt with
        | Some err => Some (Wrap "match: " err)
        | None => None
        end
    | None => None
    end.

(** The loop of [Source.Validate] over [s.Metrics], from index [i]. *)
Fixpoint validateMetrics (i : Z) (ms : list Metric) : option error :=
  match ms with
  | [] => None
  | m :: ms' =>
      match Metric_Validate m with
      | Some err => Some (Wrap ("metric[" +:+ strconv.Itoa i +:+ "]: ") err)
      | None => validateMetrics (i + 1) ms'
      end
  end.

(** [Source.Validate]. *)
Definition Source_Validate (s : Source) : option error :=
  if bool_decide (Source_Path s = EmptyString)
  then Some (Errorf "path is required")
  else if bool_decide (Source_Format s = EmptyString)
  then Some (Errorf "format is required")
  else if bool_decide (Source_Format s ≠ "json")
          && bool_decide (Source_Format s ≠ "regex")
  then
    Some (Errorf ("format must be 'json' or 'regex', got '"
                  +:+ Source_Format s +:+ "'"))
  else if bool_decide (Source_Format s = "regex")
          && bool_decide (Source_Pattern s = EmptyString)
  then Some (Errorf "pattern is required for regex format")
  else
    match
      (if bool_decide (Source_Format s = "regex") then
         match regexp.Compile (Source_Pattern s) with
         | None =>
             Some (Wrap "invalid regex pattern: "
                     (CompileError (Source_Pattern s)))
         | Some _ => None
         end
       else None)
    with
    | Some err => Some err
    | None =>
        if bool_decide (length (Source_Metrics s) = O)
        then Some (Errorf "at least one metric is required")
        else validateMetrics 0 (Source_Metrics s)
    end.

(** The loop of [Config.Validate] over [c.Sources], from index [i]. *)
Fixpoint validateSources (i : Z) (srcs : list Source) : option error :=
  match srcs with
  | [] => None
  | s :: srcs' =>
      match Source_Validate s with
      | Some err => Some (Wrap ("source[" +:+ strconv.Itoa i +:+ "]: ") err)
      | None => validateSources (i + 1) srcs'
      end
  end.

(** [Config.Validate]. *)
Definition Validate (c : Config) : option error :=
  if bool_decide (ServerURL c = EmptyString)
  then Some (Errorf "server_url is required")
  else if bool_decide (AppName c = EmptyString)
  then Some (Errorf "app_name is required")
  else if bool_decide (AppVersion c = EmptyString)
  then Some (Errorf "app_version is required")
  else if bool_decide (Interval c < Second)
  then Some (Errorf "interval must be at least 1 second")
  else if bool_decide (length (Sources c) = O)
  then Some (Errorf "at least one source is required")
  else validateSources 0 (Sources c).

End config.

(* ===================================================================== *)
(** * Package matcher (agent/matcher/matcher.go)                         *)
(* ===================================================================== *)

Module matcher.

Record Matcher := mkMatcher {
  field : string;
  equals : string;
  in_ : option (gset string);
  regex : option regexp.Regexp;
  contains : string;
  always : bool
}.

(** [New]; [None] is a returned error. *)
Definition New (match_ : option config.Match) : option Matcher :=
  match match_ with
  | None => Some (mkMatcher "" "" None None "" true)
  | Some mt =>
      let set :=
        if bool_decide (0 < length (config.Match_In mt))%nat
        then Some (list_to_set (config.Match_In mt)) else None in
      if bool_decide (config.Match_Regex mt ≠ EmptyString) then
        re ← regexp.Compile (config.Match_Regex mt);
        Some (mkMatcher (config.Match_Field mt) (config.Match_Equals mt) set
                (Some re) (config.Match_Contains mt) false)
      else
        Some (mkMatcher (config.Match_Field mt) (config.Match_Equals mt) set
                None (config.Match_Contains mt) false)
  end.

Definition Match (m : Matcher) (data : Data) : bool :=
  if always m then true
  else
    match data with
    | None => false
    | Some _ =>
        match parser.GetFieldString data (field m) with
        | None => false
        | Some val =>
            if bool_decide (equals m ≠ EmptyString)
            then bool_decide (val = equals m)
            else
              match in_ m with
              | Some set => bool_decide (val ∈ set)
              | None =>
                  match regex m with
                  | Some re => regexp.MatchString re val
                  | None =>
                      if bool_decide (contains m ≠ EmptyString)
                      then strings.Contains val (contains m)
                      else false
                  end
              end
        end
    end.

End matcher.

(* ===================================================================== *)
(** * Package aggregator (agent/aggregator/aggregator.go)                *)
(* ===================================================================== *)

Module aggregator.

(** [type MetricType string] and its four constants. *)
Definition MetricType := string.
Definition Counter : MetricType := "counter".
Definition Gauge : MetricType := "gauge".
Definition Sum : MetricType := "sum".
Definition Set_ : MetricType := "set".

(** [struct MetricValue]: [mvSet] is [nil] unless made by [Register],
    [Snapshot] or [Reset]. *)
Record MetricValue := mkMetricValue {
  mvType : MetricType;
  mvValue : float;
  mvSet : option (gset string)
}.

(** [struct Aggregator]; the registry maps a name to its own cell. *)
Record Aggregator := mkAggregator {
  metrics : gmap string MetricValue
}.

(** The dynamic values stored in the [map[string]interface{}] that
    [Snapshot] and [Peek] return: a [float64] or an [int]. *)
Inductive Any :=
| Float64 (f : float)
| Int (n : Z).

(** [len(m.Set)]; the length of a nil map is 0. *)
Definition len (s : option (gset string)) : Z :=
  match s with
  | Some s => Z.of_nat (size s)
  | None => 0
  end.

Definition New : Aggregator := mkAggregator ∅.

Definition Register (name : string) (metricType : MetricType)
    (a : Aggregator) : Aggregator :=
  match metrics a !! name with
  | Some _ => a
  | None =>
      let set := if bool_decide (metricType = Set_) then Some ∅ else None in
      mkAggregator
        (<[name := mkMetricValue metricType 0%float set]> (metrics a))
  end.

Definition Inc (name : string) (a : Aggregator) : Aggregator :=
  match metrics a !! name with
  | Some m =>
      if bool_decide (mvType m = Counter) then
        mkAggregator
          (<[name := mkMetricValue (mvType m) (mvValue m + 1)%float (mvSet m)]>
             (metrics a))
      else a
  | None => a
  end.

Definition SetGauge (name : string) (value : float)
    (a : Aggregator) : Aggregator :=
  match metrics a !! name with
  | Some m =>
      if bool_decide (mvType m = Gauge) then
        mkAggregator
          (<[name := mkMetricValue (mvType m) value (mvSet m)]> (metrics a))
      else a
  | None => a
  end.

Definition Add (name : string) (value : float)
    (a : Aggregator) : Aggregator :=
  match metrics a !! name with
  | Some m =>
      if bool_decide (mvType m = Sum) then
        mkAggregator
          (<[name := mkMetricValue (mvType m) (mvValue m + value)%float
                       (mvSet m)]>
             (metrics a))
      else a
  | None => a
  end.

(** [m.Set[value] = struct{}{}] panics when [m.Set] is nil. *)
Definition AddToSet (name : string) (value : string)
    (a : Aggregator) : option Aggregator :=
  match metrics a !! name with
  | Some m =>
      if bool_decide (mvType m = Set_) then
        match mvSet m with
        | Some s =>
            Some (mkAggregator
              (<[name := mkMetricValue (mvType m) (mvValue m)
                           (Some ({[value]} ∪ s))]>
                 (metrics a)))
        | None => None
        end
      else Some a
  | None => Some a
  end.

(** One iteration of the loop of [Snapshot]: what is stored in [result]
    under the metric's name (nothing when no case of the switch applies)
    and the cell after the iteration. *)
Definition snapshotEntry (m : MetricValue) : option Any * MetricValue :=
  if bool_decide (mvType m = Counter) then
    (Some (Float64 (mvValue m)), mkMetricValue (mvType m) 0%float (mvSet m))
  else if bool_decide (mvType m = Gauge) then
    (Some (Float64 (mvValue m)), m)
  else if bool_decide (mvType m = Sum) then
    (Some (Float64 (mvValue m)), mkMetricValue (mvType m) 0%float (mvSet m))
  else if bool_decide (mvType m = Set_) then
    (Some (Int (len (mvSet m))),
     mkMetricValue (mvType m) (mvValue m) (Some ∅))
  else (None, m).

(** Every iteration reads and writes the cell of its own name only, so the
    loop over the map is a map over its entries. *)
Definition Snapshot (a : Aggregator) : gmap string Any * Aggregator :=
  (omap (λ m, fst (snapshotEntry m)) (metrics a),
   mkAggregator ((λ m, snd (snapshotEntry m)) <$> metrics a)).

Definition peekEntry (m : MetricValue) : option Any :=
  if bool_decide (mvType m = Counter ∨ mvType m = Gauge ∨ mvType m = Sum) then
    Some (Float64 (mvValue m))
  else if bool_decide (mvType m = Set_) then
    Some (Int (len (mvSet m)))
  else None.

Definition Peek (a : Aggregator) : gmap string Any :=
  omap peekEntry (metrics a).

Definition resetEntry (m : MetricValue) : MetricValue :=
  mkMetricValue (mvType m) 0%float
    (if bool_decide (mvType m = Set_) then Some ∅ else mvSet m).

Definition Reset (a : Aggregator) : Aggregator :=
  mkAggregator (resetEntry <$> metrics a).

Definition GetMetricType (name : string) (a : Aggregator)
    : MetricType * bool :=
  match metrics a !! name with
  | Some m => (mvType m, true)
  | None => ("", false)
  end.

End aggregator.

(* ===================================================================== *)
(** * Package agent (agent/agent.go): the source processor               *)
(* ===================================================================== *)

Module agent.

(** [atomic.Int64.Add]: addition of 64-bit signed integers wraps around. *)
Definition int64 (z : Z) : Z := (z + 2 ^ 63) mod 2 ^ 64 - 2 ^ 63.

Record metricProcessor := mkMetricProcessor {
  cfg : config.Metric;
  matcher : matcher.Matcher
}.

(** [struct sourceProcessor]. Its [aggregator] field points to the one
    aggregator all processors share; that shared state is passed to and
    returned by [processLine]. The logger and the verbosity only decide
    what is logged. *)
Record sourceProcessor := mkSourceProcessor {
  source : config.Source;
  parser : parser.Parser;
  metrics : list metricProcessor;
  linesParsed : Z;
  linesMatched : Z;
  parseErrors : Z
}.

(** The loop of [newSourceProcessor] over [src.Metrics]. *)
Fixpoint newMetricProcessors (ms : list config.Metric)
    (metrics : list metricProcessor) (agg : aggregator.Aggregator)
    : option (list metricProcessor * aggregator.Aggregator) :=
  match ms with
  | [] => Some (metrics, agg)
  | m :: ms' =>
      let agg :=
        aggregator.Register (config.Metric_Name m) (config.Metric_Type m)
          agg in
      match_ ← matcher.New (config.Metric_Match m);
      newMetricProcessors ms' (metrics ++ [mkMetricProcessor m match_]) agg
  end.

(** [newSourceProcessor]; [None] is a returned error. *)
Definition newSourceProcessor (src : config.Source)
    (agg : aggregator.Aggregator)
    : option (sourceProcessor * aggregator.Aggregator) :=
  p ← parser.New (config.Source_Format src) (config.Source_Pattern src);
  '(metrics, agg) ← newMetricProcessors (config.Source_Metrics src) [] agg;
  Some (mkSourceProcessor src p metrics 0 0 0, agg).

(** One iteration of the loop of [processLine] over [p.metrics], on the
    counter [linesMatched] and the shared aggregator. *)
Definition processMetric (data : Data) (m : metricProcessor)
    (st : Z * aggregator.Aggregator) : option (Z * aggregator.Aggregator) :=
  let '(linesMatched, agg) := st in
  if negb (matcher.Match (matcher m) data) then Some (linesMatched, agg)
  else
    let linesMatched := int64 (linesMatched + 1) in
    let name := config.Metric_Name (cfg m) in
    let type := config.Metric_Type (cfg m) in
    if bool_decide (type = "counter") then
      Some (linesMatched, aggregator.Inc name agg)
    else if bool_decide (type = "gauge") then
      match config.Metric_Extract (cfg m) with
      | Some ex =>
          match parser.GetFieldFloat data (config.Extract_Field ex) with
          | Some val => Some (linesMatched, aggregator.SetGauge name val agg)
          | None => Some (linesMatched, agg)
          end
      | None => Some (linesMatched, agg)
      end
    else if bool_decide (type = "sum") then
      match config.Metric_Extract (cfg m) with
      | Some ex =>
          match parser.GetFieldFloat data (config.Extract_Field ex) with
          | Some val => Some (linesMatched, aggregator.Add name val agg)
          | None => Some (linesMatched, agg)
          end
      | None => Some (linesMatched, agg)
      end
    else if bool_decide (type = "set") then
      match config.Metric_Extract (cfg m) with
      | Some ex =>
          match parser.GetFieldString data (config.Extract_Field ex) with
          | Some val =>
              agg ← aggregator.AddToSet name val agg; Some (linesMatched, agg)
          | None => Some (linesMatched, agg)
          end
      | None => Some (linesMatched, agg)
      end
    else Some (linesMatched, agg).

Fixpoint processMetrics (data : Data) (ms : list metricProcessor)
    (st : Z * aggregator.Aggregator) : option (Z * aggregator.Aggregator) :=
  match ms with
  | [] => Some st
  | m :: ms' => st ← processMetric data m st; processMetrics data ms' st
  end.

(** [processLine]; [None] is a panic. *)
Definition processLine (p : sourceProcessor) (line : string)
    (agg : aggregator.Aggregator)
    : option (sourceProcessor * aggregator.Aggregator) :=
  match parser.Parse (parser p) line with
  | None =>
      Some (mkSourceProcessor (source p) (parser p) (metrics p)
              (linesParsed p) (linesMatched p) (int64 (parseErrors p + 1)),
            agg)
  | Some data =>
      '(matched, agg) ←
        processMetrics (Some data) (metrics p) (linesMatched p, agg);
      Some (mkSourceProcessor (source p) (parser p) (metrics p)
              (int64 (linesParsed p + 1)) matched (parseErrors p),
            agg)
  end.

Record Options := mkOptions {
  Config : config.Config;
  DryRun : bool;
  Verbosity : Z
}.

(** [struct Agent], without the sender, the tailers and the clock. *)
Record Agent := mkAgent {
  agent_cfg : config.Config;
  aggregator : aggregator.Aggregator;
  processors : list sourceProcessor;
  dryRun : bool;
  verbosity : Z
}.

(** The loop of [New] over [opts.Config.Sources]. *)
Fixpoint newProcessors (srcs : list config.Source)
    (processors : list sourceProcessor) (agg : aggregator.Aggregator)
    : option (list sourceProcessor * aggregator.Aggregator) :=
  match srcs with
  | [] => Some (processors, agg)
  | src :: srcs' =>
      '(proc, agg) ← newSourceProcessor src agg;
      newProcessors srcs' (processors ++ [proc]) agg
  end.

(** [New]; [None] is a returned error. *)
Definition New (opts : Options) : option Agent :=
  '(processors, agg) ←
    newProcessors (config.Sources (Config opts)) [] aggregator.New;
  Some (mkAgent (Config opts) agg processors (DryRun opts) (Verbosity opts)).

Definition GetAggregator (a : Agent) : aggregator.Aggregator := aggregator a.

(** [ProcessLine]; [None] is a panic. *)
Definition ProcessLine (a : Agent) (sourceIndex : Z) (line : string)
    : option Agent :=
  if (0 <=? sourceIndex) && (sourceIndex <? Z.of_nat (length (processors a)))
  then
    match processors a !! Z.to_nat sourceIndex with
    | Some p =>
        '(p, agg) ← processLine p line (aggregator a);
        Some (mkAgent (agent_cfg a) agg
                (<[Z.to_nat sourceIndex := p]> (processors a))
                (dryRun a) (verbosity a))
    | None => Some a
    end
  else Some a.

(** [ProcessLine] for each pair of a source index and a line, in order. *)
Fixpoint ProcessLines (a : Agent) (lines : list (Z * string)) : option Agent :=
  match lines with
  | [] => Some a
  | (i, line) :: lines' => a ← ProcessLine a i line; ProcessLines a lines'
  end.

End agent.

(* ===================================================================== *)
(** * Package tailer (agent/tailer/tailer.go): the line scanner          *)
(* ===================================================================== *)

Module tailer.
Import bytes.

(** Go's [error] values as the scanner meets and makes them. *)
Inductive error :=
| EOF
| IOError (msg : string)
| Errorf (msg : string)
| Wrap (msg : string) (err : error).

(** An [io.Reader] read one byte at a time: the outcomes of the successive
    calls [Read(b)] with [len(b) = 1], each the byte read (when [n > 0]) and
    the error returned; after them [Read] returns [0, io.EOF]. *)
Definition Reader := list (option ascii * option error).

(** The reader of a byte sequence, as [os.File] or [strings.Reader]. *)
Definition bytesReader (data : list ascii) : Reader :=
  (λ c, (Some c, None)) <$> data.

Record LineScanner := mkLineScanner {
  buf : list ascii;
  reader : Reader;
  line : string;
  err : option error
}.

Definition NewLineScanner (r : Reader) : LineScanner :=
  mkLineScanner [] r EmptyString None.

Definition newline : ascii := chr 10.

(** The loop of [Scan], with [s.buf] in [buf] and [s.line] still empty;
    [err0] is [s.err] on entry. *)
Fixpoint scanLoop (r : Reader) (buf : list ascii) (err0 : option error)
    : bool * LineScanner :=
  match r with
  | [] =>
      if bool_decide (0 < Z.of_nat (length buf))
      then (true, mkLineScanner buf [] (toString buf) err0)
      else (false, mkLineScanner buf [] EmptyString err0)
  | (b, err) :: r' =>
      let after (buf : list ascii) : bool * LineScanner :=
        match err with
        | Some EOF =>
            if bool_decide (0 < Z.of_nat (length buf))
            then (true, mkLineScanner buf r' (toString buf) err0)
            else (false, mkLineScanner buf r' EmptyString err0)
        | Some e => (false, mkLineScanner buf r' EmptyString (Some e))
        | None => scanLoop r' buf err0
        end in
      match b with
      | Some c =>
          if bool_decide (c = newline)
          then (true, mkLineScanner buf r' (toString buf) err0)
          else
            let buf := buf ++ [c] in
            if bool_decide (1024 * 1024 < Z.of_nat (length buf))
            then (false, mkLineScanner buf r' EmptyString
                           (Some (Errorf "line too long")))
            else after buf
      | None => after buf
      end
  end.

Definition Scan (s : LineScanner) : bool * LineScanner :=
  scanLoop (reader s) [] (err s).

Definition Text (s : LineScanner) : string := line s.
Definition Err (s : LineScanner) : option error := err s.

(** A value together with the equation that names it. *)
Definition inspect {A : Type} (a : A) : {b : A | a = b} := exist _ a eq_refl.

(** The loop of [ProcessReader] from a scanner [s] with [count] lines
    handled so far; the effect of [handler] is a change of a state [h].
    [count] stays below the number of reads, far from the bounds of [int]. *)
Equations? processLoop {H : Type} (handler : string → H → H) (limit : Z)
    (s : LineScanner) (count : Z) (h : H) : Z * LineScanner * H
    by wf (length (reader s)) lt :=
  processLoop handler limit s count h with inspect (Scan s) := {
    | exist _ (true, s') Hscan =>
        if (0 <? limit) && (limit <=? count) then (count, s', h)
        else processLoop handler limit s' (count + 1) (handler (Text s') h);
    | exist _ (false, s') Hscan => (count, s', h) }.
Proof.
  clear processLoop. unfold Scan in Hscan.
  assert (Hle : ∀ r b e ok t, scanLoop r b e = (ok, t) →
                 (length (reader t) ≤ length r)%nat).
  { clear. induction r as [|[o oe] r IH]; intros b e ok t Hr; simpl in Hr.
    - case_bool_decide; inversion Hr; simpl; lia.
    - destruct o as [c|], oe as [[| | |]|];
        repeat case_bool_decide;
        try (inversion Hr; simpl; lia); apply IH in Hr; simpl; lia. }
  destruct (reader s) as [|[o oe] r] eqn:Er; simpl in Hscan.
  - repeat case_bool_decide; first [discriminate | simpl in *; lia].
  - simpl. enough (length (reader s') ≤ length r)%nat by lia.
    destruct o as [c|], oe as [[| | |]|];
      repeat case_bool_decide;
      try (inversion Hscan; simpl; lia); by apply Hle in Hscan.
Qed.

(** [ProcessReader]: the count, the error and the state left by the calls
    of [handler]. *)
Definition ProcessReader {H : Type} (r : Reader) (handler : string → H → H)
    (limit : Z) (h : H) : Z * option error * H :=
  let scanner := NewLineScanner r in
  let '(count, scanner, h) := processLoop handler limit scanner 0 h in
  match Err scanner with
  | Some err => (count, Some (Wrap "reading: " err), h)
  | None => (count, None, h)
  end.

End tailer.

(* ===================================================================== *)
(** * Package sender (agent/sender/sender.go): deployment mode           *)
(* ===================================================================== *)

Module sender.

(** [var lookupEnv], as the package initialises it. *)
Definition lookupEnv (key : string) : string * bool := (EmptyString, false).

Definition fileExists (path : string) : bool := false.

Definition isInContainer (_ : unit) : bool := false.

(** [detectDeploymentMode], reading the package variable [lookupEnv] whose
    current value is [lookupEnv_]. *)
Definition detectDeploymentMode (lookupEnv_ : string → string * bool)
    : string :=
  if snd (lookupEnv_ "KUBERNETES_SERVICE_HOST") then "kubernetes"
  else if fileExists "/.dockerenv" then "docker"
  else if isInContainer () then "container"
  else "standalone".

(** ** The exchanges with the server: [Register], [activate] and
    [SendSnapshot] *)

Import tailer.

(** What [s.client.Do] returns: its error, or the status code and the body
    of the response. *)
Inductive Outcome :=
| Fails (err : error)
| Status (code : Z) (body : string).

(** A request as the server tells it from the others: the URL it is
    posted to and whether it carries an [X-Signature]. *)
Record Request := mkRequest {
  URL : string;
  Signed : bool
}.

(** [struct Sender]: the fields that decide what is sent when. The
    identity, the application and the environment fill the bodies of the
    requests; the identity holds a private key of the size that
    [ed25519.Sign] asks for. *)
Record Sender := mkSender {
  serverURL : string;
  registered : bool
}.

Definition New (ServerURL : string) : Sender := mkSender ServerURL false.

Section exchanges.

(** The world of the sender: the error of [http.NewRequestWithContext] for
    a URL, nil for most; the outcome of [s.client.Do] for a request, given
    the requests made before it; and [json.Marshal] of the metrics. The
    other values marshalled are structs and maps of strings, for which
    [json.Marshal] returns no error. *)
Context (NewRequest : string → option error)
        (Do : list Request → Request → Outcome)
        (Marshal : gmap string aggregator.Any → error + string).

(** [activate], on the sender and the requests made so far. *)
Definition activate (s : Sender) (sent : list Request)
    : option error * Sender * list Request :=
  match NewRequest (serverURL s +:+ "/v1/activate") with
  | Some err => (Some (Wrap "creating activate request: " err), s, sent)
  | None =>
      let req := mkRequest (serverURL s +:+ "/v1/activate") true in
      match Do sent req with
      | Fails err =>
          (Some (Wrap "sending activate request: " err), s, sent ++ [req])
      | Status code body =>
          if bool_decide (code ≠ 200) then
            (Some (Errorf ("activate failed with status " +:+ strconv.Itoa code
                           +:+ ": " +:+ body)), s, sent ++ [req])
          else (None, s, sent ++ [req])
      end
  end.

(** [Register]. *)
Definition Register (s : Sender) (sent : list Request)
    : option error * Sender * list Request :=
  if registered s then (None, s, sent)
  else
    match NewRequest (serverURL s +:+ "/v1/register") with
    | Some err => (Some (Wrap "creating register request: " err), s, sent)
    | None =>
        let req := mkRequest (serverURL s +:+ "/v1/register") false in
        match Do sent req with
        | Fails err =>
            (Some (Wrap "sending register request: " err), s, sent ++ [req])
        | Status code body =>
            if bool_decide (code ≠ 200) && bool_decide (code ≠ 201) then
              (Some (Errorf ("register failed with status "
                             +:+ strconv.Itoa code +:+ ": " +:+ body)),
               s, sent ++ [req])
            else
              let s := mkSender (serverURL s) true in
              activate s (sent ++ [req])
        end
    end.

(** [SendSnapshot]. *)
Definition SendSnapshot (s : Sender) (metrics : gmap string aggregator.Any)
    (sent : list Request) : option error * Sender * list Request :=
  let '(err, s, sent) :=
    if negb (registered s) then Register s sent else (None, s, sent) in
  match err with
  | Some err => (Some (Wrap "registering: " err), s, sent)
  | None =>
      match Marshal metrics with
      | inl err => (Some (Wrap "marshaling metrics: " err), s, sent)
      | inr _ =>
          match NewRequest (serverURL s +:+ "/v1/snapshot") with
          | Some err =>
              (Some (Wrap "creating snapshot request: " err), s, sent)
          | None =>
              let req := mkRequest (serverURL s +:+ "/v1/snapshot") true in
              match Do sent req with
              | Fails err =>
                  (Some (Wrap "sending snapshot request: " err), s,
                   sent ++ [req])
              | Status code body =>
                  if bool_decide (code ≠ 200) && bool_decide (code ≠ 202) then
                    (Some (Errorf ("snapshot failed with status "
                                   +:+ strconv.Itoa code +:+ ": " +:+ body)),
                     s, sent ++ [req])
                  else (None, s, sent ++ [req])
              end
          end
      end
  end.

End exchanges.

End sender.

(* ===================================================================== *)
(** * Package identity (agent/identity/identity.go): the instance id     *)
(* ===================================================================== *)

Module identity.
Import bytes.

(** [%x] of one byte: two lower-case hexadecimal digits. *)
Definition hexByte (b : ascii) : string :=
  String (strconv.digitChar (code b / 16))
    (String (strconv.digitChar (code b mod 16)) EmptyString).

(** [%x] of a byte slice. The widths of the format of [generateUUID] are
    those of its slices, so nothing is padded. *)
Fixpoint hex (bs : list ascii) : string :=
  match bs with
  | [] => EmptyString
  | b :: bs' => hexByte b +:+ hex bs'
  end.

(** [uuid[i]] and [uuid[i:j]] of a slice. *)
Definition at_ (uuid : list ascii) (i : nat) : ascii :=
  default (chr 0) (uuid !! i).
Definition slice (uuid : list ascii) (i j : nat) : list ascii :=
  take (j - i) (drop i uuid).

(** [generateUUID]; [random] is what [rand.Read] does to the 16 bytes of
    [uuid]: [None] when it returns an error, the bytes otherwise. *)
Definition generateUUID (random : option (list ascii)) : option string :=
  match random with
  | None => None
  | Some uuid =>
      let uuid := <[6%nat := chr (Z.lor (Z.land (code (at_ uuid 6)) 15) 64)]> uuid in
      let uuid := <[8%nat := chr (Z.lor (Z.land (code (at_ uuid 8)) 63) 128)]> uuid in
      Some (hex (slice uuid 0 4) +:+ "-" +:+ hex (slice uuid 4 6) +:+ "-" +:+
            hex (slice uuid 6 8) +:+ "-" +:+ hex (slice uuid 8 10) +:+ "-" +:+
            hex (slice uuid 10 16))
  end.

End identity.

(* ===================================================================== *)
(** * Reading a whole file and publishing (agent.go, tailer.go)          *)
(* ===================================================================== *)

Module batch.

(** [tailer.ProcessFile]; [file] is what [os.Open] returns: its error,
    or the file to read. *)
Definition tailer_ProcessFile {H : Type} (file : tailer.error + tailer.Reader)
    (handler : string → H → H) (limit : Z) (h : H)
    : Z * option tailer.error * H :=
  match file with
  | inl err => (0, Some (tailer.Wrap "opening file: " err), h)
  | inr r => tailer.ProcessReader r handler limit h
  end.

(** The method value [proc.processLine] as a line handler, on the
    processor and the shared aggregator; [None] is the state after a
    panic. *)
Definition lineHandler (line : string)
    (st : option (agent.sourceProcessor * aggregator.Aggregator))
    : option (agent.sourceProcessor * aggregator.Aggregator) :=
  '(p, agg) ← st; agent.processLine p line agg.

(** [Agent.ProcessFile]: the count, the error, and the agent afterwards
    ([None] after a panic). *)
Definition agent_ProcessFile (a : agent.Agent)
    (file : tailer.error + tailer.Reader)
    : Z * option tailer.error * option agent.Agent :=
  match agent.processors a with
  | [] => (0, Some (tailer.Errorf "no processors configured"), Some a)
  | proc :: procs =>
      let '(count, err, st) :=
        tailer_ProcessFile file lineHandler 0
          (Some (proc, agent.aggregator a)) in
      (count, err,
       '(proc, agg) ← st;
       Some (agent.mkAgent (agent.agent_cfg a) agg (proc :: procs)
               (agent.dryRun a) (agent.verbosity a)))
  end.

(** [Agent.sendSnapshot]; [send] is the outcome of
    [a.sender.SendSnapshot] on the metrics, when there is a sender.
    Printing leaves no trace in the state. *)
Definition sendSnapshot (a : agent.Agent)
    (send : option (gmap string aggregator.Any → option tailer.error))
    : option tailer.error * agent.Agent :=
  let '(metrics, agg) := aggregator.Snapshot (agent.aggregator a) in
  let a := agent.mkAgent (agent.agent_cfg a) agg (agent.processors a)
             (agent.dryRun a) (agent.verbosity a) in
  if agent.dryRun a then (None, a)
  else
    match send with
    | Some send => (send metrics, a)
    | None => (None, a)
    end.

(** [Agent.dumpMetrics]: what is printed. *)
Definition dumpMetrics (a : agent.Agent) : gmap string aggregator.Any :=
  aggregator.Peek (agent.aggregator a).

End batch.

(* ===================================================================== *)
(** * Vocabulary of the properties and the states of the scenarios      *)
(* ===================================================================== *)

Module AggregatorSpec.
Import aggregator.

(** The four types for which [Snapshot] and [Peek] have a case. *)
Definition knownType (t : MetricType) : Prop :=
  t = Counter ∨ t = Gauge ∨ t = Sum ∨ t = Set_.

(** A registry with one metric of each type, each holding something. *)
Definition sample : Aggregator :=
  mkAggregator
    (<["c" := mkMetricValue Counter 3 None]>
       (<["g" := mkMetricValue Gauge 20 None]>
          (<["s" := mkMetricValue Sum 7 None]>
             (<["u" := mkMetricValue Set_ 0 (Some {["a"; "b"]})]>
                (<["h" := mkMetricValue "histogram" 5 None]> ∅))))).

(** The name is unregistered, or registered with a type other than [t]. *)
Definition notOfType (a : Aggregator) (name : string) (t : MetricType)
    : Prop :=
  metrics a !! name = None ∨
  ∃ m, metrics a !! name = Some m ∧ mvType m ≠ t.

End AggregatorSpec.

Module PipelineSpec.
Import bytes aggregator.

(** A JSON line written with apostrophes for its double quotes. *)
Fixpoint dq (s : string) : string :=
  match s with
  | EmptyString => EmptyString
  | String c s' =>
      String (if bool_decide (c = "'"%char) then quote else c) (dq s')
  end.

(** Scenario S1: one JSON source with the counter [requests], matching
    [event == request], and the sum [total_bytes] of the field [bytes],
    which has no match condition. *)
Definition S1_config : config.Config :=
  config.mkConfig "https://example.com" "./shm_identity.json" "test-app"
    "1.0.0" "test" 60
    [config.mkSource "/var/log/test.log" "json" ""
       [config.mkMetric "requests" "counter"
          (Some (config.mkMatch "event" "request" [] "" "")) None;
        config.mkMetric "total_bytes" "sum" None
          (Some (config.mkExtract "bytes"))]].

Definition S1_lines : list (Z * string) :=
  [(0, dq "{'event':'request','bytes':100}");
   (0, dq "{'event':'request','bytes':200}");
   (0, dq "{'event':'other','bytes':999}")].

(** The matchers of scenario S5 on the field [status]. *)
Definition S5_equals : config.Match := config.mkMatch "status" "500" [] "" "".
Definition S5_regex : config.Match :=
  config.mkMatch "status" "" [] "^5\d{2}$" "".
Definition S5_line : string := dq "{'status':500}".

(** The kinds of value that [GetFieldString] does not turn into a string. *)
Definition otherKind (v : Value) : Prop :=
  match v with
  | VNil | VMap _ | VSlice _ => True
  | _ => False
  end.

Definition FormatFloat_f (v : float) : string :=
  strconv.FormatFloat v "f" (-1) 64.

(** A processor of JSON lines with the counter of scenario S6. *)
Definition S6_processor : agent.sourceProcessor :=
  agent.mkSourceProcessor
    (config.mkSource "/var/log/test.log" "json" ""
       [config.mkMetric "n" "counter" None None])
    parser.NewJSONParser
    [agent.mkMetricProcessor (config.mkMetric "n" "counter" None None)
       (matcher.mkMatcher "" "" None None "" true)]
    0 0 0.

(** Every cell of type set holds a made map: the state in which
    [AddToSet] cannot panic. *)
Definition wf (a : Aggregator) : Prop :=
  ∀ name m, metrics a !! name = Some m → mvType m = Set_ →
    is_Some (mvSet m).




(** The metrics of all sources, in the order of their registration. *)
Definition allMetrics (c : config.Config) : list config.Metric :=
  mjoin (config.Source_Metrics <$> config.Sources c).




(** The relation between a metric and the rule built for it. *)
Definition ruleOf (M : config.Metric) (mp : agent.metricProcessor) : Prop :=
  agent.cfg mp = M ∧
  matcher.New (config.Metric_Match M) = Some (agent.matcher mp).

(** A processor as [newSourceProcessor] builds it for a source. *)
Definition builtFrom (src : config.Source) (p : agent.sourceProcessor)
    : Prop :=
  parser.New (config.Source_Format src) (config.Source_Pattern src)
  = Some (agent.parser p) ∧
  Forall2 ruleOf (config.Source_Metrics src) (agent.metrics p).

(** The registrations [New] makes, in order. *)
Definition registerAll (ms : list config.Metric) (a : Aggregator)
    : Aggregator :=
  fold_left (λ a M, Register (config.Metric_Name M) (config.Metric_Type M) a)
    ms a.





End PipelineSpec.

Module TailerSpec.
Import bytes tailer.

(** The longest line [Scan] accepts: 1 MiB. *)
Definition maxLine : Z := 1048576.

(** A line as the scanner can deliver it: no newline in it, at most
    [maxLine] bytes. *)
Definition okLine (l : list ascii) : Prop :=
  (newline ∉ l) ∧ Z.of_nat (length l) ≤ maxLine.

(** The bytes of a file made of the given lines, each ended by a newline. *)
Fixpoint unlines (ls : list (list ascii)) : list ascii :=
  match ls with
  | [] => []
  | l :: ls' => l ++ newline :: unlines ls'
  end.

(** The state after the handler was called on each line in order. *)
Definition handled {H : Type} (handler : string → H → H)
    (ls : list (list ascii)) (h : H) : H :=
  fold_left (λ h l, handler (toString l) h) ls h.

Definition tooLong : error := Errorf "line too long".

(** A handler that keeps the lines it is given, in order. *)
Definition collect (line : string) (seen : list string) : list string :=
  seen ++ [line].

(** A run of [n] bytes [x], none of them a newline. *)
Definition longLine (n : Z) : list ascii := replicate (Z.to_nat n) "x"%char.

End TailerSpec.

Module SenderSpec.

(** What the probes are meant to look at on the machine. *)
Record Host := mkHost {
  environ : gmap string string;
  files : gset string;
  cgroupContainer : bool
}.

(** [os.LookupEnv] on a host. *)
Definition LookupEnv (h : Host) (key : string) : string * bool :=
  match environ h !! key with
  | Some v => (v, true)
  | None => (EmptyString, false)
  end.

(** The deployment mode in the words of the specification: Kubernetes
    when the service-host variable is present, otherwise Docker when the
    marker file exists, otherwise a container when the cgroup says so,
    otherwise standalone. *)
Definition specifiedMode (h : Host) : string :=
  if bool_decide (is_Some (environ h !! "KUBERNETES_SERVICE_HOST"))
  then "kubernetes"
  else if bool_decide ("/.dockerenv" ∈ files h) then "docker"
  else if cgroupContainer h then "container"
  else "standalone".

(** A Docker container: no Kubernetes variable, the marker file is there. *)
Definition dockerHost : Host := mkHost ∅ {[ "/.dockerenv" ]} false.

End SenderSpec.

Module AggregatorCalls.
Import aggregator.

(** One call of the interface that can change the registry. *)
Inductive call : Aggregator → Aggregator → Prop :=
| call_Register name t a : call a (Register name t a)
| call_Inc name a : call a (Inc name a)
| call_SetGauge name v a : call a (SetGauge name v a)
| call_Add name v a : call a (Add name v a)
| call_AddToSet name s a a' : AddToSet name s a = Some a' → call a a'
| call_Snapshot a : call a (Snapshot a).2
| call_Reset a : call a (Reset a).

(** The registries that calls of the interface build from [New]. *)
Definition reachable (a : Aggregator) : Prop := rtc call New a.

(** [AddToSet] of each value of a list in turn. *)
Fixpoint addAll (name : string) (values : list string) (a : Aggregator)
    : option Aggregator :=
  match values with
  | [] => Some a
  | v :: values' => a ← AddToSet name v a; addAll name values' a
  end.

(** What [Peek] shows for a metric of the given type that holds nothing. *)
Definition zeroOf (t : MetricType) : option Any :=
  peekEntry (mkMetricValue t 0 (Some ∅)).

End AggregatorCalls.

Module ConfigSpec.
Import bytes aggregator.

(** A match that [Match.Validate] accepts: a field, exactly one
    condition, and a regular expression that compiles if it is the one. *)
Definition validMatch (m : config.Match) : Prop :=
  config.Match_Field m ≠ EmptyString ∧
  config.conditions m = 1 ∧
  (config.Match_Regex m ≠ EmptyString →
   is_Some (regexp.Compile (config.Match_Regex m))).

(** A metric that [Metric.Validate] accepts. *)
Definition validMetric (M : config.Metric) : Prop :=
  config.Metric_Name M ≠ EmptyString ∧
  (config.Metric_Type M = "counter" ∨ config.Metric_Type M = "gauge" ∨
   config.Metric_Type M = "sum" ∨ config.Metric_Type M = "set") ∧
  (config.Metric_Type M ≠ "counter" → is_Some (config.Metric_Extract M)) ∧
  (∀ m, config.Metric_Match M = Some m → validMatch m).

(** A source that [Source.Validate] accepts. *)
Definition validSource (s : config.Source) : Prop :=
  config.Source_Path s ≠ EmptyString ∧
  (config.Source_Format s = "json" ∨
   config.Source_Format s = "regex" ∧
   config.Source_Pattern s ≠ EmptyString ∧
   is_Some (regexp.Compile (config.Source_Pattern s))) ∧
  config.Source_Metrics s ≠ [] ∧
  Forall validMetric (config.Source_Metrics s).

(** A configuration that [Config.Validate] accepts. *)
Definition validConfig (c : config.Config) : Prop :=
  config.ServerURL c ≠ EmptyString ∧
  config.AppName c ≠ EmptyString ∧
  config.AppVersion c ≠ EmptyString ∧
  config.Second ≤ config.Interval c ∧
  config.Sources c ≠ [] ∧
  Forall validSource (config.Sources c).

(** The condition of a match on the string of its field, in the order in
    which [Match] tries the conditions. *)
Definition conditionHolds (m : config.Match) (val : string) : bool :=
  if bool_decide (config.Match_Equals m ≠ EmptyString)
  then bool_decide (val = config.Match_Equals m)
  else if bool_decide (config.Match_In m ≠ [])
  then bool_decide (val ∈ config.Match_In m)
  else if bool_decide (config.Match_Regex m ≠ EmptyString) then
    match regexp.Compile (config.Match_Regex m) with
    | Some re => regexp.MatchString re val
    | None => false
    end
  else if bool_decide (config.Match_Contains m ≠ EmptyString)
  then strings.Contains val (config.Match_Contains m)
  else false.

(** The prefix that names the source or the metric of index [i] in an
    error of the validation. *)
Definition indexed (what : string) (i : nat) : string :=
  what +:+ "[" +:+ strconv.Itoa (Z.of_nat i) +:+ "]: ".
(** The first metric of the list that has the name. *)
Definition firstNamed (name : string) (ms : list config.Metric)
    : option config.Metric :=
  head (filter (λ M, config.Metric_Name M = name) ms).

(** A configuration of two sources, the second of which reads its lines by
    a regular expression. *)
Definition sampleConfig : config.Config :=
  config.mkConfig "https://shm.example.com" "" "shop" "1.4.2" ""
    (30 * config.Second)
    [config.mkSource "/var/log/shop/app.log" "json" ""
       [config.mkMetric "orders" "counter"
          (Some (config.mkMatch "event" "order" [] "" "")) None;
        config.mkMetric "revenue" "sum"
          (Some (config.mkMatch "event" "order" [] "" ""))
          (Some (config.mkExtract "amount"));
        config.mkMetric "customers" "set" None
          (Some (config.mkExtract "user.id"))];
     config.mkSource "/var/log/shop/access.log" "regex"
       "(?P<method>[A-Z]+) (?P<status>[0-9]+)"
       [config.mkMetric "errors" "counter"
          (Some (config.mkMatch "status" "" [] "^5" "")) None]].

End ConfigSpec.

Module ParserSpec.
Import bytes value.

(** A key that holds no dot. *)
Definition dotFree (key : string) : Prop :=
  "."%char ∉ String.list_ascii_of_string key.

End ParserSpec.

Module NumericSpec.
Import bytes value aggregator.

(** The cell of [name] has the type [t] and holds the number [v]. *)
Definition isNumCell (a : Aggregator) (name : string) (t : MetricType)
    (v : float) : Prop :=
  ∃ s, metrics a !! name = Some (mkMetricValue t v s).

(** What a record does to the number [v] of a metric when it matches. *)
Definition recordUpdate (M : config.Metric) (data : Data) (v : float)
    : float :=
  if bool_decide (config.Metric_Type M = "counter") then (v + 1)%float
  else
    match config.Metric_Extract M with
    | Some ex =>
        match parser.GetFieldFloat data (config.Extract_Field ex) with
        | Some x =>
            if bool_decide (config.Metric_Type M = "gauge") then x
            else if bool_decide (config.Metric_Type M = "sum")
            then (v + x)%float else v
        | None => v
        end
    | None => v
    end.

(** What one metric rule does to the number of the cell [name] of type
    [t] for a record. *)
Definition ruleUpdate (name : string) (t : MetricType) (data : Data)
    (m : agent.metricProcessor) (v : float) : float :=
  if bool_decide (config.Metric_Name (agent.cfg m) = name ∧
                  config.Metric_Type (agent.cfg m) = t)
     && matcher.Match (agent.matcher m) data
  then recordUpdate (agent.cfg m) data v
  else v.

(** What a line does to that number when processor [p] gets it. *)
Definition lineUpdate (name : string) (t : MetricType)
    (p : agent.sourceProcessor) (line : string) (v : float) : float :=
  match parser.Parse (agent.parser p) line with
  | None => v
  | Some d =>
      fold_left (λ v m, ruleUpdate name t (Some d) m v) (agent.metrics p) v
  end.

(** The record of a line of source [src] that the metric [M] matches. *)
Definition matchedRecord (src : config.Source) (M : config.Metric)
    (line : string) : Data :=
  p ← parser.New (config.Source_Format src) (config.Source_Pattern src);
  mt ← matcher.New (config.Metric_Match M);
  d ← parser.Parse p line;
  if matcher.Match mt (Some d) then Some d else None.

(** The records that [M], metric of the source of index [i], matches
    among the processed lines, in order. *)
Definition matchedRecords (i : nat) (src : config.Source) (M : config.Metric)
    (lines : list (Z * string)) : list (gmap string Value) :=
  omap (λ '(j, line),
          if bool_decide (j = Z.of_nat i) then matchedRecord src M line
          else None) lines.

(** The numbers that the extract of [M] reads in the records. *)
Definition extracted (M : config.Metric) (ds : list (gmap string Value))
    : list float :=
  omap (λ d, ex ← config.Metric_Extract M;
             parser.GetFieldFloat (Some d) (config.Extract_Field ex)) ds.

(** The lines handed to the source of index [i]. *)
Definition linesOf (i : nat) (lines : list (Z * string)) : list string :=
  omap (λ '(j, line), if bool_decide (j = Z.of_nat i) then Some line else None)
    lines.

(** The number of rules of [p] that match the record of the line, zero
    when the line does not parse. *)
Definition matchesOf (p : agent.sourceProcessor) (line : string) : nat :=
  match parser.Parse (agent.parser p) line with
  | None => O
  | Some d =>
      length (filter (λ m, matcher.Match (agent.matcher m) (Some d) = true)
                (agent.metrics p))
  end.

(** The lines that the parser of [p] reads, and those it does not. *)
Definition parsedBy (p : agent.sourceProcessor) (ls : list string)
    : list string :=
  filter (λ l, is_Some (parser.Parse (agent.parser p) l)) ls.
Definition refusedBy (p : agent.sourceProcessor) (ls : list string)
    : list string :=
  filter (λ l, parser.Parse (agent.parser p) l = None) ls.

(** The three counters of a processor are 64-bit integers. *)
Definition ranged (p : agent.sourceProcessor) : Prop :=
  agent.int64 (agent.linesParsed p) = agent.linesParsed p ∧
  agent.int64 (agent.parseErrors p) = agent.parseErrors p ∧
  agent.int64 (agent.linesMatched p) = agent.linesMatched p.

(** The processor [p'] is [p] after the lines [ls]: the same source,
    parser and rules, and the counters advanced, modulo 2^64. *)
Definition stepped (p : agent.sourceProcessor) (ls : list string)
    (p' : agent.sourceProcessor) : Prop :=
  agent.source p' = agent.source p ∧
  agent.parser p' = agent.parser p ∧
  agent.metrics p' = agent.metrics p ∧
  (ranged p → ranged p') ∧
  agent.int64 (agent.linesParsed p')
  = agent.int64 (agent.linesParsed p + Z.of_nat (length (parsedBy p ls))) ∧
  agent.int64 (agent.parseErrors p')
  = agent.int64 (agent.parseErrors p + Z.of_nat (length (refusedBy p ls))) ∧
  agent.int64 (agent.linesMatched p')
  = agent.int64 (agent.linesMatched p
                 + Z.of_nat (sum_list (matchesOf p <$> ls))).

(** What a line given to the source of index [jl.1] does to the number of
    the cell [name] of type [t]. *)
Definition agentUpdate (name : string) (t : MetricType)
    (ps : list agent.sourceProcessor) (jl : Z * string) (v : float) : float :=
  match (if bool_decide (0 ≤ jl.1) then ps !! Z.to_nat jl.1 else None) with
  | Some p => lineUpdate name t p jl.2 v
  | None => v
  end.

(** A processor as [newSourceProcessor] returns it. *)
Definition fresh (src : config.Source) (p : agent.sourceProcessor) : Prop :=
  agent.source p = src ∧ agent.linesParsed p = 0 ∧ agent.linesMatched p = 0 ∧
  agent.parseErrors p = 0.

(** The lines whose index names one of [n] sources. *)
Definition inRange (n : nat) (lines : list (Z * string))
    : list (Z * string) :=
  filter (λ jl : Z * string, 0 ≤ jl.1 < Z.of_nat n) lines.




End NumericSpec.

Module ReaderSpec.
Import bytes tailer.

(** The lines of a file: those ended by a newline and, when it is not
    empty, what follows the last newline. *)
Definition linesWith (lines : list (list ascii)) (last : list ascii)
    : list (list ascii) :=
  lines ++ (if bool_decide (last = []) then [] else [last]).

End ReaderSpec.

Module BatchSpec.
Import bytes.

(** The lines of a file as lines for the first source. *)
Definition forFirstSource (ls : list (list ascii)) : list (Z * string) :=
  (λ l, (0, toString l)) <$> ls.

End BatchSpec.

Module IdentitySpec.
Import bytes.

(** A lower-case hexadecimal digit. *)
Definition isHexDigit (c : ascii) : Prop :=
  c ∈ ofString "0123456789abcdef".

(** A string of [n] lower-case hexadecimal digits. *)
Definition hexGroup (n : nat) (g : string) : Prop :=
  String.length g = n ∧ Forall isHexDigit (ofString g).

End IdentitySpec.

Module ExchangeSpec.
Import sender.

(** The three requests of a sender. *)
Definition registration (s : Sender) : Request :=
  mkRequest (serverURL s +:+ "/v1/register") false.
Definition activation (s : Sender) : Request :=
  mkRequest (serverURL s +:+ "/v1/activate") true.
Definition publication (s : Sender) : Request :=
  mkRequest (serverURL s +:+ "/v1/snapshot") true.

(** A server that takes the registration and refuses everything else. *)
Definition refusing (sent : list Request) (req : Request) : Outcome :=
  if Signed req then Status 503 "unavailable" else Status 201 "".

(** One step of an exchange: the request, whether the sender gets as far
    as posting it (what it carries marshals and the request is created),
    and the status codes that the sender takes for a success. *)
Record Step := mkStep {
  request : Request;
  ready : bool;
  accepted : list Z
}.

Definition succeeds (o : Outcome) (codes : list Z) : bool :=
  match o with
  | Status code _ => bool_decide (code ∈ codes)
  | Fails _ => false
  end.

(** The steps are taken in order. A step that is not ready ends the
    exchange with nothing posted for it; a step that is ready is posted, and
    ends the exchange unless the server answers it with an accepted code. The
    result tells whether every step succeeded, and the requests made. *)
Fixpoint carry (Do : list Request → Request → Outcome) (steps : list Step)
    (sent : list Request) : bool * list Request :=
  match steps with
  | [] => (true, sent)
  | step :: rest =>
      if ready step then
        if succeeds (Do sent (request step)) (accepted step)
        then carry Do rest (sent ++ [request step])
        else (false, sent ++ [request step])
      else (false, sent)
  end.

Definition created (NewRequest : string → option tailer.error) (req : Request)
    : bool :=
  match NewRequest (URL req) with None => true | Some _ => false end.

Definition marshals (Marshal : gmap string aggregator.Any → tailer.error + string)
    (metrics : gmap string aggregator.Any) : bool :=
  match Marshal metrics with inr _ => true | inl _ => false end.

(** The steps of registering, and the step of publishing. *)
Definition enrolment (NewRequest : string → option tailer.error) (s : Sender)
    : list Step :=
  [ mkStep (registration s) (created NewRequest (registration s)) [200; 201];
    mkStep (activation s) (created NewRequest (activation s)) [200] ].

Definition publishing (NewRequest : string → option tailer.error)
    (Marshal : gmap string aggregator.Any → tailer.error + string)
    (s : Sender) (metrics : gmap string aggregator.Any) : Step :=
  mkStep (publication s)
    (marshals Marshal metrics && created NewRequest (publication s))
    [200; 202].

(** What [SendSnapshot] has to do: the snapshot alone for a registered
    sender, the registration and the activation before it otherwise. *)
Definition plan (NewRequest : string → option tailer.error)
    (Marshal : gmap string aggregator.Any → tailer.error + string)
    (s : Sender) (metrics : gmap string aggregator.Any) : list Step :=
  (if registered s then [] else enrolment NewRequest s)
  ++ [publishing NewRequest Marshal s metrics].

End ExchangeSpec.

Module StrconvSpec.

(** The integer nearest to [X / Y], the even one of two that are equally
    near. *)
Definition rne (X Y : Z) : Z :=
  match 2 * (X mod Y) ?= Y with
  | Lt => X / Y
  | Eq => if Z.even (X / Y) then X / Y else X / Y + 1
  | Gt => X / Y + 1
  end.

(** Where [r / Y] lies in the unit interval. *)
Definition locate (r Y : Z) : location :=
  if r =? 0 then loc_Exact else loc_Inexact (2 * r ?= Y).

(** A record of the rounding algorithm that holds the integer part of
    [X / Y] and the place of its fractional part. *)
Definition located (X Y : Z) (mrs : shr_record) : Prop :=
  shr_m mrs = X / Y ∧ loc_of_shr_record mrs = locate (X mod Y) Y.

(** [2^e] for a positive [e], 1 otherwise: [X / Y / 2^e] is
    [scaledNum e X / scaledDen e Y]. *)
Definition up2 (e : Z) : Z := 2 ^ Z.max 0 e.
Definition scaledNum (e X : Z) : Z := X * up2 (- e).
Definition scaledDen (e Y : Z) : Z := Y * up2 e.

(** [2^(g-1) <= X / Y < 2^g]. *)
Definition Mag (X Y g : Z) : Prop :=
  scaledDen (g - 1) Y ≤ scaledNum (g - 1) X ∧
  scaledNum g X < scaledDen g Y.

(** The float of mantissa [m] and exponent [e], [m] being at most
    [2^prec]. *)
Definition finish (sx : bool) (m e : Z) : spec_float :=
  match (if m =? 2 ^ prec then (2 ^ (prec - 1), e + 1) else (m, e)) with
  | (0, _) => S754_zero sx
  | (Z.pos p, e') =>
      if e' <=? emax - prec then S754_finite sx p e' else S754_infinity sx
  | (Z.neg _, _) => S754_nan
  end.

(** The binary64 float nearest to [X / Y], of magnitude [g], ties to
    even. *)
Definition rounded (sx : bool) (X Y g : Z) : spec_float :=
  let e := fexp prec emax g in
  finish sx (rne (scaledNum e X) (scaledDen e Y)) e.

(** The fraction [m * 10^k]: its numerator and its denominator. *)
Definition fracNum (m k : Z) : Z := if 0 <=? k then m * 10 ^ k else m.
Definition fracDen (k : Z) : Z := if 0 <=? k then 1 else 10 ^ (- k).

(** The decimal [n * 10^k] reads as the positive float of mantissa [m] and
    exponent [e]. *)
Definition reads (n k : Z) (m : positive) (e : Z) : Prop :=
  strconv.decimalToFloat false n k = S754_finite false m e.

(** The value of the float of mantissa [m] and exponent [e], as a
    fraction. *)
Definition floatNum (m : positive) (e : Z) : Z := Z.pos m * up2 e.
Definition floatDen (e : Z) : Z := up2 (- e).

(** The decimal [n * 10^k] in units of [10^c], for [c <= k]. *)
Definition atScale (c n k : Z) : Z := n * 10 ^ (k - c).

(** The exact decimal expansion [D * 10^s] of the float of mantissa [m] and
    exponent [e], as [shortest] computes it. *)
Definition expansion (m : positive) (e : Z) : Z * Z :=
  if 0 <=? e then (Z.pos m * 2 ^ e, 0) else (Z.pos m * 5 ^ (- e), e).

(** The float of mantissa [m] and exponent [e] is an integer. *)
Definition integral (m : positive) (e : Z) : Prop :=
  0 ≤ e ∨ Z.pos m mod 2 ^ (- e) = 0.

(** Neither candidate of [d] digits reads back as [v]. *)
Definition bothFail (v : float) (D s d : Z) : Prop :=
  strconv.readsBack v (D / 10 ^ (strconv.numDigits D - d))
    (strconv.numDigits D - d + s) = false ∧
  strconv.readsBack v (D / 10 ^ (strconv.numDigits D - d) + 1)
    (strconv.numDigits D - d + s) = false.

(** The float is an integer: a zero, or a finite float whose value is
    one. *)
Definition isInteger (v : float) : Prop :=
  match Prim2SF v with
  | S754_zero _ => True
  | S754_finite _ m e => integral m e
  | _ => False
  end.

End StrconvSpec.

(* ===================================================================== *)
(** * Properties of the conversions between floats and decimals          *)
(* ===================================================================== *)

Module StrconvProps.
Import bytes StrconvSpec.

(** ** Rounding a fraction to the nearest integer *)

Lemma rne_spec X Y :
  0 < Y →
  let m := rne X Y in
  (2 * m - 1) * Y ≤ 2 * X ≤ (2 * m + 1) * Y ∧
  (2 * X = (2 * m - 1) * Y ∨ 2 * X = (2 * m + 1) * Y → Z.even m = true).
Proof.
  intros HY. cbn zeta. unfold rne.
  pose proof (Z.div_mod X Y ltac:(lia)) as Hdm.
  pose proof (Z.mod_pos_bound X Y HY) as Hr.
  set (q := X / Y) in *. set (r := X mod Y) in *.
  destruct (Z.compare_spec (2 * r) Y) as [He|Hl|Hg].
  - destruct (Z.even q) eqn:Hev.
    + split; [nia|]. intros _. done.
    + split; [nia|]. intros _.
      rewrite Z.even_add, Hev. reflexivity.
  - split; [nia|]. intros [H|H]; nia.
  - split; [nia|]. intros [H|H]; nia.
Qed.

Lemma rne_unique X Y m :
  0 < Y →
  (2 * m - 1) * Y ≤ 2 * X ≤ (2 * m + 1) * Y →
  (2 * X = (2 * m - 1) * Y ∨ 2 * X = (2 * m + 1) * Y → Z.even m = true) →
  rne X Y = m.
Proof.
  intros HY Hb He.
  destruct (rne_spec X Y HY) as [Hb' He']. cbn zeta in *.
  revert Hb' He'. generalize (rne X Y). intros m' Hb' He'.
  destruct (Z.lt_trichotomy m' m) as [Hlt|[Heq|Hgt]]; [|done|].
  - assert (m = m' + 1) by nia. subst m.
    assert (H1 : 2 * X = (2 * m' + 1) * Y) by nia.
    assert (H2 : 2 * X = (2 * (m' + 1) - 1) * Y) by nia.
    specialize (He (or_introl H2)). specialize (He' (or_intror H1)).
    rewrite Z.even_add, He' in He. discriminate He.
  - assert (m' = m + 1) by nia. subst m'.
    assert (H1 : 2 * X = (2 * m + 1) * Y) by nia.
    assert (H2 : 2 * X = (2 * (m + 1) - 1) * Y) by nia.
    specialize (He (or_intror H1)). specialize (He' (or_introl H2)).
    rewrite Z.even_add, He in He'. discriminate He'.
Qed.

(** The rounding depends on the fraction only. *)
Lemma rne_ratio X Y X' Y' :
  0 < Y → 0 < Y' → X * Y' = X' * Y → rne X Y = rne X' Y'.
Proof.
  intros HY HY' Heq. symmetry. apply rne_unique; [done| |].
  - destruct (rne_spec X Y HY) as [Hb _]. cbn zeta in Hb.
    set (m := rne X Y) in *. nia.
  - destruct (rne_spec X Y HY) as [_ He]. cbn zeta in He.
    set (m := rne X Y) in *. intros H. apply He. nia.
Qed.

Lemma rne_exact M Y : 0 < Y → rne (M * Y) Y = M.
Proof.
  intros HY. unfold rne. rewrite Z.mod_mul, Z.div_mul by lia.
  assert (H : (2 * 0 ?= Y) = Lt) by (apply Z.compare_lt_iff; lia).
  by rewrite H.
Qed.

Lemma rne_mono X Y X' Y' :
  0 < Y → 0 < Y' → X * Y' ≤ X' * Y → rne X Y ≤ rne X' Y'.
Proof.
  intros HY HY' Hle.
  destruct (rne_spec X Y HY) as [Hb He].
  destruct (rne_spec X' Y' HY') as [Hb' He']. cbn zeta in *.
  revert Hb He Hb' He'. generalize (rne X Y) (rne X' Y').
  intros m m' Hb He Hb' He'.
  destruct (Z_le_gt_dec m m') as [|Hgt]; [done|]. exfalso.
  assert (HYY : 0 < Y * Y') by nia.
  assert (Hc1 : (2 * m - 1) * (Y * Y') ≤ 2 * X * Y') by nia.
  assert (Hc2 : 2 * X' * Y ≤ (2 * m' + 1) * (Y * Y')) by nia.
  assert (Hc3 : (2 * m - 1) * (Y * Y') ≤ (2 * m' + 1) * (Y * Y')) by nia.
  assert (m = m' + 1) by nia. subst m.
  assert (H1 : 2 * X * Y' = (2 * (m' + 1) - 1) * (Y * Y')) by nia.
  assert (H2 : 2 * X' * Y = (2 * m' + 1) * (Y * Y')) by nia.
  replace (2 * X * Y') with (2 * X * Y') in H1 by done.
  assert (H1' : 2 * X = (2 * (m' + 1) - 1) * Y) by nia.
  assert (H2' : 2 * X' = (2 * m' + 1) * Y') by nia.
  clear H1 H2. rename H1' into H1. rename H2' into H2.
  specialize (He (or_introl H1)). specialize (He' (or_intror H2)).
  rewrite Z.even_add, He' in He. discriminate He.
Qed.

Lemma rne_le X Y M : 0 < Y → X ≤ M * Y → rne X Y ≤ M.
Proof.
  intros HY Hle. rewrite <- (rne_exact M Y HY). apply rne_mono; [done..|nia].
Qed.

Lemma rne_ge X Y M : 0 < Y → M * Y ≤ X → M ≤ rne X Y.
Proof.
  intros HY Hle. rewrite <- (rne_exact M Y HY) at 1.
  apply rne_mono; [done..|nia].
Qed.

(** ** The right shifts of the rounding algorithm *)

Lemma iter_pos_nat {A} (f : A → A) p x :
  SpecFloat.iter_pos f p x = Nat.iter (Pos.to_nat p) f x.
Proof.
  revert x. induction p as [p IH|p IH|]; intros x; cbn [SpecFloat.iter_pos].
  - rewrite !IH, Pos2Nat.inj_xI.
    replace (S (2 * Pos.to_nat p)) with (Pos.to_nat p + S (Pos.to_nat p))%nat
      by lia.
    by rewrite Nat.iter_add, Nat.iter_succ_r.
  - rewrite !IH, Pos2Nat.inj_xO.
    replace (2 * Pos.to_nat p)%nat with (Pos.to_nat p + Pos.to_nat p)%nat
      by lia.
    by rewrite Nat.iter_add.
  - reflexivity.
Qed.

Lemma digits2_pos_spec p :
  2 ^ (Z.pos (digits2_pos p) - 1) ≤ Z.pos p < 2 ^ Z.pos (digits2_pos p).
Proof.
  induction p as [p IH|p IH|]; cbn [digits2_pos].
  - rewrite Pos2Z.inj_succ.
    replace (Z.succ (Z.pos (digits2_pos p)) - 1)
      with (Z.succ (Z.pos (digits2_pos p) - 1)) by lia.
    rewrite !Z.pow_succ_r by lia. lia.
  - rewrite Pos2Z.inj_succ.
    replace (Z.succ (Z.pos (digits2_pos p)) - 1)
      with (Z.succ (Z.pos (digits2_pos p) - 1)) by lia.
    rewrite !Z.pow_succ_r by lia. lia.
  - cbn. lia.
Qed.

Lemma shr_1_spec m r s :
  0 ≤ m →
  shr_1 (Build_shr_record m r s)
  = Build_shr_record (m / 2) (Z.odd m) (r || s).
Proof.
  intros Hm. destruct m as [|[p|p|]|]; cbn [shr_1]; try lia.
  - reflexivity.
  - f_equal. apply (Z.div_unique _ 2 _ 1); lia.
  - f_equal. apply (Z.div_unique _ 2 _ 0); lia.
  - reflexivity.
Qed.

Lemma located_shr_1 X Y mrs :
  0 ≤ X → 0 < Y → located X Y mrs → located X (2 * Y) (shr_1 mrs).
Proof.
  intros HX HY [Hm Hl]. destruct mrs as [m r s]. cbn [shr_m] in *.
  assert (Hm0 : 0 ≤ m) by (subst m; apply Z.div_pos; lia).
  rewrite shr_1_spec by done. unfold located. cbn [shr_m].
  pose proof (Z.mod_pos_bound X Y HY) as Hr.
  split.
  - rewrite Hm, Z.div_div by lia. f_equal. lia.
  - rewrite (Z.mul_comm 2 Y), Z.rem_mul_r by lia. rewrite <- Hm.
    rewrite Zmod_odd.
    assert (Hs : r || s = negb (X mod Y =? 0)).
    { unfold locate in Hl. destruct (X mod Y =? 0), r, s; done. }
    rewrite Hs. unfold locate. cbn [loc_of_shr_record].
    destruct (Z.odd m).
    + destruct (Z.eqb_spec (X mod Y) 0) as [H0|H0].
      * rewrite H0. cbn [negb].
        destruct (Z.eqb_spec (0 + Y * 1) 0); [lia|].
        f_equal. symmetry. apply Z.compare_eq_iff. lia.
      * cbn [negb].
        destruct (Z.eqb_spec (X mod Y + Y * 1) 0); [lia|].
        f_equal. symmetry. apply Z.compare_gt_iff. lia.
    + rewrite Z.mul_0_r, Z.add_0_r.
      destruct (Z.eqb_spec (X mod Y) 0) as [H0|H0]; [done|].
      cbn [negb]. f_equal. symmetry. apply Z.compare_lt_iff. lia.
Qed.

Lemma located_iter X Y mrs (n : nat) :
  0 ≤ X → 0 < Y → located X Y mrs →
  located X (2 ^ Z.of_nat n * Y) (Nat.iter n shr_1 mrs).
Proof.
  intros HX HY Hl. induction n as [|n IH].
  - cbn [Nat.iter Z.of_nat]. by rewrite Z.pow_0_r, Z.mul_1_l.
  - rewrite Nat.iter_succ, Nat2Z.inj_succ, Z.pow_succ_r by lia.
    rewrite <- Z.mul_assoc. apply located_shr_1; [done|nia|done].
Qed.

Lemma located_round X Y mrs :
  0 < Y → located X Y mrs →
  round_nearest_even (shr_m mrs) (loc_of_shr_record mrs) = rne X Y.
Proof.
  intros HY [-> ->]. unfold locate, rne, round_nearest_even.
  destruct (Z.eqb_spec (X mod Y) 0) as [H0|H0].
  - rewrite H0.
    assert (H : (2 * 0 ?= Y) = Lt) by (apply Z.compare_lt_iff; lia).
    by rewrite H.
  - by destruct (2 * (X mod Y) ?= Y).
Qed.

Lemma located_of_loc X Y :
  located X Y (shr_record_of_loc (X / Y) (locate (X mod Y) Y)).
Proof.
  unfold located, locate.
  destruct (X mod Y =? 0); [done|]. by destruct (2 * (X mod Y) ?= Y).
Qed.

(** ** Powers of two and the magnitude of a fraction *)

Lemma fexp_eq g : fexp prec emax g = Z.max (g - 53) (-1074).
Proof. reflexivity. Qed.

Lemma up2_pos e : 0 < up2 e.
Proof. unfold up2. apply Z.pow_pos_nonneg; lia. Qed.

Lemma up2_nonneg e : 0 ≤ e → up2 e = 2 ^ e.
Proof. intros. unfold up2. f_equal. lia. Qed.

Lemma up2_nonpos e : e ≤ 0 → up2 e = 1.
Proof. intros. unfold up2. by replace (Z.max 0 e) with 0 by lia. Qed.

Lemma up2_shift e n :
  0 ≤ n → up2 (e + n) * up2 (- e) = 2 ^ n * up2 e * up2 (- (e + n)).
Proof.
  intros Hn.
  destruct (Z_le_gt_dec 0 e) as [He|He].
  - rewrite (up2_nonneg (e + n)), (up2_nonpos (- e)), (up2_nonneg e),
      (up2_nonpos (- (e + n))) by lia.
    rewrite Z.pow_add_r by lia. ring.
  - destruct (Z_le_gt_dec 0 (e + n)) as [Hen|Hen].
    + rewrite (up2_nonneg (e + n)), (up2_nonneg (- e)), (up2_nonpos e),
        (up2_nonpos (- (e + n))) by lia.
      rewrite <- Z.pow_add_r by lia. replace (e + n + - e) with n by lia. ring.
    + rewrite (up2_nonpos (e + n)), (up2_nonneg (- e)), (up2_nonpos e),
        (up2_nonneg (- (e + n))) by lia.
      rewrite Z.mul_1_r, Z.mul_1_l, <- Z.pow_add_r by lia. f_equal. lia.
Qed.

Lemma scaled_cross e n X Y :
  0 ≤ n →
  scaledNum e X * scaledDen (e + n) Y
  = scaledNum (e + n) X * (2 ^ n * scaledDen e Y).
Proof.
  intros Hn. unfold scaledNum, scaledDen.
  transitivity (X * Y * (up2 (e + n) * up2 (- e))); [ring|].
  rewrite up2_shift by done. ring.
Qed.

Lemma scaledNum_pos e X : 0 < X → 0 < scaledNum e X.
Proof. intros. unfold scaledNum. pose proof (up2_pos (- e)). nia. Qed.

Lemma scaledDen_pos e Y : 0 < Y → 0 < scaledDen e Y.
Proof. intros. unfold scaledDen. pose proof (up2_pos e). nia. Qed.

Lemma cross_le a b c d :
  0 < a → 0 < c → a * d = c * b → (d ≤ c ↔ b ≤ a).
Proof. intros. split; intros; nia. Qed.

Lemma cross_lt a b c d :
  0 < a → 0 < c → a * d = c * b → (c < d ↔ a < b).
Proof. intros. split; intros; nia. Qed.

(** [2^(e+n) <= X/Y] and [X/Y < 2^(e+n)], seen from the scale [e]. *)
Lemma pow2_le_shift e n X Y :
  0 < X → 0 < Y → 0 ≤ n →
  scaledDen (e + n) Y ≤ scaledNum (e + n) X
  ↔ 2 ^ n * scaledDen e Y ≤ scaledNum e X.
Proof.
  intros HX HY Hn. apply cross_le.
  - by apply scaledNum_pos.
  - by apply scaledNum_pos.
  - by apply scaled_cross.
Qed.

Lemma pow2_lt_shift e n X Y :
  0 < X → 0 < Y → 0 ≤ n →
  scaledNum (e + n) X < scaledDen (e + n) Y
  ↔ scaledNum e X < 2 ^ n * scaledDen e Y.
Proof.
  intros HX HY Hn. apply cross_lt.
  - by apply scaledNum_pos.
  - by apply scaledNum_pos.
  - by apply scaled_cross.
Qed.

Lemma pow2_le_mono e e' X Y :
  0 < X → 0 < Y → e ≤ e' →
  scaledDen e' Y ≤ scaledNum e' X → scaledDen e Y ≤ scaledNum e X.
Proof.
  intros HX HY He H. replace e' with (e + (e' - e)) in H by lia.
  apply pow2_le_shift in H; [|done|done|lia].
  pose proof (scaledDen_pos e Y HY).
  assert (0 < 2 ^ (e' - e)) by (apply Z.pow_pos_nonneg; lia). nia.
Qed.

Lemma pow2_lt_mono e e' X Y :
  0 < X → 0 < Y → e ≤ e' →
  scaledNum e X < scaledDen e Y → scaledNum e' X < scaledDen e' Y.
Proof.
  intros HX HY He H. replace e' with (e + (e' - e)) by lia.
  apply pow2_lt_shift; [done|done|lia|].
  pose proof (scaledDen_pos e Y HY).
  assert (0 < 2 ^ (e' - e)) by (apply Z.pow_pos_nonneg; lia). nia.
Qed.

Lemma Mag_unique X Y g g' :
  0 < X → 0 < Y → Mag X Y g → Mag X Y g' → g = g'.
Proof.
  intros HX HY [Hge Hlt] [Hge' Hlt'].
  destruct (Z.lt_trichotomy g g') as [H|[H|H]]; [|done|].
  - pose proof (pow2_le_mono g (g' - 1) X Y HX HY ltac:(lia) Hge'). lia.
  - pose proof (pow2_le_mono g' (g - 1) X Y HX HY ltac:(lia) Hge). lia.
Qed.

Lemma Mag_ratio X Y X' Y' g :
  0 < Y → 0 < Y' → X * Y' = X' * Y → Mag X Y g → Mag X' Y' g.
Proof.
  unfold Mag, scaledNum, scaledDen. intros HY HY' Heq [Hge Hlt].
  pose proof (up2_pos (g - 1)). pose proof (up2_pos (- (g - 1))).
  pose proof (up2_pos g). pose proof (up2_pos (- g)).
  split.
  - assert (Y' * up2 (g - 1) * Y ≤ X' * up2 (- (g - 1)) * Y) by nia. nia.
  - assert (X' * up2 (- g) * Y < Y' * up2 g * Y) by nia. nia.
Qed.

(** ** What [binary_round_aux] computes *)

Lemma Zdigits2_spec m : 0 < m → 2 ^ (Zdigits2 m - 1) ≤ m < 2 ^ Zdigits2 m.
Proof. destruct m; try lia. intros _. apply digits2_pos_spec. Qed.

Lemma div_bounds A B : 0 < B → A / B * B ≤ A < (A / B + 1) * B.
Proof.
  intros HB. pose proof (Z.div_mod A B ltac:(lia)).
  pose proof (Z.mod_pos_bound A B HB). nia.
Qed.

(** The magnitude, read from the integer part at a scale. *)
Lemma Mag_quotient X Y ex :
  0 < X → 0 < Y →
  0 < scaledNum ex X / scaledDen ex Y →
  Mag X Y (Zdigits2 (scaledNum ex X / scaledDen ex Y) + ex).
Proof.
  intros HX HY Hmx.
  pose proof (Zdigits2_spec _ Hmx) as [Hlo Hhi].
  pose proof (scaledDen_pos ex Y HY) as HB.
  pose proof (div_bounds (scaledNum ex X) (scaledDen ex Y) HB) as Hdiv.
  revert Hmx Hlo Hhi Hdiv.
  generalize (scaledNum ex X / scaledDen ex Y). intros mx Hmx Hlo Hhi Hdiv.
  assert (Hd : 0 < Zdigits2 mx) by (destruct mx; cbn; lia).
  revert Hlo Hhi Hd. generalize (Zdigits2 mx). intros d Hlo Hhi Hd.
  split.
  - replace (d + ex - 1) with (ex + (d - 1)) by lia.
    apply pow2_le_shift; [done|done|lia|]. nia.
  - replace (d + ex) with (ex + d) by lia.
    apply pow2_lt_shift; [done|done|lia|]. nia.
Qed.

Lemma fexp_quotient X Y g ex :
  0 < X → 0 < Y → Mag X Y g → ex ≤ fexp prec emax g →
  fexp prec emax (Zdigits2 (scaledNum ex X / scaledDen ex Y) + ex)
  = fexp prec emax g.
Proof.
  intros HX HY HM Hex.
  pose proof (scaledDen_pos ex Y HY) as HB.
  pose proof (scaledNum_pos ex X HX) as HA.
  destruct (Z.lt_trichotomy 0 (scaledNum ex X / scaledDen ex Y))
    as [Hpos|[Hzero|Hneg]].
  - by rewrite (Mag_unique X Y _ g HX HY (Mag_quotient X Y ex HX HY Hpos) HM).
  - rewrite <- Hzero. cbn [Zdigits2].
    pose proof (div_bounds (scaledNum ex X) (scaledDen ex Y) HB) as Hdiv.
    rewrite <- Hzero in Hdiv.
    assert (Hg : g ≤ ex).
    { destruct (Z_le_gt_dec g ex) as [|Hgt]; [done|]. exfalso.
      destruct HM as [Hge _].
      pose proof (pow2_le_mono ex (g - 1) X Y HX HY ltac:(lia) Hge). lia. }
    rewrite !fexp_eq in *. lia.
  - pose proof (Z.div_pos (scaledNum ex X) (scaledDen ex Y)). lia.
Qed.

Lemma rne_bounds X Y g :
  0 < X → 0 < Y → Mag X Y g →
  let e := fexp prec emax g in
  0 ≤ rne (scaledNum e X) (scaledDen e Y) ≤ 2 ^ 53.
Proof.
  intros HX HY [Hge Hlt] e.
  pose proof (scaledDen_pos e Y HY) as HB.
  pose proof (scaledNum_pos e X HX) as HA.
  split.
  - apply rne_ge; [done|lia].
  - apply rne_le; [done|].
    assert (He : g ≤ e + 53) by (unfold e; rewrite fexp_eq; lia).
    pose proof (pow2_lt_mono g (e + 53) X Y HX HY He Hlt) as H.
    apply pow2_lt_shift in H; [lia|done|done|lia].
Qed.

Lemma shr_iter mrs ex n :
  0 ≤ n → shr mrs ex n = (Nat.iter (Z.to_nat n) shr_1 mrs, ex + n).
Proof.
  intros Hn. unfold shr. destruct n as [|p|p]; try lia.
  - cbn [Z.to_nat Nat.iter]. f_equal. lia.
  - by rewrite iter_pos_nat.
Qed.

Lemma shr_none mrs ex n : n ≤ 0 → shr mrs ex n = (mrs, ex).
Proof. intros Hn. unfold shr. destruct n; try lia; done. Qed.

(** The second step of [binary_round_aux], on a rounded mantissa. *)
Lemma binary_round_finish sx m e :
  0 ≤ m ≤ 2 ^ 53 → -1074 ≤ e →
  (let '(mrs, e') := shr_fexp prec emax m e loc_Exact in
   match shr_m mrs with
   | 0 => S754_zero sx
   | Z.pos p =>
       if e' <=? emax - prec then S754_finite sx p e' else S754_infinity sx
   | Z.neg _ => S754_nan
   end)
  = finish sx m e.
Proof.
  intros Hm He. unfold finish, shr_fexp.
  destruct (Z.eqb_spec m (2 ^ prec)) as [->|Hne].
  - change (Zdigits2 (2 ^ prec)) with 54. rewrite fexp_eq.
    replace (Z.max (54 + e - 53) (-1074) - e) with 1 by lia.
    cbn [shr shr_record_of_loc SpecFloat.iter_pos].
    change (2 ^ prec) with (Z.pos (2 ^ 53)). cbn [shr_1 Pos.pow].
    reflexivity.
  - assert (Hlt : m < 2 ^ 53) by (change (2 ^ prec) with (2 ^ 53) in Hne; lia).
    rewrite shr_none.
    + cbn [shr_record_of_loc shr_m]. by destruct m.
    + rewrite fexp_eq. destruct (Z.eq_dec m 0) as [->|Hm0]; [cbn; lia|].
      pose proof (Zdigits2_spec m ltac:(lia)) as [Hlo _].
      assert (Zdigits2 m - 1 < 53).
      { apply (Z.pow_lt_mono_r_iff 2); lia. }
      lia.
Qed.

Lemma binary_round_aux_spec sx X Y g ex :
  0 < X → 0 < Y → Mag X Y g → ex ≤ fexp prec emax g →
  binary_round_aux prec emax sx (scaledNum ex X / scaledDen ex Y) ex
    (locate (scaledNum ex X mod scaledDen ex Y) (scaledDen ex Y))
  = rounded sx X Y g.
Proof.
  intros HX HY HM Hex.
  pose proof (scaledDen_pos ex Y HY) as HB.
  pose proof (scaledNum_pos ex X HX) as HA.
  unfold binary_round_aux. unfold shr_fexp at 1.
  rewrite (fexp_quotient X Y g ex HX HY HM Hex).
  rewrite shr_iter by lia.
  replace (ex + (fexp prec emax g - ex)) with (fexp prec emax g) by lia.
  pose proof (located_iter _ _ _ (Z.to_nat (fexp prec emax g - ex))
                (Z.lt_le_incl _ _ HA) HB
                (located_of_loc (scaledNum ex X) (scaledDen ex Y)))
    as Hloc.
  rewrite Z2Nat.id in Hloc by lia.
  assert (H2 : 0 < 2 ^ (fexp prec emax g - ex))
    by (apply Z.pow_pos_nonneg; lia).
  assert (HB2 : 0 < 2 ^ (fexp prec emax g - ex) * scaledDen ex Y) by nia.
  rewrite (located_round _ _ _ HB2 Hloc).
  rewrite (rne_ratio _ _ (scaledNum (fexp prec emax g) X)
             (scaledDen (fexp prec emax g) Y)).
  - unfold rounded. cbn zeta.
    apply binary_round_finish.
    + by apply rne_bounds.
    + rewrite fexp_eq. lia.
  - done.
  - by apply scaledDen_pos.
  - pose proof (scaled_cross ex (fexp prec emax g - ex) X Y ltac:(lia)) as Hc.
    replace (ex + (fexp prec emax g - ex)) with (fexp prec emax g) in Hc by lia.
    exact Hc.
Qed.

(** ** What [binary_normalize] and [SFdiv] compute *)

Lemma iter_xO p d : Z.pos (Pos.iter xO p d) = Z.pos p * 2 ^ Z.pos d.
Proof.
  revert p. induction d as [|d IH] using Pos.peano_ind; intros p.
  - cbn [Pos.iter]. lia.
  - rewrite Pos.iter_succ, Pos2Z.inj_succ, Z.pow_succ_r by lia.
    rewrite Pos2Z.inj_xO, IH. ring.
Qed.

Lemma Mag_digits p : Mag (Z.pos p) 1 (Z.pos (digits2_pos p)).
Proof.
  pose proof (digits2_pos_spec p) as [Hlo Hhi].
  assert (Hd : 0 < Z.pos (digits2_pos p)) by lia.
  revert Hlo Hhi Hd. generalize (Z.pos (digits2_pos p)). intros d Hlo Hhi Hd.
  unfold Mag, scaledNum, scaledDen.
  rewrite (up2_nonneg (d - 1)), (up2_nonpos (- (d - 1))), (up2_nonneg d),
    (up2_nonpos (- d)) by lia. lia.
Qed.

Lemma binary_round_spec sx p :
  binary_round prec emax sx p 0
  = rounded sx (Z.pos p) 1 (Z.pos (digits2_pos p)).
Proof.
  unfold binary_round, shl_align. rewrite Z.add_0_r.
  pose proof (Mag_digits p) as HM.
  destruct (fexp prec emax (Z.pos (digits2_pos p)) - 0) as [|d|d] eqn:Hd.
  - rewrite <- (binary_round_aux_spec sx (Z.pos p) 1 _ 0); [|done|done|done|lia].
    unfold scaledNum, scaledDen. rewrite (up2_nonpos 0), (up2_nonpos (- 0)) by lia.
    rewrite !Z.mul_1_r, Z.div_1_r, Z.mod_1_r. reflexivity.
  - rewrite <- (binary_round_aux_spec sx (Z.pos p) 1 _ 0); [|done|done|done|lia].
    unfold scaledNum, scaledDen. rewrite (up2_nonpos 0), (up2_nonpos (- 0)) by lia.
    rewrite !Z.mul_1_r, Z.div_1_r, Z.mod_1_r. reflexivity.
  - rewrite <- (binary_round_aux_spec sx (Z.pos p) 1 _
                  (fexp prec emax (Z.pos (digits2_pos p))));
      [|done|done|done|lia].
    unfold scaledNum, scaledDen.
    rewrite (up2_nonpos (fexp prec emax (Z.pos (digits2_pos p)))) by lia.
    rewrite (up2_nonneg (- fexp prec emax (Z.pos (digits2_pos p)))) by lia.
    rewrite !Z.mul_1_r, Z.div_1_r, Z.mod_1_r.
    replace (- fexp prec emax (Z.pos (digits2_pos p))) with (Z.pos d) by lia.
    rewrite <- iter_xO. reflexivity.
Qed.

Lemma new_location_locate y r :
  0 < y → 0 ≤ r < y → new_location y r = locate r y.
Proof.
  intros Hy Hr. unfold new_location, new_location_even, new_location_odd, locate.
  destruct (Z.even y) eqn:Hev.
  - reflexivity.
  - destruct (Z.eqb_spec r 0); [done|]. f_equal.
    assert (Hodd : Z.odd y = true) by (by rewrite <- Z.negb_even, Hev).
    apply Z.odd_spec in Hodd as [c Hc].
    destruct (Z.compare_spec (2 * r + 1) y), (Z.compare_spec (2 * r) y);
      first [done|lia].
Qed.

Lemma div_eucl_div_mod a b : Z.div_eucl a b = (a / b, a mod b).
Proof. unfold Z.div, Z.modulo. by destruct (Z.div_eucl a b). Qed.

(** The magnitude of a quotient is at least the difference of the numbers
    of digits. *)
Lemma Mag_digits_diff p y g :
  Mag (Z.pos p) (Z.pos y) g →
  Z.pos (digits2_pos p) - Z.pos (digits2_pos y) ≤ g.
Proof.
  intros [_ Hlt].
  pose proof (digits2_pos_spec p) as [Hp _].
  pose proof (digits2_pos_spec y) as [_ Hy].
  revert Hp Hy. generalize (Z.pos (digits2_pos p)) (Z.pos (digits2_pos y)).
  intros d1 d2 Hp Hy.
  destruct (Z_le_gt_dec (d1 - d2) g) as [|Hgt]; [done|]. exfalso.
  pose proof (pow2_lt_mono g (d1 - d2 - 1) (Z.pos p) (Z.pos y)
                ltac:(lia) ltac:(lia) ltac:(lia) Hlt) as H.
  unfold scaledNum, scaledDen in H.
  assert (Hd2 : 0 ≤ d2).
  { destruct (Z_le_gt_dec 0 d2); [done|]. rewrite Z.pow_neg_r in Hy; lia. }
  destruct (Z_le_gt_dec 0 (d1 - d2 - 1)) as [Ht|Ht].
  - rewrite (up2_nonneg (d1 - d2 - 1)), (up2_nonpos (- (d1 - d2 - 1))) in H
      by lia.
    assert (Hpow : 2 ^ (d1 - 1) = 2 ^ d2 * 2 ^ (d1 - d2 - 1)).
    { rewrite <- Z.pow_add_r by lia. f_equal. lia. }
    assert (0 < 2 ^ (d1 - d2 - 1)) by (apply Z.pow_pos_nonneg; lia). nia.
  - rewrite (up2_nonpos (d1 - d2 - 1)), (up2_nonneg (- (d1 - d2 - 1))) in H
      by lia.
    destruct (Z_le_gt_dec 1 d1) as [Hd1|Hd1].
    + assert (Hpow : 2 ^ d2 = 2 ^ (d1 - 1) * 2 ^ (- (d1 - d2 - 1))).
      { rewrite <- Z.pow_add_r by lia. f_equal. lia. }
      assert (0 < 2 ^ (- (d1 - d2 - 1))) by (apply Z.pow_pos_nonneg; lia). nia.
    + assert (Hpow : 2 ^ d2 ≤ 2 ^ (- (d1 - d2 - 1)))
        by (apply Z.pow_le_mono_r; lia).
      nia.
Qed.

Lemma SFdiv_spec sx p y g :
  Mag (Z.pos p) (Z.pos y) g →
  SFdiv prec emax (S754_finite sx p 0) (S754_finite false y 0)
  = rounded sx (Z.pos p) (Z.pos y) g.
Proof.
  intros HM. unfold SFdiv, SFdiv_core_binary. cbn [Zdigits2].
  rewrite !Z.add_0_r, Z.sub_0_r. rewrite xorb_false_r.
  set (e' := Z.min (fexp prec emax
                      (Z.pos (digits2_pos p) - Z.pos (digits2_pos y))) 0).
  assert (He' : e' ≤ 0) by (unfold e'; lia).
  assert (Hin : e' ≤ fexp prec emax g).
  { pose proof (Mag_digits_diff p y g HM). unfold e'.
    rewrite !fexp_eq. lia. }
  assert (Hm' : match 0 - e' with
                | 0 => Z.pos p
                | Z.pos _ => Z.shiftl (Z.pos p) (0 - e')
                | Z.neg _ => 0
                end = scaledNum e' (Z.pos p)).
  { unfold scaledNum. rewrite up2_nonneg by lia.
    destruct (0 - e') as [|s|s] eqn:Hs; try lia.
    - replace (- e') with 0 by lia. lia.
    - rewrite Z.shiftl_mul_pow2 by lia. f_equal. f_equal. lia. }
  rewrite Hm', div_eucl_div_mod.
  rewrite new_location_locate
    by (first [lia | apply Z.mod_pos_bound; lia]).
  rewrite <- (binary_round_aux_spec sx (Z.pos p) (Z.pos y) g e');
    [|done|done|done|done].
  unfold scaledDen. rewrite (up2_nonpos e') by done. by rewrite Z.mul_1_r.
Qed.

(** ** The float of a decimal *)

Lemma rounded_ratio sx X Y X' Y' g :
  0 < Y → 0 < Y' → X * Y' = X' * Y →
  rounded sx X Y g = rounded sx X' Y' g.
Proof.
  intros HY HY' Heq. unfold rounded. cbn zeta. f_equal.
  apply rne_ratio.
  - by apply scaledDen_pos.
  - by apply scaledDen_pos.
  - unfold scaledNum, scaledDen.
    transitivity (X * Y' * (up2 (- fexp prec emax g) * up2 (fexp prec emax g)));
      [ring|].
    rewrite Heq. ring.
Qed.

Lemma Mag_exists X Y : 0 < X → 0 < Y → ∃ g, Mag X Y g.
Proof.
  intros HX HY.
  pose proof (Zdigits2_spec Y HY) as [_ Hhi].
  assert (Hd : 0 < Zdigits2 Y) by (destruct Y; cbn; lia).
  eexists. apply (Mag_quotient X Y (- Zdigits2 Y) HX HY).
  unfold scaledNum, scaledDen.
  rewrite (up2_nonneg (- - Zdigits2 Y)), (up2_nonpos (- Zdigits2 Y)) by lia.
  rewrite Z.opp_involutive, Z.mul_1_r.
  apply Z.div_str_pos. nia.
Qed.

Lemma fracDen_pos k : 0 < fracDen k.
Proof.
  unfold fracDen. destruct (Z.leb_spec 0 k); [lia|].
  apply Z.pow_pos_nonneg; lia.
Qed.

Lemma fracNum_pos m k : 0 < m → 0 < fracNum m k.
Proof.
  intros Hm. unfold fracNum. destruct (Z.leb_spec 0 k); [|done].
  assert (0 < 10 ^ k) by (apply Z.pow_pos_nonneg; lia). nia.
Qed.

Lemma decimalToFloat_spec neg m k g :
  0 < m → Mag (fracNum m k) (fracDen k) g →
  strconv.decimalToFloat neg m k = rounded neg (fracNum m k) (fracDen k) g.
Proof.
  intros Hm. destruct m as [|p|p]; try lia.
  unfold strconv.decimalToFloat, fracNum, fracDen.
  destruct (Z.leb_spec 0 k) as [Hk|Hk]; intros HM.
  - assert (Hpow : 0 < 10 ^ k) by (apply Z.pow_pos_nonneg; lia).
    destruct (Z.pos p * 10 ^ k) as [|p'|p'] eqn:Hp; try nia.
    assert (Hg : Z.pos (digits2_pos p') = g).
    { apply (Mag_unique (Z.pos p') 1); [done|done|apply Mag_digits|done]. }
    destruct neg.
    + replace (Z.neg p * 10 ^ k) with (Z.neg p') by nia.
      cbn [binary_normalize]. by rewrite binary_round_spec, Hg.
    + rewrite Hp. cbn [binary_normalize]. by rewrite binary_round_spec, Hg.
  - assert (Hpow : 0 < 10 ^ (- k)) by (apply Z.pow_pos_nonneg; lia).
    rewrite <- (Z2Pos.id (10 ^ (- k))) in HM |- * by done.
    rewrite Pos2Z.id. by apply SFdiv_spec.
Qed.

Lemma decimalToFloat_nonpos neg m k :
  m ≤ 0 → strconv.decimalToFloat neg m k = S754_zero neg.
Proof. intros Hm. by destruct m; try lia. Qed.

(** Two decimals of one value read as the same float. *)
Lemma decimalToFloat_ratio neg m k m' k' :
  0 < m → 0 < m' →
  fracNum m k * fracDen k' = fracNum m' k' * fracDen k →
  strconv.decimalToFloat neg m k = strconv.decimalToFloat neg m' k'.
Proof.
  intros Hm Hm' Heq.
  destruct (Mag_exists (fracNum m k) (fracDen k)) as [g HM];
    [by apply fracNum_pos|apply fracDen_pos|].
  rewrite (decimalToFloat_spec neg m k g Hm HM).
  rewrite (decimalToFloat_spec neg m' k' g Hm').
  - apply rounded_ratio; [apply fracDen_pos|apply fracDen_pos|done].
  - apply (Mag_ratio (fracNum m k) (fracDen k));
      [apply fracDen_pos|apply fracDen_pos|done|done].
Qed.

(** ** The results are floats of the format *)

Lemma rne_normal X Y g :
  0 < X → 0 < Y → Mag X Y g → -1074 < fexp prec emax g →
  2 ^ 52 ≤ rne (scaledNum (fexp prec emax g) X) (scaledDen (fexp prec emax g) Y).
Proof.
  intros HX HY [Hge _] He.
  apply rne_ge; [by apply scaledDen_pos|].
  assert (Hg : g - 1 = fexp prec emax g + 52) by (rewrite fexp_eq in *; lia).
  rewrite Hg in Hge. apply pow2_le_shift in Hge; [lia|done|done|lia].
Qed.

Lemma digits_normal m : 2 ^ 52 ≤ m < 2 ^ 53 → Zdigits2 m = 53.
Proof.
  intros Hm. pose proof (Zdigits2_spec m ltac:(lia)) as [Hlo Hhi].
  assert (Zdigits2 m - 1 < 53) by (apply (Z.pow_lt_mono_r_iff 2); lia).
  assert (52 < Zdigits2 m).
  { apply (Z.pow_lt_mono_r_iff 2); [lia| |lia].
    destruct m; cbn; lia. }
  lia.
Qed.

Lemma digits_small m : 0 < m < 2 ^ 53 → Zdigits2 m ≤ 53.
Proof.
  intros Hm. pose proof (Zdigits2_spec m ltac:(lia)) as [Hlo Hhi].
  assert (Zdigits2 m - 1 < 53) by (apply (Z.pow_lt_mono_r_iff 2); lia).
  lia.
Qed.

Lemma finish_valid sx m e :
  0 ≤ m ≤ 2 ^ 53 → -1074 ≤ e → (-1074 < e → 2 ^ 52 ≤ m) →
  valid_binary prec emax (finish sx m e) = true.
Proof.
  intros Hm He Hn. unfold finish.
  destruct (Z.eqb_spec m (2 ^ prec)) as [->|Hne].
  - change (2 ^ (prec - 1)) with (Z.pos (2 ^ 52)).
    destruct (Z.leb_spec (e + 1) (emax - prec)) as [Hle|]; [|done].
    cbn [valid_binary]. unfold bounded, canonical_mantissa.
    change (Z.pos (digits2_pos (2 ^ 52))) with 53. rewrite fexp_eq.
    apply andb_true_iff. split; [apply Z.eqb_eq; lia|by apply Z.leb_le].
  - change (2 ^ prec) with (2 ^ 53) in Hne.
    destruct m as [|p|p]; [done| |lia].
    destruct (Z.leb_spec e (emax - prec)) as [Hle|]; [|done].
    cbn [valid_binary]. unfold bounded, canonical_mantissa.
    apply andb_true_iff. split; [|by apply Z.leb_le].
    apply Z.eqb_eq. rewrite fexp_eq.
    change (Z.pos (digits2_pos p)) with (Zdigits2 (Z.pos p)).
    destruct (Z_le_gt_dec e (-1074)) as [Hsub|Hnorm].
    + pose proof (digits_small (Z.pos p) ltac:(lia)). lia.
    + rewrite (digits_normal (Z.pos p)) by lia. lia.
Qed.

Lemma rounded_valid sx X Y g :
  0 < X → 0 < Y → Mag X Y g →
  valid_binary prec emax (rounded sx X Y g) = true.
Proof.
  intros HX HY HM. unfold rounded. cbn zeta. apply finish_valid.
  - by apply rne_bounds.
  - rewrite fexp_eq. lia.
  - intros He. by apply rne_normal.
Qed.

Lemma decimalToFloat_valid neg m k :
  valid_binary prec emax (strconv.decimalToFloat neg m k) = true.
Proof.
  destruct (Z_le_gt_dec m 0) as [Hm|Hm].
  - by rewrite decimalToFloat_nonpos.
  - destruct (Mag_exists (fracNum m k) (fracDen k)) as [g HM];
      [apply fracNum_pos; lia|apply fracDen_pos|].
    rewrite (decimalToFloat_spec neg m k g ltac:(lia) HM).
    apply rounded_valid; [apply fracNum_pos; lia|apply fracDen_pos|done].
Qed.

(** ** A float is what its own value rounds to *)

Lemma bounded_canonical m e :
  bounded prec emax m e = true →
  fexp prec emax (Z.pos (digits2_pos m) + e) = e ∧ e ≤ 971 ∧ -1074 ≤ e ∧
  Z.pos m < 2 ^ 53.
Proof.
  unfold bounded, canonical_mantissa. intros H.
  apply andb_true_iff in H as [Hc Hb].
  apply Z.eqb_eq in Hc. apply Z.leb_le in Hb.
  change (emax - prec) with 971 in Hb.
  split; [done|]. split; [done|].
  rewrite fexp_eq in Hc. split; [lia|].
  pose proof (digits2_pos_spec m) as [_ Hhi].
  assert (Z.pos (digits2_pos m) ≤ 53) by lia.
  pose proof (Z.pow_le_mono_r 2 (Z.pos (digits2_pos m)) 53 ltac:(lia) H).
  lia.
Qed.

Lemma floatDen_pos e : 0 < floatDen e.
Proof. apply up2_pos. Qed.

Lemma floatNum_pos m e : 0 < floatNum m e.
Proof. unfold floatNum. pose proof (up2_pos e). nia. Qed.

Lemma float_scaled m e :
  scaledNum e (floatNum m e) = Z.pos m * scaledDen e (floatDen e).
Proof. unfold scaledNum, scaledDen, floatNum, floatDen. ring. Qed.

Lemma Mag_float m e :
  Mag (floatNum m e) (floatDen e) (Z.pos (digits2_pos m) + e).
Proof.
  pose proof (Mag_quotient (floatNum m e) (floatDen e) e
                (floatNum_pos m e) (floatDen_pos e)) as H.
  rewrite float_scaled, Z.div_mul in H
    by (pose proof (scaledDen_pos e (floatDen e) (floatDen_pos e)); lia).
  by apply H.
Qed.

Lemma rounded_float sx m e :
  bounded prec emax m e = true →
  rounded sx (floatNum m e) (floatDen e) (Z.pos (digits2_pos m) + e)
  = S754_finite sx m e.
Proof.
  intros Hb. destruct (bounded_canonical m e Hb) as (Hc & He & He' & Hm).
  unfold rounded. cbn zeta. rewrite Hc.
  rewrite float_scaled, rne_exact
    by (apply scaledDen_pos, floatDen_pos).
  unfold finish.
  destruct (Z.eqb_spec (Z.pos m) (2 ^ prec)) as [Heq|_].
  - change (2 ^ prec) with (2 ^ 53) in Heq. lia.
  - destruct (Z.leb_spec e (emax - prec)) as [|Hgt]; [done|].
    change (emax - prec) with 971 in Hgt. lia.
Qed.

(** ** Rounding is monotone around a float *)

Lemma finish_inv sx m1 e1 m e :
  0 ≤ m1 ≤ 2 ^ 53 →
  finish sx m1 e1 = S754_finite sx m e →
  (m1 = Z.pos m ∧ e1 = e ∧ m1 ≠ 2 ^ 53) ∨
  (m1 = 2 ^ 53 ∧ Z.pos m = 2 ^ 52 ∧ e = e1 + 1).
Proof.
  intros Hm. unfold finish.
  destruct (Z.eqb_spec m1 (2 ^ prec)) as [Heq|Hne].
  - change (2 ^ (prec - 1)) with (Z.pos (2 ^ 52)).
    destruct (e1 + 1 <=? emax - prec); [|done].
    intros [= <- <-]. right. done.
  - destruct m1 as [|p|p]; [done| |done].
    destruct (e1 <=? emax - prec); [|done].
    intros [= <- <-]. left. done.
Qed.

Lemma Mag_mono X Y g X' Y' g' :
  0 < X → 0 < Y → 0 < X' → 0 < Y' → X * Y' ≤ X' * Y →
  Mag X Y g → Mag X' Y' g' → g ≤ g'.
Proof.
  intros HX HY HX' HY' Hle [Hge _] [_ Hlt].
  destruct (Z_le_gt_dec g g') as [|Hgt]; [done|]. exfalso.
  pose proof (pow2_le_mono g' (g - 1) X Y HX HY ltac:(lia) Hge) as H.
  unfold scaledNum, scaledDen in *.
  pose proof (up2_pos g'). pose proof (up2_pos (- g')).
  assert (Y * up2 g' * Y' ≤ X * up2 (- g') * Y') by nia.
  assert (X' * up2 (- g') * Y < Y' * up2 g' * Y) by nia.
  nia.
Qed.

Lemma rne_scaled_mono e X Y X' Y' :
  0 < Y → 0 < Y' → X * Y' ≤ X' * Y →
  rne (scaledNum e X) (scaledDen e Y) ≤ rne (scaledNum e X') (scaledDen e Y').
Proof.
  intros HY HY' Hle. apply rne_mono.
  - by apply scaledDen_pos.
  - by apply scaledDen_pos.
  - unfold scaledNum, scaledDen.
    pose proof (up2_pos e). pose proof (up2_pos (- e)).
    assert (0 < up2 (- e) * up2 e) by nia.
    replace (X * up2 (- e) * (Y' * up2 e))
      with (X * Y' * (up2 (- e) * up2 e)) by ring.
    replace (X' * up2 (- e) * (Y * up2 e))
      with (X' * Y * (up2 (- e) * up2 e)) by ring.
    nia.
Qed.

Lemma rne_float m e :
  rne (scaledNum e (floatNum m e)) (scaledDen e (floatDen e)) = Z.pos m.
Proof.
  rewrite float_scaled. apply rne_exact. apply scaledDen_pos, floatDen_pos.
Qed.

Lemma fexp_mono g g' : g ≤ g' → fexp prec emax g ≤ fexp prec emax g'.
Proof. rewrite !fexp_eq. lia. Qed.

(** A fraction between a float and a fraction that rounds to the float
    rounds to it too. *)
Lemma rounded_above sx m e X Y gx X' Y' gy :
  bounded prec emax m e = true →
  0 < X → 0 < Y → 0 < X' → 0 < Y' →
  Mag X Y gx → Mag X' Y' gy →
  floatNum m e * Y' ≤ X' * floatDen e →
  X' * Y ≤ X * Y' →
  rounded sx X Y gx = S754_finite sx m e →
  rounded sx X' Y' gy = S754_finite sx m e.
Proof.
  intros Hb HX HY HX' HY' HMx HMy Hvy Hyx Hx.
  destruct (bounded_canonical m e Hb) as (Hc & He & He' & Hm).
  pose proof (Mag_float m e) as HMv.
  pose proof (Mag_mono _ _ _ _ _ _ (floatNum_pos m e) (floatDen_pos e)
                HX' HY' Hvy HMv HMy) as Hg1.
  pose proof (Mag_mono _ _ _ _ _ _ HX' HY' HX HY Hyx HMy HMx) as Hg2.
  apply fexp_mono in Hg1, Hg2. rewrite Hc in Hg1.
  unfold rounded in *. cbn zeta in *.
  pose proof (rne_bounds X Y gx HX HY HMx) as Hbx. cbn zeta in Hbx.
  destruct (finish_inv _ _ _ _ _ Hbx Hx) as [(Hmx & Hex & _)|(_ & _ & Hex)];
    [|lia].
  assert (Hey : fexp prec emax gy = e) by lia.
  rewrite Hex in Hmx. rewrite Hey.
  pose proof (rne_scaled_mono e _ _ _ _ (floatDen_pos e) HY' Hvy) as H1.
  pose proof (rne_scaled_mono e _ _ _ _ HY' HY Hyx) as H2.
  rewrite rne_float in H1.
  assert (Hmy : rne (scaledNum e X') (scaledDen e Y') = Z.pos m) by lia.
  rewrite Hmy. rewrite Hex, Hmx in Hx. exact Hx.
Qed.

Lemma rounded_below sx m e X Y gx X' Y' gy :
  bounded prec emax m e = true →
  0 < X → 0 < Y → 0 < X' → 0 < Y' →
  Mag X Y gx → Mag X' Y' gy →
  X * Y' ≤ X' * Y →
  X' * floatDen e ≤ floatNum m e * Y' →
  rounded sx X Y gx = S754_finite sx m e →
  rounded sx X' Y' gy = S754_finite sx m e.
Proof.
  intros Hb HX HY HX' HY' HMx HMy Hxy Hyv Hx.
  destruct (bounded_canonical m e Hb) as (Hc & He & He' & Hm).
  pose proof (Mag_float m e) as HMv.
  pose proof (Mag_mono _ _ _ _ _ _ HX' HY' (floatNum_pos m e) (floatDen_pos e)
                Hyv HMy HMv) as Hg1.
  pose proof (Mag_mono _ _ _ _ _ _ HX HY HX' HY' Hxy HMx HMy) as Hg2.
  apply fexp_mono in Hg1, Hg2. rewrite Hc in Hg1.
  unfold rounded in *. cbn zeta in *.
  pose proof (rne_bounds X Y gx HX HY HMx) as Hbx. cbn zeta in Hbx.
  pose proof (rne_bounds X' Y' gy HX' HY' HMy) as Hby. cbn zeta in Hby.
  destruct (finish_inv _ _ _ _ _ Hbx Hx)
    as [(Hmx & Hex & _)|(Hmx & Hm52 & Hex)].
  - assert (Hey : fexp prec emax gy = e) by lia.
    rewrite Hex in Hmx. rewrite Hey.
    pose proof (rne_scaled_mono e _ _ _ _ HY' (floatDen_pos e) Hyv) as H1.
    pose proof (rne_scaled_mono e _ _ _ _ HY HY' Hxy) as H2.
    rewrite rne_float in H1.
    assert (Hmy : rne (scaledNum e X') (scaledDen e Y') = Z.pos m) by lia.
    rewrite Hmy. rewrite Hex, Hmx in Hx. exact Hx.
  - destruct (Z.eq_dec (fexp prec emax gy) (fexp prec emax gx)) as [Hey|Hey].
    + rewrite Hey.
      pose proof (rne_scaled_mono (fexp prec emax gx) _ _ _ _ HY HY' Hxy) as H2.
      rewrite Hey in Hby.
      assert (Hmy : rne (scaledNum (fexp prec emax gx) X')
                      (scaledDen (fexp prec emax gx) Y')
                    = rne (scaledNum (fexp prec emax gx) X)
                        (scaledDen (fexp prec emax gx) Y)) by lia.
      rewrite Hmy. exact Hx.
    + assert (Hey' : fexp prec emax gy = e) by lia.
      pose proof (rne_normal X' Y' gy HX' HY' HMy) as Hn.
      rewrite Hey' in *.
      pose proof (rne_scaled_mono e _ _ _ _ HY' (floatDen_pos e) Hyv) as H1.
      rewrite rne_float in H1.
      assert (Hlow : -1074 < e) by (rewrite fexp_eq in Hex; lia).
      specialize (Hn Hlow).
      assert (Hmy : rne (scaledNum e X') (scaledDen e Y') = Z.pos m) by lia.
      rewrite Hmy. unfold finish.
      destruct (Z.eqb_spec (Z.pos m) (2 ^ prec)) as [Heq|_].
      * change (2 ^ prec) with (2 ^ 53) in Heq. lia.
      * destruct (Z.leb_spec e (emax - prec)) as [|Hgt]; [done|].
        change (emax - prec) with 971 in Hgt. lia.
Qed.

(** ** Reading a decimal back *)

Lemma SFeqb_finite r m e :
  SFeqb r (S754_finite false m e) = true ↔ r = S754_finite false m e.
Proof.
  split; [|intros ->].
  - unfold SFeqb, SFcompare. destruct r as [s|s| |s m' e']; try done.
    + by destruct s.
    + destruct s; [done|].
      destruct (Z.compare_spec e' e) as [->| |]; try done.
      destruct (Pos.compare_cont Eq m' m) eqn:Hc; try done.
      apply Pos.compare_eq in Hc. by subst.
  - unfold SFeqb, SFcompare. by rewrite Z.compare_refl, Pos.compare_cont_refl.
Qed.

Lemma readsBack_reads n k m e :
  bounded prec emax m e = true →
  strconv.readsBack (SF2Prim (S754_finite false m e)) n k = true
  ↔ reads n k m e.
Proof.
  intros Hb. unfold strconv.readsBack, reads.
  rewrite FloatAxioms.eqb_spec.
  rewrite !Prim2SF_SF2Prim by (first [apply decimalToFloat_valid | done]).
  apply SFeqb_finite.
Qed.

(** ** Decimals at a common scale *)

Lemma frac_atScale c n k :
  c ≤ k → c ≤ 0 → fracNum n k * 10 ^ (- c) = atScale c n k * fracDen k.
Proof.
  intros Hck Hc. unfold fracNum, fracDen, atScale.
  destruct (Z.leb_spec 0 k) as [Hk|Hk].
  - rewrite Z.mul_1_r, <- Z.mul_assoc, <- Z.pow_add_r by lia.
    by replace (k + - c) with (k - c) by lia.
  - rewrite <- Z.mul_assoc, <- Z.pow_add_r by lia.
    by replace (k - c + - k) with (- c) by lia.
Qed.

Lemma frac_le_atScale c n k n' k' :
  c ≤ k → c ≤ k' → c ≤ 0 →
  atScale c n k ≤ atScale c n' k' →
  fracNum n k * fracDen k' ≤ fracNum n' k' * fracDen k.
Proof.
  intros Hk Hk' Hc Hle.
  pose proof (frac_atScale c n k Hk Hc) as H1.
  pose proof (frac_atScale c n' k' Hk' Hc) as H2.
  pose proof (fracDen_pos k). pose proof (fracDen_pos k').
  assert (Hp : 0 < 10 ^ (- c)) by (apply Z.pow_pos_nonneg; lia).
  assert (fracNum n k * 10 ^ (- c) * fracDen k'
          ≤ fracNum n' k' * 10 ^ (- c) * fracDen k).
  { rewrite H1, H2.
    replace (atScale c n k * fracDen k * fracDen k')
      with (atScale c n k * (fracDen k * fracDen k')) by ring.
    replace (atScale c n' k' * fracDen k' * fracDen k)
      with (atScale c n' k' * (fracDen k * fracDen k')) by ring.
    apply Z.mul_le_mono_nonneg_r; [nia|done]. }
  nia.
Qed.

Lemma frac_eq_atScale c n k n' k' :
  c ≤ k → c ≤ k' → c ≤ 0 →
  atScale c n k = atScale c n' k' →
  fracNum n k * fracDen k' = fracNum n' k' * fracDen k.
Proof.
  intros Hk Hk' Hc Heq. apply Z.le_antisymm.
  - apply (frac_le_atScale c); [done..|lia].
  - apply (frac_le_atScale c); [done..|lia].
Qed.

Lemma frac_le_trans X1 Y1 X2 Y2 X3 Y3 :
  0 < Y1 → 0 < Y2 → 0 < Y3 →
  X1 * Y2 ≤ X2 * Y1 → X2 * Y3 ≤ X3 * Y2 → X1 * Y3 ≤ X3 * Y1.
Proof.
  intros H1 H2 H3 Ha Hb.
  assert (X1 * Y2 * Y3 ≤ X2 * Y1 * Y3) by nia.
  assert (X2 * Y3 * Y1 ≤ X3 * Y2 * Y1) by nia.
  nia.
Qed.

(** ** The exact expansion of a float *)

Lemma expansion_exact m e :
  let '(D, s) := expansion m e in
  0 < D ∧ s ≤ 0 ∧
  fracNum D s * floatDen e = floatNum m e * fracDen s.
Proof.
  unfold expansion, fracNum, fracDen, floatNum, floatDen.
  destruct (Z.leb_spec 0 e) as [He|He].
  - assert (0 < 2 ^ e) by (apply Z.pow_pos_nonneg; lia).
    split; [nia|]. split; [done|].
    change (0 <=? 0) with true. cbn iota.
    rewrite (up2_nonneg e), (up2_nonpos (- e)) by lia.
    rewrite Z.pow_0_r. ring.
  - assert (0 < 5 ^ (- e)) by (apply Z.pow_pos_nonneg; lia).
    split; [nia|]. split; [lia|].
    destruct (Z.leb_spec 0 e); [lia|].
    rewrite (up2_nonpos e), (up2_nonneg (- e)) by lia.
    replace (10 ^ (- e)) with (5 ^ (- e) * 2 ^ (- e))
      by (rewrite <- Z.pow_mul_l; done).
    ring.
Qed.

(** The decimal of the value of the float reads as the float. *)
Lemma reads_exact n k m e :
  bounded prec emax m e = true → 0 < n →
  fracNum n k * floatDen e = floatNum m e * fracDen k →
  reads n k m e.
Proof.
  intros Hb Hn Heq. unfold reads.
  pose proof (Mag_float m e) as HM.
  assert (HM' : Mag (fracNum n k) (fracDen k) (Z.pos (digits2_pos m) + e)).
  { apply (Mag_ratio (floatNum m e) (floatDen e));
      [apply floatDen_pos|apply fracDen_pos|lia|done]. }
  rewrite (decimalToFloat_spec false n k _ Hn HM').
  rewrite (rounded_ratio false _ _ (floatNum m e) (floatDen e));
    [by apply rounded_float|apply fracDen_pos|apply floatDen_pos|done].
Qed.

(** A decimal between the value of a float and a decimal that reads as the
    float reads as it too. *)
Lemma reads_between c n k n' k' D s m e :
  bounded prec emax m e = true →
  0 < n → 0 < n' → 0 < D →
  fracNum D s * floatDen e = floatNum m e * fracDen s →
  c ≤ k → c ≤ k' → c ≤ s → c ≤ 0 →
  atScale c D s ≤ atScale c n' k' ≤ atScale c n k ∨
  atScale c n k ≤ atScale c n' k' ≤ atScale c D s →
  reads n k m e → reads n' k' m e.
Proof.
  intros Hb Hn Hn' HD Hex Hk Hk' Hs Hc Hbetween. unfold reads.
  destruct (Mag_exists (fracNum n k) (fracDen k)) as [g HM];
    [by apply fracNum_pos|apply fracDen_pos|].
  destruct (Mag_exists (fracNum n' k') (fracDen k')) as [g' HM'];
    [by apply fracNum_pos|apply fracDen_pos|].
  rewrite (decimalToFloat_spec false n k g Hn HM).
  rewrite (decimalToFloat_spec false n' k' g' Hn' HM').
  pose proof (fracDen_pos k). pose proof (fracDen_pos k').
  pose proof (fracDen_pos s). pose proof (floatDen_pos e).
  pose proof (fracNum_pos n k Hn). pose proof (fracNum_pos n' k' Hn').
  destruct Hbetween as [[Ha Hb']|[Ha Hb']].
  - apply (rounded_above false m e (fracNum n k) (fracDen k) g); try done.
    + apply (frac_le_atScale c) in Ha; [|done..].
      apply (frac_le_trans _ _ (fracNum D s) (fracDen s)); [done..|lia|done].
    + by apply (frac_le_atScale c).
  - apply (rounded_below false m e (fracNum n k) (fracDen k) g); try done.
    + by apply (frac_le_atScale c).
    + apply (frac_le_atScale c) in Hb'; [|done..].
      apply (frac_le_trans _ _ (fracNum D s) (fracDen s)); [done..|lia].
Qed.

(** ** The decimal digits of an integer *)

Lemma digitChar_digit d :
  0 ≤ d < 10 →
  isDigit (strconv.digitChar d) = true ∧ digitVal (strconv.digitChar d) = d.
Proof.
  intros Hd.
  assert (H : d = 0 ∨ d = 1 ∨ d = 2 ∨ d = 3 ∨ d = 4 ∨ d = 5 ∨ d = 6 ∨ d = 7
              ∨ d = 8 ∨ d = 9) by lia.
  repeat (destruct H as [->|H]; [by vm_compute|]). subst. by vm_compute.
Qed.

Lemma decimal_snoc ds c : decimal (ds ++ [c]) = 10 * decimal ds + digitVal c.
Proof. unfold decimal. by rewrite fold_left_app. Qed.

Lemma forallb_snoc {A} (f : A → bool) l x :
  forallb f (l ++ [x]) = forallb f l && f x.
Proof. rewrite forallb_app. cbn. by rewrite andb_true_r. Qed.

Lemma formatBits_spec fuel n acc :
  0 < n → n < 2 ^ (Z.of_nat fuel + 1) →
  ∃ ds,
    ofString (strconv.formatBits fuel 10 n acc) = ds ++ ofString acc ∧
    forallb isDigit ds = true ∧ decimal ds = n ∧
    10 ^ (Z.of_nat (length ds) - 1) ≤ n < 10 ^ Z.of_nat (length ds) ∧
    (0 < length ds)%nat.
Proof.
  revert n acc. induction fuel as [|fuel IH]; intros n acc Hn Hlt.
  - change (2 ^ (Z.of_nat 0 + 1)) with 2 in Hlt.
    assert (n = 1) by lia. subst n.
    exists ["1"%char]. cbn. repeat split; lia.
  - cbn [strconv.formatBits].
    pose proof (Z.mod_pos_bound n 10 ltac:(lia)) as Hmod.
    pose proof (Z.div_mod n 10 ltac:(lia)) as Hdm.
    destruct (digitChar_digit (n mod 10) Hmod) as [Hdig Hval].
    destruct (Z.eqb_spec (n / 10) 0) as [H0|H0].
    + exists [strconv.digitChar (n mod 10)]. cbn [ofString app length].
      split; [done|].
      split; [by cbn; rewrite Hdig|].
      split; [unfold decimal; cbn; lia|].
      split; [|lia]. cbn. lia.
    + assert (Hq : 0 < n / 10) by (pose proof (Z.div_pos n 10); lia).
      assert (Hlt' : n / 10 < 2 ^ (Z.of_nat fuel + 1)).
      { rewrite Nat2Z.inj_succ in Hlt.
        replace (Z.succ (Z.of_nat fuel) + 1) with (Z.succ (Z.of_nat fuel + 1))
          in Hlt by lia.
        rewrite Z.pow_succ_r in Hlt by lia. lia. }
      destruct (IH (n / 10) (String (strconv.digitChar (n mod 10)) acc) Hq Hlt')
        as (ds & Hds & Hall & Hdec & Hlen & Hpos).
      exists (ds ++ [strconv.digitChar (n mod 10)]).
      split; [by rewrite Hds, <- app_assoc|].
      split; [by rewrite forallb_snoc, Hall, Hdig|].
      split; [rewrite decimal_snoc, Hdec, Hval; lia|].
      rewrite length_app. cbn [length].
      split; [|lia].
      replace (Z.of_nat (length ds + 1)) with (Z.succ (Z.of_nat (length ds)))
        by lia.
      rewrite Z.pow_succ_r by lia.
      replace (Z.succ (Z.of_nat (length ds)) - 1)
        with (Z.succ (Z.of_nat (length ds) - 1)) by lia.
      rewrite Z.pow_succ_r by lia. lia.
Qed.

Lemma length_ofString s : length (ofString s) = String.length s.
Proof. induction s as [|c s IH]; cbn; [done|]. by f_equal. Qed.

Lemma Itoa_pos n :
  0 < n →
  strconv.Itoa n = strconv.formatBits (Z.to_nat (Z.log2 n)) 10 n EmptyString.
Proof.
  intros Hn. unfold strconv.Itoa, strconv.FormatInt.
  rewrite Z.abs_eq by lia. by destruct (Z.ltb_spec n 0); [lia|].
Qed.

Lemma Itoa_spec n :
  0 < n →
  forallb isDigit (ofString (strconv.Itoa n)) = true ∧
  decimal (ofString (strconv.Itoa n)) = n ∧
  Z.of_nat (length (ofString (strconv.Itoa n))) = strconv.numDigits n ∧
  10 ^ (strconv.numDigits n - 1) ≤ n < 10 ^ strconv.numDigits n ∧
  0 < strconv.numDigits n.
Proof.
  intros Hn. unfold strconv.numDigits. rewrite <- length_ofString.
  rewrite Itoa_pos by done.
  destruct (formatBits_spec (Z.to_nat (Z.log2 n)) n EmptyString Hn)
    as (ds & Hds & Hall & Hdec & Hlen & Hpos).
  { rewrite Z2Nat.id by apply Z.log2_nonneg.
    pose proof (Z.log2_spec n Hn) as [_ Hlog].
    by replace (Z.log2 n + 1) with (Z.succ (Z.log2 n)) by lia. }
  rewrite Hds. cbn [ofString String.list_ascii_of_string]. rewrite app_nil_r.
  repeat split; try done; lia.
Qed.

Lemma pow10_lt_cancel a b : 10 ^ a < 10 ^ b → 0 ≤ b → a < b.
Proof.
  intros H Hb. destruct (Z_lt_ge_dec a b) as [|Hge]; [done|]. exfalso.
  pose proof (Z.pow_le_mono_r 10 b a ltac:(lia) ltac:(lia)). lia.
Qed.

Lemma numDigits_unique n d :
  0 < n → 10 ^ (d - 1) ≤ n < 10 ^ d → strconv.numDigits n = d.
Proof.
  intros Hn [Hlo Hhi].
  destruct (Itoa_spec n Hn) as (_ & _ & _ & [Hlo' Hhi'] & Hpos).
  assert (0 ≤ d).
  { destruct (Z_le_gt_dec 0 d); [done|]. rewrite Z.pow_neg_r in Hhi; lia. }
  assert (d - 1 < strconv.numDigits n) by (apply pow10_lt_cancel; lia).
  assert (strconv.numDigits n - 1 < d) by (apply pow10_lt_cancel; lia).
  lia.
Qed.

Lemma numDigits_mono a b :
  0 < a → a ≤ b → strconv.numDigits a ≤ strconv.numDigits b.
Proof.
  intros Ha Hab.
  destruct (Itoa_spec a Ha) as (_ & _ & _ & [Hlo _] & Hpa).
  destruct (Itoa_spec b ltac:(lia)) as (_ & _ & _ & [_ Hhi] & Hpb).
  assert (strconv.numDigits a - 1 < strconv.numDigits b)
    by (apply pow10_lt_cancel; lia).
  lia.
Qed.

Lemma numDigits_pow10 n j :
  0 < n → 0 ≤ j → strconv.numDigits (n * 10 ^ j) = strconv.numDigits n + j.
Proof.
  intros Hn Hj.
  destruct (Itoa_spec n Hn) as (_ & _ & _ & [Hlo Hhi] & Hpos).
  assert (Hp : 0 < 10 ^ j) by (apply Z.pow_pos_nonneg; lia).
  apply numDigits_unique; [nia|].
  replace (strconv.numDigits n + j - 1) with (strconv.numDigits n - 1 + j)
    by lia.
  rewrite !Z.pow_add_r by lia. nia.
Qed.

(** ** Stripping the zeros at the end *)

Lemma stripZeros_spec fuel n k :
  0 < n →
  ∃ j, 0 ≤ j ∧
    strconv.stripZeros fuel n k = (n / 10 ^ j, k + j) ∧
    n = n / 10 ^ j * 10 ^ j ∧
    (n < 10 ^ Z.of_nat fuel → (n / 10 ^ j) mod 10 ≠ 0).
Proof.
  revert n k. induction fuel as [|fuel IH]; intros n k Hn.
  - exists 0. cbn [strconv.stripZeros]. rewrite Z.pow_0_r, Z.div_1_r.
    repeat split; try lia. f_equal; lia.
  - cbn [strconv.stripZeros].
    destruct (Z.eqb_spec (n mod 10) 0) as [H0|H0].
    + destruct (Z.eqb_spec n 0) as [|_]; [lia|]. cbn [negb andb].
      pose proof (Z.div_mod n 10 ltac:(lia)) as Hdm.
      assert (Hq : 0 < n / 10) by lia.
      destruct (IH (n / 10) (k + 1) Hq) as (j & Hj & Hs & Hmul & Hmod).
      exists (j + 1).
      assert (Hdiv : n / 10 ^ (j + 1) = n / 10 / 10 ^ j).
      { rewrite Z.pow_add_r, Z.pow_1_r, (Z.mul_comm (10 ^ j)) by lia.
        rewrite Z.div_div; [done|lia|]. apply Z.pow_pos_nonneg; lia. }
      rewrite Hdiv. split; [lia|].
      split; [rewrite Hs; f_equal; lia|].
      split.
      * rewrite Z.pow_add_r, Z.pow_1_r by lia.
        rewrite Z.mul_assoc, <- Hmul. lia.
      * intros Hlt. apply Hmod.
        rewrite Nat2Z.inj_succ, Z.pow_succ_r in Hlt by lia. lia.
    + cbn [andb]. exists 0. rewrite Z.pow_0_r, Z.div_1_r.
      repeat split; try lia. f_equal; lia.
Qed.

(** ** The candidates of [shortestFrom] *)

Lemma lo_bounds D L d :
  10 ^ (L - 1) ≤ D < 10 ^ L → 1 ≤ d < L →
  10 ^ (d - 1) ≤ D / 10 ^ (L - d) < 10 ^ d ∧
  D / 10 ^ (L - d) * 10 ^ (L - d) ≤ D < (D / 10 ^ (L - d) + 1) * 10 ^ (L - d).
Proof.
  intros [Hlo Hhi] Hd.
  assert (HQ : 0 < 10 ^ (L - d)) by (apply Z.pow_pos_nonneg; lia).
  assert (H1 : 10 ^ (L - 1) = 10 ^ (d - 1) * 10 ^ (L - d)).
  { rewrite <- Z.pow_add_r by lia. f_equal. lia. }
  assert (H2 : 10 ^ L = 10 ^ d * 10 ^ (L - d)).
  { rewrite <- Z.pow_add_r by lia. f_equal. lia. }
  pose proof (div_bounds D (10 ^ (L - d)) HQ) as Hdiv.
  split; [|done]. split.
  - apply Z.div_le_lower_bound; [done|]. lia.
  - apply Z.div_lt_upper_bound; [done|]. lia.
Qed.

Lemma pow10_ge j : 1 ≤ j → 10 ≤ 10 ^ j.
Proof.
  intros Hj. replace j with (Z.succ (j - 1)) by lia.
  rewrite Z.pow_succ_r by lia.
  assert (0 < 10 ^ (j - 1)) by (apply Z.pow_pos_nonneg; lia). lia.
Qed.

(** When a decimal of [d] digits reads as the float, so does one of the
    two candidates of [d] digits. *)
Lemma candidates_cover D s L d n' k' m e :
  bounded prec emax m e = true →
  0 < D → s ≤ 0 →
  fracNum D s * floatDen e = floatNum m e * fracDen s →
  10 ^ (L - 1) ≤ D < 10 ^ L → 1 ≤ d < L →
  10 ^ (d - 1) ≤ n' < 10 ^ d →
  reads n' k' m e →
  reads (D / 10 ^ (L - d)) (L - d + s) m e ∨
  reads (D / 10 ^ (L - d) + 1) (L - d + s) m e.
Proof.
  intros Hb HD Hs Hex HL Hd Hn' Hz.
  destruct (lo_bounds D L d HL Hd) as [[Hlo1 Hlo2] [Hdiv1 Hdiv2]].
  revert Hlo1 Hlo2 Hdiv1 Hdiv2. generalize (D / 10 ^ (L - d)).
  intros lo Hlo1 Hlo2 Hdiv1 Hdiv2.
  assert (Hd1 : 0 < 10 ^ (d - 1)) by (apply Z.pow_pos_nonneg; lia).
  assert (Hd10 : 10 ^ d = 10 * 10 ^ (d - 1)).
  { replace d with (Z.succ (d - 1)) at 1 by lia.
    by rewrite Z.pow_succ_r by lia. }
  set (c := Z.min s k').
  assert (HP : 0 < 10 ^ (s - c)) by (apply Z.pow_pos_nonneg; lia).
  assert (HQ : 0 < 10 ^ (L - d)) by (apply Z.pow_pos_nonneg; lia).
  assert (HaD : atScale c D s = D * 10 ^ (s - c)) by done.
  assert (Hac : ∀ x, atScale c x (L - d + s) = x * 10 ^ (L - d) * 10 ^ (s - c)).
  { intros x. unfold atScale. rewrite <- Z.mul_assoc, <- Z.pow_add_r by lia.
    do 2 f_equal. lia. }
  destruct (Z.lt_trichotomy k' (L - d + s)) as [Hk|[Hk|Hk]].
  - (* the decimal is below the candidates *)
    left. apply (reads_between c n' k' _ _ D s); try done; try lia.
    right. rewrite HaD, Hac.
    split; [|apply Z.mul_le_mono_nonneg_r; lia].
    assert (HJ : 10 ^ (L - d + s - c) = 10 ^ (L - d + s - k') * 10 ^ (k' - c)).
    { rewrite <- Z.pow_add_r by lia. f_equal. lia. }
    assert (HK : 0 < 10 ^ (k' - c)) by (apply Z.pow_pos_nonneg; lia).
    pose proof (pow10_ge (L - d + s - k') ltac:(lia)) as H10.
    replace (lo * 10 ^ (L - d) * 10 ^ (s - c))
      with (lo * 10 ^ (L - d + s - c)).
    2: { rewrite <- Z.mul_assoc, <- Z.pow_add_r by lia. do 2 f_equal. lia. }
    rewrite HJ. unfold atScale.
    assert (n' * 10 ^ (k' - c) ≤ 10 * 10 ^ (d - 1) * 10 ^ (k' - c)) by nia.
    assert (10 * 10 ^ (d - 1) * 10 ^ (k' - c)
            ≤ 10 ^ (L - d + s - k') * lo * 10 ^ (k' - c)) by nia.
    lia.
  - (* the decimal is on the grid of the candidates *)
    subst k'. destruct (Z_le_gt_dec n' lo) as [Hle|Hgt].
    + left. apply (reads_between c n' (L - d + s) _ _ D s); try done; try lia.
      right. rewrite HaD, !Hac.
      split; apply Z.mul_le_mono_nonneg_r; try lia.
      apply Z.mul_le_mono_nonneg_r; lia.
    + right. apply (reads_between c n' (L - d + s) _ _ D s); try done; try lia.
      left. rewrite HaD, !Hac.
      split; apply Z.mul_le_mono_nonneg_r; try lia.
      apply Z.mul_le_mono_nonneg_r; lia.
  - (* the decimal is above the candidates *)
    right. apply (reads_between c n' k' _ _ D s); try done; try lia.
    left. rewrite HaD, Hac.
    split; [apply Z.mul_le_mono_nonneg_r; lia|].
    assert (HJ : 10 ^ (k' - c)
                 = 10 ^ (k' - (L - d + s)) * (10 ^ (L - d) * 10 ^ (s - c))).
    { rewrite <- !Z.pow_add_r by lia. f_equal. lia. }
    pose proof (pow10_ge (k' - (L - d + s)) ltac:(lia)) as H10.
    unfold atScale. rewrite HJ.
    assert (HQP : 0 < 10 ^ (L - d) * 10 ^ (s - c)) by nia.
    assert ((lo + 1) * (10 ^ (L - d) * 10 ^ (s - c))
            ≤ 10 * 10 ^ (d - 1) * (10 ^ (L - d) * 10 ^ (s - c))) by nia.
    assert (10 * 10 ^ (d - 1) * (10 ^ (L - d) * 10 ^ (s - c))
            ≤ n' * 10 ^ (k' - (L - d + s)) * (10 ^ (L - d) * 10 ^ (s - c))).
    { apply Z.mul_le_mono_nonneg_r; [lia|]. nia. }
    lia.
Qed.

(** ** A fraction near a float rounds to it *)

Lemma finish_float sx m e :
  bounded prec emax m e = true → finish sx (Z.pos m) e = S754_finite sx m e.
Proof.
  intros Hb. destruct (bounded_canonical m e Hb) as (Hc & He & He' & Hm).
  unfold finish.
  destruct (Z.eqb_spec (Z.pos m) (2 ^ prec)) as [Heq|_].
  - change (2 ^ prec) with (2 ^ 53) in Heq. lia.
  - destruct (Z.leb_spec e (emax - prec)) as [|Hgt]; [done|].
    change (emax - prec) with 971 in Hgt. lia.
Qed.

(** Within half the distance to the next float, and within a quarter of it
    below a power of two, a fraction rounds to the float. *)
Lemma rounded_near sx m e X Y g :
  bounded prec emax m e = true →
  0 < X → 0 < Y → Mag X Y g →
  - (up2 e * Y) < 2 * (X * floatDen e - floatNum m e * Y) < up2 e * Y →
  (Z.pos m = 2 ^ 52 → -1074 < e →
   4 * (floatNum m e * Y - X * floatDen e) < up2 e * Y) →
  rounded sx X Y g = S754_finite sx m e.
Proof.
  intros Hb HX HY HM Hnear Hquarter.
  destruct (bounded_canonical m e Hb) as (Hc & He & He' & Hm).
  pose proof (digits2_pos_spec m) as [Hdlo Hdhi].
  assert (Hdpos : 0 < Z.pos (digits2_pos m)) by lia.
  revert Hc Hdlo Hdhi Hdpos. generalize (Z.pos (digits2_pos m)).
  intros dm Hc Hdlo Hdhi Hdpos.
  unfold floatNum, floatDen in *.
  pose proof (up2_pos e) as HU. pose proof (up2_pos (- e)) as HW.
  assert (HA : scaledNum e X = X * up2 (- e)) by done.
  assert (HB : scaledDen e Y = Y * up2 e) by done.
  assert (HBpos : 0 < Y * up2 e) by nia.
  (* at the scale of the float the fraction rounds to its mantissa *)
  assert (Hrne : rne (scaledNum e X) (scaledDen e Y) = Z.pos m).
  { rewrite HA, HB. apply rne_unique; [done| |].
    - split; nia.
    - intros [H|H]; nia. }
  (* the magnitude is at most that of the float *)
  assert (Hg : g ≤ dm + e).
  { destruct (Z_le_gt_dec g (dm + e)) as [|Hgt]; [done|]. exfalso.
    destruct HM as [Hge _].
    pose proof (pow2_le_mono (e + dm) (g - 1) X Y HX HY ltac:(lia) Hge) as H.
    apply pow2_le_shift in H; [|done|done|lia].
    rewrite HA, HB in H.
    assert (2 * Z.pos m + 1 ≤ 2 * 2 ^ dm - 1) by lia.
    nia. }
  apply fexp_mono in Hg as Hfe. rewrite Hc in Hfe.
  destruct (Z.eq_dec (fexp prec emax g) e) as [Heq|Hne].
  { unfold rounded. cbn zeta. rewrite Heq, Hrne. by apply finish_float. }
  (* otherwise the float is a power of two and the fraction is below it *)
  assert (Hnorm : -1074 < e) by (rewrite fexp_eq in *; lia).
  assert (Hdm : dm = 53) by (rewrite fexp_eq in *; lia).
  subst dm.
  assert (Hglt : g ≤ 52 + e) by (rewrite fexp_eq in *; lia).
  assert (Hlt : X * up2 (- e) < 2 ^ 52 * (Y * up2 e)).
  { destruct HM as [_ Hlt].
    pose proof (pow2_lt_mono g (e + 52) X Y HX HY ltac:(lia) Hlt) as H.
    apply pow2_lt_shift in H; [|done|done|lia]. by rewrite HA, HB in H. }
  assert (Hm52 : Z.pos m = 2 ^ 52).
  { change (2 ^ (53 - 1)) with (2 ^ 52) in Hdlo.
    destruct (Z.eq_dec (Z.pos m) (2 ^ 52)) as [|Hneq]; [done|]. exfalso.
    assert (2 ^ 52 + 1 ≤ Z.pos m) by lia. nia. }
  specialize (Hquarter Hm52 Hnorm). rewrite Hm52 in *.
  assert (HMag : Mag X Y (52 + e)).
  { split.
    - replace (52 + e - 1) with (e + 51) by lia.
      apply pow2_le_shift; [done|done|lia|]. rewrite HA, HB.
      change (2 ^ 52) with (2 * 2 ^ 51) in Hquarter. nia.
    - replace (52 + e) with (e + 52) by lia.
      apply pow2_lt_shift; [done|done|lia|]. by rewrite HA, HB. }
  assert (g = 52 + e) by (by apply (Mag_unique X Y)). subst g.
  assert (Hfexp : fexp prec emax (52 + e) = e - 1) by (rewrite fexp_eq; lia).
  unfold rounded. cbn zeta. rewrite Hfexp.
  pose proof (scaled_cross (e - 1) 1 X Y ltac:(lia)) as Hcross.
  replace (e - 1 + 1) with e in Hcross by lia.
  rewrite HA, HB, Z.pow_1_r in Hcross.
  pose proof (scaledNum_pos (e - 1) X HX) as HA'.
  pose proof (scaledDen_pos (e - 1) Y HY) as HB'.
  revert Hcross HA' HB'.
  generalize (scaledNum (e - 1) X) (scaledDen (e - 1) Y).
  intros A' B' Hcross HA' HB'.
  assert (Hrne' : rne A' B' = 2 ^ 53).
  { apply rne_unique; [done| |].
    - change (2 ^ 53) with (2 * 2 ^ 52).
      assert (H1 : (2 * (2 * 2 ^ 52) - 1) * B' * (Y * up2 e)
                   ≤ 2 * A' * (Y * up2 e)) by nia.
      assert (H2 : 2 * A' * (Y * up2 e)
                   ≤ (2 * (2 * 2 ^ 52) + 1) * B' * (Y * up2 e)) by nia.
      split; nia.
    - change (2 ^ 53) with (2 * 2 ^ 52).
      intros [H|H].
      + assert ((2 * (2 * 2 ^ 52) - 1) * B' * (Y * up2 e)
                < 2 * A' * (Y * up2 e)) by nia.
        nia.
      + assert (2 * A' * (Y * up2 e)
                < (2 * (2 * 2 ^ 52) + 1) * B' * (Y * up2 e)) by nia.
        nia. }
  rewrite Hrne'. unfold finish.
  change (2 ^ 53 =? 2 ^ prec) with true. cbn iota.
  change (2 ^ (prec - 1)) with (Z.pos (2 ^ 52)).
  replace (e - 1 + 1) with e by lia.
  destruct (Z.leb_spec e (emax - prec)) as [|Hgt].
  - f_equal. lia.
  - change (emax - prec) with 971 in Hgt. lia.
Qed.

Lemma expansion_units D s m e :
  0 < D → s ≤ 0 →
  fracNum D s * floatDen e = floatNum m e * fracDen s →
  D * up2 (- e) = Z.pos m * up2 e * 10 ^ (- s).
Proof.
  intros HD Hs Hex.
  pose proof (frac_atScale s D s ltac:(lia) Hs) as H.
  unfold atScale in H. rewrite Z.sub_diag, Z.pow_0_r, Z.mul_1_r in H.
  pose proof (fracDen_pos s) as HT. unfold floatNum, floatDen in Hex.
  assert (D * fracDen s * up2 (- e)
          = Z.pos m * up2 e * 10 ^ (- s) * fracDen s).
  { rewrite <- H.
    transitivity (fracNum D s * up2 (- e) * 10 ^ (- s)); [ring|].
    rewrite Hex. ring. }
  nia.
Qed.

(** The same, for a decimal: [c * 10^(k-s)] is it in the units of the
    expansion [D * 10^s] of the float. *)
Lemma reads_near c k D s m e :
  bounded prec emax m e = true →
  0 < c → 0 < D → s ≤ 0 → s ≤ k →
  fracNum D s * floatDen e = floatNum m e * fracDen s →
  - D < 2 * Z.pos m * (c * 10 ^ (k - s) - D) < D →
  (Z.pos m = 2 ^ 52 → -1074 < e →
   4 * Z.pos m * (D - c * 10 ^ (k - s)) < D) →
  reads c k m e.
Proof.
  intros Hb Hc HD Hs Hk Hex Hnear Hquarter. unfold reads.
  destruct (Mag_exists (fracNum c k) (fracDen k)) as [g HM];
    [by apply fracNum_pos|apply fracDen_pos|].
  rewrite (decimalToFloat_spec false c k g Hc HM).
  pose proof (expansion_units D s m e HD Hs Hex) as E2.
  pose proof (frac_atScale s c k Hk Hs) as E1. unfold atScale in E1.
  pose proof (fracDen_pos k) as HY. pose proof (fracNum_pos c k Hc) as HX.
  pose proof (up2_pos e) as HU. pose proof (up2_pos (- e)) as HW.
  assert (HT : 0 < 10 ^ (- s)) by (apply Z.pow_pos_nonneg; lia).
  revert E1 HM HX HY. generalize (fracNum c k) (fracDen k).
  intros X Y E1 HM HX HY.
  revert E1 Hnear Hquarter. generalize (c * 10 ^ (k - s)).
  intros C E1 Hnear Hquarter.
  assert (HmT : 0 < Z.pos m * 10 ^ (- s)) by nia.
  assert (HYW : 0 < Y * up2 (- e)) by nia.
  assert (K1 : 2 * (X * up2 (- e) - Z.pos m * up2 e * Y)
               * (Z.pos m * 10 ^ (- s))
               = 2 * Z.pos m * (C - D) * (Y * up2 (- e))).
  { transitivity (2 * Z.pos m * (X * 10 ^ (- s) * up2 (- e)
                                 - Z.pos m * up2 e * 10 ^ (- s) * Y));
      [ring|].
    rewrite E1, <- E2. ring. }
  assert (K2 : up2 e * Y * (Z.pos m * 10 ^ (- s)) = D * (Y * up2 (- e))).
  { transitivity (Z.pos m * up2 e * 10 ^ (- s) * Y); [ring|].
    rewrite <- E2. ring. }
  apply rounded_near; try done; unfold floatNum, floatDen.
  - split.
    + apply (Z.mul_lt_mono_pos_r (Z.pos m * 10 ^ (- s))); [done|].
      rewrite K1, Z.mul_opp_l, K2. nia.
    + apply (Z.mul_lt_mono_pos_r (Z.pos m * 10 ^ (- s))); [done|].
      rewrite K1, K2. nia.
  - intros Hm52 Hnorm. specialize (Hquarter Hm52 Hnorm).
    apply (Z.mul_lt_mono_pos_r (Z.pos m * 10 ^ (- s))); [done|].
    rewrite K2.
    replace (4 * (Z.pos m * up2 e * Y - X * up2 (- e))
             * (Z.pos m * 10 ^ (- s)))
      with (- (2 * (2 * (X * up2 (- e) - Z.pos m * up2 e * Y)
                    * (Z.pos m * 10 ^ (- s))))) by ring.
    rewrite K1. nia.
Qed.

(** Seventeen digits are enough: of the two candidates of seventeen digits,
    the one nearer to the float reads as the float. *)
Lemma seventeen_suffice D s L m e :
  bounded prec emax m e = true →
  0 < D → s ≤ 0 →
  fracNum D s * floatDen e = floatNum m e * fracDen s →
  10 ^ (L - 1) ≤ D < 10 ^ L → 17 < L →
  reads (D / 10 ^ (L - 17)) (L - 17 + s) m e ∨
  reads (D / 10 ^ (L - 17) + 1) (L - 17 + s) m e.
Proof.
  intros Hb HD Hs Hex [HL _] H17.
  destruct (bounded_canonical m e Hb) as (_ & _ & _ & Hm).
  assert (HQ : 0 < 10 ^ (L - 17)) by (apply Z.pow_pos_nonneg; lia).
  assert (HL' : 10 ^ (L - 1) = 10 ^ 16 * 10 ^ (L - 17)).
  { rewrite <- Z.pow_add_r by lia. f_equal. lia. }
  pose proof (Z.div_mod D (10 ^ (L - 17)) ltac:(lia)) as Hdm.
  pose proof (Z.mod_pos_bound D (10 ^ (L - 17)) HQ) as Hr.
  assert (Hlo : 10 ^ 16 ≤ D / 10 ^ (L - 17))
    by (apply Z.div_le_lower_bound; lia).
  revert Hdm Hr Hlo. generalize (D / 10 ^ (L - 17)) (D mod 10 ^ (L - 17)).
  intros lo r Hdm Hr Hlo.
  assert (Hm16 : Z.pos m < 10 ^ 16)
    by (change (2 ^ 53) with 9007199254740992 in Hm;
        change (10 ^ 16) with 10000000000000000; lia).
  assert (HmQ : Z.pos m * 10 ^ (L - 17) < D) by nia.
  destruct (Z_le_gt_dec (2 * r) (10 ^ (L - 17))) as [Hlow|Hhigh].
  - left. apply (reads_near _ _ D s); try done; try lia.
    + replace (L - 17 + s - s) with (L - 17) by lia. split; nia.
    + intros Hm52 _. replace (L - 17 + s - s) with (L - 17) by lia.
      assert (4 * Z.pos m * r ≤ 2 * Z.pos m * 10 ^ (L - 17)) by nia.
      assert (2 * Z.pos m < 10 ^ 16).
      { rewrite Hm52. by vm_compute. }
      nia.
  - right. apply (reads_near _ _ D s); try done; try lia.
    + replace (L - 17 + s - s) with (L - 17) by lia. split; nia.
    + intros _ _. replace (L - 17 + s - s) with (L - 17) by lia. nia.
Qed.

(** ** The search for the shortest decimal *)

Lemma shortestFrom_spec v D s fuel : ∀ d n k,
  strconv.shortestFrom fuel v D s d = (n, k) →
  (∃ d', d ≤ d' < strconv.numDigits D ∧
     k = strconv.numDigits D - d' + s ∧
     (n = D / 10 ^ (strconv.numDigits D - d') ∨
      n = D / 10 ^ (strconv.numDigits D - d') + 1) ∧
     strconv.readsBack v n k = true ∧
     ∀ d'', d ≤ d'' < d' → bothFail v D s d'') ∨
  (n = D ∧ k = s ∧
   ∀ d'', d ≤ d'' → d'' < strconv.numDigits D → d'' < d + Z.of_nat fuel →
          bothFail v D s d'').
Proof.
  induction fuel as [|fuel IH]; intros d n k.
  - cbn [strconv.shortestFrom]. intros [= <- <-]. right.
    split; [done|]. split; [done|]. intros d'' ? ? ?. lia.
  - cbn [strconv.shortestFrom]. cbn zeta.
    destruct (Z.leb_spec (strconv.numDigits D - d) 0) as [Hq|Hq].
    { intros [= <- <-]. right. split; [done|]. split; [done|].
      intros d'' ? ? ?. lia. }
    destruct (strconv.readsBack v (D / 10 ^ (strconv.numDigits D - d))
                (strconv.numDigits D - d + s)) eqn:Hlo;
    destruct (strconv.readsBack v (D / 10 ^ (strconv.numDigits D - d) + 1)
                (strconv.numDigits D - d + s)) eqn:Hhi.
    + destruct (_ || _); intros [= <- <-]; left; exists d;
        (split; [lia|]); (split; [done|]).
      * split; [by left|]. split; [done|]. intros d'' ?. lia.
      * split; [by right|]. split; [done|]. intros d'' ?. lia.
    + intros [= <- <-]. left. exists d. split; [lia|]. split; [done|].
      split; [by left|]. split; [done|]. intros d'' ?. lia.
    + intros [= <- <-]. left. exists d. split; [lia|]. split; [done|].
      split; [by right|]. split; [done|]. intros d'' ?. lia.
    + intros Hrec. destruct (IH (d + 1) n k Hrec)
        as [(d' & Hd' & Hk & Hn & Hrb & Hfail)|(Hn & Hk & Hfail)].
      * left. exists d'. split; [lia|]. split; [done|]. split; [done|].
        split; [done|]. intros d'' Hd''.
        destruct (Z.eq_dec d'' d) as [->|Hne]; [by split|].
        apply Hfail. lia.
      * right. split; [done|]. split; [done|]. intros d'' H1 H2 H3.
        destruct (Z.eq_dec d'' d) as [->|Hne]; [by split|].
        apply Hfail; lia.
Qed.

Lemma numDigits_1 : strconv.numDigits 1 = 1.
Proof. by vm_compute. Qed.

(** What is left of a power of ten without its zeros. *)
Lemma strip_pow10 n j d :
  0 < n → 0 ≤ j → 0 ≤ d → n * 10 ^ j = 10 ^ d → n mod 10 ≠ 0 → n = 1.
Proof.
  intros Hn Hj Hd Heq Hmod.
  assert (HJ : 0 < 10 ^ j) by (apply Z.pow_pos_nonneg; lia).
  assert (Hle : j ≤ d).
  { destruct (Z_le_gt_dec j d) as [|Hgt]; [done|]. exfalso.
    assert (10 ^ d < 10 ^ j) by (apply Z.pow_lt_mono_r; lia). nia. }
  assert (Hsplit : 10 ^ d = 10 ^ (d - j) * 10 ^ j).
  { rewrite <- Z.pow_add_r by lia. f_equal. lia. }
  assert (Hn' : n = 10 ^ (d - j)) by nia.
  destruct (Z.eq_dec (d - j) 0) as [H0|H0].
  - by rewrite H0 in Hn'.
  - exfalso. apply Hmod. rewrite Hn'.
    replace (d - j) with (Z.succ (d - j - 1)) by lia.
    rewrite Z.pow_succ_r by lia. by rewrite Z.mul_comm, Z.mod_mul.
Qed.

Lemma reads_shift n j k m e :
  0 < n → 0 ≤ j → reads (n * 10 ^ j) k m e → reads n (k + j) m e.
Proof.
  intros Hn Hj. unfold reads.
  assert (HJ : 0 < 10 ^ j) by (apply Z.pow_pos_nonneg; lia).
  rewrite (decimalToFloat_ratio false n (k + j) (n * 10 ^ j) k);
    [done|done|nia|].
  apply (frac_eq_atScale (Z.min k 0)); [lia..|].
  unfold atScale. rewrite <- Z.mul_assoc, <- Z.pow_add_r by lia.
  do 2 f_equal. lia.
Qed.

(** The digits that [shortest] returns. *)
Lemma shortest_spec m e :
  bounded prec emax m e = true →
  ∀ n k, strconv.shortest m e = (n, k) →
  0 < n ∧ n mod 10 ≠ 0 ∧ reads n k m e ∧
  (∀ n' k', 0 < n' → strconv.numDigits n' < strconv.numDigits n →
            ¬ reads n' k' m e) ∧
  (integral m e → 0 ≤ k).
Proof.
  intros Hb n k. unfold strconv.shortest. cbn zeta.
  fold (expansion m e).
  pose proof (expansion_exact m e) as Hexp.
  destruct (expansion m e) as [D s] eqn:HE.
  destruct Hexp as (HD & Hs & Hex).
  set (v := SF2Prim (S754_finite false m e)).
  destruct (strconv.shortestFrom 17 v D s 1) as [n0 k0] eqn:Hloop.
  apply shortestFrom_spec in Hloop.
  destruct (Itoa_spec D HD) as (_ & _ & _ & HL & HLpos).
  (* what was found reads as the float *)
  assert (Hn0 : 0 < n0 ∧ reads n0 k0 m e).
  { destruct Hloop as [(d' & Hd' & Hk & Hn & Hrb & _)|(-> & -> & _)].
    - split; [|by apply (readsBack_reads n0 k0 m e Hb)].
      destruct (lo_bounds D _ d' HL ltac:(lia)) as [[Hlo _] _].
      assert (0 < 10 ^ (d' - 1)) by (apply Z.pow_pos_nonneg; lia).
      destruct Hn as [-> | ->]; lia.
    - split; [done|]. by apply reads_exact. }
  destruct Hn0 as [Hn0 Hr0].
  destruct (Itoa_spec n0 Hn0) as (_ & _ & _ & [_ Hn0hi] & Hn0pos).
  destruct (stripZeros_spec (Z.to_nat (strconv.numDigits n0)) n0 k0 Hn0)
    as (j & Hj & -> & Hmul & Hmod).
  rewrite Z2Nat.id in Hmod by lia. specialize (Hmod Hn0hi).
  intros [= <- <-].
  assert (HJ : 0 < 10 ^ j) by (apply Z.pow_pos_nonneg; lia).
  assert (Hn : 0 < n0 / 10 ^ j) by nia.
  revert Hmul Hmod Hn. generalize (n0 / 10 ^ j). intros n Hmul Hmod Hn.
  assert (Hle : strconv.numDigits n ≤ strconv.numDigits n0)
    by (apply numDigits_mono; [done|nia]).
  split; [done|]. split; [done|].
  split; [apply reads_shift; [done|done|by rewrite <- Hmul]|].
  (* a candidate of 17 digits reads back when the expansion is longer *)
  assert (H17 : strconv.numDigits D ≤ 17 ∨
                17 < strconv.numDigits D ∧ ¬ bothFail v D s 17).
  { destruct (Z_le_gt_dec (strconv.numDigits D) 17) as [|Hgt]; [by left|].
    right. split; [lia|]. intros [Hf1 Hf2].
    destruct (seventeen_suffice D s _ m e Hb HD Hs Hex HL ltac:(lia))
      as [Hr|Hr]; apply (readsBack_reads _ _ m e Hb) in Hr; fold v in Hr;
      congruence. }
  split.
  - (* no decimal with fewer digits reads as the float *)
    intros n' k' Hn' Hshort Hreads.
    destruct (Itoa_spec n' Hn') as (_ & _ & _ & Hn'b & Hn'pos).
    assert (Hcover : strconv.numDigits n' < strconv.numDigits D →
                     ¬ bothFail v D s (strconv.numDigits n')).
    { intros Hlt [Hf1 Hf2].
      destruct (candidates_cover D s _ (strconv.numDigits n') n' k' m e
                  Hb HD Hs Hex HL ltac:(lia) Hn'b Hreads) as [Hr|Hr];
        apply (readsBack_reads _ _ m e Hb) in Hr; fold v in Hr; congruence. }
    destruct Hloop as [(d' & Hd' & Hk & Hcand & Hrb & Hfail)
                      |(-> & -> & Hfail)].
    + assert (Hd : strconv.numDigits n ≤ d').
      { destruct (lo_bounds D _ d' HL ltac:(lia)) as [[Hlo Hhi] _].
        assert (0 < 10 ^ (d' - 1)) by (apply Z.pow_pos_nonneg; lia).
        destruct Hcand as [Hc|Hc].
        - rewrite (numDigits_unique n0 d') in Hle; [lia|lia|].
          rewrite Hc. done.
        - destruct (Z.eq_dec n0 (10 ^ d')) as [Hpow|Hpow].
          + rewrite (strip_pow10 n j d'), numDigits_1;
              first [done | lia | by rewrite <- Hmul].
          + rewrite (numDigits_unique n0 d') in Hle; [lia|lia|].
            rewrite Hc. lia. }
      apply Hcover; [lia|]. apply Hfail. lia.
    + destruct H17 as [H17|[Hlong H17]].
      * apply Hcover; [lia|]. apply Hfail; lia.
      * apply H17. apply Hfail; lia.
  - (* an integer is written without a fraction *)
    intros Hint. enough (0 ≤ k0) by lia.
    unfold expansion in HE.
    destruct (Z.leb_spec 0 e) as [He|He].
    + injection HE as <- <-.
      destruct Hloop as [(d' & Hd' & -> & _)|(_ & -> & _)]; lia.
    + injection HE as <- <-.
      destruct Hint as [|Hint]; [lia|].
      assert (HP : 0 < 2 ^ (- e)) by (apply Z.pow_pos_nonneg; lia).
      pose proof (Z.div_mod (Z.pos m) (2 ^ (- e)) ltac:(lia)) as Hdm.
      rewrite Hint, Z.add_0_r in Hdm.
      assert (HV : 0 < Z.pos m / 2 ^ (- e)) by nia.
      revert Hdm HV. generalize (Z.pos m / 2 ^ (- e)). intros V Hdm HV.
      assert (HDV : Z.pos m * 5 ^ (- e) = V * 10 ^ (- e)).
      { rewrite Hdm. replace (10 ^ (- e)) with (2 ^ (- e) * 5 ^ (- e))
          by (rewrite <- Z.pow_mul_l; done). ring. }
      rewrite HDV in *.
      rewrite (numDigits_pow10 V (- e)) in * by lia.
      destruct (Itoa_spec V HV) as (_ & _ & _ & [HVlo HVhi] & HVpos).
      assert (HV16 : strconv.numDigits V ≤ 16).
      { destruct (bounded_canonical m e Hb) as (_ & _ & _ & Hm).
        assert (V < 10 ^ 16)
          by (change (2 ^ 53) with 9007199254740992 in Hm;
              change (10 ^ 16) with 10000000000000000; nia).
        assert (strconv.numDigits V - 1 < 16)
          by (apply pow10_lt_cancel; lia).
        lia. }
      assert (HrV : ¬ bothFail v (V * 10 ^ (- e)) e (strconv.numDigits V)).
      { intros [Hf _].
        rewrite (numDigits_pow10 V (- e)) in Hf by lia.
        replace (strconv.numDigits V + - e - strconv.numDigits V)
          with (- e) in Hf by lia.
        rewrite Z.div_mul in Hf by lia.
        replace (- e + e) with 0 in Hf by lia.
        assert (Hr : reads V 0 m e).
        { apply reads_exact; [done|done|].
          unfold fracNum, fracDen, floatNum, floatDen.
          change (0 <=? 0) with true. cbn iota.
          rewrite (up2_nonneg (- e)), (up2_nonpos e) by lia.
          rewrite Z.pow_0_r. lia. }
        apply (readsBack_reads _ _ m e Hb) in Hr. fold v in Hr. congruence. }
      destruct Hloop as [(d' & Hd' & -> & _ & _ & Hfail)|(_ & _ & Hfail)].
      * destruct (Z_le_gt_dec d' (strconv.numDigits V)) as [|Hgt]; [lia|].
        exfalso. apply HrV. apply Hfail. lia.
      * exfalso. apply HrV. apply Hfail; lia.
Qed.

(** ** The text of a decimal and its parsing *)

Lemma ofString_app a b : ofString (a +:+ b) = ofString a ++ ofString b.
Proof.
  unfold ofString. induction a as [|c a IH]; [done|].
  change (String c a +:+ b) with (String c (a +:+ b)).
  cbn [String.list_ascii_of_string app]. by rewrite IH.
Qed.

Lemma ofString_substring i len s :
  ofString (String.substring i len s) = take len (drop i (ofString s)).
Proof.
  unfold ofString. revert i len. induction s as [|c s IH]; intros i len.
  - by destruct i, len.
  - destruct i as [|i].
    + destruct len as [|len]; cbn; [done|]. f_equal. apply (IH O).
    + cbn. apply IH.
Qed.

Lemma ofString_zeros n :
  ofString (strconv.zeros n) = replicate (Z.to_nat n) "0"%char.
Proof.
  unfold ofString, strconv.zeros.
  apply String.list_ascii_of_string_of_list_ascii.
Qed.

Lemma span_digits l rest :
  forallb isDigit l = true →
  span isDigit (l ++ rest)
  = (l ++ (span isDigit rest).1, (span isDigit rest).2).
Proof.
  induction l as [|c l IH]; cbn [app forallb span]; intros H.
  - by destruct (span isDigit rest).
  - apply andb_true_iff in H as [Hc Hl]. by rewrite Hc, (IH Hl).
Qed.

Lemma span_digits_all l :
  forallb isDigit l = true → span isDigit l = (l, []).
Proof.
  intros H. rewrite <- (app_nil_r l) at 1.
  rewrite span_digits by done. cbn. by rewrite app_nil_r.
Qed.

Lemma decimal_from acc l :
  fold_left (λ acc d, 10 * acc + digitVal d) l acc
  = acc * 10 ^ Z.of_nat (length l)
    + fold_left (λ acc d, 10 * acc + digitVal d) l 0.
Proof.
  revert acc. induction l as [|d l IH]; intros acc.
  - cbn. lia.
  - cbn [fold_left length]. rewrite IH, (IH (10 * 0 + digitVal d)).
    rewrite Nat2Z.inj_succ, Z.pow_succ_r by lia. ring.
Qed.

Lemma decimal_app a b :
  decimal (a ++ b) = decimal a * 10 ^ Z.of_nat (length b) + decimal b.
Proof. unfold decimal. by rewrite fold_left_app, decimal_from. Qed.

Lemma decimal_zeros n : decimal (replicate n "0"%char) = 0.
Proof.
  induction n as [|n IH]; [done|].
  change (replicate (S n) "0"%char) with (["0"%char] ++ replicate n "0"%char).
  rewrite decimal_app, IH. by cbn.
Qed.

Lemma digits_zeros n : forallb isDigit (replicate n "0"%char) = true.
Proof. induction n as [|n IH]; [done|]. cbn [replicate forallb]. by rewrite IH. Qed.

Lemma parseDecimal_int neg c l :
  forallb isDigit (c :: l) = true →
  strconv.parseDecimal neg (c :: l)
  = match strconv.decimalToFloat neg (decimal (c :: l)) 0 with
    | S754_infinity _ => None
    | r => Some (SF2Prim r)
    end.
Proof.
  intros Hall. unfold strconv.parseDecimal.
  rewrite (span_digits_all (c :: l) Hall). cbn [app].
  cbn [strconv.parseExponent mbind option_bind length Z.of_nat].
  by rewrite app_nil_r.
Qed.

Lemma parseDecimal_frac neg c ip fp :
  forallb isDigit (c :: ip) = true → forallb isDigit fp = true →
  strconv.parseDecimal neg ((c :: ip) ++ "."%char :: fp)
  = match strconv.decimalToFloat neg (decimal ((c :: ip) ++ fp))
            (- Z.of_nat (length fp)) with
    | S754_infinity _ => None
    | r => Some (SF2Prim r)
    end.
Proof.
  intros Hip Hfp. unfold strconv.parseDecimal.
  rewrite (span_digits (c :: ip) _ Hip).
  change (span isDigit ("."%char :: fp)) with ([] : list ascii, "."%char :: fp).
  cbn [fst snd]. rewrite app_nil_r.
  rewrite (span_digits_all fp Hfp). cbn [app].
  cbn [strconv.parseExponent mbind option_bind].
  by rewrite Z.sub_0_l.
Qed.

Lemma not_digit_dot l : forallb isDigit l = true → "."%char ∉ l.
Proof.
  induction l as [|c l IH]; intros H; [apply not_elem_of_nil|].
  cbn [forallb] in H. apply andb_true_iff in H as [Hc Hl].
  apply not_elem_of_cons. split; [|by apply IH].
  intros <-. by vm_compute in Hc.
Qed.

Lemma decimalToFloat_units neg n k :
  0 < n → 0 ≤ k →
  strconv.decimalToFloat neg (n * 10 ^ k) 0 = strconv.decimalToFloat neg n k.
Proof.
  intros Hn Hk.
  assert (0 < 10 ^ k) by (apply Z.pow_pos_nonneg; lia).
  apply decimalToFloat_ratio; [nia|done|].
  unfold fracNum, fracDen. change (0 <=? 0) with true. cbn iota.
  destruct (Z.leb_spec 0 k); [|lia]. rewrite Z.pow_0_r. ring.
Qed.

(** The text of [n * 10^k] starts with a digit and is parsed as the float
    of [n * 10^k]; it has no point when [k] is not negative. *)
Lemma fmtF_parse n k :
  0 < n →
  ∃ c rest,
    ofString (strconv.fmtF n k) = c :: rest ∧ isDigit c = true ∧
    (∀ neg,
       strconv.parseDecimal neg (c :: rest)
       = match strconv.decimalToFloat neg n k with
         | S754_infinity _ => None
         | r => Some (SF2Prim r)
         end) ∧
    (0 ≤ k → "."%char ∉ c :: rest).
Proof.
  intros Hn.
  destruct (Itoa_spec n Hn) as (Hall & Hdec & Hlen & _ & Hpos).
  unfold strconv.fmtF. cbn zeta. rewrite <- length_ofString.
  remember (ofString (strconv.Itoa n)) as ds eqn:Hds.
  destruct ds as [|c ds]; [cbn in Hlen; lia|].
  assert (Hc : isDigit c = true).
  { cbn [forallb] in Hall. by apply andb_true_iff in Hall as [? _]. }
  destruct (Z.leb_spec 0 k) as [Hk|Hk].
  - (* digits and zeros *)
    exists c, (ds ++ replicate (Z.to_nat k) "0"%char).
    rewrite ofString_app, <- Hds, ofString_zeros.
    split; [done|]. split; [done|].
    assert (Hall' : forallb isDigit
                      (c :: ds ++ replicate (Z.to_nat k) "0"%char) = true).
    { change (forallb isDigit
                ((c :: ds) ++ replicate (Z.to_nat k) "0"%char) = true).
      by rewrite forallb_app, Hall, digits_zeros. }
    split.
    + intros neg. rewrite (parseDecimal_int neg c _ Hall').
      change (c :: ds ++ replicate (Z.to_nat k) "0"%char)
        with ((c :: ds) ++ replicate (Z.to_nat k) "0"%char).
      rewrite decimal_app, Hdec, decimal_zeros, length_replicate, Z.add_0_r.
      rewrite Z2Nat.id by done. by rewrite decimalToFloat_units.
    + intros _. by apply not_digit_dot.
  - destruct (Z.ltb_spec (- k) (Z.of_nat (length (c :: ds)))) as [Hlt|Hge].
    + (* digits, the point, digits *)
      rewrite !ofString_app, !ofString_substring, <- Hds.
      change (ofString ".") with ["."%char].
      cbn [drop app].
      remember (Z.to_nat (Z.of_nat (length (c :: ds)) + k)) as i eqn:Hieq.
      assert (Hi : (0 < i ≤ length (c :: ds))%nat) by lia.
      assert (Hfp : take (Z.to_nat (- k)) (drop i (c :: ds)) = drop i (c :: ds)).
      { apply take_ge. rewrite length_drop. lia. }
      rewrite Hfp.
      destruct i as [|i]; [lia|]. cbn [take drop].
      exists c, (take i ds ++ "."%char :: drop i ds).
      split; [done|]. split; [done|]. split; [|lia].
      intros neg.
      assert (Hsplit : take i ds ++ drop i ds = ds) by apply take_drop.
      assert (Hip : forallb isDigit (c :: take i ds) = true).
      { rewrite <- Hsplit in Hall. cbn [forallb] in Hall |- *.
        rewrite forallb_app in Hall.
        apply andb_true_iff in Hall as [-> Hall].
        by apply andb_true_iff in Hall as [-> _]. }
      assert (Hfd : forallb isDigit (drop i ds) = true).
      { rewrite <- Hsplit in Hall. cbn [forallb] in Hall.
        rewrite forallb_app in Hall.
        apply andb_true_iff in Hall as [_ Hall].
        by apply andb_true_iff in Hall as [_ ->]. }
      change (c :: take i ds ++ "."%char :: drop i ds)
        with ((c :: take i ds) ++ "."%char :: drop i ds).
      rewrite (parseDecimal_frac neg c _ _ Hip Hfd).
      cbn [app]. rewrite Hsplit, Hdec, length_drop.
      replace (- Z.of_nat (length ds - i)) with k; [done|].
      cbn [length] in Hi, Hlen, Hieq, Hlt |- *. lia.
    + (* zero, the point, zeros, digits *)
      rewrite !ofString_app, ofString_zeros, <- Hds.
      change (ofString "0.") with ["0"%char; "."%char]. cbn [app].
      set (z := Z.to_nat (- k - Z.of_nat (length (c :: ds)))).
      exists "0"%char, ("."%char :: replicate z "0"%char ++ c :: ds).
      split; [done|]. split; [done|]. split; [|lia].
      intros neg.
      assert (Hfd : forallb isDigit (replicate z "0"%char ++ c :: ds) = true)
        by (by rewrite forallb_app, digits_zeros, Hall).
      change ("0"%char :: "."%char :: replicate z "0"%char ++ c :: ds)
        with (["0"%char] ++ "."%char :: replicate z "0"%char ++ c :: ds).
      rewrite (parseDecimal_frac neg "0"%char [] _ eq_refl Hfd).
      change (["0"%char] ++ replicate z "0"%char ++ c :: ds)
        with (replicate (S z) "0"%char ++ c :: ds).
      rewrite decimal_app, decimal_zeros, Hdec, Z.mul_0_l, Z.add_0_l.
      rewrite length_app, length_replicate.
      replace (- Z.of_nat (z + length (c :: ds))) with k by lia.
      done.
Qed.

(** ** Parsing what was formatted *)

Lemma lower_digit c rest :
  isDigit c = true →
  strconv.lower (c :: rest) ≠ "inf" ∧ strconv.lower (c :: rest) ≠ "infinity" ∧
  strconv.lower (c :: rest) ≠ "nan".
Proof.
  intros Hc.
  destruct c as [[] [] [] [] [] [] [] []];
    try (by vm_compute in Hc);
    (split; [|split]); intros H; cbv in H; discriminate H.
Qed.

Lemma ParseFloat_digit s c rest bitSize :
  ofString s = c :: rest → isDigit c = true →
  strconv.ParseFloat s bitSize = strconv.parseDecimal false (c :: rest).
Proof.
  intros Hs Hc. unfold strconv.ParseFloat. rewrite Hs.
  destruct (lower_digit c rest Hc) as (H1 & H2 & H3).
  destruct c as [[] [] [] [] [] [] [] []];
    try (by vm_compute in Hc);
    cbv beta iota zeta;
    rewrite bool_decide_eq_false_2 by (by intros [?|?]);
    by rewrite bool_decide_eq_false_2 by done.
Qed.

Lemma ParseFloat_minus s c rest bitSize :
  ofString s = "-"%char :: c :: rest → isDigit c = true →
  strconv.ParseFloat s bitSize = strconv.parseDecimal true (c :: rest).
Proof.
  intros Hs Hc. unfold strconv.ParseFloat. rewrite Hs.
  destruct (lower_digit c rest Hc) as (H1 & H2 & H3).
  cbv beta iota zeta.
  rewrite bool_decide_eq_false_2 by (by intros [?|?]).
  by rewrite bool_decide_eq_false_2 by done.
Qed.

Lemma finish_signs sx sx' m1 e1 m e :
  finish sx m1 e1 = S754_finite sx m e →
  finish sx' m1 e1 = S754_finite sx' m e.
Proof.
  unfold finish. destruct (m1 =? 2 ^ prec).
  - change (2 ^ (prec - 1)) with (Z.pos (2 ^ 52)).
    destruct (e1 + 1 <=? emax - prec); [|done]. by intros [= <- <-].
  - destruct m1 as [|p|p]; [done| |done].
    destruct (e1 <=? emax - prec); [|done]. by intros [= <- <-].
Qed.

Lemma reads_minus n k m e :
  0 < n → reads n k m e →
  strconv.decimalToFloat true n k = S754_finite true m e.
Proof.
  intros Hn. unfold reads.
  destruct (Mag_exists (fracNum n k) (fracDen k)) as [g HM];
    [by apply fracNum_pos|apply fracDen_pos|].
  rewrite !(decimalToFloat_spec _ n k g Hn HM). apply finish_signs.
Qed.

(** What was formatted is parsed as the float it came from. *)
Lemma FormatFloat_ParseFloat f fmt prec' bitSize bitSize' :
  strconv.ParseFloat (strconv.FormatFloat f fmt prec' bitSize) bitSize'
  = Some f.
Proof.
  pose proof (Prim2SF_valid f) as Hv. pose proof (SF2Prim_Prim2SF f) as Hf.
  unfold strconv.FormatFloat.
  destruct (Prim2SF f) as [[]|[]| |neg m e].
  - rewrite <- Hf. by vm_compute.
  - rewrite <- Hf. by vm_compute.
  - rewrite <- Hf. by vm_compute.
  - rewrite <- Hf. by vm_compute.
  - rewrite <- Hf. by vm_compute.
  - cbn [SpecFloat.valid_binary] in Hv.
    destruct (strconv.shortest m e) as [n k] eqn:Hsh.
    destruct (shortest_spec m e Hv n k Hsh) as (Hn & _ & Hr & _).
    destruct (fmtF_parse n k Hn) as (c & rest & Hs & Hc & Hparse & _).
    destruct neg.
    + rewrite (ParseFloat_minus _ c rest).
      * rewrite Hparse, (reads_minus n k m e Hn Hr). by rewrite Hf.
      * by rewrite ofString_app, Hs.
      * done.
    + rewrite (ParseFloat_digit _ c rest _ Hs Hc).
      rewrite Hparse. unfold reads in Hr. rewrite Hr. by rewrite Hf.
Qed.

(** ** The text of a float *)

Lemma reads_of_sign neg n k m e :
  0 < n →
  strconv.decimalToFloat neg n k = S754_finite neg m e → reads n k m e.
Proof.
  intros Hn. unfold reads.
  destruct (Mag_exists (fracNum n k) (fracDen k)) as [g HM];
    [by apply fracNum_pos|apply fracDen_pos|].
  rewrite !(decimalToFloat_spec _ n k g Hn HM). apply finish_signs.
Qed.

(** The text of a finite float is that of the decimal with the fewest
    digits that is converted to the float. *)
Lemma FormatFloat_shortest f fmt prec' bitSize neg m e :
  Prim2SF f = S754_finite neg m e →
  ∃ n k,
    0 < n ∧ n mod 10 ≠ 0 ∧
    strconv.FormatFloat f fmt prec' bitSize
    = (if neg then "-" else "") +:+ strconv.fmtF n k ∧
    SF2Prim (strconv.decimalToFloat neg n k) = f ∧
    ∀ n' k', 0 < n' → strconv.numDigits n' < strconv.numDigits n →
             SF2Prim (strconv.decimalToFloat neg n' k') ≠ f.
Proof.
  intros Hf.
  pose proof (Prim2SF_valid f) as Hv. rewrite Hf in Hv.
  cbn [SpecFloat.valid_binary] in Hv.
  destruct (strconv.shortest m e) as [n k] eqn:Hsh.
  destruct (shortest_spec m e Hv n k Hsh) as (Hn & Hmod & Hr & Hshort & _).
  exists n, k. split; [done|]. split; [done|].
  split; [|split].
  - unfold strconv.FormatFloat. rewrite Hf, Hsh. by destruct neg.
  - rewrite <- (SF2Prim_Prim2SF f), Hf. f_equal.
    destruct neg; [by apply reads_minus|done].
  - intros n' k' Hn' Hlt Heq. apply (Hshort n' k' Hn' Hlt).
    apply (reads_of_sign neg); [done|].
    rewrite <- Hf, <- Heq.
    by rewrite Prim2SF_SF2Prim by apply decimalToFloat_valid.
Qed.

(** The text of an integer has no point. *)
Lemma FormatFloat_integer f fmt prec' bitSize :
  isInteger f →
  "."%char ∉ ofString (strconv.FormatFloat f fmt prec' bitSize).
Proof.
  unfold isInteger, strconv.FormatFloat.
  pose proof (Prim2SF_valid f) as Hv.
  destruct (Prim2SF f) as [[]|[]| |neg m e]; try done.
  - intros _ Hin. by repeat (apply elem_of_cons in Hin as [Hin|Hin];
      [discriminate Hin|]); apply elem_of_nil in Hin.
  - intros _ Hin. by repeat (apply elem_of_cons in Hin as [Hin|Hin];
      [discriminate Hin|]); apply elem_of_nil in Hin.
  - intros Hint. cbn [SpecFloat.valid_binary] in Hv.
    destruct (strconv.shortest m e) as [n k] eqn:Hsh.
    destruct (shortest_spec m e Hv n k Hsh) as (Hn & _ & _ & _ & Hk).
    specialize (Hk Hint).
    destruct (fmtF_parse n k Hn) as (c & rest & Hs & _ & _ & Hdot).
    specialize (Hdot Hk).
    destruct neg; [|by rewrite Hs].
    rewrite ofString_app, Hs. change (ofString "-") with ["-"%char].
    cbn [app]. apply not_elem_of_cons. split; [done|exact Hdot].
Qed.

(** The text of an integer value is its sign and its decimal digits. *)
Lemma Itoa_text i :
  ∃ ds,
    ofString (strconv.Itoa i) = (if i <? 0 then ["-"%char] else []) ++ ds ∧
    ds ≠ [] ∧ forallb isDigit ds = true ∧ decimal ds = Z.abs i.
Proof.
  destruct (Z.lt_trichotomy i 0) as [Hneg|[->|Hpos]].
  - unfold strconv.Itoa, strconv.FormatInt.
    destruct (Z.ltb_spec i 0); [|lia].
    destruct (formatBits_spec (Z.to_nat (Z.log2 (Z.abs i))) (Z.abs i)
                EmptyString ltac:(lia))
      as (ds & Hds & Hall & Hdec & _ & Hlen).
    { rewrite Z2Nat.id by apply Z.log2_nonneg.
      pose proof (Z.log2_spec (Z.abs i) ltac:(lia)) as [_ Hlog].
      by replace (Z.log2 (Z.abs i) + 1) with (Z.succ (Z.log2 (Z.abs i)))
        by lia. }
    exists ds. cbn [ofString String.list_ascii_of_string].
    fold (ofString (strconv.formatBits (Z.to_nat (Z.log2 (Z.abs i))) 10
                      (Z.abs i) EmptyString)).
    rewrite Hds. cbn [ofString String.list_ascii_of_string].
    rewrite app_nil_r. split; [done|]. split; [|done].
    intros ->. cbn in Hlen. lia.
  - exists ["0"%char]. by vm_compute.
  - destruct (Itoa_spec i Hpos) as (Hall & Hdec & Hlen & _ & Hnum).
    exists (ofString (strconv.Itoa i)).
    destruct (Z.ltb_spec i 0); [lia|].
    split; [done|]. split; [|split; [done|lia]].
    intros Hnil. rewrite Hnil in Hlen. cbn in Hlen. lia.
Qed.

End StrconvProps.

(* ===================================================================== *)
(** * Properties of the aggregator                                      *)
(* ===================================================================== *)

Module AggregatorProps.
Import aggregator AggregatorSpec.

Lemma peekEntry_Counter m :
  mvType m = Counter → peekEntry m = Some (Float64 (mvValue m)).
Proof. intros E. unfold peekEntry. rewrite E. reflexivity. Qed.

Lemma peekEntry_Gauge m :
  mvType m = Gauge → peekEntry m = Some (Float64 (mvValue m)).
Proof. intros E. unfold peekEntry. rewrite E. reflexivity. Qed.

Lemma peekEntry_Sum m :
  mvType m = Sum → peekEntry m = Some (Float64 (mvValue m)).
Proof. intros E. unfold peekEntry. rewrite E. reflexivity. Qed.

Lemma peekEntry_Set m :
  mvType m = Set_ → peekEntry m = Some (Int (len (mvSet m))).
Proof. intros E. unfold peekEntry. rewrite E. reflexivity. Qed.

Lemma peekEntry_unknown m : ¬ knownType (mvType m) → peekEntry m = None.
Proof.
  intros U. unfold peekEntry, knownType in *.
  repeat case_bool_decide; naive_solver.
Qed.

(** What [Snapshot] reports for a cell is what [Peek] reports for it. *)
Lemma snapshotEntry_fst m : (snapshotEntry m).1 = peekEntry m.
Proof.
  unfold snapshotEntry, peekEntry.
  repeat case_bool_decide; simpl; try reflexivity; naive_solver.
Qed.

Lemma snapshotEntry_unknown m :
  ¬ knownType (mvType m) → snapshotEntry m = (None, m).
Proof.
  intros U. unfold snapshotEntry, knownType in *.
  repeat case_bool_decide; naive_solver.
Qed.

Lemma Peek_lookup a name :
  Peek a !! name = metrics a !! name ≫= peekEntry.
Proof. unfold Peek. apply lookup_omap. Qed.

Lemma Snapshot_result_lookup a name :
  (Snapshot a).1 !! name = metrics a !! name ≫= peekEntry.
Proof.
  unfold Snapshot. simpl. rewrite lookup_omap.
  destruct (metrics a !! name) as [m|]; simpl; [apply snapshotEntry_fst|done].
Qed.

Lemma Snapshot_state_lookup a name :
  metrics (Snapshot a).2 !! name
  = (λ m, (snapshotEntry m).2) <$> metrics a !! name.
Proof. unfold Snapshot. simpl. apply lookup_fmap. Qed.

Lemma Snapshot_result a : (Snapshot a).1 = Peek a.
Proof.
  apply map_eq. intros name.
  by rewrite Snapshot_result_lookup, Peek_lookup.
Qed.

(** C1: for every aggregator state, [Snapshot] returns the observable value
    of every registered metric (the map [Peek] would return: the float of a
    counter, gauge or sum, the cardinality of a set), and a [Peek] right
    after it shows 0 for each counter and sum, cardinality 0 for each set,
    and the value from before the snapshot for each gauge. *)
Theorem Snapshot_then_Peek (a : Aggregator) :
  (Snapshot a).1 = Peek a ∧
  ∀ name m, metrics a !! name = Some m →
    (mvType m = Counter →
       (Snapshot a).1 !! name = Some (Float64 (mvValue m)) ∧
       Peek (Snapshot a).2 !! name = Some (Float64 0)) ∧
    (mvType m = Sum →
       (Snapshot a).1 !! name = Some (Float64 (mvValue m)) ∧
       Peek (Snapshot a).2 !! name = Some (Float64 0)) ∧
    (mvType m = Set_ →
       (Snapshot a).1 !! name = Some (Int (len (mvSet m))) ∧
       Peek (Snapshot a).2 !! name = Some (Int 0)) ∧
    (mvType m = Gauge →
       (Snapshot a).1 !! name = Some (Float64 (mvValue m)) ∧
       Peek (Snapshot a).2 !! name = Some (Float64 (mvValue m)) ∧
       metrics (Snapshot a).2 !! name = Some m).
Proof.
  split; [apply Snapshot_result|].
  intros name m Hm.
  rewrite Snapshot_result_lookup, Peek_lookup, Snapshot_state_lookup, Hm.
  simpl. unfold snapshotEntry.
  split; [|split; [|split]]; intros E; rewrite E; simpl.
  - split; [by apply peekEntry_Counter | reflexivity].
  - split; [by apply peekEntry_Sum | reflexivity].
  - split; [by apply peekEntry_Set | reflexivity].
  - repeat split; by apply peekEntry_Gauge.
Qed.

Lemma Snapshot_then_Peek_witness :
  (Snapshot sample).1 !! "c" = Some (Float64 3) ∧
  Peek (Snapshot sample).2 !! "c" = Some (Float64 0) ∧
  (Snapshot sample).1 !! "u" = Some (Int 2) ∧
  Peek (Snapshot sample).2 !! "u" = Some (Int 0) ∧
  Peek (Snapshot sample).2 !! "g" = Some (Float64 20).
Proof.
  pose proof (Snapshot_then_Peek sample) as [_ H].
  destruct (H "c" (mkMetricValue Counter 3 None) eq_refl) as (Hc & _).
  destruct (H "u" (mkMetricValue Set_ 0 (Some {["a"; "b"]})) eq_refl)
    as (_ & _ & Hu & _).
  destruct (H "g" (mkMetricValue Gauge 20 None) eq_refl) as (_ & _ & _ & Hg).
  destruct (Hc eq_refl) as [Hc1 Hc2].
  destruct (Hu eq_refl) as [Hu1 Hu2].
  destruct (Hg eq_refl) as (_ & Hg2 & _).
  repeat split; assumption.
Defined.

(** C5: [Register] is idempotent on the name. In every state in which the
    name is registered with some type, registering it again with any type
    leaves the state unchanged: the metric keeps its type and its
    accumulated value. In particular a second [Register] right after a
    first one does nothing. *)
Theorem Register_idempotent (a : Aggregator) (name : string)
    (t : MetricType) :
  (∀ m, metrics a !! name = Some m →
     Register name t a = a ∧ metrics (Register name t a) !! name = Some m) ∧
  (∀ t', Register name t (Register name t' a) = Register name t' a).
Proof.
  assert (H : ∀ b m, metrics b !! name = Some m → Register name t b = b).
  { intros b m Hm. unfold Register. by rewrite Hm. }
  split.
  - intros m Hm. rewrite (H a m Hm). done.
  - intros t'. unfold Register at 2 3.
    destruct (metrics a !! name) as [m|] eqn:Hm.
    + by apply (H a m).
    + eapply H. simpl. apply lookup_insert_eq.
Qed.

Lemma Register_idempotent_witness :
  Register "c" Set_ sample = sample ∧
  metrics (Register "c" Set_ sample) !! "c"
  = Some (mkMetricValue Counter 3 None).
Proof.
  exact (proj1 (Register_idempotent sample "c" Set_)
           (mkMetricValue Counter 3 None) eq_refl).
Defined.

Lemma Inc_noop a name : notOfType a name Counter → Inc name a = a.
Proof.
  unfold Inc. intros [Hn | (m & Hm & Ht)]; rewrite ?Hn, ?Hm; [done|].
  by rewrite bool_decide_eq_false_2.
Qed.

Lemma SetGauge_noop a name value :
  notOfType a name Gauge → SetGauge name value a = a.
Proof.
  unfold SetGauge. intros [Hn | (m & Hm & Ht)]; rewrite ?Hn, ?Hm; [done|].
  by rewrite bool_decide_eq_false_2.
Qed.

Lemma Add_noop a name value : notOfType a name Sum → Add name value a = a.
Proof.
  unfold Add. intros [Hn | (m & Hm & Ht)]; rewrite ?Hn, ?Hm; [done|].
  by rewrite bool_decide_eq_false_2.
Qed.

Lemma AddToSet_noop a name elem :
  notOfType a name Set_ → AddToSet name elem a = Some a.
Proof.
  unfold AddToSet. intros [Hn | (m & Hm & Ht)]; rewrite ?Hn, ?Hm; [done|].
  by rewrite bool_decide_eq_false_2.
Qed.

(** C4: in every state and for every name, each write leaves the state
    unchanged when the name is not registered or is registered with a type
    other than the one the write is for ([Inc]: counter, [SetGauge]: gauge,
    [Add]: sum, [AddToSet]: set); none of them fails ([AddToSet], the one
    that could panic, returns normally). *)
Theorem write_other_type_noop (a : Aggregator) (name : string)
    (value : float) (elem : string) :
  (notOfType a name Counter → Inc name a = a) ∧
  (notOfType a name Gauge → SetGauge name value a = a) ∧
  (notOfType a name Sum → Add name value a = a) ∧
  (notOfType a name Set_ → AddToSet name elem a = Some a).
Proof.
  repeat apply conj.
  - apply Inc_noop.
  - apply SetGauge_noop.
  - apply Add_noop.
  - apply AddToSet_noop.
Qed.

Lemma write_other_type_noop_witness :
  Inc "g" sample = sample ∧
  SetGauge "nobody" 1 sample = sample ∧
  Add "c" 1 sample = sample ∧
  AddToSet "s" "x" sample = Some sample.
Proof.
  pose proof (write_other_type_noop sample "g" 1 "x") as (H1 & _).
  pose proof (write_other_type_noop sample "nobody" 1 "x") as (_ & H2 & _).
  pose proof (write_other_type_noop sample "c" 1 "x") as (_ & _ & H3 & _).
  pose proof (write_other_type_noop sample "s" 1 "x") as (_ & _ & _ & H4).
  repeat apply conj.
  - apply H1. right. exists (mkMetricValue Gauge 20 None).
    split; [reflexivity | discriminate].
  - apply H2. left. reflexivity.
  - apply H3. right. exists (mkMetricValue Counter 3 None).
    split; [reflexivity | discriminate].
  - apply H4. right. exists (mkMetricValue Sum 7 None).
    split; [reflexivity | discriminate].
Defined.

(** C10: a metric can be registered with a type string outside the four
    known ones; such a name is absent from the maps returned by [Peek] and
    by [Snapshot], no write changes the state, and [Snapshot] leaves its
    cell as it is. *)
Theorem unknown_type_invisible (a : Aggregator) (name : string)
    (t : MetricType) :
  ¬ knownType t →
  (metrics a !! name = None →
     metrics (Register name t a) !! name = Some (mkMetricValue t 0 None)) ∧
  (∀ m, metrics a !! name = Some m → mvType m = t →
     Peek a !! name = None ∧
     (Snapshot a).1 !! name = None ∧
     metrics (Snapshot a).2 !! name = Some m ∧
     Inc name a = a ∧
     (∀ value, SetGauge name value a = a) ∧
     (∀ value, Add name value a = a) ∧
     (∀ elem, AddToSet name elem a = Some a)).
Proof.
  intros U. split.
  - intros Hn. unfold Register. rewrite Hn. simpl.
    rewrite lookup_insert_eq, bool_decide_eq_false_2; [done|].
    intros ->. apply U. unfold knownType. tauto.
  - intros m Hm <-.
    assert (Hno : ∀ t', knownType t' → notOfType a name t').
    { intros t' K. right. exists m. split; [done|]. intros E. apply U. by rewrite E. }
    rewrite Peek_lookup, Snapshot_result_lookup, Snapshot_state_lookup, Hm.
    cbn [mbind option_bind fmap option_fmap option_map].
    rewrite (peekEntry_unknown m U), (snapshotEntry_unknown m U).
    repeat apply conj; try reflexivity.
    + apply Inc_noop, Hno. unfold knownType; tauto.
    + intros v. apply SetGauge_noop, Hno. unfold knownType; tauto.
    + intros v. apply Add_noop, Hno. unfold knownType; tauto.
    + intros e. apply AddToSet_noop, Hno. unfold knownType; tauto.
Qed.

Lemma unknown_type_invisible_witness :
  metrics (Register "x" "histogram" sample) !! "x"
  = Some (mkMetricValue "histogram" 0 None) ∧
  Peek sample !! "h" = None ∧
  (Snapshot sample).1 !! "h" = None ∧
  Inc "h" sample = sample ∧
  AddToSet "h" "x" sample = Some sample.
Proof.
  assert (U : ¬ knownType "histogram").
  { unfold knownType. intros [E | [E | [E | E]]]; discriminate E. }
  destruct (unknown_type_invisible sample "x" "histogram" U) as [Hreg _].
  destruct (unknown_type_invisible sample "h" "histogram" U) as [_ Hh].
  destruct (Hh (mkMetricValue "histogram" 5 None) eq_refl eq_refl)
    as (Hp & Hs & _ & Hi & _ & _ & Ha).
  repeat apply conj.
  - apply Hreg. reflexivity.
  - exact Hp.
  - exact Hs.
  - exact Hi.
  - apply Ha.
Defined.

End AggregatorProps.

(* ===================================================================== *)
(** * Properties of the pipeline parser -> matcher -> aggregator        *)
(* ===================================================================== *)

Module PipelineProps.
Import bytes aggregator AggregatorSpec PipelineSpec StrconvSpec
  StrconvProps.

(** C2 (scenario S1): from the initial state, the three lines give
    [requests = 2.0] and [total_bytes = 1299.0] in [Peek], and nothing
    else; the matcher made for a metric without a match condition matches
    every record, which is why the third line adds its 999. *)
Theorem S1_peek :
  (a ← agent.New (agent.mkOptions S1_config true 0);
   a ← agent.ProcessLines a S1_lines;
   Some (Peek (agent.GetAggregator a)))
  = Some {[ "requests" := Float64 2; "total_bytes" := Float64 1299 ]} ∧
  (∃ m, matcher.New None = Some m ∧ ∀ data, matcher.Match m data = true).
Proof.
  split.
  - vm_compute. reflexivity.
  - eexists. split; [reflexivity|]. intros data. reflexivity.
Qed.

(** C7: [GetFieldString] passes a string through, formats a number with
    [strconv.FormatFloat(v, 'f', -1, 64)], an integer in decimal, renders a
    boolean as [true] or [false], and fails on a missing field and on every
    other kind of value. The text of a float is read back by [ParseFloat] as
    the float itself, whatever the float; the text of an integral float has
    no decimal point; and the text of a finite float is that of the decimal
    [n * 10^k] with the fewest digits [n] that is converted to the float:
    no decimal of fewer digits is converted to it. The text of an integer
    is its sign and its decimal digits. Instances: 500, 1299, 2^53, -3,
    1.5, 0.25, one tenth, one third, and the sum of one tenth and two
    tenths, which needs seventeen digits. So for the JSON line with
    [status] being the number 500 the matcher on [status] with [equals 500]
    and the one with the regular expression for a 5 and two digits both
    hold. *)
Theorem GetFieldString_coercion :
  (∀ data field,
     (∀ s, parser.GetField data field = Some (VString s) →
        parser.GetFieldString data field = Some s) ∧
     (∀ v, parser.GetField data field = Some (VFloat64 v) →
        parser.GetFieldString data field = Some (FormatFloat_f v)) ∧
     (∀ n, parser.GetField data field = Some (VInt n) →
        parser.GetFieldString data field = Some (strconv.Itoa n)) ∧
     (∀ n, parser.GetField data field = Some (VInt64 n) →
        parser.GetFieldString data field = Some (strconv.FormatInt n 10)) ∧
     (parser.GetField data field = Some (VBool true) →
        parser.GetFieldString data field = Some "true") ∧
     (parser.GetField data field = Some (VBool false) →
        parser.GetFieldString data field = Some "false") ∧
     (∀ v, parser.GetField data field = Some v → otherKind v →
        parser.GetFieldString data field = None) ∧
     (parser.GetField data field = None →
        parser.GetFieldString data field = None)) ∧
  (∀ v : float,
     strconv.ParseFloat (FormatFloat_f v) 64 = Some v ∧
     (isInteger v → "."%char ∉ ofString (FormatFloat_f v)) ∧
     (∀ neg m e, Prim2SF v = S754_finite neg m e →
        ∃ n k,
          0 < n ∧ n mod 10 ≠ 0 ∧
          FormatFloat_f v = (if neg then "-" else "") +:+ strconv.fmtF n k ∧
          SF2Prim (strconv.decimalToFloat neg n k) = v ∧
          ∀ n' k', 0 < n' → strconv.numDigits n' < strconv.numDigits n →
                   SF2Prim (strconv.decimalToFloat neg n' k') ≠ v)) ∧
  (∀ i : Z,
     ∃ ds,
       ofString (strconv.Itoa i) = (if i <? 0 then ["-"%char] else []) ++ ds ∧
       ds ≠ [] ∧ forallb isDigit ds = true ∧ decimal ds = Z.abs i) ∧
  (FormatFloat_f 500 = "500" ∧
   FormatFloat_f 1299 = "1299" ∧
   FormatFloat_f 9007199254740992 = "9007199254740992" ∧
   FormatFloat_f (-3) = "-3" ∧
   FormatFloat_f 1.5 = "1.5" ∧
   FormatFloat_f 0.25 = "0.25" ∧
   FormatFloat_f (1 / 10) = "0.1" ∧
   FormatFloat_f (1 / 3) = "0.3333333333333333" ∧
   FormatFloat_f (1 / 10 + 2 / 10) = "0.30000000000000004" ∧
   strconv.ParseFloat "500" 64 = Some 500%float ∧
   strconv.ParseFloat "0.25" 64 = Some 0.25%float ∧
   strconv.ParseFloat "0.1" 64 = Some (1 / 10)%float ∧
   strconv.ParseFloat "0.3333333333333333" 64 = Some (1 / 3)%float ∧
   strconv.ParseFloat "0.333333333333333" 64 ≠ Some (1 / 3)%float ∧
   strconv.Itoa 500 = "500" ∧
   strconv.Itoa (-42) = "-42") ∧
  (parser.GetField (parser.Parse parser.NewJSONParser S5_line) "status"
   = Some (VFloat64 500) ∧
   parser.GetFieldString (parser.Parse parser.NewJSONParser S5_line) "status"
   = Some "500" ∧
   (m ← matcher.New (Some S5_equals);
    Some (matcher.Match m (parser.Parse parser.NewJSONParser S5_line)))
   = Some true ∧
   (m ← matcher.New (Some S5_regex);
    Some (matcher.Match m (parser.Parse parser.NewJSONParser S5_line)))
   = Some true).
Proof.
  split; [|split; [|split; [|split]]].
  - intros data field. unfold parser.GetFieldString.
    repeat apply conj; intros; try match goal with
      | H : parser.GetField _ _ = _ |- _ => rewrite H end; try reflexivity.
    match goal with v : Value |- _ => destruct v; simpl in *; tauto end.
  - intros v. unfold FormatFloat_f. split; [|split].
    + apply FormatFloat_ParseFloat.
    + apply FormatFloat_integer.
    + intros neg m e Hv. exact (FormatFloat_shortest v _ _ _ neg m e Hv).
  - apply Itoa_text.
  - repeat apply conj; vm_compute; (reflexivity || discriminate).
  - repeat apply conj; vm_compute; reflexivity.
Qed.

Lemma GetFieldString_coercion_witness :
  parser.GetFieldString (Some {[ "user" := VString "ann" ]}) "user"
  = Some "ann" ∧
  parser.GetFieldString (Some {[ "user" := VSlice [] ]}) "user" = None.
Proof.
  destruct GetFieldString_coercion as [H _].
  destruct (H (Some {[ "user" := VString "ann" ]}) "user") as (Hs & _).
  destruct (H (Some {[ "user" := VSlice [] ]}) "user")
    as (_ & _ & _ & _ & _ & _ & Ho & _).
  split.
  - apply Hs. vm_compute. reflexivity.
  - apply (Ho (VSlice [])); [vm_compute; reflexivity | exact I].
Defined.

(** C3: when the parser of the source fails on a line, [processLine]
    returns the aggregator it was given, so the state of every metric is
    what it was, and the processor differs only by its parse-error counter,
    which is one more (in 64-bit arithmetic, so plainly one more below the
    largest [int64]). *)
Theorem parse_miss_frame (p : agent.sourceProcessor) (line : string)
    (agg : Aggregator) :
  parser.Parse (agent.parser p) line = None →
  ∃ p',
    agent.processLine p line agg = Some (p', agg) ∧
    agent.parseErrors p' = agent.int64 (agent.parseErrors p + 1) ∧
    (- 2 ^ 63 ≤ agent.parseErrors p < 2 ^ 63 - 1 →
       agent.parseErrors p' = agent.parseErrors p + 1) ∧
    agent.linesParsed p' = agent.linesParsed p ∧
    agent.linesMatched p' = agent.linesMatched p ∧
    agent.metrics p' = agent.metrics p ∧
    agent.parser p' = agent.parser p ∧
    agent.source p' = agent.source p.
Proof.
  intros Hmiss. unfold agent.processLine. rewrite Hmiss.
  eexists. split; [reflexivity|]. simpl.
  repeat apply conj; try reflexivity.
  intros Hrange. unfold agent.int64.
  rewrite Z.mod_small by lia. lia.
Qed.

Lemma parse_miss_frame_witness :
  ∃ p',
    agent.processLine S6_processor "not json" AggregatorSpec.sample
    = Some (p', AggregatorSpec.sample) ∧
    agent.parseErrors p' = 1.
Proof.
  destruct (parse_miss_frame S6_processor "not json" AggregatorSpec.sample)
    as (p' & Hrun & _ & Hone & _).
  - vm_compute. reflexivity.
  - exists p'. split; [exact Hrun|]. apply Hone. simpl. lia.
Defined.

End PipelineProps.

(* ===================================================================== *)
(** * The cardinality of a set metric                                   *)
(* ===================================================================== *)

Module SetMetricProps.
Import bytes aggregator PipelineSpec.


(** ** The writes keep the registry well formed *)

Lemma wf_New : wf New.
Proof.
  intros name m Hm. unfold New in Hm. simpl in Hm.
  by rewrite lookup_empty in Hm.
Qed.

Lemma wf_insert a name m :
  wf a → (mvType m = Set_ → is_Some (mvSet m)) →
  wf (mkAggregator (<[name := m]> (metrics a))).
Proof.
  intros Hwf Hm name' m' Hl. simpl in Hl.
  destruct (decide (name = name')) as [->|Hne].
  - rewrite lookup_insert_eq in Hl. by inversion Hl; subst.
  - rewrite lookup_insert_ne in Hl by done. by apply (Hwf name').
Qed.

Lemma wf_Register name t a : wf a → wf (Register name t a).
Proof.
  intros Hwf. unfold Register. destruct (metrics a !! name); [done|].
  apply wf_insert; [done|]. simpl. intros ->. by eexists.
Qed.

Lemma wf_Inc name a : wf a → wf (Inc name a).
Proof.
  intros Hwf. unfold Inc. destruct (metrics a !! name) as [m|] eqn:E; [|done].
  case_bool_decide; [|done]. apply wf_insert; [done|]. simpl. by apply (Hwf name).
Qed.

Lemma wf_SetGauge name v a : wf a → wf (SetGauge name v a).
Proof.
  intros Hwf. unfold SetGauge.
  destruct (metrics a !! name) as [m|] eqn:E; [|done].
  case_bool_decide; [|done]. apply wf_insert; [done|]. simpl. by apply (Hwf name).
Qed.

Lemma wf_Add name v a : wf a → wf (Add name v a).
Proof.
  intros Hwf. unfold Add. destruct (metrics a !! name) as [m|] eqn:E; [|done].
  case_bool_decide; [|done]. apply wf_insert; [done|]. simpl. by apply (Hwf name).
Qed.

(** In a well-formed registry [AddToSet] returns, with a well-formed
    registry. *)
Lemma AddToSet_wf name s a :
  wf a → ∃ a', AddToSet name s a = Some a' ∧ wf a'.
Proof.
  intros Hwf. unfold AddToSet.
  destruct (metrics a !! name) as [m|] eqn:E; [|by eexists].
  case_bool_decide as Ht; [|by eexists].
  destruct (Hwf name m E Ht) as [S ->].
  eexists. split; [done|]. apply wf_insert; [done|]. simpl. by eexists.
Qed.

(** ** The cell of a set under the writes *)






(** ** One rule, one line *)






(** ** What [New] builds *)

Lemma registerAll_app ms1 ms2 a :
  registerAll (ms1 ++ ms2) a = registerAll ms2 (registerAll ms1 a).
Proof. unfold registerAll. apply fold_left_app. Qed.

Lemma wf_registerAll ms : ∀ a, wf a → wf (registerAll ms a).
Proof.
  induction ms as [|M ms IH]; intros a Hwf; [done|].
  apply IH. by apply wf_Register.
Qed.



Lemma newMetricProcessors_spec ms : ∀ acc agg res agg',
  agent.newMetricProcessors ms acc agg = Some (res, agg') →
  ∃ new, res = acc ++ new ∧
    Forall2 ruleOf ms new ∧
    agg' = registerAll ms agg.
Proof.
  induction ms as [|M ms IH]; intros acc agg res agg' Hnew; simpl in Hnew.
  - inversion Hnew; subst. exists []. by rewrite app_nil_r.
  - destruct (matcher.New (config.Metric_Match M)) as [mt|] eqn:Hmt;
      [|done]. simpl in Hnew.
    destruct (IH _ _ _ _ Hnew) as (new & -> & Hall & ->).
    exists (agent.mkMetricProcessor M mt :: new).
    rewrite <- app_assoc. split; [done|]. split; [|done].
    by constructor.
Qed.

Lemma newSourceProcessor_spec src agg p agg' :
  agent.newSourceProcessor src agg = Some (p, agg') →
  builtFrom src p ∧ agg' = registerAll (config.Source_Metrics src) agg.
Proof.
  unfold agent.newSourceProcessor. intros Hnew.
  destruct (parser.New _ _) as [ps|] eqn:Hps; [|done]. simpl in Hnew.
  destruct (agent.newMetricProcessors _ _ _) as [[ms agg1]|] eqn:Hms; [|done].
  simpl in Hnew. inversion Hnew; subst.
  destruct (newMetricProcessors_spec _ _ _ _ _ Hms) as (new & -> & Hall & ->).
  by split.
Qed.

Lemma newProcessors_spec srcs : ∀ acc agg res agg',
  agent.newProcessors srcs acc agg = Some (res, agg') →
  ∃ new, res = acc ++ new ∧
    Forall2 builtFrom srcs new ∧
    agg' = registerAll (mjoin (config.Source_Metrics <$> srcs)) agg.
Proof.
  induction srcs as [|src srcs IH]; intros acc agg res agg' Hnew;
    simpl in Hnew.
  - inversion Hnew; subst. exists []. by rewrite app_nil_r.
  - destruct (agent.newSourceProcessor src agg) as [[p agg1]|] eqn:Hp;
      [|done]. simpl in Hnew.
    destruct (newSourceProcessor_spec _ _ _ _ Hp) as [Hb ->].
    destruct (IH _ _ _ _ Hnew) as (new & -> & Hall & ->).
    exists (p :: new). rewrite <- app_assoc. split; [done|].
    split; [by constructor|].
    simpl. by rewrite registerAll_app.
Qed.

Lemma New_spec opts a :
  agent.New opts = Some a →
  Forall2 builtFrom (config.Sources (agent.Config opts)) (agent.processors a) ∧
  agent.aggregator a = registerAll (allMetrics (agent.Config opts)) New.
Proof.
  unfold agent.New. intros Hnew.
  destruct (agent.newProcessors _ _ _) as [[ps agg]|] eqn:Hps; [|done].
  simpl in Hnew. inversion Hnew; subst. simpl.
  destruct (newProcessors_spec _ _ _ _ _ Hps) as (new & -> & Hall & ->).
  by split.
Qed.

(** ** Distinct names across the sources *)

Lemma NoDup_concat_inner {A B} (f : A → B) (ls : list (list A)) : ∀ i l,
  NoDup (f <$> mjoin ls) → ls !! i = Some l → NoDup (f <$> l).
Proof.
  induction ls as [|l0 ls IH]; intros i l Hnd Hl; [done|].
  simpl in Hnd. rewrite fmap_app in Hnd.
  apply NoDup_app in Hnd as (Hnd0 & _ & Hnd1).
  destruct i as [|i]; simpl in Hl.
  - by inversion Hl; subst.
  - by apply (IH i).
Qed.

Lemma NoDup_concat_outer {A B} (f : A → B) (ls : list (list A)) :
  ∀ i j l1 l2 x y,
  NoDup (f <$> mjoin ls) →
  ls !! i = Some l1 → ls !! j = Some l2 → i ≠ j →
  x ∈ l1 → y ∈ l2 → f x ≠ f y.
Proof.
  induction ls as [|l0 ls IH]; intros i j l1 l2 x y Hnd Hi Hj Hij Hx Hy;
    [done|].
  simpl in Hnd. rewrite fmap_app in Hnd.
  apply NoDup_app in Hnd as (Hnd0 & Hdisj & Hnd1).
  assert (Hin : ∀ k l z, ls !! k = Some l → z ∈ l → f z ∈ f <$> mjoin ls).
  { intros k l z Hk Hz. apply list_elem_of_fmap_2.
    apply list_elem_of_join. exists l. split; [done|].
    by apply (list_elem_of_lookup_2 _ k). }
  destruct i as [|i], j as [|j]; simpl in Hi, Hj.
  - done.
  - inversion Hi; subst. intros E. apply (Hdisj (f x)).
    + by apply list_elem_of_fmap_2.
    + rewrite E. by apply (Hin j l2).
  - inversion Hj; subst. intros E. apply (Hdisj (f y)).
    + by apply list_elem_of_fmap_2.
    + rewrite <- E. by apply (Hin i l1).
  - apply (IH i j l1 l2); try done. congruence.
Qed.

(** ** What the rules of a source add to one set *)




(** ** Lines through the agent *)

Section set_metric.
Context (srcs : list config.Source) (i : nat) (src : config.Source)
  (M : config.Metric).
Context
  (Hnames : NoDup (config.Metric_Name <$> mjoin (config.Source_Metrics <$> srcs)))
  (Hsrc : srcs !! i = Some src)
  (HM : M ∈ config.Source_Metrics src)
  (Htype : config.Metric_Type M = "set").



End set_metric.




End SetMetricProps.

(* ===================================================================== *)
(** * Properties of the line scanner                                    *)
(* ===================================================================== *)

Module TailerProps.
Import bytes tailer TailerSpec.


Lemma processLoop_unfold {H} (handler : string → H → H) limit s count h :
  processLoop handler limit s count h =
  match Scan s with
  | (true, s') =>
      if (0 <? limit) && (limit <=? count) then (count, s', h)
      else processLoop handler limit s' (count + 1) (handler (Text s') h)
  | (false, s') => (count, s', h)
  end.
Proof.
  rewrite processLoop_equation_1.
  destruct (inspect (Scan s)) as [[[] s'] E]; simpl; rewrite E; reflexivity.
Qed.

Lemma bytesReader_app a b :
  bytesReader (a ++ b) = bytesReader a ++ bytesReader b.
Proof. unfold bytesReader. apply fmap_app. Qed.

(** A line within the limit and its newline: the line is returned. *)
Lemma scanLoop_line line : ∀ buf rest e,
  newline ∉ line →
  Z.of_nat (length buf + length line) ≤ maxLine →
  scanLoop (bytesReader (line ++ newline :: rest)) buf e
  = (true, mkLineScanner (buf ++ line) (bytesReader rest)
             (toString (buf ++ line)) e).
Proof.
  unfold maxLine.
  induction line as [|c line IH]; intros buf rest e Hnl Hlen; simpl.
  - by rewrite app_nil_r.
  - apply not_elem_of_cons in Hnl as [Hc Hnl].
    rewrite bool_decide_eq_false_2 by congruence.
    rewrite bool_decide_eq_false_2
      by (rewrite length_app; simpl in *; lia).
    rewrite IH; [|done|rewrite length_app; simpl in *; lia].
    by rewrite <- app_assoc.
Qed.

(** The end of the input after a line within the limit: the line is
    returned when it is not empty. *)
Lemma scanLoop_last line : ∀ buf e,
  newline ∉ line →
  Z.of_nat (length buf + length line) ≤ maxLine →
  scanLoop (bytesReader line) buf e
  = if bool_decide (0 < Z.of_nat (length (buf ++ line)))
    then (true, mkLineScanner (buf ++ line) [] (toString (buf ++ line)) e)
    else (false, mkLineScanner (buf ++ line) [] EmptyString e).
Proof.
  unfold maxLine.
  induction line as [|c line IH]; intros buf e Hnl Hlen; simpl.
  - by rewrite app_nil_r.
  - apply not_elem_of_cons in Hnl as [Hc Hnl].
    rewrite bool_decide_eq_false_2 by congruence.
    rewrite bool_decide_eq_false_2
      by (rewrite length_app; simpl in *; lia).
    rewrite IH; [|done|rewrite length_app; simpl in *; lia].
    by rewrite <- app_assoc.
Qed.

(** More than [maxLine] bytes without a newline: the scan stops with the
    error, whatever follows. *)
Lemma scanLoop_long line : ∀ buf rest e,
  newline ∉ line →
  Z.of_nat (length buf) ≤ maxLine →
  maxLine < Z.of_nat (length buf + length line) →
  ∃ s', scanLoop (bytesReader (line ++ rest)) buf e = (false, s') ∧
        err s' = Some tooLong.
Proof.
  unfold maxLine.
  induction line as [|c line IH]; intros buf rest e Hnl Hbuf Hlen; simpl.
  - simpl in Hlen. lia.
  - apply not_elem_of_cons in Hnl as [Hc Hnl].
    rewrite bool_decide_eq_false_2 by congruence.
    case_bool_decide as Hover.
    + eexists. split; reflexivity.
    + rewrite length_app in Hover.
      apply IH; [done| |]; rewrite length_app; simpl in *; lia.
Qed.

(** The loop looks only at the reader and the error of the scanner. *)
Lemma processLoop_fields {H} (handler : string → H → H) limit b r l e count h :
  processLoop handler limit (mkLineScanner b r l e) count h
  = processLoop handler limit (mkLineScanner [] r EmptyString e) count h.
Proof. by rewrite !(processLoop_unfold _ _ (mkLineScanner _ _ _ _)). Qed.

(** The loop hands every line of a run of good lines to the handler and
    goes on with what follows them. *)
Lemma processLoop_lines {H} (handler : string → H → H) limit tail e lines :
  ∀ b l count h,
  limit ≤ 0 →
  Forall okLine lines →
  processLoop handler limit
    (mkLineScanner b (bytesReader (unlines lines ++ tail)) l e) count h
  = processLoop handler limit
      (mkLineScanner [] (bytesReader tail) EmptyString e)
      (count + Z.of_nat (length lines)) (handled handler lines h).
Proof.
  induction lines as [|x lines IH]; intros b l count h Hlimit Hok.
  - simpl. rewrite Z.add_0_r. apply processLoop_fields.
  - apply Forall_cons in Hok as [[Hnl Hlen] Hok].
    rewrite processLoop_unfold. unfold Scan. simpl reader. simpl err.
    simpl unlines. rewrite <- app_assoc. simpl app.
    rewrite scanLoop_line by (simpl; first [done | lia]).
    replace (0 <? limit) with false by lia. simpl andb. cbv iota.
    rewrite IH by done. unfold Text. simpl.
    f_equal. lia.
Qed.

(** After the last newline: what is left, when it is a good line, is
    handled as a line unless it is empty, and the reading ends without an
    error of its own. *)
Lemma processLoop_last {H} (handler : string → H → H) limit e last count h :
  limit ≤ 0 →
  okLine last →
  ∃ s',
    processLoop handler limit
      (mkLineScanner [] (bytesReader last) EmptyString e) count h
    = (count + (if bool_decide (last = []) then 0 else 1), s',
       handled handler (if bool_decide (last = []) then [] else [last]) h) ∧
    err s' = e.
Proof.
  intros Hlimit [Hnl Hlen].
  rewrite processLoop_unfold. unfold Scan. simpl reader. simpl err.
  rewrite scanLoop_last by (simpl; first [done | lia]). simpl app.
  destruct last as [|c last].
  - simpl. eexists. split; [rewrite Z.add_0_r; reflexivity | reflexivity].
  - rewrite bool_decide_eq_true_2 by (simpl; lia).
    replace (0 <? limit) with false by lia. simpl andb. cbv iota.
    rewrite processLoop_unfold. unfold Scan. simpl.
    eexists. split; reflexivity.
Qed.

(** A line beyond the limit ends the loop with the error, and the handler
    is not called for it. *)
Lemma processLoop_long {H} (handler : string → H → H) limit e bad rest count h :
  newline ∉ bad →
  maxLine < Z.of_nat (length bad) →
  ∃ s',
    processLoop handler limit
      (mkLineScanner [] (bytesReader (bad ++ rest)) EmptyString e) count h
    = (count, s', h) ∧
    err s' = Some tooLong.
Proof.
  intros Hnl Hlen.
  rewrite processLoop_unfold. unfold Scan. simpl reader. simpl err.
  destruct (scanLoop_long bad [] rest e Hnl) as (s' & -> & Herr).
  - simpl. unfold maxLine. lia.
  - simpl. lia.
  - by exists s'.
Qed.

(** C8: reading a stream with [ProcessReader] (no cap on the count) hands
    every line of at most 1 MiB, newline excluded, whole to the handler, in
    order, and returns no error when every line is within that length;
    when a line is longer, the lines before it are handled and the error
    [reading: line too long] is returned. A line of exactly 1 MiB is
    handled; one of 1 MiB plus one byte gives the error. *)
Theorem ProcessReader_line_limit {H : Type} (handler : string → H → H)
    (limit : Z) (lines : list (list ascii)) (h : H) :
  limit ≤ 0 →
  Forall okLine lines →
  (∀ last, okLine last →
     ProcessReader (bytesReader (unlines lines ++ last)) handler limit h
     = (Z.of_nat (length lines) + (if bool_decide (last = []) then 0 else 1),
        None,
        handled handler
          (lines ++ if bool_decide (last = []) then [] else [last]) h)) ∧
  (∀ bad rest, newline ∉ bad → maxLine < Z.of_nat (length bad) →
     ProcessReader (bytesReader (unlines lines ++ bad ++ rest)) handler limit h
     = (Z.of_nat (length lines), Some (Wrap "reading: " tooLong),
        handled handler lines h)) ∧
  (∀ line, newline ∉ line → Z.of_nat (length line) = 1048576 →
     ProcessReader (bytesReader (unlines [line])) handler limit h
     = (1, None, handler (toString line) h)) ∧
  (∀ line, newline ∉ line → Z.of_nat (length line) = 1048576 + 1 →
     ProcessReader (bytesReader (unlines [line])) handler limit h
     = (0, Some (Wrap "reading: " tooLong), h)).
Proof.
  intros Hlimit Hok.
  assert (Hgood : ∀ ls last, Forall okLine ls → okLine last →
     ProcessReader (bytesReader (unlines ls ++ last)) handler limit h
     = (Z.of_nat (length ls) + (if bool_decide (last = []) then 0 else 1),
        None,
        handled handler
          (ls ++ if bool_decide (last = []) then [] else [last]) h)).
  { intros ls last Hls Hlast. unfold ProcessReader, NewLineScanner.
    rewrite processLoop_lines by done.
    destruct (processLoop_last handler limit None last
                (0 + Z.of_nat (length ls)) (handled handler ls h) Hlimit Hlast)
      as (s' & -> & Herr).
    unfold Err. rewrite Herr. unfold handled. by rewrite fold_left_app. }
  assert (Hbad : ∀ ls bad rest, Forall okLine ls →
     newline ∉ bad → maxLine < Z.of_nat (length bad) →
     ProcessReader (bytesReader (unlines ls ++ bad ++ rest)) handler limit h
     = (Z.of_nat (length ls), Some (Wrap "reading: " tooLong),
        handled handler ls h)).
  { intros ls bad rest Hls Hnl Hlen. unfold ProcessReader, NewLineScanner.
    rewrite processLoop_lines by done.
    destruct (processLoop_long handler limit None bad rest
                (0 + Z.of_nat (length ls)) (handled handler ls h) Hnl Hlen)
      as (s' & -> & Herr).
    unfold Err. by rewrite Herr. }
  repeat apply conj.
  - intros last. by apply Hgood.
  - intros bad rest. by apply Hbad.
  - intros line Hnl Hlen.
    assert (Hl : okLine line) by (split; [done | unfold maxLine; lia]).
    assert (Hnil : okLine []).
    { split; [apply not_elem_of_nil | simpl; unfold maxLine; lia]. }
    pose proof (Hgood [line] [] (Forall_cons_2 _ _ _ Hl (Forall_nil_2 _)) Hnil) as Hg.
    simpl in Hg. rewrite app_nil_r in Hg. exact Hg.
  - intros line Hnl Hlen.
    assert (Hl : maxLine < Z.of_nat (length line)) by (unfold maxLine; lia).
    exact (Hbad [] line [newline] (Forall_nil_2 _) Hnl Hl).
Qed.

Lemma ProcessReader_line_limit_witness :
  ProcessReader
    (bytesReader (unlines [ofString "ab"; ofString "cd"] ++ ofString "ef"))
    collect 0 []
  = (3, None, ["ab"; "cd"; "ef"]) ∧
  ProcessReader
    (bytesReader (unlines [ofString "ab"; ofString "cd"]
                  ++ longLine (maxLine + 1) ++ ofString "ef"))
    collect 0 []
  = (2, Some (Wrap "reading: " tooLong), ["ab"; "cd"]).
Proof.
  assert (Hok : Forall okLine [ofString "ab"; ofString "cd"]).
  { repeat constructor; try (vm_compute; discriminate).
    - intros Hin. by repeat (apply elem_of_cons in Hin as [Hin | Hin];
        [discriminate Hin|]); apply elem_of_nil in Hin.
    - intros Hin. by repeat (apply elem_of_cons in Hin as [Hin | Hin];
        [discriminate Hin|]); apply elem_of_nil in Hin. }
  destruct (ProcessReader_line_limit collect 0 [ofString "ab"; ofString "cd"]
              [] (Z.le_refl 0) Hok) as (Hgood & Hbad & _).
  split.
  - apply (Hgood (ofString "ef")). split; [|vm_compute; discriminate].
    intros Hin. by repeat (apply elem_of_cons in Hin as [Hin | Hin];
      [discriminate Hin|]); apply elem_of_nil in Hin.
  - apply Hbad.
    + intros Hin. unfold longLine in Hin.
      apply elem_of_replicate in Hin as [Hin _]. discriminate Hin.
    + unfold longLine. rewrite length_replicate. unfold maxLine. lia.
Defined.

End TailerProps.

(* ===================================================================== *)
(** * Properties of the deployment-mode probe                           *)
(* ===================================================================== *)

Module SenderProps.
Import SenderSpec.

(** C9, as stated, fails: in a Docker container the specified mode is
    [docker], but [detectDeploymentMode] answers [standalone], even when
    its environment hook is [os.LookupEnv] itself, because [fileExists]
    never looks at the file system. *)
Lemma detectDeploymentMode_misses_docker :
  specifiedMode dockerHost = "docker" ∧
  sender.detectDeploymentMode (LookupEnv dockerHost) = "standalone" ∧
  sender.detectDeploymentMode (LookupEnv dockerHost)
  ≠ specifiedMode dockerHost.
Proof.
  assert (Hs : specifiedMode dockerHost = "docker") by (vm_compute; reflexivity).
  assert (Hd : sender.detectDeploymentMode (LookupEnv dockerHost) = "standalone")
    by reflexivity.
  repeat apply conj; [exact Hs | exact Hd|].
  rewrite Hs, Hd. discriminate.
Qed.

(** As the package initialises its hook, which reports every variable
    absent, the answer is [standalone]. *)
Lemma detectDeploymentMode_as_initialised :
  sender.detectDeploymentMode sender.lookupEnv = "standalone".
Proof. reflexivity. Qed.

(** C9, amended: [detectDeploymentMode] returns [kubernetes] when its
    environment hook reports the Kubernetes service-host variable present
    and [standalone] otherwise; it never returns [docker] or [container],
    the two helpers for them being stubs that return false. *)
Theorem detectDeploymentMode_two_modes
    (lookupEnv : string → string * bool) :
  sender.detectDeploymentMode lookupEnv
  = (if (lookupEnv "KUBERNETES_SERVICE_HOST").2
     then "kubernetes" else "standalone") ∧
  sender.detectDeploymentMode lookupEnv ≠ "docker" ∧
  sender.detectDeploymentMode lookupEnv ≠ "container".
Proof.
  unfold sender.detectDeploymentMode, sender.fileExists, sender.isInContainer.
  destruct (lookupEnv "KUBERNETES_SERVICE_HOST") as [v []]; simpl;
    repeat apply conj; (reflexivity || discriminate).
Qed.

End SenderProps.

(* ===================================================================== *)
(** * Properties of the aggregator over sequences of calls               *)
(* ===================================================================== *)

Module AggregatorCallsProps.
Import aggregator AggregatorSpec AggregatorCalls.

Lemma call_type a b n m :
  call a b → metrics a !! n = Some m →
  ∃ m', metrics b !! n = Some m' ∧ mvType m' = mvType m.
Proof.
  intros Hcall Hm. destruct Hcall as
    [name t a|name a|name v a|name v a|name s a a' Hadd|a|a].
  - unfold Register. destruct (metrics a !! name) eqn:E; [by exists m|].
    simpl. exists m. rewrite lookup_insert_ne; [done|]. congruence.
  - unfold Inc. destruct (metrics a !! name) as [m0|] eqn:E; [|by exists m].
    case_bool_decide; [|by exists m]. simpl.
    destruct (decide (name = n)) as [->|Hne].
    + rewrite lookup_insert_eq. eexists. split; [done|]. simpl. congruence.
    + rewrite lookup_insert_ne by done. by exists m.
  - unfold SetGauge. destruct (metrics a !! name) as [m0|] eqn:E; [|by exists m].
    case_bool_decide; [|by exists m]. simpl.
    destruct (decide (name = n)) as [->|Hne].
    + rewrite lookup_insert_eq. eexists. split; [done|]. simpl. congruence.
    + rewrite lookup_insert_ne by done. by exists m.
  - unfold Add. destruct (metrics a !! name) as [m0|] eqn:E; [|by exists m].
    case_bool_decide; [|by exists m]. simpl.
    destruct (decide (name = n)) as [->|Hne].
    + rewrite lookup_insert_eq. eexists. split; [done|]. simpl. congruence.
    + rewrite lookup_insert_ne by done. by exists m.
  - unfold AddToSet in Hadd.
    destruct (metrics a !! name) as [m0|] eqn:E;
      [|inversion Hadd; subst; by exists m].
    case_bool_decide; [|inversion Hadd; subst; by exists m].
    destruct (mvSet m0); [|done]. inversion Hadd; subst. simpl.
    destruct (decide (name = n)) as [->|Hne].
    + rewrite lookup_insert_eq. eexists. split; [done|]. simpl. congruence.
    + rewrite lookup_insert_ne by done. by exists m.
  - unfold Snapshot. simpl. rewrite lookup_fmap, Hm. simpl.
    eexists. split; [done|]. unfold snapshotEntry.
    by repeat case_bool_decide.
  - unfold Reset. simpl. rewrite lookup_fmap, Hm. simpl. by eexists.
Qed.

(** X1: over any sequence of calls, a registered name stays registered and
    keeps the type of its first registration; [GetMetricType] answers the
    same before and after. *)
Theorem type_is_immutable (a b : Aggregator) (n : string) (m : MetricValue) :
  rtc call a b →
  metrics a !! n = Some m →
  (∃ m', metrics b !! n = Some m' ∧ mvType m' = mvType m) ∧
  GetMetricType n b = (mvType m, true) ∧
  GetMetricType n b = GetMetricType n a.
Proof.
  intros Hcalls Hm.
  assert (H : ∃ m', metrics b !! n = Some m' ∧ mvType m' = mvType m).
  { revert m Hm. induction Hcalls as [a|a b c Hab Hbc IH]; intros m Hm.
    - by exists m.
    - destruct (call_type a b n m Hab Hm) as (m1 & Hm1 & Ht1).
      destruct (IH m1 Hm1) as (m2 & Hm2 & Ht2).
      exists m2. split; [done|]. congruence. }
  split; [exact H|]. destruct H as (m' & Hm' & Ht).
  unfold GetMetricType. rewrite Hm', Hm, Ht. done.
Qed.

Lemma type_is_immutable_witness :
  GetMetricType "c" (Reset (Snapshot (Register "c" Set_ (Inc "c" sample))).2)
  = (Counter, true).
Proof.
  apply (type_is_immutable sample _ "c" (mkMetricValue Counter 3 None)).
  - eapply rtc_l; [apply (call_Inc "c")|].
    eapply rtc_l; [apply (call_Register "c" Set_)|].
    eapply rtc_l; [apply call_Snapshot|].
    eapply rtc_l; [apply call_Reset|]. apply rtc_refl.
  - reflexivity.
Defined.

Lemma call_made_sets a b :
  call a b →
  (∀ n m, metrics a !! n = Some m → (mvType m = Set_ ↔ is_Some (mvSet m))) →
  (∀ n m, metrics b !! n = Some m → (mvType m = Set_ ↔ is_Some (mvSet m))).
Proof.
  intros Hcall Hinv n m Hm.
  assert (Hins : ∀ k m0 m1 (mm : gmap string MetricValue),
    mm = metrics a → metrics a !! k = Some m0 →
    mvType m1 = mvType m0 → (is_Some (mvSet m1) ↔ is_Some (mvSet m0)) →
    <[k := m1]> mm !! n = Some m → (mvType m = Set_ ↔ is_Some (mvSet m))).
  { intros k m0 m1 mm -> Hk Ht Hs Hl.
    destruct (decide (k = n)) as [->|Hne].
    - rewrite lookup_insert_eq in Hl. inversion Hl; subst.
      rewrite Ht, Hs. by apply (Hinv n).
    - rewrite lookup_insert_ne in Hl by done. by apply (Hinv n). }
  destruct Hcall as [name t a|name a|name v a|name v a|name s a a' Hadd|a|a].
  - unfold Register in Hm. destruct (metrics a !! name) eqn:E;
      [by apply (Hinv n)|]. simpl in Hm.
    destruct (decide (name = n)) as [->|Hne].
    + rewrite lookup_insert_eq in Hm. inversion Hm; subst. simpl.
      case_bool_decide; split;
        first [done | by eexists | by intros [? ?]].
    + rewrite lookup_insert_ne in Hm by done. by apply (Hinv n).
  - unfold Inc in Hm. destruct (metrics a !! name) as [m0|] eqn:E;
      [|by apply (Hinv n)].
    case_bool_decide; [|by apply (Hinv n)].
    by apply (Hins name m0 _ _ eq_refl E) in Hm.
  - unfold SetGauge in Hm. destruct (metrics a !! name) as [m0|] eqn:E;
      [|by apply (Hinv n)].
    case_bool_decide; [|by apply (Hinv n)].
    by apply (Hins name m0 _ _ eq_refl E) in Hm.
  - unfold Add in Hm. destruct (metrics a !! name) as [m0|] eqn:E;
      [|by apply (Hinv n)].
    case_bool_decide; [|by apply (Hinv n)].
    by apply (Hins name m0 _ _ eq_refl E) in Hm.
  - unfold AddToSet in Hadd. destruct (metrics a !! name) as [m0|] eqn:E;
      [|inversion Hadd; subst; by apply (Hinv n)].
    case_bool_decide; [|inversion Hadd; subst; by apply (Hinv n)].
    destruct (mvSet m0) as [S|] eqn:ES; [|done]. inversion Hadd; subst.
    simpl in Hm. apply (Hins name m0 _ _ eq_refl E) in Hm; try done.
  - unfold Snapshot in Hm. simpl in Hm. rewrite lookup_fmap in Hm.
    destruct (metrics a !! n) as [m0|] eqn:E; [|done]. simpl in Hm.
    inversion Hm; subst. pose proof (Hinv n m0 E) as Hm0.
    unfold snapshotEntry.
    repeat case_bool_decide; simpl; try done; split; by eexists.
  - unfold Reset in Hm. simpl in Hm. rewrite lookup_fmap in Hm.
    destruct (metrics a !! n) as [m0|] eqn:E; [|done]. simpl in Hm.
    inversion Hm; subst. pose proof (Hinv n m0 E) as Hm0.
    unfold resetEntry. simpl.
    case_bool_decide; try done; split; by eexists.
Qed.

(** X2: in every registry that calls of the interface build from [New], a
    metric holds a made set exactly when its type is set; so [AddToSet]
    never meets a nil map: it returns, for any name and value. *)
Theorem AddToSet_never_panics (a : Aggregator) :
  reachable a →
  (∀ n m, metrics a !! n = Some m → (mvType m = Set_ ↔ is_Some (mvSet m))) ∧
  (∀ name value, ∃ a', AddToSet name value a = Some a' ∧ reachable a').
Proof.
  intros Hreach.
  assert (Hinv : ∀ n m, metrics a !! n = Some m →
                 (mvType m = Set_ ↔ is_Some (mvSet m))).
  { unfold reachable in Hreach.
    pattern a. eapply (rtc_ind_r _ New); [| |exact Hreach].
    - intros n m Hm. unfold New in Hm. simpl in Hm.
      by rewrite lookup_empty in Hm.
    - intros b c _ Hcall IH. by apply (call_made_sets b c). }
  split; [exact Hinv|].
  intros name value.
  assert (Hsome : ∃ a', AddToSet name value a = Some a').
  { unfold AddToSet. destruct (metrics a !! name) as [m|] eqn:E; [|by eexists].
    case_bool_decide as Ht; [|by eexists].
    destruct (proj1 (Hinv name m E) Ht) as [S ->]. by eexists. }
  destruct Hsome as [a' Ha']. exists a'. split; [done|].
  eapply rtc_r; [exact Hreach|]. by eapply call_AddToSet.
Qed.

Lemma AddToSet_never_panics_witness :
  ∃ a', AddToSet "users" "ada" (Reset (Register "users" Set_ New)) = Some a' ∧
        reachable a'.
Proof.
  apply (AddToSet_never_panics (Reset (Register "users" Set_ New))).
  eapply rtc_l; [apply (call_Register "users" Set_)|].
  eapply rtc_l; [apply call_Reset|]. apply rtc_refl.
Defined.

Lemma Peek_at a name : Peek a !! name = metrics a !! name ≫= peekEntry.
Proof. unfold Peek. apply lookup_omap. Qed.

(** X3: a call that names a metric leaves every other name as it was, in
    the registry and in what [Peek] shows. *)
Theorem writes_leave_other_names (a : Aggregator) (name other : string)
    (t : MetricType) (v : float) (s : string) :
  name ≠ other →
  (metrics (Register name t a) !! other = metrics a !! other ∧
   metrics (Inc name a) !! other = metrics a !! other ∧
   metrics (SetGauge name v a) !! other = metrics a !! other ∧
   metrics (Add name v a) !! other = metrics a !! other ∧
   (∀ a', AddToSet name s a = Some a' →
      metrics a' !! other = metrics a !! other)) ∧
  (Peek (Register name t a) !! other = Peek a !! other ∧
   Peek (Inc name a) !! other = Peek a !! other ∧
   Peek (SetGauge name v a) !! other = Peek a !! other ∧
   Peek (Add name v a) !! other = Peek a !! other ∧
   (∀ a', AddToSet name s a = Some a' →
      Peek a' !! other = Peek a !! other)).
Proof.
  intros Hne.
  assert (H : metrics (Register name t a) !! other = metrics a !! other ∧
   metrics (Inc name a) !! other = metrics a !! other ∧
   metrics (SetGauge name v a) !! other = metrics a !! other ∧
   metrics (Add name v a) !! other = metrics a !! other ∧
   (∀ a', AddToSet name s a = Some a' →
      metrics a' !! other = metrics a !! other)).
  { unfold Register, Inc, SetGauge, Add, AddToSet.
    destruct (metrics a !! name) as [m|]; simpl.
    - repeat case_bool_decide; repeat apply conj; simpl;
        rewrite ?lookup_insert_ne by done; try done;
        intros a' Ha'; destruct (mvSet m); inversion Ha'; subst; simpl;
        by rewrite ?lookup_insert_ne by done.
    - repeat apply conj; simpl; rewrite ?lookup_insert_ne by done; try done.
      by intros a' [= <-]. }
  split; [exact H|].
  destruct H as (H1 & H2 & H3 & H4 & H5).
  rewrite !Peek_at, H1, H2, H3, H4. repeat apply conj; try done.
  intros a' Ha'. by rewrite Peek_at, (H5 a' Ha').
Qed.

Lemma writes_leave_other_names_witness :
  Peek (Inc "c" sample) !! "g" = Peek sample !! "g" ∧
  Peek (SetGauge "g" 1 sample) !! "c" = Peek sample !! "c".
Proof.
  split.
  - destruct (writes_leave_other_names sample "c" "g" Counter 0 EmptyString)
      as [_ (_ & Hinc & _)]; [discriminate|exact Hinc].
  - destruct (writes_leave_other_names sample "g" "c" Gauge 1 EmptyString)
      as [_ (_ & _ & Hset & _)]; [discriminate|exact Hset].
Defined.

(** X4: [Reset] empties every accumulator, gauges included: a [Peek] after
    it shows 0.0 for each counter, gauge and sum and 0 for each set. It is
    idempotent, and it absorbs [Snapshot]: resetting after a snapshot, or
    the state left by a snapshot after a reset, is the reset state. *)
Theorem Reset_clears_everything (a : Aggregator) :
  (∀ name m, metrics a !! name = Some m →
     (mvType m = Counter ∨ mvType m = Gauge ∨ mvType m = Sum →
        Peek (Reset a) !! name = Some (Float64 0)) ∧
     (mvType m = Set_ → Peek (Reset a) !! name = Some (Int 0))) ∧
  Reset (Reset a) = Reset a ∧
  Reset (Snapshot a).2 = Reset a ∧
  (Snapshot (Reset a)).2 = Reset a.
Proof.
  repeat apply conj.
  - intros name m Hm. rewrite Peek_at. unfold Reset. simpl.
    rewrite lookup_fmap, Hm. simpl. unfold peekEntry, resetEntry. simpl.
    split.
    + intros Ht. by rewrite bool_decide_eq_true_2.
    + intros Ht. rewrite Ht. reflexivity.
  - unfold Reset. simpl. f_equal. rewrite <- map_fmap_compose.
    apply map_fmap_ext. intros name m _. unfold resetEntry. simpl.
    by case_bool_decide.
  - unfold Reset, Snapshot. simpl. f_equal. rewrite <- map_fmap_compose.
    apply map_fmap_ext. intros name m _. simpl.
    unfold resetEntry, snapshotEntry.
    repeat case_bool_decide; simpl; try done; congruence.
  - unfold Reset, Snapshot. simpl. f_equal. rewrite <- map_fmap_compose.
    apply map_fmap_ext. intros name m _. simpl.
    unfold resetEntry, snapshotEntry. simpl.
    repeat case_bool_decide; simpl; try done; congruence.
Qed.

Lemma addAll_closed name values : ∀ a v S,
  metrics a !! name = Some (mkMetricValue Set_ v (Some S)) →
  addAll name values a
  = Some (mkAggregator
            (<[name := mkMetricValue Set_ v (Some (list_to_set values ∪ S))]>
               (metrics a))).
Proof.
  induction values as [|x values IH]; intros a v S Hm; simpl.
  - rewrite (left_id_L ∅ (∪)). rewrite insert_id by done. by destruct a.
  - unfold AddToSet at 1. rewrite Hm. simpl.
    erewrite IH by (simpl; apply lookup_insert_eq). simpl.
    rewrite insert_insert_eq.
    assert (E : list_to_set values ∪ ({[x]} ∪ S)
                =@{gset string} list_to_set (x :: values) ∪ S)
      by (apply set_eq; set_solver).
    by rewrite E.
Qed.

(** X5: adding values to a set metric one by one gives the set of the
    values: the state depends neither on the order of the values nor on
    their repetitions, and [Peek] shows the number of distinct values
    (those already there included). Other names are left as they were. *)
Theorem AddToSet_counts_distinct (a : Aggregator) (name : string)
    (v : float) (S : gset string) (values : list string) :
  metrics a !! name = Some (mkMetricValue Set_ v (Some S)) →
  (∃ a', addAll name values a = Some a' ∧
     Peek a' !! name
     = Some (Int (Z.of_nat (size (list_to_set values ∪ S)))) ∧
     ∀ other, other ≠ name → metrics a' !! other = metrics a !! other) ∧
  (∀ values', values' ≡ₚ values →
     addAll name values' a = addAll name values a) ∧
  (∀ x, x ∈ values → addAll name (x :: values) a = addAll name values a).
Proof.
  intros Hm. repeat apply conj.
  - eexists. split; [by apply addAll_closed|]. split.
    + rewrite Peek_at. simpl. rewrite lookup_insert_eq. reflexivity.
    + intros other Hne. simpl. by rewrite lookup_insert_ne.
  - intros values' Hperm. rewrite !(addAll_closed _ _ _ _ _ Hm).
    assert (E : list_to_set values' ∪ S =@{gset string} list_to_set values ∪ S).
    { apply set_eq. intros x.
      rewrite !elem_of_union, !elem_of_list_to_set. by rewrite Hperm. }
    by rewrite E.
  - intros x Hx. rewrite !(addAll_closed _ _ _ _ _ Hm).
    assert (E : list_to_set (x :: values) ∪ S
                =@{gset string} list_to_set values ∪ S)
      by (apply set_eq; set_solver).
    by rewrite E.
Qed.

Lemma AddToSet_counts_distinct_witness :
  ∃ a', addAll "u" ["b"; "c"; "c"] sample = Some a' ∧
        Peek a' !! "u" = Some (Int 3).
Proof.
  destruct (AddToSet_counts_distinct sample "u" 0 {["a"; "b"]} ["b"; "c"; "c"])
    as [(a' & Hadd & Hpeek & _) _].
  - reflexivity.
  - exists a'. split; [exact Hadd|]. rewrite Hpeek.
    by vm_compute.
Defined.

End AggregatorCallsProps.

(* ===================================================================== *)
(** * Properties of the configuration and of the matcher                 *)
(* ===================================================================== *)

Module ConfigProps.
Import bytes aggregator AggregatorSpec PipelineSpec AggregatorCalls
  AggregatorCallsProps ConfigSpec.

(** ** The matcher of a match *)

Lemma in_as_list (l : list string) (val : string) (other : bool) :
  match (if bool_decide (0 < length l)%nat
         then Some (list_to_set l : gset string) else None) with
  | Some set => bool_decide (val ∈ set)
  | None => other
  end
  = if bool_decide (l ≠ []) then bool_decide (val ∈ l) else other.
Proof.
  destruct l as [|x l]; [done|].
  rewrite (bool_decide_eq_true_2 (x :: l ≠ [])) by done.
  rewrite (bool_decide_eq_true_2 (0 < length (x :: l))%nat) by (simpl; lia).
  apply bool_decide_ext. by rewrite elem_of_list_to_set.
Qed.

Lemma Match_of_New mt m data :
  matcher.New (Some mt) = Some m →
  matcher.Match m data
  = match parser.GetFieldString data (config.Match_Field mt) with
    | Some val => conditionHolds mt val
    | None => false
    end.
Proof.
  intros Hnew. unfold matcher.New in Hnew. unfold conditionHolds.
  destruct (decide (config.Match_Regex mt ≠ EmptyString)) as [Hre|Hre].
  - rewrite bool_decide_eq_true_2 in Hnew by done.
    rewrite (bool_decide_eq_true_2 (config.Match_Regex mt ≠ EmptyString))
      by done.
    destruct (regexp.Compile (config.Match_Regex mt)) as [re|] eqn:Hc;
      simpl in Hnew; [|done].
    inversion Hnew; subst. clear Hnew. unfold matcher.Match. simpl.
    destruct data as [d|]; [|done].
    destruct (parser.GetFieldString (Some d) (config.Match_Field mt))
      as [val|]; [|done].
    destruct (bool_decide (config.Match_Equals mt ≠ EmptyString)); [done|].
    apply in_as_list.
  - rewrite bool_decide_eq_false_2 in Hnew by done.
    rewrite (bool_decide_eq_false_2 (config.Match_Regex mt ≠ EmptyString))
      by done.
    inversion Hnew; subst. clear Hnew. unfold matcher.Match. simpl.
    destruct data as [d|]; [|done].
    destruct (parser.GetFieldString (Some d) (config.Match_Field mt))
      as [val|]; [|done].
    destruct (bool_decide (config.Match_Equals mt ≠ EmptyString)); [done|].
    apply in_as_list.
Qed.

Lemma conditions_zero mt val :
  config.conditions mt = 0 → conditionHolds mt val = false.
Proof.
  unfold config.conditions, conditionHolds. intros Hzero.
  destruct (config.Match_In mt) as [|x l]; simpl in *;
    repeat case_bool_decide; try done; lia.
Qed.

(** X6: the matcher built from a match block decides by the first
    condition that is set, in the order equals, in, regex, contains, on
    the string of the field; it fails when the field cannot be resolved as
    a string, also on a nil record. A block without any condition never
    matches. *)
Theorem Match_by_first_condition (mt : config.Match) (m : matcher.Matcher)
    (data : Data) :
  matcher.New (Some mt) = Some m →
  matcher.Match m data
  = match parser.GetFieldString data (config.Match_Field mt) with
    | Some val => conditionHolds mt val
    | None => false
    end ∧
  (parser.GetFieldString data (config.Match_Field mt) = None →
   matcher.Match m data = false) ∧
  (config.conditions mt = 0 → matcher.Match m data = false).
Proof.
  intros Hnew. rewrite (Match_of_New mt m data Hnew).
  repeat apply conj; [done| |].
  - by intros ->.
  - intros Hzero.
    destruct (parser.GetFieldString data (config.Match_Field mt)); [|done].
    by apply conditions_zero.
Qed.

Lemma Match_by_first_condition_witness :
  ∃ m,
    matcher.New (Some (config.mkMatch "status" "" ["500"; "502"] "^2" ""))
    = Some m ∧
    matcher.Match m (Some {[ "status" := value.VInt 502 ]}) = true ∧
    matcher.Match m (Some {[ "status" := value.VInt 200 ]}) = false ∧
    matcher.Match m (Some {[ "code" := value.VInt 502 ]}) = false.
Proof.
  pose (mt := config.mkMatch "status" "" ["500"; "502"] "^2" "").
  assert (Hnew : ∃ m, matcher.New (Some mt) = Some m)
    by (vm_compute; eexists; reflexivity).
  destruct Hnew as [m Hnew]. exists m. split; [exact Hnew|].
  split; [|split].
  - destruct (Match_by_first_condition mt m
                (Some {[ "status" := value.VInt 502 ]}) Hnew) as (-> & _).
    vm_compute. reflexivity.
  - destruct (Match_by_first_condition mt m
                (Some {[ "status" := value.VInt 200 ]}) Hnew) as (-> & _).
    vm_compute. reflexivity.
  - destruct (Match_by_first_condition mt m
                (Some {[ "code" := value.VInt 502 ]}) Hnew) as (_ & Hmiss & _).
    apply Hmiss. vm_compute. reflexivity.
Defined.


(** ** What the validation accepts *)

Lemma conditions_range m : 0 ≤ config.conditions m ≤ 4.
Proof. unfold config.conditions. repeat case_bool_decide; lia. Qed.

Lemma Match_Validate_None m : config.Match_Validate m = None ↔ validMatch m.
Proof.
  unfold config.Match_Validate, validMatch.
  pose proof (conditions_range m) as Hrange.
  destruct (decide (config.Match_Field m = EmptyString)) as [Hf|Hf].
  { rewrite bool_decide_eq_true_2 by done. split; [done|]. by intros [? _]. }
  rewrite bool_decide_eq_false_2 by done.
  destruct (decide (config.conditions m = 0)) as [H0|H0].
  { rewrite bool_decide_eq_true_2 by done. split; [done|].
    intros (_ & ? & _). lia. }
  rewrite bool_decide_eq_false_2 by done.
  destruct (decide (1 < config.conditions m)) as [H1|H1].
  { rewrite bool_decide_eq_true_2 by done. split; [done|].
    intros (_ & ? & _). lia. }
  rewrite bool_decide_eq_false_2 by done.
  destruct (decide (config.Match_Regex m ≠ EmptyString)) as [Hre|Hre].
  - rewrite bool_decide_eq_true_2 by done.
    destruct (regexp.Compile (config.Match_Regex m)) as [re|].
    + split; [|done]. intros _. repeat split; [done|lia|by eexists].
    + split; [done|]. intros (_ & _ & Hc). by destruct (Hc Hre).
  - rewrite bool_decide_eq_false_2 by done. split; [|done].
    intros _. repeat split; [done|lia|done].
Qed.

Lemma Metric_Validate_None M :
  config.Metric_Validate M = None ↔ validMetric M.
Proof.
  unfold config.Metric_Validate, validMetric, config.validTypes.
  destruct (decide (config.Metric_Name M = EmptyString)) as [Hn|Hn].
  { rewrite bool_decide_eq_true_2 by done. split; [done|]. by intros [? _]. }
  rewrite bool_decide_eq_false_2 by done.
  destruct (decide (config.Metric_Type M = "counter" ∨
                    config.Metric_Type M = "gauge" ∨
                    config.Metric_Type M = "sum" ∨
                    config.Metric_Type M = "set")) as [Ht|Ht].
  2: { rewrite bool_decide_eq_false_2 by done. simpl. split; [done|].
       by intros (_ & ? & _). }
  rewrite bool_decide_eq_true_2 by done. simpl.
  destruct (decide (config.Metric_Type M = "sum" ∨
                    config.Metric_Type M = "gauge" ∨
                    config.Metric_Type M = "set")) as [Hx|Hx].
  - rewrite (bool_decide_eq_true_2 _ Hx).
    assert (Hnc : config.Metric_Type M ≠ "counter")
      by (intros E; rewrite E in Hx; by destruct Hx as [|[|]]).
    destruct (config.Metric_Extract M) as [ex|] eqn:Hex; simpl.
    + destruct (config.Metric_Match M) as [mt|]; simpl.
      * pose proof (Match_Validate_None mt) as Hmt.
        destruct (config.Match_Validate mt).
        -- split; [done|]. intros (_ & _ & _ & Hv).
           specialize (Hv mt eq_refl). by apply Hmt in Hv.
        -- split; [|done]. intros _.
           refine (conj Hn (conj Ht (conj _ _))); [by eexists|].
           intros m [= <-]. by apply Hmt.
      * split; [|done]. intros _.
        refine (conj Hn (conj Ht (conj _ _))); [by eexists|done].
    + split; [done|]. intros (_ & _ & He & _). by destruct (He Hnc).
  - rewrite (bool_decide_eq_false_2 _ Hx). simpl.
    assert (Hc : config.Metric_Type M = "counter") by tauto.
    destruct (config.Metric_Match M) as [mt|]; simpl.
    + pose proof (Match_Validate_None mt) as Hmt.
      destruct (config.Match_Validate mt).
      * split; [done|]. intros (_ & _ & _ & Hv).
        specialize (Hv mt eq_refl). by apply Hmt in Hv.
      * split; [|done]. intros _.
        refine (conj Hn (conj Ht (conj _ _))); [done|].
        intros m [= <-]. by apply Hmt.
    + split; [|done]. intros _.
      refine (conj Hn (conj Ht (conj _ _))); done.
Qed.

Lemma validateMetrics_None ms : ∀ i,
  config.validateMetrics i ms = None ↔ Forall validMetric ms.
Proof.
  induction ms as [|M ms IH]; intros i; simpl.
  - split; [by constructor|done].
  - pose proof (Metric_Validate_None M) as HM.
    destruct (config.Metric_Validate M).
    + split; [done|]. intros Hall. apply Forall_cons in Hall as [Hv _].
      by apply HM in Hv.
    + rewrite IH. split.
      * intros Hall. constructor; [by apply HM|done].
      * intros Hall. by apply Forall_cons in Hall as [_ ?].
Qed.

Lemma validateMetrics_first good bad rest err : ∀ i,
  Forall validMetric good →
  config.Metric_Validate bad = Some err →
  config.validateMetrics i (good ++ bad :: rest)
  = Some (config.Wrap
            ("metric[" +:+ strconv.Itoa (i + Z.of_nat (length good)) +:+ "]: ")
            err).
Proof.
  induction good as [|M good IH]; intros i Hgood Hbad;
    cbn [app config.validateMetrics].
  - rewrite Hbad. cbn [length]. by rewrite Z.add_0_r.
  - apply Forall_cons in Hgood as [HM Hgood].
    apply Metric_Validate_None in HM. rewrite HM.
    rewrite (IH (i + 1) Hgood Hbad).
    replace (i + 1 + Z.of_nat (length good))
      with (i + Z.of_nat (length (M :: good))) by (cbn [length]; lia).
    done.
Qed.

Lemma Source_Validate_None s : config.Source_Validate s = None ↔ validSource s.
Proof.
  unfold config.Source_Validate, validSource.
  destruct (decide (config.Source_Path s = EmptyString)) as [Hp|Hp].
  { rewrite bool_decide_eq_true_2 by done. split; [done|]. by intros [? _]. }
  rewrite bool_decide_eq_false_2 by done.
  assert (Hmetrics :
    (if bool_decide (length (config.Source_Metrics s) = O)
     then Some (config.Errorf "at least one metric is required")
     else config.validateMetrics 0 (config.Source_Metrics s)) = None
    ↔ config.Source_Metrics s ≠ [] ∧
      Forall validMetric (config.Source_Metrics s)).
  { destruct (config.Source_Metrics s) as [|M ms].
    - rewrite bool_decide_eq_true_2 by done. split; [done|]. by intros [? _].
    - rewrite bool_decide_eq_false_2 by done.
      rewrite validateMetrics_None. split; [done|]. by intros [_ ?]. }
  destruct (decide (config.Source_Format s = "json")) as [Hj|Hj].
  - rewrite Hj.
    rewrite (bool_decide_eq_false_2 ("json" = EmptyString)) by done.
    rewrite (bool_decide_eq_false_2 ("json" ≠ "json")) by (intros E; done).
    rewrite (bool_decide_eq_false_2 ("json" = "regex")) by done.
    cbn [andb]. rewrite Hmetrics. split.
    + intros [? ?]. split; [done|]. split; [by left|done].
    + intros (_ & _ & ? & ?). done.
  - destruct (decide (config.Source_Format s = "regex")) as [Hr|Hr].
    + rewrite Hr.
      rewrite (bool_decide_eq_false_2 ("regex" = EmptyString)) by done.
      rewrite (bool_decide_eq_true_2 ("regex" ≠ "json")) by done.
      rewrite (bool_decide_eq_false_2 ("regex" ≠ "regex"))
        by (intros E; done).
      rewrite (bool_decide_eq_true_2 ("regex" = "regex")) by done.
      cbn [andb].
      destruct (decide (config.Source_Pattern s = EmptyString)) as [He|He].
      { rewrite bool_decide_eq_true_2 by done. split; [done|].
        intros (_ & [|(_ & ? & _)] & _); done. }
      rewrite bool_decide_eq_false_2 by done.
      destruct (regexp.Compile (config.Source_Pattern s)) as [re|].
      * rewrite Hmetrics. split.
        -- intros [? ?]. split; [done|]. split; [|done].
           right. split; [done|]. split; [done|by eexists].
        -- intros (_ & _ & ? & ?). done.
      * split; [done|].
        intros (_ & [|(_ & _ & Hc)] & _); [done|by destruct Hc].
    + destruct (decide (config.Source_Format s = EmptyString)) as [He|He].
      { rewrite bool_decide_eq_true_2 by done. split; [done|].
        intros (_ & [|(? & _)] & _); done. }
      rewrite bool_decide_eq_false_2 by done.
      rewrite (bool_decide_eq_true_2 (config.Source_Format s ≠ "json")) by done.
      rewrite (bool_decide_eq_true_2 (config.Source_Format s ≠ "regex"))
        by done.
      cbn [andb]. split; [done|]. intros (_ & [|(? & _)] & _); done.
Qed.

Lemma validateSources_None srcs : ∀ i,
  config.validateSources i srcs = None ↔ Forall validSource srcs.
Proof.
  induction srcs as [|s srcs IH]; intros i; simpl.
  - split; [by constructor|done].
  - pose proof (Source_Validate_None s) as Hs.
    destruct (config.Source_Validate s).
    + split; [done|]. intros Hall. apply Forall_cons in Hall as [Hv _].
      by apply Hs in Hv.
    + rewrite IH. split.
      * intros Hall. constructor; [by apply Hs|done].
      * intros Hall. by apply Forall_cons in Hall as [_ ?].
Qed.

Lemma validateSources_first good bad rest err : ∀ i,
  Forall validSource good →
  config.Source_Validate bad = Some err →
  config.validateSources i (good ++ bad :: rest)
  = Some (config.Wrap
            ("source[" +:+ strconv.Itoa (i + Z.of_nat (length good)) +:+ "]: ")
            err).
Proof.
  induction good as [|s good IH]; intros i Hgood Hbad;
    cbn [app config.validateSources].
  - rewrite Hbad. cbn [length]. by rewrite Z.add_0_r.
  - apply Forall_cons in Hgood as [Hs Hgood].
    apply Source_Validate_None in Hs. rewrite Hs.
    rewrite (IH (i + 1) Hgood Hbad).
    replace (i + 1 + Z.of_nat (length good))
      with (i + Z.of_nat (length (s :: good))) by (cbn [length]; lia).
    done.
Qed.

Lemma Validate_None c : config.Validate c = None ↔ validConfig c.
Proof.
  unfold config.Validate, validConfig.
  destruct (decide (config.ServerURL c = EmptyString)) as [H1|H1].
  { rewrite bool_decide_eq_true_2 by done. split; [done|]. by intros [? _]. }
  rewrite bool_decide_eq_false_2 by done.
  destruct (decide (config.AppName c = EmptyString)) as [H2|H2].
  { rewrite bool_decide_eq_true_2 by done. split; [done|].
    by intros (_ & ? & _). }
  rewrite bool_decide_eq_false_2 by done.
  destruct (decide (config.AppVersion c = EmptyString)) as [H3|H3].
  { rewrite bool_decide_eq_true_2 by done. split; [done|].
    by intros (_ & _ & ? & _). }
  rewrite bool_decide_eq_false_2 by done.
  destruct (decide (config.Interval c < config.Second)) as [H4|H4].
  { rewrite bool_decide_eq_true_2 by done. split; [done|].
    intros (_ & _ & _ & ? & _). lia. }
  rewrite bool_decide_eq_false_2 by done.
  destruct (config.Sources c) as [|s srcs] eqn:Hs.
  { rewrite bool_decide_eq_true_2 by done. split; [done|].
    by intros (_ & _ & _ & _ & ? & _). }
  rewrite bool_decide_eq_false_2 by done.
  rewrite validateSources_None. split; [|by intros (_ & _ & _ & _ & _ & ?)].
  intros Hall.
  refine (conj H1 (conj H2 (conj H3 (conj _ (conj _ Hall))))); [lia|done].
Qed.

(** X7: the validation accepts a configuration exactly when the server
    URL, the application name and its version are set, the interval is at
    least one second, and there is at least one source, each with a path, a
    format json or regex (the latter with a pattern that compiles), and at
    least one metric, each with a name, one of the four types, an extract
    unless it is a counter, and a match, if it has one, with a field and
    exactly one condition whose regular expression, if any, compiles.
    Nothing else is checked: neither that metric names are distinct nor that
    the field of an extract is set. *)
Theorem Validate_accepts_exactly (c : config.Config) :
  config.Validate c = None ↔ validConfig c.
Proof.
  split.
  - intros Hval. unfold config.Validate in Hval.
    repeat (case_bool_decide; [discriminate Hval|]).
    apply validateSources_None in Hval.
    repeat split; try done; [unfold config.Second in *; lia|].
    by destruct (config.Sources c).
  - intros (H1 & H2 & H3 & H4 & H5 & Hall). unfold config.Validate.
    rewrite !bool_decide_eq_false_2 by (done || lia).
    rewrite bool_decide_eq_false_2 by (by destruct (config.Sources c)).
    by apply validateSources_None.
Qed.


(** X8: the validation reports the first source that is not valid, by its
    index, wrapped around the error of that source; within a source whose
    own fields are in order it reports the first metric that is not valid,
    by its index. *)
Theorem Validate_names_first_invalid (c : config.Config)
    (good rest : list config.Source) (bad : config.Source)
    (err : config.error) :
  config.ServerURL c ≠ EmptyString →
  config.AppName c ≠ EmptyString →
  config.AppVersion c ≠ EmptyString →
  config.Second ≤ config.Interval c →
  config.Sources c = good ++ bad :: rest →
  Forall validSource good →
  config.Source_Validate bad = Some err →
  config.Validate c
  = Some (config.Wrap (indexed "source" (length good)) err) ∧
  ∀ (goodM restM : list config.Metric) (badM : config.Metric)
    (errM : config.error),
    config.Source_Path bad ≠ EmptyString →
    (config.Source_Format bad = "json" ∨
     config.Source_Format bad = "regex" ∧
     config.Source_Pattern bad ≠ EmptyString ∧
     is_Some (regexp.Compile (config.Source_Pattern bad))) →
    config.Source_Metrics bad = goodM ++ badM :: restM →
    Forall validMetric goodM →
    config.Metric_Validate badM = Some errM →
    err = config.Wrap (indexed "metric" (length goodM)) errM.
Proof.
  intros H1 H2 H3 H4 Hsrcs Hgood Hbad. split.
  - unfold config.Validate.
    rewrite !bool_decide_eq_false_2 by (done || lia).
    rewrite bool_decide_eq_false_2
      by (rewrite Hsrcs, length_app; cbn [length]; lia).
    rewrite Hsrcs.
    by rewrite (validateSources_first good bad rest err 0 Hgood Hbad).
  - intros goodM restM badM errM Hp Hf Hms HgoodM HbadM.
    assert (E : config.Source_Validate bad
                = Some (config.Wrap (indexed "metric" (length goodM)) errM));
      [|congruence].
    clear Hbad. unfold config.Source_Validate.
    rewrite (bool_decide_eq_false_2 (config.Source_Path bad = EmptyString))
      by done.
    assert (Hlen : length (config.Source_Metrics bad) ≠ O)
      by (rewrite Hms, length_app; cbn [length]; lia).
    destruct Hf as [Hj|(Hr & Hpat & [re Hre])].
    + rewrite Hj.
      rewrite (bool_decide_eq_false_2 ("json" = EmptyString)) by done.
      rewrite (bool_decide_eq_false_2 ("json" ≠ "json")) by (intros E; done).
      rewrite (bool_decide_eq_false_2 ("json" = "regex")) by done.
      cbn [andb]. rewrite (bool_decide_eq_false_2 _ Hlen), Hms.
      by rewrite (validateMetrics_first goodM badM restM errM 0 HgoodM HbadM).
    + rewrite Hr.
      rewrite (bool_decide_eq_false_2 ("regex" = EmptyString)) by done.
      rewrite (bool_decide_eq_true_2 ("regex" ≠ "json")) by done.
      rewrite (bool_decide_eq_false_2 ("regex" ≠ "regex"))
        by (intros E; done).
      rewrite (bool_decide_eq_true_2 ("regex" = "regex")) by done.
      cbn [andb].
      rewrite (bool_decide_eq_false_2 (config.Source_Pattern bad = EmptyString))
        by done.
      rewrite Hre, (bool_decide_eq_false_2 _ Hlen), Hms.
      by rewrite (validateMetrics_first goodM badM restM errM 0 HgoodM HbadM).
Qed.

Lemma Validate_names_first_invalid_witness :
  config.Validate
    (config.mkConfig "https://shm.example.com" "" "shop" "1.4.2" ""
       config.Second
       (config.Sources sampleConfig ++
        [config.mkSource "/var/log/lost.log" "json" ""
           [config.mkMetric "lines" "counter" None None;
            config.mkMetric "bytes" "sum" None None]]))
  = Some (config.Wrap "source[2]: "
            (config.Wrap "metric[1]: "
               (config.Errorf "extract is required for type 'sum'"))).
Proof.
  pose (bad := config.mkSource "/var/log/lost.log" "json" ""
           [config.mkMetric "lines" "counter" None None;
            config.mkMetric "bytes" "sum" None None]).
  pose (c := config.mkConfig "https://shm.example.com" "" "shop" "1.4.2" ""
               config.Second (config.Sources sampleConfig ++ [bad])).
  destruct (Validate_names_first_invalid c (config.Sources sampleConfig) []
              bad
              (config.Wrap "metric[1]: "
                 (config.Errorf "extract is required for type 'sum'")))
    as [Hval _].
  - done.
  - done.
  - done.
  - reflexivity.
  - reflexivity.
  - apply validateSources_None with (i := 0). vm_compute. reflexivity.
  - vm_compute. reflexivity.
  - exact Hval.
Defined.

(** ** From a validated configuration to an agent *)

Lemma matcher_New_valid M :
  validMetric M → is_Some (matcher.New (config.Metric_Match M)).
Proof.
  intros (_ & _ & _ & Hm). destruct (config.Metric_Match M) as [mt|];
    [|by eexists].
  destruct (Hm mt eq_refl) as (_ & _ & Hre). unfold matcher.New.
  case_bool_decide as Hr; [|by eexists].
  destruct (Hre Hr) as [re ->]. by eexists.
Qed.

Lemma newMetricProcessors_ok ms : ∀ acc agg,
  Forall validMetric ms →
  is_Some (agent.newMetricProcessors ms acc agg).
Proof.
  induction ms as [|M ms IH]; intros acc agg Hall; [by eexists|].
  apply Forall_cons in Hall as [HM Hall].
  cbn [agent.newMetricProcessors].
  destruct (matcher_New_valid M HM) as [mt ->]. cbn [mbind option_bind].
  by apply IH.
Qed.

Lemma parser_New_valid s :
  validSource s →
  is_Some (parser.New (config.Source_Format s) (config.Source_Pattern s)).
Proof.
  intros (_ & Hf & _). unfold parser.New.
  destruct Hf as [->|(-> & _ & [re Hre])]; [by eexists|].
  rewrite (bool_decide_eq_false_2 ("regex" = "json")) by done.
  rewrite (bool_decide_eq_true_2 ("regex" = "regex")) by done.
  unfold parser.NewRegexParser. rewrite Hre. by eexists.
Qed.

Lemma newProcessors_ok srcs : ∀ acc agg,
  Forall validSource srcs →
  is_Some (agent.newProcessors srcs acc agg).
Proof.
  induction srcs as [|s srcs IH]; intros acc agg Hall; [by eexists|].
  apply Forall_cons in Hall as [Hs Hall].
  cbn [agent.newProcessors]. unfold agent.newSourceProcessor.
  destruct (parser_New_valid s Hs) as [p ->]. cbn [mbind option_bind].
  destruct Hs as (_ & _ & _ & Hms).
  destruct (newMetricProcessors_ok (config.Source_Metrics s) [] agg Hms)
    as [[mps agg'] ->].
  cbn [mbind option_bind]. by apply IH.
Qed.

Lemma registerAll_lookup name ms : ∀ a,
  metrics (registerAll ms a) !! name
  = match metrics a !! name with
    | Some m => Some m
    | None =>
        (λ M, mkMetricValue (config.Metric_Type M) 0
                (if bool_decide (config.Metric_Type M = Set_)
                 then Some ∅ else None))
        <$> firstNamed name ms
    end.
Proof.
  induction ms as [|M ms IH]; intros a.
  - cbn. by destruct (metrics a !! name).
  - change (registerAll (M :: ms) a)
      with (registerAll ms
              (Register (config.Metric_Name M) (config.Metric_Type M) a)).
    rewrite IH. unfold firstNamed. rewrite filter_cons. unfold Register.
    destruct (decide (config.Metric_Name M = name)) as [<-|Hne].
    + destruct (metrics a !! config.Metric_Name M) as [m|] eqn:E.
      * by rewrite E.
      * cbn [metrics]. by rewrite lookup_insert_eq.
    + destruct (metrics a !! config.Metric_Name M) as [m|] eqn:E; [done|].
      cbn [metrics]. by rewrite lookup_insert_ne.
Qed.

Lemma firstNamed_Some name ms M :
  firstNamed name ms = Some M → M ∈ ms ∧ config.Metric_Name M = name.
Proof.
  unfold firstNamed. intros H. apply head_Some_elem_of in H.
  by apply list_elem_of_filter in H as [? ?].
Qed.

Lemma firstNamed_elem M ms :
  M ∈ ms → is_Some (firstNamed (config.Metric_Name M) ms).
Proof.
  intros HM. unfold firstNamed.
  destruct (filter _ ms) as [|M' l] eqn:E; [|by eexists].
  assert (M ∈ filter (λ M0, config.Metric_Name M0 = config.Metric_Name M) ms)
    as Hin by (by apply list_elem_of_filter).
  rewrite E in Hin. by apply elem_of_nil in Hin.
Qed.

(** X10: for a configuration that the validation accepts, [New] returns
    an agent, with one processor for each source; its aggregator shows
    exactly the configured names, each with the zero of the type of the
    first metric declared under that name. *)
Theorem validated_config_builds_agent (c : config.Config) (dry : bool)
    (v : Z) :
  config.Validate c = None →
  ∃ a, agent.New (agent.mkOptions c dry v) = Some a ∧
    length (agent.processors a) = length (config.Sources c) ∧
    (∀ name,
       Peek (agent.GetAggregator a) !! name
       = M ← firstNamed name (allMetrics c); zeroOf (config.Metric_Type M)) ∧
    (∀ M, M ∈ allMetrics c →
       is_Some (Peek (agent.GetAggregator a) !! config.Metric_Name M)).
Proof.
  intros Hval. apply Validate_None in Hval as Hvalid.
  destruct Hvalid as (_ & _ & _ & _ & _ & Hsrcs).
  destruct (newProcessors_ok (config.Sources c) [] New Hsrcs)
    as [[procs agg] Hnew].
  assert (Hagent : agent.New (agent.mkOptions c dry v)
                   = Some (agent.mkAgent c agg procs dry v)).
  { unfold agent.New. cbn [agent.Config agent.DryRun agent.Verbosity].
    by rewrite Hnew. }
  destruct (SetMetricProps.New_spec _ _ Hagent) as [Hb Hagg].
  cbn [agent.processors agent.aggregator agent.Config] in Hb, Hagg.
  assert (Hpeek : ∀ name,
    Peek agg !! name
    = M ← firstNamed name (allMetrics c); zeroOf (config.Metric_Type M)).
  { intros name. rewrite Peek_at, Hagg, registerAll_lookup.
    cbn [New metrics]. rewrite lookup_empty.
    destruct (firstNamed name (allMetrics c)) as [M|]; [|done].
    cbn. unfold zeroOf, peekEntry. cbn [mvType mvValue mvSet].
    by repeat case_bool_decide. }
  eexists. split; [exact Hagent|].
  cbn [agent.processors agent.GetAggregator agent.aggregator].
  split; [by rewrite (Forall2_length _ _ _ Hb)|]. split; [exact Hpeek|].
  intros M HM. rewrite Hpeek.
  destruct (firstNamed_elem M _ HM) as [M' HM']. rewrite HM'. cbn.
  apply firstNamed_Some in HM' as [HM' _].
  assert (validMetric M') as (_ & Ht & _).
  { unfold allMetrics in HM'. apply list_elem_of_join in HM' as (l & HM' & Hl).
    apply list_elem_of_fmap in Hl as (s & -> & Hs).
    rewrite Forall_forall in Hsrcs. destruct (Hsrcs s Hs) as (_ & _ & _ & Hms).
    rewrite Forall_forall in Hms. by apply Hms. }
  unfold zeroOf, peekEntry. cbn [mvType mvValue mvSet].
  destruct Ht as [->|[->|[->| ->]]]; by eexists.
Qed.

Lemma validated_config_builds_agent_witness :
  ∃ a, agent.New (agent.mkOptions sampleConfig true 1) = Some a ∧
    length (agent.processors a) = 2%nat ∧
    Peek (agent.GetAggregator a) !! "customers" = Some (Int 0) ∧
    Peek (agent.GetAggregator a) !! "revenue" = Some (Float64 0).
Proof.
  destruct (validated_config_builds_agent sampleConfig true 1)
    as (a & Hnew & Hlen & Hpeek & _).
  - vm_compute. reflexivity.
  - exists a. split; [exact Hnew|]. split; [exact Hlen|].
    split; rewrite Hpeek; vm_compute; reflexivity.
Defined.

(** ** Defaults *)

(** X9: the defaults are applied once and for all, and leave no identity
    file, environment or interval unset; after them the validation accepts
    a configuration whose interval was left at zero (it becomes sixty
    seconds) or is at least one second, and rejects any other interval,
    the negative ones included. *)
Theorem defaults_then_validation (c : config.Config) :
  config.setDefaults (config.setDefaults c) = config.setDefaults c ∧
  (config.IdentityFile (config.setDefaults c) ≠ EmptyString ∧
   config.Environment (config.setDefaults c) ≠ EmptyString ∧
   config.Interval (config.setDefaults c) ≠ 0) ∧
  (config.Validate (config.setDefaults c) = None ↔
   (config.Interval c = 0 ∨ config.Second ≤ config.Interval c) ∧
   config.ServerURL c ≠ EmptyString ∧
   config.AppName c ≠ EmptyString ∧
   config.AppVersion c ≠ EmptyString ∧
   config.Sources c ≠ [] ∧
   Forall validSource (config.Sources c)) ∧
  (config.Validate c = None →
   config.Validate (config.setDefaults c) = None ∧
   config.Interval (config.setDefaults c) = config.Interval c).
Proof.
  assert (Hiff : config.Validate (config.setDefaults c) = None ↔
    (config.Interval c = 0 ∨ config.Second ≤ config.Interval c) ∧
    config.ServerURL c ≠ EmptyString ∧
    config.AppName c ≠ EmptyString ∧
    config.AppVersion c ≠ EmptyString ∧
    config.Sources c ≠ [] ∧
    Forall validSource (config.Sources c)).
  { rewrite Validate_None. unfold validConfig, config.setDefaults.
    cbn [config.ServerURL config.AppName config.AppVersion config.Interval
         config.Sources].
    unfold config.Second. case_bool_decide as Hi; split.
    - intros (? & ? & ? & ? & ? & ?). repeat split; try done. by left.
    - intros (? & ? & ? & ? & ? & ?). repeat split; try done.
    - intros (? & ? & ? & ? & ? & ?). repeat split; try done. by right.
    - intros ([?|?] & ? & ? & ? & ? & ?); [done|]. repeat split; done. }
  split; [|split; [|split; [exact Hiff|]]].
  - unfold config.setDefaults.
    cbn [config.ServerURL config.AppName config.AppVersion config.Interval
         config.Sources config.IdentityFile config.Environment].
    unfold config.Second. f_equal; repeat case_bool_decide; done.
  - unfold config.setDefaults, config.Second.
    cbn [config.Interval config.IdentityFile config.Environment].
    repeat split; case_bool_decide; done.
  - intros Hval. apply Validate_None in Hval.
    destruct Hval as (? & ? & ? & Hi & ? & ?). split.
    + apply Hiff. repeat split; try done. by right.
    + unfold config.setDefaults. cbn [config.Interval].
      rewrite bool_decide_eq_false_2; [done|]. unfold config.Second in Hi. lia.
Qed.

End ConfigProps.

(* ===================================================================== *)
(** * Properties of the field paths and of the regex parser              *)
(* ===================================================================== *)

Module ParserProps.
Import bytes value ParserSpec.

Lemma Split_nonempty s sep : strings.Split s sep ≠ [].
Proof.
  destruct s as [|c s]; [done|]. cbn [strings.Split].
  case_bool_decide; [done|]. by destruct (strings.Split s sep).
Qed.

Lemma Split_dotFree key : dotFree key → strings.Split key "." = [key].
Proof.
  unfold dotFree. induction key as [|c key IH]; intros Hfree; [done|].
  cbn [strings.Split String.list_ascii_of_string] in *.
  apply not_elem_of_cons in Hfree as [Hc Hfree].
  rewrite bool_decide_eq_false_2 by done. by rewrite IH.
Qed.

Lemma Split_path key rest :
  dotFree key →
  strings.Split (key +:+ "." +:+ rest) "." = key :: strings.Split rest ".".
Proof.
  unfold dotFree. induction key as [|c key IH]; intros Hfree.
  - done.
  - cbn [String.list_ascii_of_string] in Hfree.
    apply not_elem_of_cons in Hfree as [Hc Hfree].
    change (String c key +:+ "." +:+ rest)
      with (String c (key +:+ "." +:+ rest)).
    cbn [strings.Split]. rewrite bool_decide_eq_false_2 by done.
    by rewrite IH.
Qed.

(** X11: a field path is resolved key by key: a key without a dot is
    looked up in the record itself, and [key.rest] is [rest] resolved in the
    map found under [key]; the path does not resolve when [key] is missing
    or holds anything but a map, or when the record is nil. *)
Theorem GetField_follows_path (m : gmap string Value) (key rest : string) :
  dotFree key →
  parser.GetField (Some m) key = m !! key ∧
  parser.GetField (Some m) (key +:+ "." +:+ rest)
  = match m !! key with
    | Some (VMap sub) => parser.GetField (Some sub) rest
    | _ => None
    end ∧
  parser.GetField None (key +:+ "." +:+ rest) = None.
Proof.
  intros Hfree. unfold parser.GetField. split; [|split; [|done]].
  - rewrite (Split_dotFree key Hfree). cbn [parser.getFieldFrom].
    by destruct (m !! key).
  - rewrite (Split_path key rest Hfree). cbn [parser.getFieldFrom].
    destruct (m !! key) as [v|]; [|done].
    destruct v; try done;
      by (destruct (strings.Split rest ".") eqn:E;
          [by apply Split_nonempty in E|]).
Qed.

Lemma GetField_follows_path_witness :
  parser.GetField
    (Some {[ "user" := VMap {[ "id" := VInt 7 ]} ]}) "user.id"
  = Some (VInt 7).
Proof.
  assert (Hfree : dotFree "user").
  { intros Hin. by repeat (apply elem_of_cons in Hin as [Hin | Hin];
      [discriminate Hin|]); apply elem_of_nil in Hin. }
  destruct (GetField_follows_path {[ "user" := VMap {[ "id" := VInt 7 ]} ]}
              "user" "id" Hfree) as (_ & Hpath & _).
  change ("user.id") with ("user" +:+ "." +:+ "id").
  rewrite Hpath. rewrite lookup_singleton_eq.
  assert (Hid : dotFree "id").
  { intros Hin. by repeat (apply elem_of_cons in Hin as [Hin | Hin];
      [discriminate Hin|]); apply elem_of_nil in Hin. }
  unfold parser.GetField. rewrite (Split_dotFree "id" Hid).
  cbn [parser.getFieldFrom]. by rewrite lookup_singleton_eq.
Defined.

(** ** The records of the regex parser *)

Lemma named_groups_fold (matches : list string) (l : list (nat * string)) :
  ∀ acc : gmap string Value,
  (∀ i name, (i, name) ∈ l → is_Some (matches !! i)) →
  let result :=
    fold_left
      (λ (result : gmap string Value) '(i, name),
         match matches !! i with
         | Some text =>
             if bool_decide (name ≠ EmptyString)
             then <[name := VString text]> result else result
         | None => result
         end) l acc in
  (∀ k, is_Some (result !! k) ↔
        is_Some (acc !! k) ∨ k ≠ EmptyString ∧ k ∈ l.*2) ∧
  (∀ k v, result !! k = Some v →
          acc !! k = Some v ∨
          ∃ i text, (i, k) ∈ l ∧ matches !! i = Some text ∧
                    v = VString text).
Proof.
  induction l as [|[i name] l IH]; intros acc Hlen; cbn zeta.
  - cbn [fold_left]. split; [|by left].
    intros k. split; [by left|]. intros [?|[_ Hin]]; [done|].
    by apply elem_of_nil in Hin.
  - cbn [fold_left].
    destruct (Hlen i name (list_elem_of_here _ _)) as [text Htext].
    rewrite Htext.
    specialize (IH (if bool_decide (name ≠ EmptyString)
                    then <[name := VString text]> acc else acc)).
    destruct IH as [IHdom IHval].
    { intros j n Hin. apply (Hlen j n). by apply list_elem_of_further. }
    split.
    + intros k. rewrite IHdom. cbn [fmap list_fmap snd].
      case_bool_decide as Hname.
      * rewrite lookup_insert_is_Some. rewrite elem_of_cons. split.
        -- intros [[<-|[_ ?]]|[? ?]]; [right|left|right]; by eauto.
        -- intros [?|[Hk [->|?]]].
           ++ left. destruct (decide (name = k)); by eauto.
           ++ left. by left.
           ++ right. by eauto.
      * rewrite elem_of_cons. split.
        -- intros [?|[? ?]]; by eauto.
        -- intros [?|[Hk [->|?]]]; [by left|done|by eauto].
    + intros k v Hk. destruct (IHval k v Hk) as [Hacc|(j & t & Hin & Hj & ->)].
      * case_bool_decide; [|by left].
        destruct (decide (name = k)) as [->|Hne].
        -- rewrite lookup_insert_eq in Hacc. right. exists i, text.
           split; [by apply list_elem_of_here|]. split; [done|congruence].
        -- rewrite lookup_insert_ne in Hacc by done. by left.
      * right. exists j, t. split; [by apply list_elem_of_further|done].
Qed.

Lemma FindStringSubmatch_length re line matches :
  regexp.FindStringSubmatch re line = Some matches →
  length matches = length (regexp.SubexpNames re).
Proof.
  unfold regexp.FindStringSubmatch.
  destruct (regexp.search _ _ _); [|done]. cbn. intros [= <-].
  by rewrite length_fmap, length_seq.
Qed.

Lemma RegexParser_Parse_shape re line :
  (parser.RegexParser_Parse re (regexp.SubexpNames re) line = None ↔
     regexp.FindStringSubmatch re line = None ∨
     Forall (λ name, name = EmptyString) (regexp.SubexpNames re)) ∧
  ∀ d, parser.RegexParser_Parse re (regexp.SubexpNames re) line = Some d →
    ∃ matches,
      regexp.FindStringSubmatch re line = Some matches ∧
      (∀ k, is_Some (d !! k) ↔
            k ≠ EmptyString ∧ k ∈ regexp.SubexpNames re) ∧
      (∀ k v, d !! k = Some v →
         ∃ i text, regexp.SubexpNames re !! i = Some k ∧
                   matches !! i = Some text ∧ v = VString text).
Proof.
  unfold parser.RegexParser_Parse.
  destruct (regexp.FindStringSubmatch re line) as [matches|] eqn:Hfind;
    [|split; [split; [by left|done]|done]].
  apply FindStringSubmatch_length in Hfind as Hlen.
  destruct (named_groups_fold matches (imap pair (regexp.SubexpNames re)) ∅)
    as [Hdom Hval].
  { intros i name Hin. apply elem_of_lookup_imap in Hin as (j & n & E & Hj).
    inversion E; subst. apply lookup_lt_is_Some. rewrite Hlen.
    by apply lookup_lt_Some in Hj. }
  cbn zeta in Hdom, Hval.
  assert (Hsnd : (imap pair (regexp.SubexpNames re)).*2
                 = regexp.SubexpNames re).
  { apply list_eq. intros i. rewrite list_lookup_fmap, list_lookup_imap.
    by destruct (regexp.SubexpNames re !! i). }
  rewrite Hsnd in Hdom.
  set (result := fold_left _ _ _) in *.
  assert (Hempty : result = ∅ ↔
            Forall (λ name, name = EmptyString) (regexp.SubexpNames re)).
  { split.
    - intros Hres. apply Forall_forall.
      intros name Hin. destruct (decide (name = EmptyString)); [done|].
      assert (is_Some (result !! name)) as Hsome by (apply Hdom; by right).
      rewrite Hres, lookup_empty in Hsome. by destruct Hsome.
    - intros Hall. apply map_empty. intros k.
      apply eq_None_not_Some. rewrite Hdom, lookup_empty.
      intros [[? ?]|[Hk Hin]]; [done|].
      rewrite Forall_forall in Hall. by apply Hk, Hall. }
  case_bool_decide as Hsize.
  - apply map_size_empty_iff in Hsize. split; [|done].
    split; [|done]. intros _. right. by apply Hempty.
  - split.
    + split; [done|]. intros [?|Hall]; [done|].
      exfalso. apply Hsize. apply map_size_empty_iff. by apply Hempty.
    + intros d [= <-]. exists matches. split; [done|]. split.
      * intros k. rewrite Hdom, lookup_empty. split.
        -- intros [[? ?]|?]; done.
        -- by right.
      * intros k v Hk.
        destruct (Hval k v Hk) as [Habs|(i & text & Hin & Hi & ->)].
        -- by rewrite lookup_empty in Habs.
        -- exists i, text. split; [|done].
           apply elem_of_lookup_imap in Hin as (j & n & E & Hj).
           by inversion E; subst.
Qed.

(** X12: a record of the regex parser holds exactly the named groups of
    the pattern, each as the string that a group of that name captured, and
    nothing else; a line gives no record exactly when the pattern does not
    match it or the pattern names no group, so that a pattern without a
    named group gives a record for no line. *)
Theorem regex_record_is_named_groups (pattern : string) (p : parser.Parser)
    (line : string) :
  parser.New "regex" pattern = Some p →
  ∃ re, regexp.Compile pattern = Some re ∧
    (parser.Parse p line = None ↔
       regexp.FindStringSubmatch re line = None ∨
       Forall (λ name, name = EmptyString) (regexp.SubexpNames re)) ∧
    ∀ d, parser.Parse p line = Some d →
      ∃ matches,
        regexp.FindStringSubmatch re line = Some matches ∧
        (∀ k, is_Some (d !! k) ↔
              k ≠ EmptyString ∧ k ∈ regexp.SubexpNames re) ∧
        (∀ k v, d !! k = Some v →
           ∃ i text, regexp.SubexpNames re !! i = Some k ∧
                     matches !! i = Some text ∧ v = VString text).
Proof.
  unfold parser.New, parser.NewRegexParser.
  rewrite (bool_decide_eq_false_2 ("regex" = "json")) by done.
  rewrite (bool_decide_eq_true_2 ("regex" = "regex")) by done.
  destruct (regexp.Compile pattern) as [re|]; [|done]. cbn.
  intros [= <-]. exists re. split; [done|]. cbn [parser.Parse].
  apply RegexParser_Parse_shape.
Qed.

Lemma regex_record_is_named_groups_witness :
  (∃ p d,
    parser.New "regex" "(?P<method>[A-Z]+) (?P<status>[0-9]+)" = Some p ∧
    parser.Parse p "GET 500" = Some d ∧
    parser.GetFieldString (Some d) "status" = Some "500" ∧
    ∀ k v, d !! k = Some v → ∃ text, v = VString text) ∧
  (∃ p, parser.New "regex" "[A-Z]+ ([0-9]+)" = Some p ∧
        parser.Parse p "GET 500" = None).
Proof.
  split.
  - pose (pat := "(?P<method>[A-Z]+) (?P<status>[0-9]+)").
    assert (Hc : ∃ re, regexp.Compile pat = Some re)
      by (vm_compute; eexists; reflexivity).
    destruct Hc as [re0 Hc].
    assert (Hp : parser.New "regex" pat
                 = Some (parser.mkParser
                     (parser.RegexParser_Parse re0 (regexp.SubexpNames re0)))).
    { unfold parser.New, parser.NewRegexParser.
      rewrite (bool_decide_eq_false_2 ("regex" = "json")) by done.
      rewrite (bool_decide_eq_true_2 ("regex" = "regex")) by done.
      by rewrite Hc. }
    destruct (regex_record_is_named_groups pat _ "GET 500" Hp)
      as (re & Hre & _ & Hshape).
    rewrite Hc in Hre. injection Hre as <-.
    vm_compute in Hc. injection Hc as <-.
    cbn [parser.Parse] in Hshape.
    destruct (parser.RegexParser_Parse _ _ "GET 500") as [d|] eqn:Hd.
    + eexists _, d. split; [exact Hp|]. split; [exact Hd|].
      split.
      * vm_compute in Hd. injection Hd as <-. vm_compute. reflexivity.
      * intros k v Hk.
        destruct (Hshape d eq_refl) as (ms & _ & _ & Hval).
        destruct (Hval k v Hk) as (i & text & _ & _ & ->). by exists text.
    + vm_compute in Hd. discriminate Hd.
  - pose (pat := "[A-Z]+ ([0-9]+)").
    assert (Hc : ∃ re, regexp.Compile pat = Some re)
      by (vm_compute; eexists; reflexivity).
    destruct Hc as [re0 Hc].
    assert (Hp : parser.New "regex" pat
                 = Some (parser.mkParser
                     (parser.RegexParser_Parse re0 (regexp.SubexpNames re0)))).
    { unfold parser.New, parser.NewRegexParser.
      rewrite (bool_decide_eq_false_2 ("regex" = "json")) by done.
      rewrite (bool_decide_eq_true_2 ("regex" = "regex")) by done.
      by rewrite Hc. }
    eexists. split; [exact Hp|].
    destruct (regex_record_is_named_groups pat _ "GET 500" Hp)
      as (re & Hre & Hnone & _).
    apply Hnone. right.
    rewrite Hc in Hre. injection Hre as <-.
    vm_compute in Hc. injection Hc as <-.
    vm_compute. by repeat constructor.
Defined.

End ParserProps.

(* ===================================================================== *)
(** * Properties of the counters, sums and gauges through the agent      *)
(* ===================================================================== *)

Module NumericProps.
Import bytes value aggregator AggregatorSpec PipelineSpec SetMetricProps
  NumericSpec.

(** ** The number of a cell under the writes *)

Lemma isNumCell_Inc name' name t v a :
  isNumCell a name t v →
  isNumCell (Inc name' a) name t
    (if bool_decide (name' = name ∧ t = Counter) then (v + 1)%float else v).
Proof.
  intros [s Hc]. unfold Inc. destruct (decide (name' = name)) as [->|Hne].
  - rewrite Hc. cbn [mvType mvValue mvSet].
    destruct (decide (t = Counter)) as [Ht|Ht].
    + rewrite !bool_decide_eq_true_2 by done. exists s. cbn [metrics].
      by rewrite lookup_insert_eq.
    + rewrite !bool_decide_eq_false_2 by (by intros [? ?] || done).
      by exists s.
  - rewrite (bool_decide_eq_false_2 (name' = name ∧ _)) by (by intros [? ?]).
    destruct (metrics a !! name') as [m|]; [|by exists s].
    case_bool_decide; [|by exists s]. exists s. cbn [metrics].
    by rewrite lookup_insert_ne.
Qed.

Lemma isNumCell_SetGauge name' x name t v a :
  isNumCell a name t v →
  isNumCell (SetGauge name' x a) name t
    (if bool_decide (name' = name ∧ t = Gauge) then x else v).
Proof.
  intros [s Hc]. unfold SetGauge. destruct (decide (name' = name)) as [->|Hne].
  - rewrite Hc. cbn [mvType mvValue mvSet].
    destruct (decide (t = Gauge)) as [Ht|Ht].
    + rewrite !bool_decide_eq_true_2 by done. exists s. cbn [metrics].
      by rewrite lookup_insert_eq.
    + rewrite !bool_decide_eq_false_2 by (by intros [? ?] || done).
      by exists s.
  - rewrite (bool_decide_eq_false_2 (name' = name ∧ _)) by (by intros [? ?]).
    destruct (metrics a !! name') as [m|]; [|by exists s].
    case_bool_decide; [|by exists s]. exists s. cbn [metrics].
    by rewrite lookup_insert_ne.
Qed.

Lemma isNumCell_Add name' x name t v a :
  isNumCell a name t v →
  isNumCell (Add name' x a) name t
    (if bool_decide (name' = name ∧ t = Sum) then (v + x)%float else v).
Proof.
  intros [s Hc]. unfold Add. destruct (decide (name' = name)) as [->|Hne].
  - rewrite Hc. cbn [mvType mvValue mvSet].
    destruct (decide (t = Sum)) as [Ht|Ht].
    + rewrite !bool_decide_eq_true_2 by done. exists s. cbn [metrics].
      by rewrite lookup_insert_eq.
    + rewrite !bool_decide_eq_false_2 by (by intros [? ?] || done).
      by exists s.
  - rewrite (bool_decide_eq_false_2 (name' = name ∧ _)) by (by intros [? ?]).
    destruct (metrics a !! name') as [m|]; [|by exists s].
    case_bool_decide; [|by exists s]. exists s. cbn [metrics].
    by rewrite lookup_insert_ne.
Qed.

Lemma isNumCell_AddToSet name' x name t v a a' :
  AddToSet name' x a = Some a' →
  isNumCell a name t v → isNumCell a' name t v.
Proof.
  intros Ha [s Hc]. unfold AddToSet in Ha.
  destruct (metrics a !! name') as [m|] eqn:E;
    [|inversion Ha; subst; by exists s].
  case_bool_decide; [|inversion Ha; subst; by exists s].
  destruct (mvSet m) as [S|] eqn:ES; [|done]. inversion Ha; subst.
  destruct (decide (name' = name)) as [->|Hne].
  - rewrite Hc in E. inversion E; subst. eexists. cbn [metrics].
    by rewrite lookup_insert_eq.
  - exists s. cbn [metrics]. by rewrite lookup_insert_ne.
Qed.

(** ** One rule, one record *)

Lemma processMetric_step data m lm agg :
  wf agg →
  ∃ agg',
    agent.processMetric data m (lm, agg)
    = Some (if matcher.Match (agent.matcher m) data
            then agent.int64 (lm + 1) else lm, agg') ∧
    wf agg' ∧
    ∀ name t v, isNumCell agg name t v →
      isNumCell agg' name t (ruleUpdate name t data m v).
Proof.
  intros Hwf. unfold agent.processMetric, ruleUpdate, recordUpdate.
  destruct (matcher.Match (agent.matcher m) data) eqn:Hm; cbn [negb].
  2: { exists agg. split; [done|]. split; [done|].
       intros name t v Hc. by rewrite andb_false_r. }
  cbn zeta.
  destruct (decide (config.Metric_Type (agent.cfg m) = "counter")) as [Hty|Hnc].
  { rewrite !(bool_decide_eq_true_2 _ Hty). eexists. split; [done|].
    split; [by apply wf_Inc|]. intros name t v Hc.
    apply (isNumCell_Inc (config.Metric_Name (agent.cfg m))) in Hc.
    rewrite andb_true_r.
    replace (bool_decide (config.Metric_Name (agent.cfg m) = name ∧
                          config.Metric_Type (agent.cfg m) = t))
      with (bool_decide (config.Metric_Name (agent.cfg m) = name ∧
                         t = Counter)); [done|].
    apply bool_decide_ext. rewrite Hty. unfold Counter. naive_solver. }
  rewrite !(bool_decide_eq_false_2 _ Hnc).
  destruct (decide (config.Metric_Type (agent.cfg m) = "gauge")) as [Hty|Hng].
  { rewrite !(bool_decide_eq_true_2 _ Hty).
    destruct (config.Metric_Extract (agent.cfg m)) as [ex|].
    2: { exists agg. split; [done|]. split; [done|]. intros name t v Hc.
         by destruct (_ && _). }
    destruct (parser.GetFieldFloat data (config.Extract_Field ex)) as [x|].
    2: { exists agg. split; [done|]. split; [done|]. intros name t v Hc.
         by destruct (_ && _). }
    eexists. split; [done|]. split; [by apply wf_SetGauge|].
    intros name t v Hc.
    apply (isNumCell_SetGauge (config.Metric_Name (agent.cfg m)) x) in Hc.
    rewrite andb_true_r.
    replace (bool_decide (config.Metric_Name (agent.cfg m) = name ∧
                          config.Metric_Type (agent.cfg m) = t))
      with (bool_decide (config.Metric_Name (agent.cfg m) = name ∧
                         t = Gauge)); [done|].
    apply bool_decide_ext. rewrite Hty. unfold Gauge. naive_solver. }
  rewrite !(bool_decide_eq_false_2 _ Hng).
  destruct (decide (config.Metric_Type (agent.cfg m) = "sum")) as [Hty|Hns].
  { rewrite !(bool_decide_eq_true_2 _ Hty).
    destruct (config.Metric_Extract (agent.cfg m)) as [ex|].
    2: { exists agg. split; [done|]. split; [done|]. intros name t v Hc.
         by destruct (_ && _). }
    destruct (parser.GetFieldFloat data (config.Extract_Field ex)) as [x|].
    2: { exists agg. split; [done|]. split; [done|]. intros name t v Hc.
         by destruct (_ && _). }
    eexists. split; [done|]. split; [by apply wf_Add|].
    intros name t v Hc.
    apply (isNumCell_Add (config.Metric_Name (agent.cfg m)) x) in Hc.
    rewrite andb_true_r.
    replace (bool_decide (config.Metric_Name (agent.cfg m) = name ∧
                          config.Metric_Type (agent.cfg m) = t))
      with (bool_decide (config.Metric_Name (agent.cfg m) = name ∧
                         t = Sum)); [done|].
    apply bool_decide_ext. rewrite Hty. unfold Sum. naive_solver. }
  rewrite !(bool_decide_eq_false_2 _ Hns).
  assert (Hsame : ∀ (name t : string) (v : float),
    (if bool_decide (config.Metric_Name (agent.cfg m) = name ∧
                     config.Metric_Type (agent.cfg m) = t) && true
     then match config.Metric_Extract (agent.cfg m) with
          | Some ex =>
              match parser.GetFieldFloat data (config.Extract_Field ex) with
              | Some _ => v
              | None => v
              end
          | None => v
          end
     else v) = v).
  { intros name t v. destruct (_ && _); [|done].
    destruct (config.Metric_Extract (agent.cfg m)) as [ex|]; [|done].
    by destruct (parser.GetFieldFloat data (config.Extract_Field ex)). }
  case_bool_decide as Hset.
  2: { exists agg. split; [done|]. split; [done|]. intros name t v Hc.
       by rewrite Hsame. }
  destruct (config.Metric_Extract (agent.cfg m)) as [ex|] eqn:Hex.
  2: { exists agg. split; [done|]. split; [done|]. intros name t v Hc.
       by destruct (_ && _). }
  destruct (parser.GetFieldString data (config.Extract_Field ex)) as [x|].
  2: { exists agg. split; [done|]. split; [done|]. intros name t v Hc.
       destruct (_ && _); [|done].
       by destruct (parser.GetFieldFloat data (config.Extract_Field ex)). }
  destruct (AddToSet_wf (config.Metric_Name (agent.cfg m)) x agg Hwf)
    as (agg' & Hadd & Hwf').
  exists agg'. rewrite Hadd. split; [done|]. split; [done|].
  intros name t v Hc.
  apply (isNumCell_AddToSet _ _ _ _ _ _ _ Hadd) in Hc.
  destruct (_ && _); [|done].
  by destruct (parser.GetFieldFloat data (config.Extract_Field ex)).
Qed.

Lemma processMetrics_step data ms : ∀ lm agg,
  wf agg →
  ∃ agg',
    agent.processMetrics data ms (lm, agg)
    = Some (fold_left
              (λ lm m, if matcher.Match (agent.matcher m) data
                       then agent.int64 (lm + 1) else lm) ms lm, agg') ∧
    wf agg' ∧
    ∀ name t v, isNumCell agg name t v →
      isNumCell agg' name t
        (fold_left (λ v m, ruleUpdate name t data m v) ms v).
Proof.
  induction ms as [|m ms IH]; intros lm agg Hwf.
  - exists agg. by repeat split.
  - destruct (processMetric_step data m lm agg Hwf) as (agg1 & E1 & Hwf1 & H1).
    destruct (IH (if matcher.Match (agent.matcher m) data
                  then agent.int64 (lm + 1) else lm) agg1 Hwf1)
      as (agg' & E' & Hwf' & H').
    exists agg'. cbn [agent.processMetrics fold_left]. rewrite E1.
    cbn [mbind option_bind]. rewrite E'. split; [done|]. split; [done|].
    intros name t v Hc. by apply H', H1.
Qed.

(** ** One line *)

Lemma int64_idem x y : agent.int64 (agent.int64 x + y) = agent.int64 (x + y).
Proof.
  unfold agent.int64.
  replace ((x + 2 ^ 63) `mod` 2 ^ 64 - 2 ^ 63 + y + 2 ^ 63)
    with ((x + 2 ^ 63) `mod` 2 ^ 64 + y) by lia.
  rewrite Zplus_mod_idemp_l. f_equal. f_equal. lia.
Qed.

Lemma int64_small x : - 2 ^ 63 ≤ x < 2 ^ 63 → agent.int64 x = x.
Proof. intros Hx. unfold agent.int64. rewrite Z.mod_small; lia. Qed.

Lemma int64_int64 x : agent.int64 (agent.int64 x) = agent.int64 x.
Proof.
  transitivity (agent.int64 (agent.int64 x + 0)); [by rewrite Z.add_0_r|].
  rewrite int64_idem. by rewrite Z.add_0_r.
Qed.

Lemma matched_fold data ms : ∀ lm,
  let lm' :=
    fold_left (λ lm m, if matcher.Match (agent.matcher m) data
                       then agent.int64 (lm + 1) else lm) ms lm in
  (agent.int64 lm = lm → agent.int64 lm' = lm') ∧
  agent.int64 lm'
  = agent.int64
      (lm + Z.of_nat (length (filter (λ m, matcher.Match (agent.matcher m) data
                                           = true) ms))).
Proof.
  induction ms as [|m ms IH]; intros lm; cbn zeta.
  - cbn. by rewrite Z.add_0_r.
  - cbn [fold_left]. rewrite filter_cons.
    destruct (matcher.Match (agent.matcher m) data) eqn:Hm.
    + destruct (IH (agent.int64 (lm + 1))) as [Hr Hv]. split.
      * intros _. apply Hr, int64_int64.
      * rewrite Hv, decide_True by done. cbn [length]. rewrite int64_idem.
        f_equal. lia.
    + destruct (IH lm) as [Hr Hv]. rewrite decide_False by done.
      split; [exact Hr|exact Hv].
Qed.

Lemma processLine_step p line agg :
  wf agg →
  ∃ p' agg',
    agent.processLine p line agg = Some (p', agg') ∧
    wf agg' ∧
    stepped p [line] p' ∧
    ∀ name t v, isNumCell agg name t v →
      isNumCell agg' name t (lineUpdate name t p line v).
Proof.
  intros Hwf.
  unfold agent.processLine, lineUpdate, stepped, parsedBy, refusedBy,
    matchesOf, ranged.
  rewrite !filter_cons, !filter_nil. cbn [fmap list_fmap sum_list].
  destruct (parser.Parse (agent.parser p) line) as [d|].
  - destruct (processMetrics_step (Some d) (agent.metrics p)
                (agent.linesMatched p) agg Hwf) as (agg' & E & Hwf' & Hc).
    rewrite E. cbn [mbind option_bind]. eexists _, agg'.
    split; [done|]. cbn [agent.source agent.parser agent.metrics
      agent.linesParsed agent.parseErrors agent.linesMatched].
    rewrite (decide_True (P := is_Some (Some d))) by (by eexists).
    rewrite (decide_False (P := Some d = None)) by done.
    destruct (matched_fold (Some d) (agent.metrics p) (agent.linesMatched p))
      as [Hr Hv]. cbn zeta in Hr, Hv.
    split; [done|]. split; [|exact Hc].
    split; [done|]. split; [done|]. split; [done|].
    split; [|split; [|split]].
    + intros (_ & ? & ?). split; [apply int64_int64|]. split; [done|by apply Hr].
    + by rewrite int64_int64.
    + by rewrite Z.add_0_r.
    + rewrite Hv. by rewrite Nat.add_0_r.
  - eexists _, agg. split; [done|].
    cbn [agent.source agent.parser agent.metrics
      agent.linesParsed agent.parseErrors agent.linesMatched].
    rewrite (decide_False (P := is_Some None)) by (by intros [? ?]).
    destruct (decide _) as [_|?]; [|done].
    split; [done|]. split; [|done].
    split; [done|]. split; [done|]. split; [done|].
    split; [|split; [|split]].
    + intros (? & _ & ?). split; [done|]. split; [apply int64_int64|done].
    + by rewrite Z.add_0_r.
    + by rewrite int64_int64.
    + by rewrite Z.add_0_r.
Qed.

(** ** Lines through the agent *)

Lemma stepped_refl p : stepped p [] p.
Proof.
  unfold stepped, parsedBy, refusedBy. rewrite !filter_nil.
  cbn [fmap list_fmap sum_list length]. change (Z.of_nat 0) with 0.
  rewrite !Z.add_0_r. split; [done|]. split; [done|]. split; [done|].
  split; [by intros ?|]. by split.
Qed.

Lemma sum_list_append l1 l2 :
  sum_list (l1 ++ l2) = (sum_list l1 + sum_list l2)%nat.
Proof. induction l1 as [|x l1 IH]; cbn; [done|]. rewrite IH. lia. Qed.

Lemma stepped_trans p l1 p1 l2 p2 :
  stepped p l1 p1 → stepped p1 l2 p2 → stepped p (l1 ++ l2) p2.
Proof.
  intros (Hs1 & Hp1 & Hm1 & Hr1 & Ha1 & Hb1 & Hc1)
         (Hs2 & Hp2 & Hm2 & Hr2 & Ha2 & Hb2 & Hc2).
  unfold stepped, parsedBy, refusedBy, matchesOf in *.
  rewrite Hp1, Hm1 in *.
  split; [congruence|]. split; [congruence|]. split; [congruence|].
  split; [by auto|].
  rewrite !filter_app, fmap_app, sum_list_append, !length_app, !Nat2Z.inj_add.
  rewrite !Z.add_assoc.
  split; [|split].
  - rewrite Ha2, <- int64_idem, Ha1, int64_idem. done.
  - rewrite Hb2, <- int64_idem, Hb1, int64_idem. done.
  - rewrite Hc2, <- int64_idem, Hc1, int64_idem. done.
Qed.

Lemma linesOf_cons i j line lines :
  linesOf i ((j, line) :: lines)
  = (if bool_decide (j = Z.of_nat i) then [line] else []) ++ linesOf i lines.
Proof. unfold linesOf. cbn [omap list_omap]. by case_bool_decide. Qed.

Lemma ProcessLine_step a j line :
  wf (agent.aggregator a) →
  ∃ a',
    agent.ProcessLine a j line = Some a' ∧
    wf (agent.aggregator a') ∧
    agent.agent_cfg a' = agent.agent_cfg a ∧
    length (agent.processors a') = length (agent.processors a) ∧
    (∀ i p, agent.processors a !! i = Some p →
       ∃ p', agent.processors a' !! i = Some p' ∧
         stepped p (if bool_decide (j = Z.of_nat i) then [line] else []) p') ∧
    (∀ name t v, isNumCell (agent.aggregator a) name t v →
       isNumCell (agent.aggregator a') name t
         (agentUpdate name t (agent.processors a) (j, line) v)).
Proof.
  intros Hwf. unfold agent.ProcessLine, agentUpdate. cbn [fst snd].
  destruct ((0 <=? j) && (j <? Z.of_nat (length (agent.processors a))))
    eqn:Hrange.
  2: { exists a. split; [done|]. split; [done|]. split; [done|].
       split; [done|]. split.
       - intros i p Hp. exists p. split; [done|].
         rewrite bool_decide_eq_false_2; [apply stepped_refl|].
         apply lookup_lt_Some in Hp. lia.
       - intros name t v Hc. case_bool_decide; [|done].
         rewrite (proj2 (lookup_ge_None _ _)); [done|]. lia. }
  destruct (agent.processors a !! Z.to_nat j) as [p|] eqn:Hp.
  2: { apply lookup_ge_None in Hp. lia. }
  destruct (processLine_step p line (agent.aggregator a) Hwf)
    as (p' & agg' & -> & Hwf' & Hstep & Hcell).
  cbn [mbind option_bind]. eexists. split; [done|].
  cbn [agent.aggregator agent.agent_cfg agent.processors].
  split; [done|]. split; [done|]. split; [by rewrite length_insert|]. split.
  - intros i q Hq. destruct (decide (i = Z.to_nat j)) as [->|Hne].
    + rewrite Hp in Hq. injection Hq as <-. exists p'.
      rewrite list_lookup_insert_eq by (by apply lookup_lt_Some in Hp).
      split; [done|]. rewrite bool_decide_eq_true_2 by lia. done.
    + exists q. rewrite list_lookup_insert_ne by done. split; [done|].
      rewrite bool_decide_eq_false_2 by lia. apply stepped_refl.
  - intros name t v Hc. rewrite bool_decide_eq_true_2 by lia. by apply Hcell.
Qed.

Lemma agentUpdate_ext name t ps ps' jl v :
  length ps' = length ps →
  (∀ i p, ps !! i = Some p →
     ∃ p', ps' !! i = Some p' ∧ agent.parser p' = agent.parser p ∧
           agent.metrics p' = agent.metrics p) →
  agentUpdate name t ps' jl v = agentUpdate name t ps jl v.
Proof.
  intros Hlen Hsame. unfold agentUpdate. case_bool_decide; [|done].
  destruct (ps !! Z.to_nat jl.1) as [p|] eqn:Hp.
  - destruct (Hsame _ _ Hp) as (p' & -> & Hparser & Hmetrics).
    unfold lineUpdate. by rewrite Hparser, Hmetrics.
  - apply lookup_ge_None in Hp.
    rewrite (proj2 (lookup_ge_None _ _)); [done|]. lia.
Qed.

Lemma ProcessLines_steps lines : ∀ a,
  wf (agent.aggregator a) →
  ∃ a',
    agent.ProcessLines a lines = Some a' ∧
    wf (agent.aggregator a') ∧
    agent.agent_cfg a' = agent.agent_cfg a ∧
    length (agent.processors a') = length (agent.processors a) ∧
    (∀ i p, agent.processors a !! i = Some p →
       ∃ p', agent.processors a' !! i = Some p' ∧
         stepped p (linesOf i lines) p') ∧
    (∀ name t v, isNumCell (agent.aggregator a) name t v →
       isNumCell (agent.aggregator a') name t
         (fold_left (λ v jl, agentUpdate name t (agent.processors a) jl v)
            lines v)).
Proof.
  induction lines as [|[j line] lines IH]; intros a Hwf.
  - exists a. split; [done|]. split; [done|]. split; [done|].
    split; [done|]. split; [|done].
    intros i p Hp. exists p. split; [done|]. apply stepped_refl.
  - destruct (ProcessLine_step a j line Hwf)
      as (a1 & E1 & Hwf1 & Hcfg1 & Hlen1 & Hps1 & Hcell1).
    destruct (IH a1 Hwf1) as (a' & E' & Hwf' & Hcfg' & Hlen' & Hps' & Hcell').
    exists a'. cbn [agent.ProcessLines]. rewrite E1. cbn [mbind option_bind].
    split; [done|]. split; [done|]. split; [congruence|].
    split; [congruence|]. split.
    + intros i p Hp. destruct (Hps1 i p Hp) as (p1 & Hp1 & Hs1).
      destruct (Hps' i p1 Hp1) as (p' & Hp' & Hs'). exists p'.
      split; [done|]. rewrite linesOf_cons.
      by apply (stepped_trans _ _ p1).
    + intros name t v Hc. cbn [fold_left].
      apply Hcell1, Hcell' in Hc.
      replace (fold_left
                 (λ v jl, agentUpdate name t (agent.processors a) jl v) lines
                 (agentUpdate name t (agent.processors a) (j, line) v))
        with (fold_left
                 (λ v jl, agentUpdate name t (agent.processors a1) jl v) lines
                 (agentUpdate name t (agent.processors a) (j, line) v));
        [done|].
      generalize (agentUpdate name t (agent.processors a) (j, line) v).
      clear -Hlen1 Hps1. induction lines as [|jl lines IH]; intros w; [done|].
      cbn [fold_left]. rewrite IH. f_equal.
      apply agentUpdate_ext; [done|].
      intros i p Hp. destruct (Hps1 i p Hp) as (p1 & Hp1 & _ & ? & ? & _).
      by exists p1.
Qed.

(** ** The processors that [New] makes *)

Lemma newProcessors_fresh srcs : ∀ acc agg res agg',
  agent.newProcessors srcs acc agg = Some (res, agg') →
  ∃ new, res = acc ++ new ∧ Forall2 fresh srcs new.
Proof.
  induction srcs as [|src srcs IH]; intros acc agg res agg' Hnew;
    cbn [agent.newProcessors] in Hnew.
  - inversion Hnew; subst. exists []. by rewrite app_nil_r.
  - destruct (agent.newSourceProcessor src agg) as [[p agg1]|] eqn:Hp;
      [|done]. cbn [mbind option_bind] in Hnew.
    destruct (IH _ _ _ _ Hnew) as (new & -> & Hall).
    exists (p :: new). rewrite <- app_assoc. split; [done|].
    constructor; [|done].
    unfold agent.newSourceProcessor in Hp.
    destruct (parser.New _ _); [|done]. cbn [mbind option_bind] in Hp.
    destruct (agent.newMetricProcessors _ _ _) as [[ms agg2]|]; [|done].
    cbn [mbind option_bind] in Hp. by inversion Hp; subst.
Qed.

Lemma New_fresh opts a :
  agent.New opts = Some a →
  agent.agent_cfg a = agent.Config opts ∧
  Forall2 fresh (config.Sources (agent.Config opts)) (agent.processors a).
Proof.
  unfold agent.New. intros Hnew.
  destruct (agent.newProcessors _ _ _) as [[ps agg]|] eqn:Hps; [|done].
  cbn [mbind option_bind] in Hnew. inversion Hnew; subst.
  cbn [agent.agent_cfg agent.processors]. split; [done|].
  by destruct (newProcessors_fresh _ _ _ _ _ Hps) as (new & -> & Hall).
Qed.

Lemma parsed_or_refused p ls :
  (length (parsedBy p ls) + length (refusedBy p ls))%nat = length ls.
Proof.
  unfold parsedBy, refusedBy. induction ls as [|l ls IH]; [done|].
  rewrite !filter_cons.
  destruct (parser.Parse (agent.parser p) l) as [d|].
  - rewrite (decide_True (P := is_Some (Some d))) by (by eexists).
    rewrite (decide_False (P := Some d = None)) by done.
    cbn [length]. lia.
  - rewrite (decide_False (P := is_Some None)) by (by intros [? ?]).
    destruct (decide _) as [_|?]; [|done]. cbn [length]. lia.
Qed.

Lemma ProcessLines_inRange lines : ∀ a,
  wf (agent.aggregator a) →
  agent.ProcessLines a (inRange (length (agent.processors a)) lines)
  = agent.ProcessLines a lines.
Proof.
  unfold inRange. induction lines as [|[j line] lines IH]; intros a Hwf; [done|].
  destruct (ProcessLine_step a j line Hwf)
    as (a1 & E1 & Hwf1 & _ & Hlen1 & _).
  destruct (decide (0 ≤ j < Z.of_nat (length (agent.processors a))))
    as [Hin|Hout].
  - rewrite filter_cons_True by done. cbn [agent.ProcessLines].
    rewrite E1. cbn [mbind option_bind]. rewrite <- Hlen1. by apply IH.
  - rewrite filter_cons_False by done. cbn [agent.ProcessLines].
    assert (Hsame : agent.ProcessLine a j line = Some a).
    { unfold agent.ProcessLine.
      destruct ((0 <=? j) && (j <? Z.of_nat (length (agent.processors a))))
        eqn:Hrange; [|done].
      apply andb_true_iff in Hrange as [H1 H2].
      apply Z.leb_le in H1. apply Z.ltb_lt in H2. lia. }
    rewrite Hsame. cbn [mbind option_bind]. by apply IH.
Qed.

(** X13: an agent made by [New] takes any lines for any source index
    without a panic; a line for an index that names no source changes
    nothing: without these lines the agent ends in the same state.
    Afterwards the processor of each source has counted, in
    64-bit arithmetic, the lines handed to that source: every one of them
    as parsed or as a parse error, and one match for each rule that a
    parsed line satisfies. *)
Theorem ProcessLines_accounting (opts : agent.Options) (a : agent.Agent)
    (lines : list (Z * string)) :
  agent.New opts = Some a →
  ∃ a',
    agent.ProcessLines a lines = Some a' ∧
    agent.agent_cfg a' = agent.Config opts ∧
    length (agent.processors a') = length (config.Sources (agent.Config opts)) ∧
    (∀ i src, config.Sources (agent.Config opts) !! i = Some src →
      ∃ p, agent.processors a' !! i = Some p ∧
        agent.source p = src ∧
        builtFrom src p ∧
        agent.linesParsed p
        = agent.int64 (Z.of_nat (length (parsedBy p (linesOf i lines)))) ∧
        agent.parseErrors p
        = agent.int64 (Z.of_nat (length (refusedBy p (linesOf i lines)))) ∧
        agent.linesMatched p
        = agent.int64 (Z.of_nat (sum_list (matchesOf p <$> linesOf i lines))) ∧
        (length (parsedBy p (linesOf i lines))
         + length (refusedBy p (linesOf i lines)))%nat
        = length (linesOf i lines)) ∧
    agent.ProcessLines a
      (inRange (length (config.Sources (agent.Config opts))) lines)
    = Some a'.
Proof.
  intros Hnew. destruct (New_spec opts a Hnew) as [Hb Hagg].
  destruct (New_fresh opts a Hnew) as [Hcfg Hfresh].
  assert (Hwf : wf (agent.aggregator a)).
  { rewrite Hagg. apply wf_registerAll, wf_New. }
  destruct (ProcessLines_steps lines a Hwf)
    as (a' & Hrun & _ & Hcfg' & Hlen & Hps & _).
  exists a'. split; [done|]. split; [congruence|].
  split; [by rewrite Hlen, (Forall2_length _ _ _ Hb)|].
  split.
  2: { rewrite (Forall2_length _ _ _ Hb), <- Hrun.
       by apply ProcessLines_inRange. }
  intros i src Hsrc.
  destruct (Forall2_lookup_l _ _ _ _ _ Hb Hsrc) as (p & Hp & [Hbp Hbm]).
  destruct (Forall2_lookup_l _ _ _ _ _ Hfresh Hsrc)
    as (p0 & Hp0 & Hs & Hz1 & Hz2 & Hz3).
  rewrite Hp in Hp0. injection Hp0 as <-.
  destruct (Hps i p Hp) as (p' & Hp' & Hs' & Hparser & Hmetrics & Hr & H1 & H2
                            & H3).
  exists p'. split; [done|]. split; [congruence|].
  split; [split; by rewrite ?Hparser, ?Hmetrics|].
  destruct Hr as (R1 & R2 & R3).
  { unfold ranged. rewrite Hz1, Hz2, Hz3. by vm_compute. }
  assert (Ep : parsedBy p' = parsedBy p)
    by (unfold parsedBy; by rewrite Hparser).
  assert (Er : refusedBy p' = refusedBy p)
    by (unfold refusedBy; by rewrite Hparser).
  assert (Em : matchesOf p' = matchesOf p)
    by (unfold matchesOf; by rewrite Hparser, Hmetrics).
  rewrite Ep, Er, Em. rewrite Hz1 in H1. rewrite Hz3 in H2. rewrite Hz2 in H3.
  rewrite Z.add_0_l in H1, H2, H3.
  split; [congruence|]. split; [congruence|]. split; [congruence|].
  apply parsed_or_refused.
Qed.

Lemma ProcessLines_accounting_witness :
  ∃ a a' p,
    agent.New (agent.mkOptions S1_config true 0) = Some a ∧
    agent.ProcessLines a (S1_lines ++ [(0, "not json"); (7, "{}")]) = Some a' ∧
    agent.processors a' !! 0%nat = Some p ∧
    agent.linesParsed p = 3 ∧
    agent.parseErrors p = 1.
Proof.
  assert (Hnew : ∃ a, agent.New (agent.mkOptions S1_config true 0) = Some a)
    by (eexists; reflexivity).
  destruct Hnew as [a Hnew]. exists a.
  destruct (ProcessLines_accounting (agent.mkOptions S1_config true 0) a
              (S1_lines ++ [(0, "not json"); (7, "{}")]) Hnew)
    as (a' & Hrun & _ & _ & Hps & _).
  destruct (Hps 0%nat _ eq_refl)
    as (p & Hp & _ & [Hparser _] & Hparsed & Herrors & _).
  exists a', p. split; [exact Hnew|]. split; [exact Hrun|].
  split; [exact Hp|].
  change (Some parser.NewJSONParser = Some (agent.parser p)) in Hparser.
  injection Hparser as Hparser.
  rewrite Hparsed, Herrors. unfold parsedBy, refusedBy. rewrite <- Hparser.
  split; vm_compute; reflexivity.
Defined.

(** ** What the rules of a source do to one number *)

Lemma rules_none name t data Ms mps : ∀ v,
  Forall2 ruleOf Ms mps →
  name ∉ config.Metric_Name <$> Ms →
  fold_left (λ v m, ruleUpdate name t data m v) mps v = v.
Proof.
  intros v Hall. revert v.
  induction Hall as [|M mp Ms mps [Hcfg _] _ IH]; intros v Hnotin; [done|].
  rewrite fmap_cons in Hnotin.
  apply not_elem_of_cons in Hnotin as [Hne Hnotin].
  cbn [fold_left]. rewrite IH by done. unfold ruleUpdate.
  rewrite bool_decide_eq_false_2; [done|].
  rewrite Hcfg. intros [E _]. by apply Hne.
Qed.

Lemma rules_one M data Ms mps : ∀ v,
  Forall2 ruleOf Ms mps →
  NoDup (config.Metric_Name <$> Ms) →
  M ∈ Ms →
  fold_left
    (λ v m, ruleUpdate (config.Metric_Name M) (config.Metric_Type M) data m v)
    mps v
  = match matcher.New (config.Metric_Match M) with
    | Some mt => if matcher.Match mt data then recordUpdate M data v else v
    | None => v
    end.
Proof.
  intros v Hall. revert v.
  induction Hall as [|M0 mp Ms mps [Hcfg Hmt] Hall IH]; intros v Hnd Hin.
  - by apply elem_of_nil in Hin.
  - rewrite fmap_cons in Hnd. apply NoDup_cons in Hnd as [Hnotin Hnd].
    cbn [fold_left]. apply elem_of_cons in Hin as [-> | Hin].
    + rewrite (rules_none _ _ _ Ms mps) by done.
      rewrite Hmt. unfold ruleUpdate. rewrite Hcfg.
      by rewrite bool_decide_eq_true_2 by done.
    + assert (E : ruleUpdate (config.Metric_Name M) (config.Metric_Type M)
                    data mp v = v).
      { unfold ruleUpdate. rewrite bool_decide_eq_false_2; [done|].
        rewrite Hcfg. intros [E _]. apply Hnotin. rewrite E.
        by apply list_elem_of_fmap_2. }
      rewrite E. by apply IH.
Qed.

(** With distinct names, a line given to the processor of source [j]
    changes the number of [M], metric of source [i], by its matched record
    when [j] is [i], and not otherwise. *)
Lemma lineUpdate_spec srcs i src M j srcj p line v :
  NoDup (config.Metric_Name <$> mjoin (config.Source_Metrics <$> srcs)) →
  srcs !! i = Some src →
  M ∈ config.Source_Metrics src →
  srcs !! j = Some srcj →
  builtFrom srcj p →
  lineUpdate (config.Metric_Name M) (config.Metric_Type M) p line v
  = match (if bool_decide (j = i) then matchedRecord src M line else None) with
    | Some d => recordUpdate M (Some d) v
    | None => v
    end.
Proof.
  intros Hnd Hi HM Hj [Hparser Hrules]. unfold lineUpdate.
  assert (Hi' : (config.Source_Metrics <$> srcs) !! i
                = Some (config.Source_Metrics src))
    by by rewrite list_lookup_fmap, Hi.
  assert (Hj' : (config.Source_Metrics <$> srcs) !! j
                = Some (config.Source_Metrics srcj))
    by by rewrite list_lookup_fmap, Hj.
  case_bool_decide as Hji.
  - subst j. rewrite Hi in Hj. inversion Hj; subst srcj.
    unfold matchedRecord. rewrite Hparser. cbn [mbind option_bind].
    pose proof (NoDup_concat_inner _ _ _ _ Hnd Hi') as Hnd'.
    destruct (parser.Parse (agent.parser p) line) as [d|].
    + rewrite (rules_one M (Some d) _ _ v Hrules Hnd' HM).
      destruct (matcher.New (config.Metric_Match M)) as [mt|]; [|done].
      cbn [mbind option_bind]. by destruct (matcher.Match mt (Some d)).
    + by destruct (matcher.New (config.Metric_Match M)).
  - destruct (parser.Parse (agent.parser p) line) as [d|]; [|done].
    apply (rules_none _ _ _ _ _ v Hrules).
    intros (M' & E & HM')%list_elem_of_fmap_1.
    by apply (NoDup_concat_outer _ _ _ _ _ _ _ _ Hnd Hi' Hj'
                (not_eq_sym Hji) HM HM').
Qed.

Lemma agentUpdate_fold srcs i src M ps lines : ∀ v,
  NoDup (config.Metric_Name <$> mjoin (config.Source_Metrics <$> srcs)) →
  srcs !! i = Some src →
  M ∈ config.Source_Metrics src →
  Forall2 builtFrom srcs ps →
  fold_left
    (λ v jl, agentUpdate (config.Metric_Name M) (config.Metric_Type M) ps jl v)
    lines v
  = fold_left (λ v d, recordUpdate M (Some d) v)
      (matchedRecords i src M lines) v.
Proof.
  intros v Hnd Hi HM Hb. revert v.
  induction lines as [|[j line] lines IH]; intros v; [done|].
  cbn [fold_left]. rewrite IH. unfold matchedRecords at 2.
  cbn [omap list_omap]. fold (matchedRecords i src M lines).
  assert (E : agentUpdate (config.Metric_Name M) (config.Metric_Type M) ps
                (j, line) v
              = match (if bool_decide (j = Z.of_nat i)
                       then matchedRecord src M line else None) with
                | Some d => recordUpdate M (Some d) v
                | None => v
                end).
  { unfold agentUpdate. cbn [fst snd].
    destruct (decide (0 ≤ j)) as [Hpos|Hneg].
    - rewrite (bool_decide_eq_true_2 _ Hpos).
      destruct (ps !! Z.to_nat j) as [p|] eqn:Hp.
      + destruct (Forall2_lookup_r _ _ _ _ _ Hb Hp) as (srcj & Hj & Hbj).
        rewrite (lineUpdate_spec srcs i src M (Z.to_nat j) srcj p line v)
          by done.
        replace (bool_decide (Z.to_nat j = i))
          with (bool_decide (j = Z.of_nat i)); [done|].
        apply bool_decide_ext. lia.
      + rewrite bool_decide_eq_false_2; [done|]. intros ->.
        apply lookup_ge_None in Hp. apply lookup_lt_Some in Hi.
        rewrite (Forall2_length _ _ _ Hb) in Hi. lia.
    - rewrite (bool_decide_eq_false_2 _ Hneg).
      rewrite bool_decide_eq_false_2; [done|]. lia. }
  rewrite E. case_bool_decide; [|done].
  by destruct (matchedRecord src M line).
Qed.

Lemma isNumCell_registerAll name t v ms : ∀ a,
  isNumCell a name t v → isNumCell (registerAll ms a) name t v.
Proof.
  induction ms as [|M ms IH]; intros a Hc; [done|].
  apply IH. destruct Hc as [s Hc]. exists s. unfold Register.
  destruct (metrics a !! config.Metric_Name M) eqn:E; [done|].
  cbn [metrics]. rewrite lookup_insert_ne; [done|].
  intros E'. rewrite E' in E. congruence.
Qed.

Lemma registerAll_numcell M ms : ∀ a,
  NoDup (config.Metric_Name <$> ms) →
  M ∈ ms →
  metrics a !! config.Metric_Name M = None →
  isNumCell (registerAll ms a) (config.Metric_Name M) (config.Metric_Type M) 0.
Proof.
  induction ms as [|M0 ms IH]; intros a Hnd Hin Hfresh.
  - by apply elem_of_nil in Hin.
  - rewrite fmap_cons in Hnd. apply NoDup_cons in Hnd as [Hnotin Hnd].
    apply elem_of_cons in Hin as [<- | Hin]; cbn [registerAll fold_left].
    + apply isNumCell_registerAll. unfold Register. rewrite Hfresh.
      eexists. cbn [metrics]. by rewrite lookup_insert_eq.
    + apply IH; try done.
      assert (Hne : config.Metric_Name M0 ≠ config.Metric_Name M).
      { intros E. apply Hnotin. rewrite E. by apply list_elem_of_fmap_2. }
      unfold Register. destruct (metrics a !! config.Metric_Name M0); [done|].
      cbn [metrics]. by rewrite lookup_insert_ne.
Qed.

Lemma Peek_num_cell a name t v :
  t = Counter ∨ t = Gauge ∨ t = Sum →
  isNumCell a name t v → Peek a !! name = Some (Float64 v).
Proof.
  intros Ht [s Hc]. unfold Peek. rewrite lookup_omap, Hc.
  cbn [mbind option_bind]. unfold peekEntry. cbn [mvType mvValue].
  by rewrite bool_decide_eq_true_2.
Qed.

Lemma fold_counter M ds : ∀ v,
  config.Metric_Type M = "counter" →
  fold_left (λ v d, recordUpdate M (Some d) v) ds v
  = Nat.iter (length ds) (λ v, (v + 1)%float) v.
Proof.
  intros v Ht. revert v. induction ds as [|d ds IH]; intros v; [done|].
  cbn [fold_left length]. rewrite IH, Nat.iter_succ_r. f_equal.
  unfold recordUpdate. by rewrite bool_decide_eq_true_2.
Qed.

Lemma fold_sum M ds : ∀ v,
  config.Metric_Type M = "sum" →
  fold_left (λ v d, recordUpdate M (Some d) v) ds v
  = fold_left (λ v x, (v + x)%float) (extracted M ds) v.
Proof.
  intros v Ht. revert v. induction ds as [|d ds IH]; intros v; [done|].
  cbn [fold_left]. rewrite IH. unfold extracted at 2. cbn [omap list_omap].
  fold (extracted M ds). unfold recordUpdate. rewrite Ht.
  rewrite (bool_decide_eq_false_2 ("sum" = "counter")) by done.
  rewrite (bool_decide_eq_false_2 ("sum" = "gauge")) by done.
  rewrite (bool_decide_eq_true_2 ("sum" = "sum")) by done.
  destruct (config.Metric_Extract M) as [ex|]; [|done].
  cbn [mbind option_bind].
  by destruct (parser.GetFieldFloat (Some d) (config.Extract_Field ex)).
Qed.

Lemma fold_gauge M ds : ∀ v,
  config.Metric_Type M = "gauge" →
  fold_left (λ v d, recordUpdate M (Some d) v) ds v
  = default v (last (extracted M ds)).
Proof.
  intros v Ht. revert v. induction ds as [|d ds IH]; intros v; [done|].
  cbn [fold_left]. rewrite IH. unfold extracted at 2. cbn [omap list_omap].
  fold (extracted M ds). unfold recordUpdate. rewrite Ht.
  rewrite (bool_decide_eq_false_2 ("gauge" = "counter")) by done.
  rewrite (bool_decide_eq_true_2 ("gauge" = "gauge")) by done.
  destruct (config.Metric_Extract M) as [ex|]; [|done].
  cbn [mbind option_bind].
  destruct (parser.GetFieldFloat (Some d) (config.Extract_Field ex)) as [x|];
    [|done].
  rewrite last_cons. by destruct (last (extracted M ds)).
Qed.

(** X14: for an agent made by [New] from metrics of distinct names, after
    any lines for any sources, a counter has been incremented once for each
    line of its source that parses and that it matches, a sum holds the
    numbers read by its extract in those lines, added in order, and a gauge
    the last such number, or zero when there is none. *)
Theorem numeric_metric_value (opts : agent.Options) (a : agent.Agent)
    (i : nat) (src : config.Source) (M : config.Metric)
    (lines : list (Z * string)) :
  agent.New opts = Some a →
  NoDup (config.Metric_Name <$> allMetrics (agent.Config opts)) →
  config.Sources (agent.Config opts) !! i = Some src →
  M ∈ config.Source_Metrics src →
  ∃ a',
    agent.ProcessLines a lines = Some a' ∧
    let read := Peek (agent.GetAggregator a') !! config.Metric_Name M in
    let ds := matchedRecords i src M lines in
    (config.Metric_Type M = "counter" →
     read = Some (Float64 (Nat.iter (length ds) (λ v, (v + 1)%float) 0%float)))
    ∧
    (config.Metric_Type M = "sum" →
     read = Some (Float64 (fold_left (λ v x, (v + x)%float) (extracted M ds)
                             0%float))) ∧
    (config.Metric_Type M = "gauge" →
     read = Some (Float64 (default 0%float (last (extracted M ds))))).
Proof.
  intros Hnew Hnames Hsrc HM.
  destruct (New_spec opts a Hnew) as [Hb Hagg].
  assert (Hwf : wf (agent.aggregator a)).
  { rewrite Hagg. apply wf_registerAll, wf_New. }
  assert (Hc : isNumCell (agent.aggregator a) (config.Metric_Name M)
                 (config.Metric_Type M) 0).
  { rewrite Hagg. apply registerAll_numcell; try done.
    unfold allMetrics. apply list_elem_of_join.
    exists (config.Source_Metrics src). split; [done|].
    apply list_elem_of_fmap_2. by apply (list_elem_of_lookup_2 _ i). }
  destruct (ProcessLines_steps lines a Hwf)
    as (a' & Hrun & _ & _ & _ & _ & Hcell).
  apply Hcell in Hc.
  rewrite (agentUpdate_fold _ i src M _ lines _ Hnames Hsrc HM Hb) in Hc.
  exists a'. split; [done|]. cbn zeta. unfold agent.GetAggregator.
  split; [|split]; intros Ht.
  - rewrite <- (fold_counter M _ _ Ht).
    refine (Peek_num_cell _ _ _ _ _ Hc). rewrite Ht. by left.
  - rewrite <- (fold_sum M _ _ Ht).
    refine (Peek_num_cell _ _ _ _ _ Hc). rewrite Ht. by right; right.
  - rewrite <- (fold_gauge M _ _ Ht).
    refine (Peek_num_cell _ _ _ _ _ Hc). rewrite Ht. by right; left.
Qed.

Lemma numeric_metric_value_witness :
  ∃ a a',
    agent.New (agent.mkOptions S1_config true 0) = Some a ∧
    agent.ProcessLines a S1_lines = Some a' ∧
    Peek (agent.GetAggregator a') !! "requests" = Some (Float64 2) ∧
    Peek (agent.GetAggregator a') !! "total_bytes" = Some (Float64 1299).
Proof.
  assert (Hnew : ∃ a, agent.New (agent.mkOptions S1_config true 0) = Some a)
    by (eexists; reflexivity).
  destruct Hnew as [a Hnew]. exists a.
  assert (Hnames : NoDup (config.Metric_Name
                          <$> allMetrics
                                (agent.Config
                                   (agent.mkOptions S1_config true 0)))).
  { vm_compute. apply NoDup_cons. split.
    - intros Hin. apply list_elem_of_singleton in Hin. discriminate Hin.
    - apply NoDup_singleton. }
  pose (src := config.mkSource "/var/log/test.log" "json" ""
       [config.mkMetric "requests" "counter"
          (Some (config.mkMatch "event" "request" [] "" "")) None;
        config.mkMetric "total_bytes" "sum" None
          (Some (config.mkExtract "bytes"))]).
  destruct (numeric_metric_value (agent.mkOptions S1_config true 0) a 0 src
              (config.mkMetric "requests" "counter"
                 (Some (config.mkMatch "event" "request" [] "" "")) None)
              S1_lines Hnew Hnames eq_refl)
    as (a1 & Hrun1 & Hcounter & _ & _).
  { apply list_elem_of_here. }
  destruct (numeric_metric_value (agent.mkOptions S1_config true 0) a 0 src
              (config.mkMetric "total_bytes" "sum" None
                 (Some (config.mkExtract "bytes")))
              S1_lines Hnew Hnames eq_refl)
    as (a2 & Hrun2 & _ & Hsum & _).
  { apply list_elem_of_further, list_elem_of_here. }
  rewrite Hrun1 in Hrun2. injection Hrun2 as <-.
  exists a1. split; [exact Hnew|]. split; [exact Hrun1|]. split.
  - etransitivity; [exact (Hcounter eq_refl)|]. vm_compute. reflexivity.
  - etransitivity; [exact (Hsum eq_refl)|]. vm_compute. reflexivity.
Defined.

(** ** A set metric under a name taken by another metric *)


End NumericProps.

(* ===================================================================== *)
(** * Properties of the reader: the cap and the read errors              *)
(* ===================================================================== *)

Module ReaderProps.
Import bytes value tailer TailerSpec TailerProps ReaderSpec.

Lemma unlines_app a b : unlines (a ++ b) = unlines a ++ unlines b.
Proof.
  induction a as [|x a IH]; [done|]. cbn [app unlines].
  by rewrite IH, <- app_assoc.
Qed.

(** Bytes within the limit and without a newline are gathered in the
    buffer, whatever the reader does next. *)
Lemma scanLoop_bytes line : ∀ buf r e,
  newline ∉ line →
  Z.of_nat (length buf + length line) ≤ maxLine →
  scanLoop (bytesReader line ++ r) buf e = scanLoop r (buf ++ line) e.
Proof.
  unfold maxLine.
  induction line as [|c line IH]; intros buf r e Hnl Hlen.
  - cbn [bytesReader fmap list_fmap app]. by rewrite app_nil_r.
  - apply not_elem_of_cons in Hnl as [Hc Hnl].
    cbn [bytesReader fmap list_fmap app scanLoop].
    rewrite bool_decide_eq_false_2 by congruence.
    rewrite bool_decide_eq_false_2
      by (rewrite length_app; cbn [length] in *; lia).
    fold (bytesReader line).
    rewrite IH; [|done|rewrite length_app; cbn [length] in *; lia].
    by rewrite <- app_assoc.
Qed.

(** Below the cap, or without one, the loop handles the lines that end
    in a newline, whatever the reader does after them. *)
Lemma processLoop_reader {H} (handler : string → H → H) limit r e lines :
  ∀ b l count h,
  limit ≤ 0 ∨ count + Z.of_nat (length lines) ≤ limit →
  Forall okLine lines →
  processLoop handler limit
    (mkLineScanner b (bytesReader (unlines lines) ++ r) l e) count h
  = processLoop handler limit (mkLineScanner [] r EmptyString e)
      (count + Z.of_nat (length lines)) (handled handler lines h).
Proof.
  induction lines as [|x lines IH]; intros b l count h Hcap Hok.
  - cbn [unlines app length]. rewrite Z.add_0_r. apply processLoop_fields.
  - apply Forall_cons in Hok as [[Hnl Hlen] Hok]. cbn [length] in Hcap.
    rewrite processLoop_unfold. unfold Scan. cbn [reader err unlines].
    rewrite bytesReader_app, <- app_assoc.
    rewrite scanLoop_bytes by (cbn [length]; first [done | lia]).
    cbn [bytesReader fmap list_fmap app scanLoop].
    rewrite (bool_decide_eq_true_2 (newline = newline)) by done.
    replace ((0 <? limit) && (limit <=? count)) with false by lia.
    fold (bytesReader (unlines lines)).
    rewrite IH by (done || lia). unfold Text.
    cbn [line app handled fold_left length]. f_equal. lia.
Qed.

Lemma processLoop_under {H} (handler : string → H → H) limit tail e lines :
  ∀ b l count h,
  limit ≤ 0 ∨ count + Z.of_nat (length lines) ≤ limit →
  Forall okLine lines →
  processLoop handler limit
    (mkLineScanner b (bytesReader (unlines lines ++ tail)) l e) count h
  = processLoop handler limit
      (mkLineScanner [] (bytesReader tail) EmptyString e)
      (count + Z.of_nat (length lines)) (handled handler lines h).
Proof.
  intros b l count h Hcap Hok. rewrite bytesReader_app.
  by apply processLoop_reader.
Qed.

(** At the cap the loop scans once more and stops, whatever it scanned. *)
Lemma processLoop_stop {H} (handler : string → H → H) limit s count h :
  0 < limit → limit ≤ count →
  processLoop handler limit s count h = (count, (Scan s).2, h).
Proof.
  intros Hpos Hcap. rewrite processLoop_unfold.
  destruct (Scan s) as [[] s']; [|done].
  replace (0 <? limit) with true by lia.
  by replace (limit <=? count) with true by lia.
Qed.

Lemma okLine_nil : okLine [].
Proof. split; [apply not_elem_of_nil|]. cbn. unfold maxLine. lia. Qed.

Lemma ProcessReader_capped {H} (handler : string → H → H) limit lines last h :
  0 < limit →
  Forall okLine lines →
  okLine last →
  ProcessReader (bytesReader (unlines lines ++ last)) handler limit h
  = (Z.min limit (Z.of_nat (length (linesWith lines last))), None,
     handled handler (take (Z.to_nat limit) (linesWith lines last)) h).
Proof.
  intros Hpos Hok [Hnl Hlen]. unfold ProcessReader, NewLineScanner, linesWith.
  destruct (decide (Z.of_nat (length lines) < limit)) as [Hlt|Hge].
  - rewrite processLoop_under by (done || lia).
    rewrite take_ge by (rewrite length_app; case_bool_decide; cbn; lia).
    rewrite processLoop_unfold. unfold Scan. cbn [reader err].
    rewrite scanLoop_last by (cbn [length]; first [done | lia]). cbn [app].
    destruct last as [|c last].
    + cbn. rewrite app_nil_r. f_equal. f_equal. lia.
    + rewrite bool_decide_eq_true_2 by (cbn [length]; lia).
      replace (limit <=? 0 + Z.of_nat (length lines)) with false by lia.
      rewrite andb_false_r.
      rewrite processLoop_unfold. unfold Scan, Text. cbn.
      unfold handled. rewrite fold_left_app. cbn. f_equal. f_equal.
      rewrite length_app. cbn [length]. lia.
  - assert (Hk : (Z.to_nat limit ≤ length lines)%nat) by lia.
    rewrite take_app_le by done.
    rewrite <- (take_drop (Z.to_nat limit) lines) at 1.
    rewrite unlines_app, <- app_assoc.
    rewrite processLoop_under.
    2: { right. rewrite length_take. lia. }
    2: { by apply Forall_take. }
    rewrite processLoop_stop by (rewrite ?length_take; lia).
    replace (Z.min limit (Z.of_nat (length (lines ++ _)))) with limit
      by (rewrite length_app; lia).
    replace (0 + Z.of_nat (length (take (Z.to_nat limit) lines))) with limit
      by (rewrite length_take; lia).
    assert (Herr : err (Scan (mkLineScanner []
                     (bytesReader (unlines (drop (Z.to_nat limit) lines)
                                   ++ last)) EmptyString None)).2 = None).
    { unfold Scan. cbn [reader err].
      destruct (drop (Z.to_nat limit) lines) as [|x post] eqn:Hdrop.
      - cbn [unlines app].
        rewrite scanLoop_last by (cbn [length]; first [done | lia]).
        by case_bool_decide.
      - assert (Hx : okLine x).
        { pose proof (Forall_drop _ (Z.to_nat limit) _ Hok) as Hd.
          rewrite Hdrop in Hd. by apply Forall_cons in Hd as [? _]. }
        destruct Hx as [Hxnl Hxlen]. cbn [unlines]. rewrite <- app_assoc.
        cbn [app]. by rewrite scanLoop_line by (cbn [length]; first [done | lia]). }
    unfold Err. by rewrite Herr.
Qed.


Lemma ProcessReader_uncapped {H} (handler : string → H → H) limit lines last
    h :
  limit ≤ 0 →
  Forall okLine lines →
  okLine last →
  ProcessReader (bytesReader (unlines lines ++ last)) handler limit h
  = (Z.of_nat (length (linesWith lines last)), None,
     handled handler (linesWith lines last) h).
Proof.
  intros Hlimit Hok Hlast. unfold ProcessReader, NewLineScanner, linesWith.
  rewrite processLoop_lines by done.
  destruct (processLoop_last handler limit None last
              (0 + Z.of_nat (length lines)) (handled handler lines h)
              Hlimit Hlast) as (s' & -> & Herr).
  unfold Err. rewrite Herr. unfold handled. rewrite fold_left_app.
  rewrite length_app. do 2 f_equal. case_bool_decide; cbn [length]; lia.
Qed.

(** X15: with a cap on the count, the handler gets the first lines of the
    stream up to the cap, in order, and the count is the number of lines
    handled. The scanner still reads the line after the last one handled:
    when that line is too long, the error is returned although the cap was
    reached. *)
Theorem ProcessReader_cap {H : Type} (handler : string → H → H)
    (limit : Z) (lines : list (list ascii)) (h : H) :
  0 < limit →
  Forall okLine lines →
  (∀ last, okLine last →
     ProcessReader (bytesReader (unlines lines ++ last)) handler limit h
     = (Z.min limit (Z.of_nat (length (linesWith lines last))), None,
        handled handler (take (Z.to_nat limit) (linesWith lines last)) h)) ∧
  (∀ bad rest, Z.of_nat (length lines) = limit →
     newline ∉ bad → maxLine < Z.of_nat (length bad) →
     ProcessReader (bytesReader (unlines lines ++ bad ++ rest)) handler limit h
     = (limit, Some (Wrap "reading: " tooLong), handled handler lines h)).
Proof.
  intros Hpos Hok. split.
  - intros last Hlast. by apply ProcessReader_capped.
  - intros bad rest Hn Hnl Hlen. unfold ProcessReader, NewLineScanner.
    rewrite processLoop_under by (done || lia).
    destruct (processLoop_long handler limit None bad rest
                (0 + Z.of_nat (length lines)) (handled handler lines h)
                Hnl Hlen) as (s' & -> & Herr).
    unfold Err. rewrite Herr. do 2 f_equal. lia.
Qed.

Lemma ProcessReader_cap_witness :
  ProcessReader
    (bytesReader (unlines [ofString "ab"; ofString "cd"; ofString "ef"]))
    collect 2 []
  = (2, None, ["ab"; "cd"]) ∧
  ProcessReader
    (bytesReader (unlines [ofString "ab"; ofString "cd"]
                  ++ longLine (maxLine + 1) ++ ofString "ef"))
    collect 2 []
  = (2, Some (Wrap "reading: " tooLong), ["ab"; "cd"]).
Proof.
  assert (Hline : ∀ s, s = "ab" ∨ s = "cd" ∨ s = "ef" → okLine (ofString s)).
  { intros s Hs. split.
    - intros Hin. destruct Hs as [->|[->| ->]];
        by repeat (apply elem_of_cons in Hin as [Hin | Hin];
          [discriminate Hin|]); apply elem_of_nil in Hin.
    - destruct Hs as [->|[->| ->]]; vm_compute; discriminate. }
  split.
  - assert (Hok : Forall okLine [ofString "ab"; ofString "cd"; ofString "ef"])
      by (repeat constructor; apply Hline; auto).
    destruct (ProcessReader_cap collect 2
                [ofString "ab"; ofString "cd"; ofString "ef"] []
                eq_refl Hok) as [Hcap _].
    specialize (Hcap [] okLine_nil). rewrite app_nil_r in Hcap. exact Hcap.
  - assert (Hok : Forall okLine [ofString "ab"; ofString "cd"])
      by (repeat constructor; apply Hline; auto).
    destruct (ProcessReader_cap collect 2 [ofString "ab"; ofString "cd"] []
                eq_refl Hok) as [_ Hbad].
    apply Hbad.
    + reflexivity.
    + intros Hin. unfold longLine in Hin.
      apply elem_of_replicate in Hin as [Hin _]. discriminate Hin.
    + unfold longLine. rewrite length_replicate. unfold maxLine. lia.
Defined.

(** X16: when a read fails with an error other than the end of the
    stream, with no byte or with a byte that is not a newline, the lines
    completed before it have been handled, the bytes of the line being read
    are dropped, and the error is returned wrapped; nothing after the
    failing read is read. When the read gives a newline together with the
    error, the line is complete and the error is lost: the reading goes on
    as if the read had not failed. *)
Theorem ProcessReader_read_error {H : Type} (handler : string → H → H)
    (limit : Z) (lines : list (list ascii)) (partial : list ascii)
    (e : error) (rest : Reader) (h : H) :
  limit ≤ 0 ∨ Z.of_nat (length lines) ≤ limit →
  Forall okLine lines →
  okLine partial →
  e ≠ EOF →
  (∀ b : option ascii,
     (∀ c, b = Some c → c ≠ newline ∧ Z.of_nat (length partial) < maxLine) →
     ProcessReader
       (bytesReader (unlines lines ++ partial) ++ (b, Some e) :: rest)
       handler limit h
     = (Z.of_nat (length lines), Some (Wrap "reading: " e),
        handled handler lines h)) ∧
  ProcessReader
    (bytesReader (unlines lines ++ partial) ++ (Some newline, Some e) :: rest)
    handler limit h
  = ProcessReader
      (bytesReader (unlines lines ++ partial) ++ (Some newline, None) :: rest)
      handler limit h.
Proof.
  intros Hcap Hok [Hnl Hlen] He. split.
  - intros b Hb. unfold ProcessReader, NewLineScanner.
    rewrite bytesReader_app, <- app_assoc.
    rewrite processLoop_reader by (done || lia).
    rewrite processLoop_unfold. unfold Scan. cbn [reader err].
    rewrite scanLoop_bytes by (cbn [length]; first [done | lia]).
    cbn [scanLoop app]. destruct b as [c|].
    + destruct (Hb c eq_refl) as [Hc Hroom].
      rewrite bool_decide_eq_false_2 by done.
      rewrite bool_decide_eq_false_2
        by (rewrite length_app; cbn [length]; unfold maxLine in Hroom; lia).
      destruct e; try done.
    + destruct e; try done.
  - unfold ProcessReader, NewLineScanner.
    rewrite !bytesReader_app, <- !app_assoc.
    rewrite !processLoop_reader by (done || lia).
    rewrite (processLoop_unfold _ _
               (mkLineScanner [] (bytesReader partial
                                  ++ (Some newline, Some e) :: rest) _ _)).
    rewrite (processLoop_unfold _ _
               (mkLineScanner [] (bytesReader partial
                                  ++ (Some newline, None) :: rest) _ _)).
    unfold Scan. cbn [reader err].
    rewrite !scanLoop_bytes by (cbn [length]; first [done | lia]).
    cbn [scanLoop app].
    by rewrite (bool_decide_eq_true_2 (newline = newline)) by done.
Qed.

Lemma ProcessReader_read_error_witness :
  ProcessReader
    (bytesReader (unlines [ofString "ab"] ++ ofString "cd")
     ++ [(None, Some (IOError "input/output error")); (Some "e"%char, None)])
    collect 0 []
  = (1, Some (Wrap "reading: " (IOError "input/output error")), ["ab"]).
Proof.
  destruct (ProcessReader_read_error collect 0 [ofString "ab"] (ofString "cd")
              (IOError "input/output error") [(Some "e"%char, None)] [])
    as [Hfail _].
  - by left.
  - repeat constructor; [|vm_compute; discriminate].
    intros Hin. by repeat (apply elem_of_cons in Hin as [Hin | Hin];
      [discriminate Hin|]); apply elem_of_nil in Hin.
  - split; [|vm_compute; discriminate].
    intros Hin. by repeat (apply elem_of_cons in Hin as [Hin | Hin];
      [discriminate Hin|]); apply elem_of_nil in Hin.
  - discriminate.
  - apply (Hfail None). intros c Hc. discriminate Hc.
Defined.

(** ** The lines after a line that is too long *)

(** The first line over 1 MiB ends the reading: a line within the limit
    that comes after it is not delivered, here [ef]. With a cap of one line
    the second line is not delivered either. *)
Lemma ProcessReader_ends_at_long_line :
  okLine (ofString "ef") ∧
  ProcessReader
    (bytesReader (unlines [ofString "ab"] ++ longLine (maxLine + 1)
                  ++ newline :: unlines [ofString "ef"]))
    collect 0 []
  = (1, Some (Wrap "reading: " tooLong), ["ab"]) ∧
  ProcessReader (bytesReader (unlines [ofString "ab"; ofString "ef"]))
    collect 1 []
  = (1, None, ["ab"]).
Proof.
  assert (Hab : okLine (ofString "ab")).
  { split; [|vm_compute; discriminate].
    intros Hin. by repeat (apply elem_of_cons in Hin as [Hin | Hin];
      [discriminate Hin|]); apply elem_of_nil in Hin. }
  assert (Hef : okLine (ofString "ef")).
  { split; [|vm_compute; discriminate].
    intros Hin. by repeat (apply elem_of_cons in Hin as [Hin | Hin];
      [discriminate Hin|]); apply elem_of_nil in Hin. }
  split; [exact Hef|]. split.
  - unfold ProcessReader, NewLineScanner.
    rewrite processLoop_lines
      by (first [lia | by apply Forall_cons_2; [|apply Forall_nil_2]]).
    destruct (processLoop_long collect 0 None (longLine (maxLine + 1))
                (newline :: unlines [ofString "ef"])
                (0 + Z.of_nat (length [ofString "ab"]))
                (handled collect [ofString "ab"] [])) as (s' & -> & Herr).
    + intros Hin. unfold longLine in Hin.
      apply elem_of_replicate in Hin as [Hin _]. discriminate Hin.
    + unfold longLine. rewrite length_replicate. unfold maxLine. lia.
    + unfold Err. by rewrite Herr.
  - pose proof (ProcessReader_capped collect 1 [ofString "ab"; ofString "ef"]
                  [] []) as Hcap.
    rewrite app_nil_r in Hcap. rewrite Hcap; [reflexivity|lia| |exact okLine_nil].
    by apply Forall_cons_2; [|apply Forall_cons_2; [|apply Forall_nil_2]].
Qed.

End ReaderProps.

(* ===================================================================== *)
(** * Properties of reading a file and of publishing                     *)
(* ===================================================================== *)

Module BatchProps.
Import bytes value aggregator AggregatorSpec PipelineSpec SetMetricProps
  TailerSpec TailerProps AggregatorCalls NumericSpec NumericProps ReaderSpec
  ReaderProps BatchSpec.

Lemma handled_panic ls :
  handled batch.lineHandler ls None = None.
Proof. induction ls as [|l ls IH]; [done|]. exact IH. Qed.

Lemma handled_as_ProcessLines cfg procs dry v ls : ∀ p g,
  ('(p', g') ← handled batch.lineHandler ls (Some (p, g));
   Some (agent.mkAgent cfg g' (p' :: procs) dry v))
  = agent.ProcessLines (agent.mkAgent cfg g (p :: procs) dry v)
      (forFirstSource ls).
Proof.
  induction ls as [|l ls IH]; intros p g; [done|].
  unfold forFirstSource. cbn [fmap list_fmap agent.ProcessLines].
  fold (forFirstSource ls).
  unfold handled. cbn [fold_left]. fold (handled batch.lineHandler ls).
  unfold agent.ProcessLine.
  cbn [agent.processors agent.aggregator agent.agent_cfg agent.dryRun
       agent.verbosity length].
  replace (0 <? Z.of_nat (S (length procs))) with true
    by (symmetry; apply Z.ltb_lt; lia).
  cbn [Z.leb Z.compare andb].
  change (Z.to_nat 0) with O. cbn [lookup list_lookup].
  unfold batch.lineHandler at 2. cbn [mbind option_bind].
  destruct (agent.processLine p (toString l) g) as [[p1 g1]|].
  - exact (IH p1 g1).
  - pose proof (handled_panic ls) as Hp. unfold handled in Hp.
    by rewrite Hp.
Qed.

(** X17: reading a file through the agent hands its lines, in order, to
    the first source, as [ProcessLine] with index 0 does, and counts them;
    an agent made by [New] comes out of it without a panic. Without any
    source, and when the file cannot be opened, nothing is processed and an
    error is returned. *)
Theorem ProcessFile_as_ProcessLines (opts : agent.Options) (a : agent.Agent)
    (lines : list (list ascii)) (last : list ascii) :
  agent.New opts = Some a →
  Forall okLine lines →
  okLine last →
  (agent.processors a = [] →
   ∀ file, batch.agent_ProcessFile a file
           = (0, Some (tailer.Errorf "no processors configured"), Some a)) ∧
  (agent.processors a ≠ [] →
   (∀ err, batch.agent_ProcessFile a (inl err)
           = (0, Some (tailer.Wrap "opening file: " err), Some a)) ∧
   ∃ a',
     agent.ProcessLines a (forFirstSource (linesWith lines last)) = Some a' ∧
     batch.agent_ProcessFile a
       (inr (tailer.bytesReader (unlines lines ++ last)))
     = (Z.of_nat (length (linesWith lines last)), None, Some a')).
Proof.
  intros Hnew Hok Hlast.
  destruct (New_spec opts a Hnew) as [_ Hagg].
  assert (Hwf : wf (agent.aggregator a)).
  { rewrite Hagg. apply wf_registerAll, wf_New. }
  destruct (ProcessLines_steps (forFirstSource (linesWith lines last)) a Hwf)
    as (a' & Hrun & _).
  clear Hnew Hagg Hwf. destruct a as [cfg agg procs dry v].
  unfold batch.agent_ProcessFile.
  cbn [agent.processors agent.aggregator agent.agent_cfg agent.dryRun
       agent.verbosity] in *.
  split; [by intros ->|]. intros Hne.
  destruct procs as [|proc procs]; [done|]. split; [done|].
  exists a'. split; [exact Hrun|].
  unfold batch.tailer_ProcessFile.
  rewrite (ProcessReader_uncapped batch.lineHandler 0 lines last
             (Some (proc, agg)) (Z.le_refl 0) Hok Hlast).
  rewrite handled_as_ProcessLines. by rewrite Hrun.
Qed.

Lemma ProcessFile_as_ProcessLines_witness :
  ∃ a a',
    agent.New (agent.mkOptions S1_config true 0) = Some a ∧
    batch.agent_ProcessFile a
      (inr (tailer.bytesReader
              (unlines [ofString (dq "{'event':'request','bytes':100}");
                        ofString (dq "{'event':'request','bytes':200}")]
               ++ ofString (dq "{'event':'other','bytes':999}"))))
    = (3, None, Some a') ∧
    batch.dumpMetrics a' !! "total_bytes" = Some (Float64 1299).
Proof.
  pose (l1 := ofString (dq "{'event':'request','bytes':100}")).
  pose (l2 := ofString (dq "{'event':'request','bytes':200}")).
  pose (l3 := ofString (dq "{'event':'other','bytes':999}")).
  assert (Hnew : ∃ a, agent.New (agent.mkOptions S1_config true 0) = Some a)
    by (eexists; reflexivity).
  destruct Hnew as [a Hnew]. exists a.
  assert (Hline : ∀ l, bool_decide (tailer.newline ∉ l) = true →
                       (Z.of_nat (length l) <=? maxLine) = true → okLine l).
  { intros l H1 H2. split; [|by apply Z.leb_le].
    exact (proj1 (bool_decide_eq_true _) H1). }
  assert (Hok : Forall okLine [l1; l2])
    by (repeat constructor; apply Hline; vm_compute; reflexivity).
  assert (Hlast : okLine l3) by (apply Hline; vm_compute; reflexivity).
  destruct (ProcessFile_as_ProcessLines (agent.mkOptions S1_config true 0) a
              [l1; l2] l3 Hnew Hok Hlast) as [_ Hsome].
  destruct Hsome as (_ & a' & Hrun & Hfile).
  { destruct (New_spec _ _ Hnew) as [Hb _]. intros E.
    apply Forall2_length in Hb. rewrite E in Hb. discriminate Hb. }
  exists a'. split; [exact Hnew|]. split; [exact Hfile|].
  assert (Hchain :
    (a ← agent.New (agent.mkOptions S1_config true 0);
     a' ← agent.ProcessLines a (forFirstSource (linesWith [l1; l2] l3));
     Some (batch.dumpMetrics a' !! "total_bytes"))
    = Some (Some (Float64 1299))) by (vm_compute; reflexivity).
  rewrite Hnew in Hchain. cbn [mbind option_bind] in Hchain.
  rewrite Hrun in Hchain. by injection Hchain.
Defined.

(** ** Publishing *)

(** X18: publishing takes the snapshot before anything is sent: the sender
    is handed what [Peek] showed, and whatever it answers, also an error,
    and also without a sender or in a dry run, the counters, sums and sets
    start again from zero; only the gauges keep their value. *)
Theorem sendSnapshot_clears_in_any_case (a : agent.Agent)
    (send : option (gmap string Any → option tailer.error)) :
  agent.aggregator (batch.sendSnapshot a send).2
  = (Snapshot (agent.aggregator a)).2 ∧
  (∀ send', (batch.sendSnapshot a send').2 = (batch.sendSnapshot a send).2) ∧
  (∀ f, agent.dryRun a = false →
        (batch.sendSnapshot a (Some f)).1 = f (Peek (agent.aggregator a))) ∧
  (agent.dryRun a = true ∨ send = None → (batch.sendSnapshot a send).1 = None) ∧
  (∀ name m, metrics (agent.aggregator a) !! name = Some m →
     batch.dumpMetrics (batch.sendSnapshot a send).2 !! name
     = if bool_decide (mvType m = Gauge) then Some (Float64 (mvValue m))
       else zeroOf (mvType m)).
Proof.
  assert (Hstate : ∀ s, (batch.sendSnapshot a s).2
    = agent.mkAgent (agent.agent_cfg a) (Snapshot (agent.aggregator a)).2
        (agent.processors a) (agent.dryRun a) (agent.verbosity a)).
  { intros s. unfold batch.sendSnapshot.
    destruct (Snapshot (agent.aggregator a)) as [ms agg].
    cbn [agent.dryRun]. destruct (agent.dryRun a); [done|]. by destruct s. }
  split; [by rewrite Hstate|]. split; [intros s; by rewrite !Hstate|].
  split; [|split].
  - intros f Hdry. unfold batch.sendSnapshot.
    rewrite <- AggregatorProps.Snapshot_result.
    destruct (Snapshot (agent.aggregator a)) as [ms agg].
    cbn [agent.dryRun]. by rewrite Hdry.
  - intros Hnone. unfold batch.sendSnapshot.
    destruct (Snapshot (agent.aggregator a)) as [ms agg].
    cbn [agent.dryRun]. destruct (agent.dryRun a); [done|].
    by destruct Hnone as [?| ->].
  - intros name m Hm. rewrite Hstate. unfold batch.dumpMetrics.
    cbn [agent.aggregator].
    rewrite AggregatorProps.Peek_lookup, AggregatorProps.Snapshot_state_lookup.
    rewrite Hm. cbn [fmap option_fmap option_map mbind option_bind].
    unfold snapshotEntry, zeroOf, peekEntry.
    repeat case_bool_decide; cbn [snd mvType mvValue mvSet len] in *;
      try done; repeat case_bool_decide; try done;
      try (unfold Counter, Gauge, Sum, Set_ in *; congruence);
      try naive_solver.
Qed.

End BatchProps.

(* ===================================================================== *)
(** * Properties of the instance identifier                              *)
(* ===================================================================== *)

Module IdentityProps.
Import bytes value IdentitySpec.

Lemma code_range b : 0 ≤ code b < 256.
Proof.
  unfold code. pose proof (N_ascii_bounded b) as Hb. lia.
Qed.

Lemma digitChar_hex d : 0 ≤ d < 16 → isHexDigit (strconv.digitChar d).
Proof.
  intros Hd.
  assert (Hcases : d = 0 ∨ d = 1 ∨ d = 2 ∨ d = 3 ∨ d = 4 ∨ d = 5 ∨ d = 6 ∨
                   d = 7 ∨ d = 8 ∨ d = 9 ∨ d = 10 ∨ d = 11 ∨ d = 12 ∨
                   d = 13 ∨ d = 14 ∨ d = 15) by lia.
  unfold isHexDigit.
  repeat (destruct Hcases as [->|Hcases];
          [apply (proj1 (bool_decide_eq_true _)); vm_compute; reflexivity|]).
  subst d. apply (proj1 (bool_decide_eq_true _)). vm_compute. reflexivity.
Qed.

Lemma hex_group bs : hexGroup (2 * length bs) (identity.hex bs).
Proof.
  unfold hexGroup. induction bs as [|b bs [IHlen IHhex]]; [by split|].
  change (identity.hex (b :: bs))
    with (String (strconv.digitChar (code b / 16))
            (String (strconv.digitChar (code b mod 16)) (identity.hex bs))).
  cbn [length]. pose proof (code_range b) as Hb. split.
  - cbn [String.length]. rewrite IHlen. lia.
  - cbn [ofString String.list_ascii_of_string]. unfold ofString in IHhex.
    apply Forall_cons. split.
    { apply digitChar_hex.
      split; [apply Z.div_pos; lia|apply Z.div_lt_upper_bound; lia]. }
    apply Forall_cons. split; [|done].
    apply digitChar_hex. apply Z.mod_pos_bound. lia.
Qed.

Lemma version_nibble b :
  strconv.digitChar (code (chr (Z.lor (Z.land (code b) 15) 64)) / 16)
  = "4"%char.
Proof. destruct b as [[] [] [] [] [] [] [] []]; vm_compute; reflexivity. Qed.

Lemma variant_nibble b :
  strconv.digitChar (code (chr (Z.lor (Z.land (code b) 63) 128)) / 16)
  ∈ ofString "89ab".
Proof.
  apply (proj1 (bool_decide_eq_true _)).
  destruct b as [[] [] [] [] [] [] [] []]; vm_compute; reflexivity.
Qed.

(** X19: from any sixteen random bytes, [generateUUID] makes a version 4
    identifier in the usual writing: five groups of 8, 4, 4, 4 and 12
    lower-case hexadecimal digits joined by hyphens, the third group
    starting with 4 and the fourth with 8, 9, a or b. It fails only when
    the random source does. *)
Theorem generateUUID_is_version_4 (random : list ascii) :
  length random = 16%nat →
  ∃ g1 g2 g3 g4 g5 : string,
    identity.generateUUID (Some random)
    = Some (g1 +:+ "-" +:+ g2 +:+ "-" +:+ g3 +:+ "-" +:+ g4 +:+ "-" +:+ g5) ∧
    hexGroup 8 g1 ∧ hexGroup 4 g2 ∧ hexGroup 4 g3 ∧ hexGroup 4 g4 ∧
    hexGroup 12 g5 ∧
    String.get 0 g3 = Some "4"%char ∧
    (∃ c, String.get 0 g4 = Some c ∧ c ∈ ofString "89ab").
Proof.
  intros Hlen.
  do 16 (destruct random as [|? random]; [discriminate Hlen|]).
  destruct random; [|discriminate Hlen]. clear Hlen.
  unfold identity.generateUUID.
  cbn [identity.at_ lookup list_lookup default insert list_insert
       identity.slice Nat.sub take drop].
  eexists _, _, _, _, _. split; [reflexivity|].
  split; [apply (hex_group [_; _; _; _])|].
  split; [apply (hex_group [_; _])|].
  split; [apply (hex_group [_; _])|].
  split; [apply (hex_group [_; _])|].
  split; [apply (hex_group [_; _; _; _; _; _])|].
  split.
  - lazymatch goal with
    | |- String.get 0 (identity.hex (?x :: _)) = _ =>
        change (Some (strconv.digitChar (code x / 16)) = Some "4"%char)
    end.
    f_equal. apply version_nibble.
  - lazymatch goal with
    | |- ∃ c, String.get 0 (identity.hex (?x :: _)) = _ ∧ _ =>
        exists (strconv.digitChar (code x / 16))
    end.
    split; [reflexivity|apply variant_nibble].
Qed.

Lemma generateUUID_is_version_4_witness :
  identity.generateUUID
    (Some (chr <$> [0; 17; 34; 51; 68; 85; 102; 119; 136; 153; 170; 187;
                    204; 221; 238; 255]))
  = Some "00112233-4455-4677-8899-aabbccddeeff" ∧
  ∃ g1 g2 g3 g4 g5 : string,
    identity.generateUUID
      (Some (chr <$> [0; 17; 34; 51; 68; 85; 102; 119; 136; 153; 170; 187;
                      204; 221; 238; 255]))
    = Some (g1 +:+ "-" +:+ g2 +:+ "-" +:+ g3 +:+ "-" +:+ g4 +:+ "-" +:+ g5) ∧
    hexGroup 8 g1 ∧ hexGroup 4 g2 ∧ hexGroup 4 g3 ∧ hexGroup 4 g4 ∧
    hexGroup 12 g5 ∧
    String.get 0 g3 = Some "4"%char ∧
    (∃ c, String.get 0 g4 = Some c ∧ c ∈ ofString "89ab").
Proof.
  split; [vm_compute; reflexivity|].
  apply (generateUUID_is_version_4
           (chr <$> [0; 17; 34; 51; 68; 85; 102; 119; 136; 153; 170; 187;
                     204; 221; 238; 255])).
  reflexivity.
Defined.

End IdentityProps.

(* ===================================================================== *)
(** * Properties of the exchanges with the server                        *)
(* ===================================================================== *)

Module ExchangeProps.
Import bytes value tailer sender ExchangeSpec.

Section exchanges.
Context (NewRequest : string → option error)
        (Do : list Request → Request → Outcome)
        (Marshal : gmap string aggregator.Any → error + string).

Lemma activate_sender s sent :
  (activate NewRequest Do s sent).1.2 = s.
Proof.
  unfold activate. destruct (NewRequest _); [done|].
  destruct (Do _ _); [done|]. by case_bool_decide.
Qed.

Lemma Register_registered s sent :
  registered s = true → Register NewRequest Do s sent = (None, s, sent).
Proof. intros Hr. unfold Register. by rewrite Hr. Qed.

(** What [SendSnapshot] does once the sender is registered. *)
Lemma SendSnapshot_registered s metrics sent :
  registered s = true →
  SendSnapshot NewRequest Do Marshal s metrics sent
  = match Marshal metrics with
    | inl err => (Some (Wrap "marshaling metrics: " err), s, sent)
    | inr _ =>
        match NewRequest (serverURL s +:+ "/v1/snapshot") with
        | Some err => (Some (Wrap "creating snapshot request: " err), s, sent)
        | None =>
            match Do sent (publication s) with
            | Fails err =>
                (Some (Wrap "sending snapshot request: " err), s,
                 sent ++ [publication s])
            | Status code body =>
                if bool_decide (code ≠ 200) && bool_decide (code ≠ 202) then
                  (Some (Errorf ("snapshot failed with status "
                                 +:+ strconv.Itoa code +:+ ": " +:+ body)),
                   s, sent ++ [publication s])
                else (None, s, sent ++ [publication s])
            end
        end
    end.
Proof. intros Hr. unfold SendSnapshot. by rewrite Hr. Qed.

Lemma SendSnapshot_registered_requests s metrics sent :
  registered s = true →
  ∃ e,
    SendSnapshot NewRequest Do Marshal s metrics sent = (e, s, sent) ∨
    SendSnapshot NewRequest Do Marshal s metrics sent
    = (e, s, sent ++ [publication s]).
Proof.
  intros Hr. rewrite (SendSnapshot_registered s metrics sent Hr).
  destruct (Marshal metrics); [by eexists; left|].
  destruct (NewRequest _); [by eexists; left|].
  destruct (Do _ _); [by eexists; right|].
  destruct (_ && _); by eexists; right.
Qed.

(** The outcomes of [Register] for a sender that is not registered. *)
Lemma Register_outcomes s sent :
  registered s = false →
  let s' := mkSender (serverURL s) true in
  (∃ e, Register NewRequest Do s sent = (Some e, s, sent)) ∨
  (∃ e, Register NewRequest Do s sent = (Some e, s, sent ++ [registration s])) ∨
  (∃ e, Register NewRequest Do s sent = (Some e, s', sent ++ [registration s])) ∨
  (∃ e, Register NewRequest Do s sent
        = (Some e, s', sent ++ [registration s; activation s])) ∨
  Register NewRequest Do s sent
  = (None, s', sent ++ [registration s; activation s]).
Proof.
  intros Hreg. cbn zeta. unfold Register. rewrite Hreg.
  fold (registration s).
  destruct (NewRequest (serverURL s +:+ "/v1/register"));
    [left; by eexists|].
  destruct (Do sent (registration s)) as [err|code body];
    [right; left; by eexists|].
  destruct (bool_decide (code ≠ 200) && bool_decide (code ≠ 201));
    [right; left; by eexists|].
  unfold activate. cbn [serverURL]. fold (activation s).
  destruct (NewRequest (serverURL s +:+ "/v1/activate"));
    [right; right; left; by eexists|].
  rewrite <- app_assoc. cbn [app].
  destruct (Do (sent ++ [registration s]) (activation s)) as [err|code' body'];
    [right; right; right; left; by eexists|].
  case_bool_decide; [right; right; right; left; by eexists|].
  by right; right; right; right.
Qed.

Lemma SendSnapshot_unregistered s metrics sent :
  registered s = false →
  SendSnapshot NewRequest Do Marshal s metrics sent
  = match Register NewRequest Do s sent with
    | (Some err, s1, sent1) => (Some (Wrap "registering: " err), s1, sent1)
    | (None, s1, sent1) =>
        SendSnapshot NewRequest Do Marshal (mkSender (serverURL s) true)
          metrics sent1
    end.
Proof.
  intros Hreg. cbn zeta. unfold SendSnapshot at 1. rewrite Hreg. cbn [negb].
  destruct (Register_outcomes s sent Hreg)
    as [[e ->]|[[e ->]|[[e ->]|[[e ->]| ->]]]]; try done.
Qed.

End exchanges.

(** X20: the sender counts as registered as soon as the server has taken
    the registration with 200 or 201, before the activation is tried. When
    the activation then fails, [Register] returns the error, and from then
    on neither [Register] nor [SendSnapshot] sends an activation again:
    [Register] does nothing, [SendSnapshot] posts at most the snapshot. *)
Theorem activation_is_not_retried
    (NewRequest : string → option error)
    (Do : list Request → Request → Outcome)
    (Marshal : gmap string aggregator.Any → error + string)
    (s : Sender) (sent : list Request) (code : Z) (body : string) :
  registered s = false →
  NewRequest (serverURL s +:+ "/v1/register") = None →
  Do sent (registration s) = Status code body →
  code = 200 ∨ code = 201 →
  ∃ e s',
    Register NewRequest Do s sent
    = (e, s', match NewRequest (serverURL s +:+ "/v1/activate") with
              | Some _ => sent ++ [registration s]
              | None => sent ++ [registration s; activation s]
              end) ∧
    registered s' = true ∧ serverURL s' = serverURL s ∧
    (e = None ↔
     NewRequest (serverURL s +:+ "/v1/activate") = None ∧
     ∃ body', Do (sent ++ [registration s]) (activation s) = Status 200 body') ∧
    (∀ NewRequest' Do' sent',
       Register NewRequest' Do' s' sent' = (None, s', sent')) ∧
    (∀ NewRequest' Do' Marshal' metrics sent',
       ∃ e',
         SendSnapshot NewRequest' Do' Marshal' s' metrics sent' = (e', s', sent')
         ∨ SendSnapshot NewRequest' Do' Marshal' s' metrics sent'
           = (e', s', sent' ++ [publication s])).
Proof.
  intros Hreg Hnew Hdo Hcode.
  pose (s' := mkSender (serverURL s) true).
  assert (Hstep : Register NewRequest Do s sent
                  = activate NewRequest Do s' (sent ++ [registration s])).
  { unfold Register. rewrite Hreg, Hnew. fold (registration s). rewrite Hdo.
    destruct Hcode as [-> | ->]; reflexivity. }
  assert (Hlater : ∀ NewRequest' Do' Marshal' metrics sent',
    ∃ e',
      SendSnapshot NewRequest' Do' Marshal' s' metrics sent' = (e', s', sent')
      ∨ SendSnapshot NewRequest' Do' Marshal' s' metrics sent'
        = (e', s', sent' ++ [publication s])).
  { intros NewRequest' Do' Marshal' metrics sent'.
    apply (SendSnapshot_registered_requests _ _ _ s'). reflexivity. }
  rewrite Hstep. unfold activate. cbn [serverURL s'].
  fold (activation s). fold s'.
  destruct (NewRequest (serverURL s +:+ "/v1/activate")) as [err|] eqn:Hact.
  { eexists _, s'. split; [reflexivity|]. split; [done|]. split; [done|].
    split; [|split; [by intros; apply Register_registered|exact Hlater]].
    split; [done|]. by intros [? _]. }
  rewrite <- app_assoc. cbn [app].
  destruct (Do (sent ++ [registration s]) (activation s))
    as [err|code' body'] eqn:Hdo'.
  { eexists _, s'. split; [reflexivity|]. split; [done|]. split; [done|].
    split; [|split; [by intros; apply Register_registered|exact Hlater]].
    split; [done|]. by intros [_ [? ?]]. }
  case_bool_decide as Hc.
  - eexists _, s'. split; [reflexivity|]. split; [done|]. split; [done|].
    split; [|split; [by intros; apply Register_registered|exact Hlater]].
    split; [done|]. intros [_ [b' Hb']]. congruence.
  - eexists _, s'. split; [reflexivity|]. split; [done|]. split; [done|].
    split; [|split; [by intros; apply Register_registered|exact Hlater]].
    split; [|done]. intros _. split; [done|]. exists body'.
    f_equal. by destruct (decide (code' = 200)).
Qed.

Lemma activation_is_not_retried_witness :
  ∃ e s',
    Register (λ _, None) refusing (New "https://shm.example.com") []
    = (Some e, s',
       [registration (New "https://shm.example.com");
        activation (New "https://shm.example.com")]) ∧
    registered s' = true ∧
    Register (λ _, None) refusing s' [] = (None, s', []).
Proof.
  destruct (activation_is_not_retried (λ _, None) refusing (λ _, inr EmptyString)
              (New "https://shm.example.com") [] 201 EmptyString)
    as (e & s' & Hreg & Hflag & _ & Hnil & Hlater & _);
    [reflexivity|reflexivity|reflexivity|by right|].
  destruct e as [e|].
  - exists e, s'. split; [exact Hreg|]. split; [exact Hflag|]. apply Hlater.
  - destruct (proj1 Hnil eq_refl) as [_ [body' Hbody]]. discriminate Hbody.
Defined.

Lemma succeeds_two code body a b :
  succeeds (Status code body) [a; b]
  = negb (bool_decide (code ≠ a) && bool_decide (code ≠ b)).
Proof.
  cbn [succeeds].
  destruct (decide (code = a)) as [->|Ha].
  { rewrite (bool_decide_eq_false_2 (a ≠ a)) by (by intros ?).
    apply bool_decide_eq_true_2. by left. }
  rewrite (bool_decide_eq_true_2 (code ≠ a)) by done.
  destruct (decide (code = b)) as [->|Hb].
  { rewrite (bool_decide_eq_false_2 (b ≠ b)) by (by intros ?).
    apply bool_decide_eq_true_2. by right; left. }
  rewrite (bool_decide_eq_true_2 (code ≠ b)) by done.
  apply bool_decide_eq_false_2.
  intros Hin. apply elem_of_cons in Hin as [?|Hin]; [done|].
  apply elem_of_cons in Hin as [?|Hin]; [done|]. by apply elem_of_nil in Hin.
Qed.

Lemma succeeds_one code body a :
  succeeds (Status code body) [a] = negb (bool_decide (code ≠ a)).
Proof.
  cbn [succeeds].
  destruct (decide (code = a)) as [->|Ha].
  { rewrite (bool_decide_eq_false_2 (a ≠ a)) by (by intros ?).
    apply bool_decide_eq_true_2. by left. }
  rewrite (bool_decide_eq_true_2 (code ≠ a)) by done.
  apply bool_decide_eq_false_2.
  intros Hin. apply elem_of_cons in Hin as [?|Hin]; [done|].
  by apply elem_of_nil in Hin.
Qed.

(** A registered sender carries out the one step of publishing. *)
Lemma SendSnapshot_publishing
    (NewRequest : string → option error)
    (Do : list Request → Request → Outcome)
    (Marshal : gmap string aggregator.Any → error + string)
    (s : Sender) (metrics : gmap string aggregator.Any)
    (sent : list Request) :
  registered s = true →
  let r := SendSnapshot NewRequest Do Marshal s metrics sent in
  let c := carry Do [publishing NewRequest Marshal s metrics] sent in
  (r.1.1 = None ↔ c.1 = true) ∧ r.2 = c.2 ∧ r.1.2 = s.
Proof.
  intros Hr. cbn zeta.
  rewrite (SendSnapshot_registered _ _ _ s metrics sent Hr).
  cbn [carry publishing ready request accepted].
  unfold marshals, created. cbn [publication URL].
  destruct (Marshal metrics) as [err|body]; [done|]. cbn [andb].
  destruct (NewRequest _); [done|].
  fold (publication s).
  destruct (Do sent (publication s)) as [err|code body']; [done|].
  rewrite succeeds_two.
  by destruct (bool_decide (code ≠ 200) && bool_decide (code ≠ 202)).
Qed.

(** X21: [SendSnapshot] carries out its plan step by step and stops at the
    first step that fails. The plan is the snapshot alone when the sender is
    registered, and the registration, the activation and the snapshot when
    it is not. A step whose request cannot be made (for the snapshot, also
    when the metrics do not marshal) ends the exchange with nothing posted
    for it; a step that is posted ends it unless the server answers 200 or
    201 to the registration, 200 to the activation, 200 or 202 to the
    snapshot. The requests made are exactly those of the plan up to that
    point, [SendSnapshot] returns nil exactly when every step succeeded, the
    sender keeps its URL, and it is registered afterwards exactly when it was
    before or the registration succeeded. An error of the registration or of
    the activation comes back wrapped by [registering: ]. *)
Theorem SendSnapshot_exchange
    (NewRequest : string → option error)
    (Do : list Request → Request → Outcome)
    (Marshal : gmap string aggregator.Any → error + string)
    (s : Sender) (metrics : gmap string aggregator.Any)
    (sent : list Request) :
  let r := SendSnapshot NewRequest Do Marshal s metrics sent in
  let c := carry Do (plan NewRequest Marshal s metrics) sent in
  (r.1.1 = None ↔ c.1 = true) ∧
  r.2 = c.2 ∧
  serverURL r.1.2 = serverURL s ∧
  registered r.1.2
  = registered s
    || created NewRequest (registration s)
       && succeeds (Do sent (registration s)) [200; 201] ∧
  (registered s = false →
   (carry Do (enrolment NewRequest s) sent).1 = false →
   ∃ err, r.1.1 = Some (Wrap "registering: " err)).
Proof.
  cbn zeta. unfold plan.
  destruct (registered s) eqn:Hreg.
  { destruct (SendSnapshot_publishing NewRequest Do Marshal s metrics sent Hreg)
      as (Hnil & Hsent & Hs).
    cbn zeta in Hnil, Hsent, Hs. cbn [app orb].
    rewrite Hs. by rewrite Hreg. }
  rewrite (SendSnapshot_unregistered _ _ _ s metrics sent Hreg).
  unfold Register, enrolment, created. rewrite Hreg.
  cbn [orb app carry ready request accepted].
  change (URL (registration s)) with (serverURL s +:+ "/v1/register").
  change (URL (activation s)) with (serverURL s +:+ "/v1/activate").
  change (mkRequest (serverURL s +:+ "/v1/register") false)
    with (registration s).
  destruct (NewRequest (serverURL s +:+ "/v1/register")) as [err|].
  { cbn. split; [done|]. split; [done|]. split; [done|]. split; [done|].
    intros _ _. by eexists. }
  destruct (Do sent (registration s)) as [err|code body].
  { cbn. split; [done|]. split; [done|]. split; [done|]. split; [done|].
    intros _ _. by eexists. }
  rewrite succeeds_two.
  destruct (bool_decide (code ≠ 200) && bool_decide (code ≠ 201)).
  { cbn. split; [done|]. split; [done|]. split; [done|]. split; [done|].
    intros _ _. by eexists. }
  cbn [negb andb]. unfold activate. cbn [serverURL].
  change (mkRequest (serverURL s +:+ "/v1/activate") true)
    with (activation s).
  destruct (NewRequest (serverURL s +:+ "/v1/activate")) as [err|].
  { cbn. split; [done|]. split; [done|]. split; [done|]. split; [done|].
    intros _ _. by eexists. }
  destruct (Do (sent ++ [registration s]) (activation s))
    as [err|code' body'].
  { cbn. split; [done|]. split; [done|]. split; [done|]. split; [done|].
    intros _ _. by eexists. }
  rewrite succeeds_one.
  destruct (bool_decide (code' ≠ 200)).
  { cbn. split; [done|]. split; [done|]. split; [done|]. split; [done|].
    intros _ _. by eexists. }
  cbn [negb].
  pose (s' := mkSender (serverURL s) true).
  destruct (SendSnapshot_publishing NewRequest Do Marshal s' metrics
              ((sent ++ [registration s]) ++ [activation s]) eq_refl)
    as (Hnil & Hsent & Hs).
  cbn zeta in Hnil, Hsent, Hs. fold s'.
  change (publishing NewRequest Marshal s' metrics)
    with (publishing NewRequest Marshal s metrics) in *.
  split; [exact Hnil|]. split; [exact Hsent|].
  rewrite Hs.
  split; [done|]. split; [done|]. by intros _ ?.
Qed.

End ExchangeProps.
